(** * Hua Rong Dao solver: a shallow embedding of [solution.py]

    The development follows the Python source function by function.
    Python integers are [Z]; single-character strings stored in the grid
    are [ascii]; Python lists are [list] with Python's indexing rules
    (negative indices wrap around, anything else out of range raises
    [IndexError]); the [visited] set of integers is a [gset Z]; code that
    can raise lives in the [result] monad; the two [while] loops are run
    with fuel and their termination is proved separately.  Printing
    has no influence on any returned value and is left out of the
    searches; what [display] prints, and the contents of the input and
    output files, are strings. *)

From Stdlib Require Import ZArith List String Ascii Lia Permutation.
From Stdlib Require Import DecimalString DecimalZ.
From stdpp Require Import base gmap sets list strings.
Import ListNotations.
Local Open Scope Z_scope.

(** ** Python layer: exceptions, list indexing, [str] of a list *)

Inductive exn : Type :=
| IndexError
| AttributeError.

Inductive result (A : Type) : Type :=
| Ok (a : A)
| Raise (e : exn).
Arguments Ok {A} a.
Arguments Raise {A} e.

Definition bind {A B : Type} (m : result A) (k : A -> result B) : result B :=
  match m with
  | Ok a => k a
  | Raise e => Raise e
  end.

Notation "x <- m ;; k" := (bind m (fun x => k))
  (at level 100, m at next level, right associativity).

(** [for a in l: acc = body(acc, a)] where the body may raise. *)
Fixpoint foldM {A B : Type} (body : B -> A -> result B) (l : list A) (acc : B)
  : result B :=
  match l with
  | [] => Ok acc
  | a :: l' => acc' <- body acc a ;; foldM body l' acc'
  end.

(** Python's index normalisation for a sequence of length [len]. *)
Definition py_index (len : nat) (i : Z) : result nat :=
  if (0 <=? i) && (i <? Z.of_nat len) then Ok (Z.to_nat i)
  else if (- Z.of_nat len <=? i) && (i <? 0) then Ok (Z.to_nat (Z.of_nat len + i))
  else Raise IndexError.

(** [l[i]] *)
Definition py_get {A : Type} (l : list A) (i : Z) : result A :=
  n <- py_index (length l) i ;;
  match l !! n with
  | Some a => Ok a
  | None => Raise IndexError
  end.

(** [l[i] = v] *)
Definition py_set {A : Type} (l : list A) (i : Z) (v : A) : result (list A) :=
  n <- py_index (length l) i ;;
  Ok (<[n := v]> l).

(** [sep.join(l)] *)
Fixpoint py_join (sep : string) (l : list string) : string :=
  match l with
  | [] => EmptyString
  | [s] => s
  | s :: l' => String.append s (String.append sep (py_join sep l'))
  end.

(** [repr] of a list whose elements are shown by [show]. *)
Definition repr_list {A : Type} (show : A -> string) (l : list A) : string :=
  String.append "[" (String.append (py_join ", " (map show l)) "]").

(** [repr] of a one-character string.  The grid only ever holds the
    seven characters [. 1 2 < > ^ v], none of which needs escaping or
    switches Python to double quotes. *)
Definition repr_char (c : ascii) : string :=
  String "'" (String c (String "'" EmptyString)).

(** ** Python's [hash] on strings

    CPython's hash of a [str] made of ASCII characters: SipHash-1-3 of
    its bytes under a 128-bit key [(k0, k1)] chosen when the interpreter
    starts, read as a signed 64-bit integer, with [-1] replaced by [-2]
    and the empty string hashed to [0].  The key is random unless the
    environment variable [PYTHONHASHSEED] fixes it: [0] gives the zero
    key, another number seeds a linear congruential generator. *)
Module PyHash.

Definition add64 (a b : Z) : Z := Z.land (a + b) (Z.ones 64).

Definition rotl64 (x n : Z) : Z :=
  Z.land (Z.lor (Z.shiftl x n) (Z.shiftr x (64 - n))) (Z.ones 64).

Definition half_round (a b c d s t : Z) : Z * Z * Z * Z :=
  let a := add64 a b in
  let c := add64 c d in
  let b := Z.lxor (rotl64 b s) a in
  let d := Z.lxor (rotl64 d t) c in
  let a := rotl64 a 32 in
  (a, b, c, d).

Definition single_round (v : Z * Z * Z * Z) : Z * Z * Z * Z :=
  let '(v0, v1, v2, v3) := v in
  let '(v0, v1, v2, v3) := half_round v0 v1 v2 v3 13 16 in
  let '(v2, v1, v0, v3) := half_round v2 v1 v0 v3 17 21 in
  (v0, v1, v2, v3).

(** Little-endian value of up to eight bytes. *)
Fixpoint le_bytes (l : list Z) : Z :=
  match l with
  | [] => 0
  | b :: l' => Z.lor b (Z.shiftl (le_bytes l') 8)
  end.

(** Mixing one 64-bit word into the state. *)
Definition absorb (v : Z * Z * Z * Z) (m : Z) : Z * Z * Z * Z :=
  let '(v0, v1, v2, v3) := v in
  let '(v0, v1, v2, v3) := single_round (v0, v1, v2, Z.lxor v3 m) in
  (Z.lxor v0 m, v1, v2, v3).

(** The [while (src_sz >= 8)] loop, then the last, partial word, which
    carries the length in its top byte. *)
Fixpoint absorb_all (v : Z * Z * Z * Z) (len : Z) (l : list Z) : Z * Z * Z * Z :=
  match l with
  | b0 :: b1 :: b2 :: b3 :: b4 :: b5 :: b6 :: b7 :: rest =>
      absorb_all (absorb v (le_bytes [b0; b1; b2; b3; b4; b5; b6; b7])) len rest
  | _ => absorb v (Z.lor (Z.land (Z.shiftl len 56) (Z.ones 64)) (le_bytes l))
  end.

Definition siphash13 (k0 k1 : Z) (src : list Z) : Z :=
  let v := (Z.lxor k0 0x736f6d6570736575, Z.lxor k1 0x646f72616e646f6d,
            Z.lxor k0 0x6c7967656e657261, Z.lxor k1 0x7465646279746573) in
  let '(v0, v1, v2, v3) := absorb_all v (Z.of_nat (length src)) src in
  let v2 := Z.lxor v2 0xff in
  let '(v0, v1, v2, v3) := single_round (single_round (single_round (v0, v1, v2, v3))) in
  Z.lxor (Z.lxor v0 v1) (Z.lxor v2 v3).

Definition bytes_of_string (s : string) : list Z :=
  map (fun c => Z.of_nat (nat_of_ascii c)) (list_ascii_of_string s).

(** A 64-bit word read as a signed integer. *)
Definition to_signed (x : Z) : Z := if x <? 2 ^ 63 then x else x - 2 ^ 64.

(** [hash(s)] under the key [(k0, k1)]. *)
Definition py_hash (k0 k1 : Z) (s : string) : Z :=
  match s with
  | EmptyString => 0
  | _ =>
      let x := to_signed (siphash13 k0 k1 (bytes_of_string s)) in
      if x =? -1 then -2 else x
  end.

(** The key for [PYTHONHASHSEED=seed], [seed] not 0: sixteen bytes from
    the generator [x := x * 214013 + 2531011] on 32 bits, each byte being
    bits 16 to 23 of the next [x]. *)
Fixpoint lcg_urandom (n : nat) (x : Z) : list Z :=
  match n with
  | O => []
  | S n' =>
      let x' := Z.land (x * 214013 + 2531011) (Z.ones 32) in
      Z.land (Z.shiftr x' 16) 255 :: lcg_urandom n' x'
  end.

Definition seeded_key (seed : Z) : Z * Z :=
  let bytes := lcg_urandom 16 seed in
  (le_bytes (firstn 8 bytes), le_bytes (skipn 8 bytes)).

Definition py_hash_seeded (seed : Z) (s : string) : Z :=
  if seed =? 0 then py_hash 0 0 s
  else py_hash (fst (seeded_key seed)) (snd (seeded_key seed)) s.

End PyHash.

(** ** Constants and [Piece] *)

Definition char_goal : ascii := "1".
Definition char_single : ascii := "2".
Definition char_empty : ascii := ".".

Record Piece : Type := mkPiece {
  is_goal : bool;
  is_single : bool;
  coord_x : Z;
  coord_y : Z;
  orientation : option string
}.

(** [piece.orientation == s] *)
Definition orientation_is (piece : Piece) (s : string) : bool :=
  match orientation piece with
  | Some o => String.eqb o s
  | None => false
  end.

(** ** [Board] *)

Abbreviation Grid := (list (list ascii)).

Record Board : Type := mkBoard {
  width : Z;
  height : Z;
  pieces : list Piece;
  grid : Grid;
  goal_piece_coordinates : Z * Z
}.

(** [grid[y][x] = c]: fetch the row object, store into it. *)
Definition grid_set (g : Grid) (x y : Z) (c : ascii) : result Grid :=
  row <- py_get g y ;;
  row' <- py_set row x c ;;
  py_set g y row'.

(** The first loop of [__construct_grid]: [height] rows of [width] dots. *)
Definition empty_grid (w h : Z) : Grid :=
  repeat (repeat "."%char (Z.to_nat w)) (Z.to_nat h).

(** Body of the [for piece in self.pieces] loop of [__construct_grid];
    the accumulator is [(self.grid, self.goal_piece_coordinates)]. *)
Definition place_piece (acc : Grid * (Z * Z)) (piece : Piece)
  : result (Grid * (Z * Z)) :=
  let '(g, gc) := acc in
  let x := coord_x piece in
  let y := coord_y piece in
  if is_goal piece then
    g1 <- grid_set g x y char_goal ;;
    g2 <- grid_set g1 (x + 1) y char_goal ;;
    g3 <- grid_set g2 x (y + 1) char_goal ;;
    g4 <- grid_set g3 (x + 1) (y + 1) char_goal ;;
    Ok (g4, (x, y))
  else if is_single piece then
    g1 <- grid_set g x y char_single ;;
    Ok (g1, gc)
  else if orientation_is piece "h" then
    g1 <- grid_set g x y "<"%char ;;
    g2 <- grid_set g1 (x + 1) y ">"%char ;;
    Ok (g2, gc)
  else if orientation_is piece "v" then
    g1 <- grid_set g x y "^"%char ;;
    g2 <- grid_set g1 x (y + 1) "v"%char ;;
    Ok (g2, gc)
  else Ok (g, gc).

Definition construct_grid (w h : Z) (ps : list Piece) : result (Grid * (Z * Z)) :=
  foldM place_piece ps (empty_grid w h, (0, 0)).

(** [Board.__init__] *)
Definition Board_init (ps : list Piece) : result Board :=
  let width := 4 in
  let height := 5 in
  r <- construct_grid width height ps ;;
  Ok {| width := width; height := height; pieces := ps; grid := fst r;
        goal_piece_coordinates := snd r |}.

(** [str(board.grid)] *)
Definition str_grid (g : Grid) : string :=
  repr_list (repr_list repr_char) g.

(** ** [State] *)

#[warnings="-register-all"]
Inductive State : Type := mkState {
  board : Board;
  f : Z;
  depth : Z;
  parent : option State;
  id : Z
}.

(** [State.__lt__] *)
Definition lt (self other : State) : bool :=
  if f self =? f other then id self <? id other else f self <? f other.

(** ** Heuristic and goal test *)

Definition manhattan_distance (b : Board) : Z :=
  let position_1_x := fst (goal_piece_coordinates b) in
  let position_1_y := snd (goal_piece_coordinates b) in
  let position_end_x := 1 in
  let position_end_y := 3 in
  Z.abs (position_1_x - position_end_x) + Z.abs (position_1_y - position_end_y).

Definition goal_test (state : State) : bool :=
  let '(gx, gy) := goal_piece_coordinates (board state) in
  (gx =? 1) && (gy =? 3).

(** ** Move generation *)

(** Truth value of what [check_valid_spot] returns: it returns [True],
    [False], or falls off the end ([None]) when the cell is inside the
    board but occupied. *)
Definition truthy (v : option bool) : bool :=
  match v with
  | Some b => b
  | None => false
  end.

Definition check_valid_spot (state : State) (x y : Z) : result (option bool) :=
  if ((0 <=? x) && (x <? width (board state)))
     && ((0 <=? y) && (y <? height (board state))) then
    row <- py_get (grid (board state)) y ;;
    c <- py_get row x ;;
    if Ascii.eqb c char_empty then Ok (Some true) else Ok None
  else Ok (Some false).

(** [a and b] on such values: [b] is only evaluated when [a] is truthy. *)
Definition py_and (a b : result (option bool)) : result (option bool) :=
  va <- a ;;
  if truthy va then b else Ok va.

Inductive direction : Type := Up | Down | Left | Right.

Definition move_piece (piece : Piece) (d : direction) : Piece :=
  match d with
  | Left => mkPiece (is_goal piece) (is_single piece)
              (coord_x piece - 1) (coord_y piece) (orientation piece)
  | Right => mkPiece (is_goal piece) (is_single piece)
               (coord_x piece + 1) (coord_y piece) (orientation piece)
  | Up => mkPiece (is_goal piece) (is_single piece)
            (coord_x piece) (coord_y piece - 1) (orientation piece)
  | Down => mkPiece (is_goal piece) (is_single piece)
              (coord_x piece) (coord_y piece + 1) (orientation piece)
  end.

(** The loop of [get_new_state] over the copied pieces: the first piece
    anchored at [(piece_x, piece_y)] is moved, then the loop breaks. *)
Fixpoint move_first (ps : list Piece) (piece_x piece_y : Z) (d : direction)
  : list Piece :=
  match ps with
  | [] => []
  | piece :: rest =>
      if (coord_x piece =? piece_x) && (coord_y piece =? piece_y)
      then move_piece piece d :: rest
      else piece :: move_first rest piece_x piece_y d
  end.

Section WithHash.

(** Python's built-in [hash] on strings. *)
Variable hash : string -> Z.

(** [State.__init__] *)
Definition State_init (b : Board) (fv : Z) (d : Z) (p : option State) : State :=
  let board_str := str_grid (grid b) in
  {| board := b; f := fv; depth := d; parent := p; id := hash board_str |}.

(** [get_new_state]: the deep copy is a copy of the piece values; the
    moved copy is handed to a fresh [Board]. *)
Definition get_new_state (state : State) (piece_x piece_y : Z) (d : direction)
  : result State :=
  let curr_board := board state in
  let new_pieces := move_first (pieces curr_board) piece_x piece_y d in
  test_board <- Board_init new_pieces ;;
  let updated_depth := depth state + 1 in
  let f_value := updated_depth + manhattan_distance test_board in
  Ok (State_init test_board f_value updated_depth (Some state)).

(** One [if cond: successors.append(get_new_state(...))] statement. *)
Definition attempt (state : State) (cond : result (option bool))
    (piece : Piece) (d : direction) (successors : list State)
  : result (list State) :=
  c <- cond ;;
  if truthy c then
    new_state <- get_new_state state (coord_x piece) (coord_y piece) d ;;
    Ok (successors ++ [new_state])
  else Ok successors.

(** Body of the [for piece in curr_pieces] loop of [generate_successors]. *)
Definition try_piece (state : State) (successors : list State) (piece : Piece)
  : result (list State) :=
  let x := coord_x piece in
  let y := coord_y piece in
  let cvs := check_valid_spot state in
  if is_goal piece then
    s1 <- attempt state (py_and (cvs x (y - 1)) (cvs (x + 1) (y - 1))) piece Up successors ;;
    s2 <- attempt state (py_and (cvs x (y + 2)) (cvs (x + 1) (y + 2))) piece Down s1 ;;
    s3 <- attempt state (py_and (cvs (x - 1) y) (cvs (x - 1) (y + 1))) piece Left s2 ;;
    attempt state (py_and (cvs (x + 2) y) (cvs (x + 2) (y + 1))) piece Right s3
  else if orientation_is piece "h" then
    s1 <- attempt state (py_and (cvs x (y - 1)) (cvs (x + 1) (y - 1))) piece Up successors ;;
    s2 <- attempt state (py_and (cvs x (y + 1)) (cvs (x + 1) (y + 1))) piece Down s1 ;;
    s3 <- attempt state (cvs (x - 1) y) piece Left s2 ;;
    attempt state (cvs (x + 2) y) piece Right s3
  else if orientation_is piece "v" then
    s1 <- attempt state (cvs x (y - 1)) piece Up successors ;;
    s2 <- attempt state (cvs x (y + 2)) piece Down s1 ;;
    s3 <- attempt state (py_and (cvs (x - 1) y) (cvs (x - 1) (y + 1))) piece Left s2 ;;
    attempt state (py_and (cvs (x + 1) y) (cvs (x + 1) (y + 1))) piece Right s3
  else
    s1 <- attempt state (cvs x (y - 1)) piece Up successors ;;
    s2 <- attempt state (cvs x (y + 1)) piece Down s1 ;;
    s3 <- attempt state (cvs (x - 1) y) piece Left s2 ;;
    attempt state (cvs (x + 1) y) piece Right s3.

Definition generate_successors (state : State) : result (list State) :=
  let curr_pieces := pieces (board state) in
  foldM (try_piece state) curr_pieces [].

End WithHash.


(** ** The two searches *)

(** One pass through a [while] loop either goes round again with a new
    loop state or returns from the function. *)
Inductive step (C R : Type) : Type :=
| Continue (c : C)
| Return (r : R).
Arguments Continue {C R} c.
Arguments Return {C R} r.

(** Run a loop body at most [fuel] times; [None] means the fuel ran out. *)
Fixpoint while_loop {C R : Type} (body : C -> result (step C R))
    (fuel : nat) (c : C) : option (result R) :=
  match fuel with
  | O => None
  | S fuel' =>
      match body c with
      | Raise e => Some (Raise e)
      | Ok (Return r) => Some (Ok r)
      | Ok (Continue c') => while_loop body fuel' c'
      end
  end.

(** [l.pop()]: the last element. *)
Definition py_pop {A : Type} (l : list A) : result (A * list A) :=
  match rev l with
  | [] => Raise IndexError
  | x :: r => Ok (x, rev r)
  end.

(** ** The same move generation on Python objects

    [get_new_state] deep-copies the board and then assigns to the
    coordinates of one copied piece, and [__construct_grid] assigns to
    the cells of the grid of the board under construction.  To see what
    these assignments can reach, this module runs [generate_successors]
    on a store of objects: pieces and grids live at addresses, a board
    holds the addresses of its pieces and of its grid, and every
    assignment updates the store.  Lists of pieces are never assigned to
    after they are built, so a board keeps its list of addresses as a
    value; [State] objects and the other board attributes are never
    assigned to either.  [deepcopy] copies each piece once, whatever the
    number of times the list mentions it. *)
Module Objects.

Record store : Type := mkStore {
  piece_objs : list Piece;
  grid_objs : list Grid
}.

Record BoardObj : Type := mkBoardObj {
  o_width : Z;
  o_height : Z;
  o_pieces : list nat;
  o_grid : nat;
  o_goal : Z * Z
}.

#[warnings="-register-all"]
Inductive StateObj : Type := mkStateObj {
  o_board : BoardObj;
  o_f : Z;
  o_depth : Z;
  o_parent : option StateObj;
  o_id : Z
}.

(** Reading an object.  No Python program holds an address without an
    object; for such an address the reads give a placeholder. *)
Definition get_piece (st : store) (r : nat) : Piece :=
  default (mkPiece false false 0 0 None) (piece_objs st !! r).

Definition get_grid (st : store) (r : nat) : Grid :=
  default [] (grid_objs st !! r).

(** Assigning to an attribute of a piece, to a cell of a grid. *)
Definition set_piece (st : store) (r : nat) (p : Piece) : store :=
  mkStore (<[r := p]> (piece_objs st)) (grid_objs st).

Definition set_grid (st : store) (r : nat) (g : Grid) : store :=
  mkStore (piece_objs st) (<[r := g]> (grid_objs st)).

(** Creating an object. *)
Definition new_piece (st : store) (p : Piece) : store * nat :=
  (mkStore (piece_objs st ++ [p]) (grid_objs st), length (piece_objs st)).

Definition new_grid (st : store) (g : Grid) : store * nat :=
  (mkStore (piece_objs st) (grid_objs st ++ [g]), length (grid_objs st)).

(** One pass of the loop of [__construct_grid] for the board whose grid
    is the object at [g]. *)
Definition place_piece_obj (g : nat) (acc : store * (Z * Z)) (r : nat)
  : result (store * (Z * Z)) :=
  res <- place_piece (get_grid (fst acc) g, snd acc) (get_piece (fst acc) r) ;;
  Ok (set_grid (fst acc) g (fst res), snd res).

(** [Board.__init__]: the new board keeps the list it is given. *)
Definition Board_init_obj (st : store) (refs : list nat)
  : result (store * BoardObj) :=
  let width := 4 in
  let height := 5 in
  let alloc := new_grid st (empty_grid width height) in
  res <- foldM (place_piece_obj (snd alloc)) refs (fst alloc, (0, 0)) ;;
  Ok (fst res, mkBoardObj width height refs (snd alloc) (snd res)).

(** The memo of [deepcopy]: original address, address of the copy. *)
Fixpoint memo_lookup (memo : list (nat * nat)) (r : nat) : option nat :=
  match memo with
  | [] => None
  | (k, v) :: memo' => if (k =? r)%nat then Some v else memo_lookup memo' r
  end.

Fixpoint deepcopy_pieces (st : store) (memo : list (nat * nat)) (refs : list nat)
  : store * list (nat * nat) * list nat :=
  match refs with
  | [] => (st, memo, [])
  | r :: rest =>
      match memo_lookup memo r with
      | Some r' =>
          let '(st', memo', out) := deepcopy_pieces st memo rest in
          (st', memo', r' :: out)
      | None =>
          let alloc := new_piece st (get_piece st r) in
          let '(st', memo', out) :=
            deepcopy_pieces (fst alloc) ((r, snd alloc) :: memo) rest in
          (st', memo', snd alloc :: out)
      end
  end.

(** [deepcopy(board)] *)
Definition deepcopy_board (st : store) (b : BoardObj) : store * BoardObj :=
  let '(st1, _, refs') := deepcopy_pieces st [] (o_pieces b) in
  let alloc := new_grid st1 (get_grid st1 (o_grid b)) in
  (fst alloc, mkBoardObj (o_width b) (o_height b) refs' (snd alloc) (o_goal b)).

(** The loop of [get_new_state]: the assignment goes to the first piece
    object anchored at [(piece_x, piece_y)]. *)
Fixpoint move_first_obj (st : store) (refs : list nat) (piece_x piece_y : Z)
    (d : direction) : store :=
  match refs with
  | [] => st
  | r :: rest =>
      let piece := get_piece st r in
      if (coord_x piece =? piece_x) && (coord_y piece =? piece_y)
      then set_piece st r (move_piece piece d)
      else move_first_obj st rest piece_x piece_y d
  end.

Definition manhattan_distance_obj (b : BoardObj) : Z :=
  Z.abs (fst (o_goal b) - 1) + Z.abs (snd (o_goal b) - 3).

Definition check_valid_spot_obj (st : store) (state : StateObj) (x y : Z)
  : result (option bool) :=
  if ((0 <=? x) && (x <? o_width (o_board state)))
     && ((0 <=? y) && (y <? o_height (o_board state))) then
    row <- py_get (get_grid st (o_grid (o_board state))) y ;;
    c <- py_get row x ;;
    if Ascii.eqb c char_empty then Ok (Some true) else Ok None
  else Ok (Some false).

Section WithHash.

Variable hash : string -> Z.

Definition State_init_obj (st : store) (b : BoardObj) (fv d : Z)
    (p : option StateObj) : StateObj :=
  let board_str := str_grid (get_grid st (o_grid b)) in
  mkStateObj b fv d p (hash board_str).

Definition get_new_state_obj (st : store) (state : StateObj)
    (piece_x piece_y : Z) (d : direction) : result (store * StateObj) :=
  let curr_board := o_board state in
  let copied := deepcopy_board st curr_board in
  let new_board := snd copied in
  let st2 := move_first_obj (fst copied) (o_pieces new_board) piece_x piece_y d in
  res <- Board_init_obj st2 (o_pieces new_board) ;;
  let test_board := snd res in
  let updated_depth := o_depth state + 1 in
  let f_value := updated_depth + manhattan_distance_obj test_board in
  Ok (fst res,
      State_init_obj (fst res) test_board f_value updated_depth (Some state)).

(** One [if cond: successors.append(get_new_state(...))]; the condition
    reads the store as it is at that point. *)
Definition attempt_obj (state : StateObj)
    (cond : store -> result (option bool)) (piece : Piece) (d : direction)
    (acc : store * list StateObj) : result (store * list StateObj) :=
  c <- cond (fst acc) ;;
  if truthy c then
    res <- get_new_state_obj (fst acc) state (coord_x piece) (coord_y piece) d ;;
    Ok (fst res, snd acc ++ [snd res])
  else Ok acc.

Definition try_piece_obj (state : StateObj) (acc : store * list StateObj)
    (r : nat) : result (store * list StateObj) :=
  let piece := get_piece (fst acc) r in
  let x := coord_x piece in
  let y := coord_y piece in
  let cvs := fun x y st => check_valid_spot_obj st state x y in
  let both := fun c1 c2 st => py_and (c1 st) (c2 st) in
  if is_goal piece then
    a1 <- attempt_obj state (both (cvs x (y - 1)) (cvs (x + 1) (y - 1))) piece Up acc ;;
    a2 <- attempt_obj state (both (cvs x (y + 2)) (cvs (x + 1) (y + 2))) piece Down a1 ;;
    a3 <- attempt_obj state (both (cvs (x - 1) y) (cvs (x - 1) (y + 1))) piece Left a2 ;;
    attempt_obj state (both (cvs (x + 2) y) (cvs (x + 2) (y + 1))) piece Right a3
  else if orientation_is piece "h" then
    a1 <- attempt_obj state (both (cvs x (y - 1)) (cvs (x + 1) (y - 1))) piece Up acc ;;
    a2 <- attempt_obj state (both (cvs x (y + 1)) (cvs (x + 1) (y + 1))) piece Down a1 ;;
    a3 <- attempt_obj state (cvs (x - 1) y) piece Left a2 ;;
    attempt_obj state (cvs (x + 2) y) piece Right a3
  else if orientation_is piece "v" then
    a1 <- attempt_obj state (cvs x (y - 1)) piece Up acc ;;
    a2 <- attempt_obj state (cvs x (y + 2)) piece Down a1 ;;
    a3 <- attempt_obj state (both (cvs (x - 1) y) (cvs (x - 1) (y + 1))) piece Left a2 ;;
    attempt_obj state (both (cvs (x + 1) y) (cvs (x + 1) (y + 1))) piece Right a3
  else
    a1 <- attempt_obj state (cvs x (y - 1)) piece Up acc ;;
    a2 <- attempt_obj state (cvs x (y + 1)) piece Down a1 ;;
    a3 <- attempt_obj state (cvs (x - 1) y) piece Left a2 ;;
    attempt_obj state (cvs (x + 1) y) piece Right a3.

(** [generate_successors]: the store after the call and the list returned. *)
Definition generate_successors_obj (st : store) (state : StateObj)
  : result (store * list StateObj) :=
  let curr_pieces := o_pieces (o_board state) in
  foldM (try_piece_obj state) curr_pieces (st, []).

End WithHash.

(** The values behind the addresses. *)
Definition board_value (st : store) (b : BoardObj) : Board :=
  {| width := o_width b; height := o_height b;
     pieces := map (get_piece st) (o_pieces b);
     grid := get_grid st (o_grid b);
     goal_piece_coordinates := o_goal b |}.

Fixpoint state_value (st : store) (s : StateObj) : State :=
  {| board := board_value st (o_board s); f := o_f s; depth := o_depth s;
     parent := match o_parent s with
               | Some p => Some (state_value st p)
               | None => None
               end;
     id := o_id s |}.

(** Every address a board or a state mentions holds an object. *)
Definition board_refs_ok (st : store) (b : BoardObj) : Prop :=
  Forall (fun r => (r < length (piece_objs st))%nat) (o_pieces b) /\
  (o_grid b < length (grid_objs st))%nat.

Fixpoint state_refs_ok (st : store) (s : StateObj) : Prop :=
  board_refs_ok st (o_board s) /\
  match o_parent s with
  | Some p => state_refs_ok st p
  | None => True
  end.

(** The board was created after the store had the sizes [np], [ng]: all
    its objects are new. *)
Definition board_fresh (np ng : nat) (b : BoardObj) : Prop :=
  Forall (fun r => (np <= r)%nat) (o_pieces b) /\ (ng <= o_grid b)%nat.

(** [st'] has every object of [st], unchanged, and possibly more. *)
Definition extends (st st' : store) : Prop :=
  exists ps gs, st' = mkStore (piece_objs st ++ ps) (grid_objs st ++ gs).

End Objects.

(** ** [heapq] on lists of states

    The two functions [A_star] imports from Python's [heapq], with the
    two sifting helpers they call.  A heap is a Python list; positions
    are natural numbers; items are compared with [State.__lt__] only.
    Each loop runs with a fuel that bounds its number of passes (the
    position for the upward walk, the length for the downward walk). *)
Module heapq.

(** The [while pos > startpos] loop of [_siftdown]; [heap[pos]] is the
    cell that [newitem] will go to. *)
Fixpoint siftdown_loop (fuel : nat) (heap : list State) (startpos : nat)
    (newitem : State) (pos : nat) : list State :=
  match fuel with
  | O => <[pos := newitem]> heap
  | S fuel' =>
      if (startpos <? pos)%nat then
        let parentpos := ((pos - 1) / 2)%nat in
        match heap !! parentpos with
        | Some parent =>
            if lt newitem parent
            then siftdown_loop fuel' (<[pos := parent]> heap) startpos newitem parentpos
            else <[pos := newitem]> heap
        | None => <[pos := newitem]> heap
        end
      else <[pos := newitem]> heap
  end.

(** [_siftdown(heap, startpos, pos)] *)
Definition siftdown (heap : list State) (startpos pos : nat) : list State :=
  match heap !! pos with
  | Some newitem => siftdown_loop pos heap startpos newitem pos
  | None => heap
  end.

(** [heap[i] < heap[j]] *)
Definition lt_at (heap : list State) (i j : nat) : bool :=
  match heap !! i, heap !! j with
  | Some a, Some b => lt a b
  | _, _ => false
  end.

(** The [while childpos < endpos] loop of [_siftup]: the smaller child
    is copied up until a leaf is reached; returns the list and the leaf. *)
Fixpoint siftup_loop (fuel : nat) (heap : list State) (endpos pos : nat)
  : list State * nat :=
  match fuel with
  | O => (heap, pos)
  | S fuel' =>
      let childpos := (2 * pos + 1)%nat in
      if (childpos <? endpos)%nat then
        let rightpos := (childpos + 1)%nat in
        let childpos' :=
          if (rightpos <? endpos)%nat && negb (lt_at heap childpos rightpos)
          then rightpos else childpos in
        match heap !! childpos' with
        | Some child => siftup_loop fuel' (<[pos := child]> heap) endpos childpos'
        | None => (heap, pos)
        end
      else (heap, pos)
  end.

(** [_siftup(heap, pos)] *)
Definition siftup (heap : list State) (pos : nat) : list State :=
  let endpos := length heap in
  let startpos := pos in
  match heap !! pos with
  | Some newitem =>
      let '(heap1, pos1) := siftup_loop endpos heap endpos pos in
      siftdown (<[pos1 := newitem]> heap1) startpos pos1
  | None => heap
  end.

(** [heappush(heap, item)]; the list returned is [heap] after the call. *)
Definition heappush (heap : list State) (item : State) : list State :=
  let heap1 := heap ++ [item] in
  siftdown heap1 0 (length heap1 - 1).

(** [heappop(heap)]: the item returned and [heap] after the call. *)
Definition heappop (heap : list State) : result (State * list State) :=
  popped <- py_pop heap ;;
  let lastelt := fst popped in
  let heap1 := snd popped in
  match heap1 with
  | [] => Ok (lastelt, heap1)
  | returnitem :: _ => Ok (returnitem, siftup (<[0%nat := lastelt]> heap1) 0)
  end.

End heapq.

(** The [for state in successors: if state.id not in visited:
    frontier.append(state)] loop of [DFS]. *)
Definition push_unvisited (visited : gset Z) (frontier : list State)
    (successors : list State) : list State :=
  fold_left (fun fr s => if decide (id s ∈ visited) then fr else fr ++ [s])
            successors frontier.

Section Searches.

Variable hash : string -> Z.

Definition DFS_body (c : list State * gset Z)
  : result (step (list State * gset Z) (option State)) :=
  let '(frontier, visited) := c in
  match frontier with
  | [] => Ok (Return None)
  | _ :: _ =>
      popped <- py_pop frontier ;;
      let curr_state := fst popped in
      let frontier1 := snd popped in
      if decide (id curr_state ∈ visited) then Ok (Continue (frontier1, visited))
      else if goal_test curr_state then Ok (Return (Some curr_state))
      else
        let visited1 := visited ∪ {[ id curr_state ]} in
        successors <- generate_successors hash curr_state ;;
        Ok (Continue (push_unvisited visited1 frontier1 successors, visited1))
  end.

Definition DFS (fuel : nat) (state : State) : option (result (option State)) :=
  while_loop DFS_body fuel ([state], ∅).

(** [heapq.heappush] and [heapq.heappop], acting on a Python list. *)
Variable heappush : list State -> State -> list State.
Variable heappop : list State -> result (State * list State).

Definition A_star_body (c : list State * gset Z)
  : result (step (list State * gset Z) (option State)) :=
  let '(frontier, visited) := c in
  match frontier with
  | [] => Ok (Return None)
  | _ :: _ =>
      popped <- heappop frontier ;;
      let curr_state := fst popped in
      let frontier1 := snd popped in
      if decide (id curr_state ∈ visited) then Ok (Continue (frontier1, visited))
      else
        let visited1 := visited ∪ {[ id curr_state ]} in
        if goal_test curr_state then Ok (Return (Some curr_state))
        else
          successors <- generate_successors hash curr_state ;;
          Ok (Continue (fold_left heappush successors frontier1, visited1))
  end.

Definition A_star (fuel : nat) (state : State) : option (result (option State)) :=
  while_loop A_star_body fuel (heappush [] state, ∅).

End Searches.

(** ** Result extraction ([write_to_file]) *)

(** The [while solution.parent != None] loop: the states from [solution]
    up to, and excluding, the one without a parent, in the order they are
    appended to [all_states]. *)
Fixpoint collect_states (solution : State) : list State :=
  match parent solution with
  | None => []
  | Some p => solution :: collect_states p
  end.

(** The text written for one grid: each row, a newline, then a blank line. *)
Definition newline : string := String (ascii_of_nat 10) EmptyString.

Definition grid_text (g : Grid) : string :=
  String.append
    (fold_right (fun row acc => String.append (string_of_list_ascii row)
                                  (String.append newline acc))
                EmptyString g)
    newline.

(** [write_to_file]: the contents of the file.  [solution] is what the
    search returned; on [None] the attribute access [solution.parent]
    raises. *)
Definition write_to_file (first_state : State) (solution : option State)
  : result string :=
  match solution with
  | None => Raise AttributeError
  | Some sol =>
      let all_states := rev (collect_states sol) in
      Ok (String.append (grid_text (grid (board first_state)))
            (fold_right (fun st acc => String.append (grid_text (grid (board st))) acc)
                        EmptyString all_states))
  end.

(** ** [Board.display], [read_from_file] and the main program *)

(** What [display] prints: each row of the grid, then a newline. *)
Definition display (b : Board) : string :=
  fold_right (fun line acc => String.append (string_of_list_ascii line)
                                (String.append newline acc))
             EmptyString (grid b).

(** The lines that iterating over a text file yields: each line keeps
    its newline; the last line has none when the text does not end with
    one.  [text] is what reading the open file yields: its content once
    decoded, with every line ending translated to a newline, as text
    mode does.  On a file of ASCII characters without carriage returns
    ([plain_text] below) this is the content of the file itself. *)
Fixpoint file_lines (text : string) : list string :=
  match text with
  | EmptyString => []
  | String c rest =>
      if Ascii.eqb c (ascii_of_nat 10) then String c EmptyString :: file_lines rest
      else match file_lines rest with
           | [] => [String c EmptyString]
           | line :: lines => String c line :: lines
           end
  end.

(** [enumerate(line)], counting from [x]. *)
Fixpoint enumerate_from (x : Z) (line : string) : list (Z * ascii) :=
  match line with
  | EmptyString => []
  | String ch rest => (x, ch) :: enumerate_from (x + 1) rest
  end.

(** Body of the [for x, ch in enumerate(line)] loop of [read_from_file];
    the accumulator is [(pieces, g_found)]. *)
Definition read_char (line_index : Z) (acc : list Piece * bool) (xc : Z * ascii)
  : list Piece * bool :=
  let '(pieces, g_found) := acc in
  let '(x, ch) := xc in
  if Ascii.eqb ch "^" then
    (pieces ++ [mkPiece false false x line_index (Some "v"%string)], g_found)
  else if Ascii.eqb ch "<" then
    (pieces ++ [mkPiece false false x line_index (Some "h"%string)], g_found)
  else if Ascii.eqb ch char_single then
    (pieces ++ [mkPiece false true x line_index None], g_found)
  else if Ascii.eqb ch char_goal then
    if negb g_found then (pieces ++ [mkPiece true false x line_index None], true)
    else (pieces, g_found)
  else (pieces, g_found).

(** The [for line in puzzle_file] loop, with [line_index] counted up. *)
Fixpoint read_lines (lines : list string) (line_index : Z)
    (acc : list Piece * bool) : list Piece * bool :=
  match lines with
  | [] => acc
  | line :: rest =>
      read_lines rest (line_index + 1)
                 (fold_left (read_char line_index) (enumerate_from 0 line) acc)
  end.

(** The pieces [read_from_file] collects from the text of the file. *)
Definition read_pieces (text : string) : list Piece :=
  fst (read_lines (file_lines text) 0 ([], false)).

(** [read_from_file] from the point where [open(filename, "r")] has
    returned: the argument is the text the file yields, not its name.
    Opening the file and decoding its bytes come before and are not part
    of this function: a file that is missing or unreadable, or bytes
    that do not decode, make the source raise ([FileNotFoundError],
    [UnicodeDecodeError], ...) where the model has no input at all. *)
Definition read_from_file (text : string) : result Board :=
  Board_init (read_pieces text).

(** The [--algo] argument. *)
Inductive algo : Type := astar | dfs.

(** The main program: [inputfile] is the text of the input file, the
    result is the text of the output file. *)
Definition main (hash : string -> Z) (fuel : nat) (a : algo) (inputfile : string)
  : option (result string) :=
  match read_from_file inputfile with
  | Raise e => Some (Raise e)
  | Ok b =>
      let first_state := State_init hash b 0 0 None in
      let run :=
        match a with
        | astar => A_star hash heapq.heappush heapq.heappop fuel first_state
        | dfs => DFS hash fuel first_state
        end in
      match run with
      | None => None
      | Some (Raise e) => Some (Raise e)
      | Some (Ok solution) => Some (write_to_file first_state solution)
      end
  end.


(** ** Board invariants and a closed form of the grid *)

(** The cell [grid[y][x]], read with in-range coordinates. *)
Definition cell (g : Grid) (x y : Z) : ascii :=
  match g !! Z.to_nat y with
  | Some row => match row !! Z.to_nat x with
                | Some c => c
                | None => char_empty
                end
  | None => char_empty
  end.

(** The effect of [grid[y][x] = c] when it does not raise. *)
Definition upd (g : Grid) (x y : Z) (c : ascii) : Grid :=
  match g !! Z.to_nat y with
  | Some row => <[Z.to_nat y := <[Z.to_nat x := c]> row]> g
  | None => g
  end.

(** Five rows of four cells. *)
Definition shape (g : Grid) : Prop :=
  length g = 5%nat /\ Forall (fun row => length row = 4%nat) g.

Definition in_grid (c : Z * Z) : Prop :=
  (0 <= fst c < 4) /\ (0 <= snd c < 5).

(** What [__construct_grid] writes for one piece, in order. *)
Definition marks (piece : Piece) : list ((Z * Z) * ascii) :=
  let x := coord_x piece in
  let y := coord_y piece in
  if is_goal piece then
    [((x, y), char_goal); ((x + 1, y), char_goal);
     ((x, y + 1), char_goal); ((x + 1, y + 1), char_goal)]
  else if is_single piece then [((x, y), char_single)]
  else if orientation_is piece "h" then [((x, y), "<"%char); ((x + 1, y), ">"%char)]
  else if orientation_is piece "v" then [((x, y), "^"%char); ((x, y + 1), "v"%char)]
  else [].

Definition write (g : Grid) (m : (Z * Z) * ascii) : Grid :=
  upd g (fst (fst m)) (snd (fst m)) (snd m).

Definition all_marks (ps : list Piece) : list ((Z * Z) * ascii) :=
  flat_map marks ps.

(** The cells drawn for a list of pieces. *)
Definition cells (ps : list Piece) : list (Z * Z) :=
  map fst (all_marks ps).

Definition grid_of (ps : list Piece) : Grid :=
  fold_left write (all_marks ps) (empty_grid 4 5).

Definition goal_of (ps : list Piece) : Z * Z :=
  fold_left (fun gc piece => if is_goal piece
                             then (coord_x piece, coord_y piece) else gc)
            ps (0, 0).

Definition board_of (ps : list Piece) : Board :=
  {| width := 4; height := 5; pieces := ps; grid := grid_of ps;
     goal_piece_coordinates := goal_of ps |}.

(** The four kinds of piece, and the kind [generate_successors] treats a
    piece as. *)
Inductive kind : Type := Goal2x2 | Horizontal1x2 | Vertical1x2 | Single1x1.

Definition kind_of (piece : Piece) : kind :=
  if is_goal piece then Goal2x2
  else if orientation_is piece "h" then Horizontal1x2
  else if orientation_is piece "v" then Vertical1x2
  else Single1x1.

(** The cells a piece occupies, by kind. *)
Definition footprint (piece : Piece) : list (Z * Z) :=
  let x := coord_x piece in
  let y := coord_y piece in
  match kind_of piece with
  | Goal2x2 => [(x, y); (x + 1, y); (x, y + 1); (x + 1, y + 1)]
  | Horizontal1x2 => [(x, y); (x + 1, y)]
  | Vertical1x2 => [(x, y); (x, y + 1)]
  | Single1x1 => [(x, y)]
  end.

(** A piece as [read_from_file] builds it: the flags and the orientation
    agree on one kind. *)
Definition wf_piece (piece : Piece) : Prop :=
  match is_goal piece, is_single piece, orientation piece with
  | true, false, None => True
  | false, true, None => True
  | false, false, Some o => o = "h"%string \/ o = "v"%string
  | _, _, _ => False
  end.

(** The piece-placement invariants: well-formed pieces, all cells inside
    the 4x5 grid, no two cells shared, exactly one goal piece. *)
Record valid_pieces (ps : list Piece) : Prop := {
  vp_wf : Forall wf_piece ps;
  vp_in : Forall in_grid (cells ps);
  vp_disj : NoDup (cells ps);
  vp_goal : length (List.filter is_goal ps) = 1%nat
}.

(** A board that satisfies the invariants and was built by [Board]. *)
Definition board_inv (b : Board) : Prop :=
  valid_pieces (pieces b) /\ Board_init (pieces b) = Ok b.

(** ** Move generation in closed form *)

(** The value [check_valid_spot] returns on a board built by [Board]. *)
Definition cvs_val (b : Board) (x y : Z) : option bool :=
  if ((0 <=? x) && (x <? 4)) && ((0 <=? y) && (y <? 5)) then
    if Ascii.eqb (cell (grid b) x y) char_empty then Some true else None
  else Some false.

Definition free (b : Board) (x y : Z) : bool := truthy (cvs_val b x y).

(** The guard [generate_successors] puts on each move. *)
Definition can_move (b : Board) (piece : Piece) (d : direction) : bool :=
  let x := coord_x piece in
  let y := coord_y piece in
  match kind_of piece, d with
  | Goal2x2, Up => free b x (y - 1) && free b (x + 1) (y - 1)
  | Goal2x2, Down => free b x (y + 2) && free b (x + 1) (y + 2)
  | Goal2x2, Left => free b (x - 1) y && free b (x - 1) (y + 1)
  | Goal2x2, Right => free b (x + 2) y && free b (x + 2) (y + 1)
  | Horizontal1x2, Up => free b x (y - 1) && free b (x + 1) (y - 1)
  | Horizontal1x2, Down => free b x (y + 1) && free b (x + 1) (y + 1)
  | Horizontal1x2, Left => free b (x - 1) y
  | Horizontal1x2, Right => free b (x + 2) y
  | Vertical1x2, Up => free b x (y - 1)
  | Vertical1x2, Down => free b x (y + 2)
  | Vertical1x2, Left => free b (x - 1) y && free b (x - 1) (y + 1)
  | Vertical1x2, Right => free b (x + 1) y && free b (x + 1) (y + 1)
  | Single1x1, Up => free b x (y - 1)
  | Single1x1, Down => free b x (y + 1)
  | Single1x1, Left => free b (x - 1) y
  | Single1x1, Right => free b (x + 1) y
  end.

(** The pieces after [piece] has been moved one cell in direction [d]. *)
Definition moved_pieces (b : Board) (piece : Piece) (d : direction) : list Piece :=
  move_first (pieces b) (coord_x piece) (coord_y piece) d.

Definition all_directions : list direction := [Up; Down; Left; Right].

Section PureSuccessors.

Variable hash : string -> Z.

(** The state [get_new_state] builds when the new board is well placed. *)
Definition successor (state : State) (piece : Piece) (d : direction) : State :=
  let test_board := board_of (moved_pieces (board state) piece d) in
  State_init hash test_board
    (depth state + 1 + manhattan_distance test_board) (depth state + 1)
    (Some state).

Definition piece_successors (state : State) (piece : Piece) : list State :=
  flat_map (fun d => if can_move (board state) piece d
                     then [successor state piece d] else [])
           all_directions.

Definition successors (state : State) : list State :=
  flat_map (piece_successors state) (pieces (board state)).

End PureSuccessors.

(** A slide in the words of the specification: every cell the moved
    piece needs and does not already occupy is inside the grid and empty. *)
Definition slide_ok (b : Board) (piece : Piece) (d : direction) : Prop :=
  forall c, c ∈ footprint (move_piece piece d) -> c ∉ footprint piece ->
            in_grid c /\ cell (grid b) (fst c) (snd c) = char_empty.

(** The moves [generate_successors] makes, in order: one entry for each
    piece and direction whose guard holds. *)
Definition legal_moves (b : Board) : list (Piece * direction) :=
  flat_map (fun piece =>
              flat_map (fun d => if can_move b piece d then [(piece, d)] else [])
                       all_directions)
           (pieces b).

(** ** The state space *)

(** The target position of the goal piece, as [goal_test] checks it. *)
Definition goal_board (b : Board) : Prop := goal_piece_coordinates b = (1, 3).

(** One slide in closed form. *)
Definition slide_step (b b' : Board) : Prop :=
  exists piece d, piece ∈ pieces b /\ can_move b piece d = true /\
                  b' = board_of (moved_pieces b piece d).

Section StateSpace.

Variable hash : string -> Z.

(** [b'] is the board of one of the states [generate_successors] returns
    for a state with board [b]. *)
Definition next_board (b b' : Board) : Prop :=
  exists state l s, board state = b /\ generate_successors hash state = Ok l /\
                    s ∈ l /\ board s = b'.

(** [slides n b b']: [b'] is reached from [b] by [n] successive moves. *)
Inductive slides : nat -> Board -> Board -> Prop :=
| slides_refl (b : Board) : slides 0 b b
| slides_step (n : nat) (b b' b'' : Board) :
    next_board b b' -> slides n b' b'' -> slides (S n) b b''.

(** The identity [State.__init__] gives a state with board [b]. *)
Definition id_of (b : Board) : Z := hash (str_grid (grid b)).

(** No two boards reachable from [b0] with different grids share an
    identity. *)
Definition collision_free (b0 : Board) : Prop :=
  forall n1 b1 n2 b2, slides n1 b0 b1 -> slides n2 b0 b2 ->
                      id_of b1 = id_of b2 -> grid b1 = grid b2.

End StateSpace.

(** ** Runs of the searches *)

(** The loop states at which the body is entered, in order. *)
Fixpoint while_trace {C R : Type} (body : C -> result (step C R))
    (fuel : nat) (c : C) : list C :=
  match fuel with
  | O => []
  | S fuel' =>
      c :: match body c with
           | Ok (Continue c') => while_trace body fuel' c'
           | _ => []
           end
  end.

(** The identity [DFS] marks visited and expands at a loop state, if any:
    the popped state is neither visited already nor a goal. *)
Definition DFS_expands (c : list State * gset Z) : option Z :=
  match py_pop (fst c) with
  | Ok (curr_state, _) =>
      if decide (id curr_state ∈ snd c) then None
      else if goal_test curr_state then None
      else Some (id curr_state)
  | Raise _ => None
  end.

(** What [A_star] relies on from [heapq]: on lists that satisfy the heap
    invariant [is_heap], pushing keeps the invariant and adds the item,
    popping keeps the invariant and removes an item that no remaining
    item is less than (in the sense of [State.__lt__]). *)
Record heapq_spec (heappush : list State -> State -> list State)
    (heappop : list State -> result (State * list State))
    (is_heap : list State -> Prop) : Prop := {
  hq_nil : is_heap [];
  hq_push_heap : forall h x, is_heap h -> is_heap (heappush h x);
  hq_push_perm : forall h x, heappush h x ≡ₚ x :: h;
  hq_pop : forall h, is_heap h -> h <> [] ->
           exists x r, heappop h = Ok (x, r) /\ is_heap r /\ h ≡ₚ x :: r /\
                       forall y, y ∈ r -> lt y x = false
}.

Section Lineage.

Variable hash : string -> Z.

(** [lineage root s]: [s] is [root] or was returned by
    [generate_successors] for a state of the lineage of [root]. *)
Inductive lineage (root : State) : State -> Prop :=
| lineage_root : lineage root root
| lineage_child (p s : State) (l : list State) :
    lineage root p -> generate_successors hash p = Ok l -> s ∈ l ->
    lineage root s.

End Lineage.

(** All lists of length [n] over [sigma]. *)
Fixpoint words {A : Type} (sigma : list A) (n : nat) : list (list A) :=
  match n with
  | O => [[]]
  | S n' => flat_map (fun a => map (cons a) (words sigma n')) sigma
  end.

(** The characters [__construct_grid] writes. *)
Definition alphabet : list ascii :=
  ["."; "1"; "2"; "<"; ">"; "^"; "v"]%char.

(** Every grid a board can have. *)
Definition all_grids : list Grid := words (words alphabet 4) 5.

Definition all_ids (hash : string -> Z) : gset Z :=
  list_to_set (map (fun g => hash (str_grid g)) all_grids).

(** ** Solution paths *)

(** Two boards that differ by one legal slide: the pieces of the second
    are those of the first with exactly one piece shifted by one cell to
    cells that were inside the grid and empty, and the second is the board
    [Board] builds from them. *)
Definition legal_slide (a b : Board) : Prop :=
  exists piece d l1 l2,
    pieces a = l1 ++ piece :: l2 /\ slide_ok a piece d /\
    pieces b = l1 ++ move_piece piece d :: l2 /\
    Board_init (pieces b) = Ok b.

(** Following the parent link [n] times. *)
Fixpoint nth_parent (n : nat) (s : State) : option State :=
  match n with
  | O => Some s
  | S n' => match parent s with
            | Some p => nth_parent n' p
            | None => None
            end
  end.

(** ** The heap invariant *)

(** Python's heap invariant for [State.__lt__]: no item is less than the
    item at its parent position. *)
Definition parent_ok (h : list State) (i : nat) : Prop :=
  forall x p, h !! i = Some x -> h !! ((i - 1) / 2)%nat = Some p -> lt x p = false.

Definition heap_ordered (h : list State) : Prop :=
  forall i, (0 < i)%nat -> parent_ok h i.

(** The invariant with one exception: the item at [pos] may be less than
    its parent; its children are then no less than its parent. *)
Definition almost_heap (h : list State) (pos : nat) : Prop :=
  (forall i, (0 < i)%nat -> i <> pos -> parent_ok h i) /\
  (forall c x g, (0 < pos)%nat -> (0 < c)%nat -> ((c - 1) / 2)%nat = pos ->
                 h !! c = Some x -> h !! ((pos - 1) / 2)%nat = Some g ->
                 lt x g = false).

(** The invariant with a hole: the cell at [pos] is about to be
    overwritten; all pairs that do not involve it are in order, and its
    children are no less than its parent. *)
Definition hole_heap (h : list State) (pos : nat) : Prop :=
  (forall i, (0 < i)%nat -> i <> pos -> ((i - 1) / 2)%nat <> pos -> parent_ok h i) /\
  (forall c x g, (0 < pos)%nat -> (0 < c)%nat -> ((c - 1) / 2)%nat = pos ->
                 h !! c = Some x -> h !! ((pos - 1) / 2)%nat = Some g ->
                 lt x g = false).

(** ** Two runs of the interpreter *)

(** The state a run with string hash [h] has in place of [s]: the same
    board, costs and ancestors, with the identities that run computes. *)
Fixpoint rehash (h : string -> Z) (s : State) : State :=
  State_init h (board s) (f s) (depth s)
    (match parent s with
     | Some p => Some (rehash h p)
     | None => None
     end).

(** What a run writes to the output file: the text of [write_to_file]
    for the result of the search, when the search returns within the
    fuel. *)
Definition A_star_output (h : string -> Z) (fuel : nat) (b : Board)
  : option (result string) :=
  let first_state := State_init h b 0 0 None in
  match A_star h heapq.heappush heapq.heappop fuel first_state with
  | Some (Ok solution) => Some (write_to_file first_state solution)
  | Some (Raise e) => Some (Raise e)
  | None => None
  end.

Definition DFS_output (h : string -> Z) (fuel : nat) (b : Board)
  : option (result string) :=
  let first_state := State_init h b 0 0 None in
  match DFS h fuel first_state with
  | Some (Ok solution) => Some (write_to_file first_state solution)
  | Some (Raise e) => Some (Raise e)
  | None => None
  end.

(** ** Invariants of the searches *)

Import Objects.

Definition over_alphabet (g : Grid) : Prop :=
  Forall (Forall (fun c => c ∈ alphabet)) g.

Section SearchInvariants.

Variable hash : string -> Z.
Variable is_heap : list State -> Prop.
Variables (b0 : Board) (fv d0 : Z) (par : option State).

Let root : State := State_init hash b0 fv d0 par.

(** A finite set that holds the identity of every valid board. *)
Variable U : gset Z.

Definition DFS_inv (c : list State * gset Z) : Prop :=
  (forall s, s ∈ fst c -> lineage hash root s) /\ snd c ⊆ U.

Definition DFS_post (r : option State) : Prop :=
  forall s, r = Some s -> lineage hash root s /\ goal_test s = true.

(** A frontier entry: built by the search, with [f = g + h]. *)
Definition good (s : State) : Prop :=
  lineage hash root s /\ f s = depth s + manhattan_distance (board s).

(** Every visited board is no goal, and each of its successors is visited
    too or waits in the frontier at a depth no larger than one more than
    any depth at which the board can be reached. *)
Definition closed_ok (frontier : list State) (visited : gset Z) : Prop :=
  forall n b, slides hash n b0 b -> id_of hash b ∈ visited ->
    ~ goal_board b /\
    forall b', next_board hash b b' ->
      id_of hash b' ∈ visited \/
      exists s, s ∈ frontier /\ grid (board s) = grid b' /\
                depth s <= d0 + Z.of_nat n + 1.

Definition A_main (c : list State * gset Z) : Prop :=
  is_heap (fst c) /\ (forall s, s ∈ fst c -> good s) /\ snd c ⊆ U /\
  id_of hash b0 ∈ snd c /\ closed_ok (fst c) (snd c).

Definition A_init (c : list State * gset Z) : Prop :=
  fst c = [root] /\ is_heap (fst c) /\ snd c = ∅.

Definition A_inv (c : list State * gset Z) : Prop := A_init c \/ A_main c.

Definition A_post (r : option State) : Prop :=
  exists s m, r = Some s /\ lineage hash root s /\ goal_test s = true /\
              depth s = d0 + Z.of_nat m /\ slides hash m b0 (board s) /\
              forall n t, slides hash n b0 t -> goal_board t -> (m <= n)%nat.

End SearchInvariants.

Section TwoRuns.

Variables h1 h2 : string -> Z.
Variables (b0 : Board) (fv d0 : Z) (par : option State).

Let root1 : State := State_init h1 b0 fv d0 par.

(** The loop states of the two runs: the same stack up to identities,
    and visited sets that hold the identities of the same boards. *)
Definition two_runs (c1 c2 : list State * gset Z) : Prop :=
  fst c2 = map (rehash h2) (fst c1) /\
  (forall s, s ∈ fst c1 -> lineage h1 root1 s) /\
  exists W : list Board,
    (forall w, w ∈ W -> exists n, slides h1 n b0 w) /\
    snd c1 = list_to_set (map (id_of h1) W) /\
    snd c2 = list_to_set (map (id_of h2) W).

End TwoRuns.

Section ObjectInvariant.

Variable st0 : store.

(** The loop state on objects, [(stc, acc_o)], against the list [acc_v]
    of the run on values: the store has grown from [st0], the states
    collected so far have the collected values, and their boards were
    created after [st0]. *)
Definition obj_inv (stc : store) (acc_o : list StateObj) (acc_v : list State)
  : Prop :=
  extends st0 stc /\ map (state_value stc) acc_o = acc_v /\
  Forall (fun so => board_fresh (length (piece_objs st0)) (length (grid_objs st0))
                                (o_board so) /\ state_refs_ok stc so) acc_o.

Definition obj_sim (rv : result (list State)) (ro : result (store * list StateObj))
  : Prop :=
  match rv with
  | Ok acc_v => exists stc acc_o, ro = Ok (stc, acc_o) /\ obj_inv stc acc_o acc_v
  | Raise e => ro = Raise e
  end.

End ObjectInvariant.

(** ** Sample positions *)

(** An identity function on strings that never collides: the string read
    as a number in base 256 below a leading 1. *)
Fixpoint string_code (s : string) : Z :=
  match s with
  | EmptyString => 1
  | String c s' => 256 * string_code s' + Z.of_nat (nat_of_ascii c)
  end.

Definition P_goal (x y : Z) : Piece := mkPiece true false x y None.
Definition P_single (x y : Z) : Piece := mkPiece false true x y None.
Definition P_h (x y : Z) : Piece := mkPiece false false x y (Some "h"%string).
Definition P_v (x y : Z) : Piece := mkPiece false false x y (Some "v"%string).

(** The goal piece alone, three moves above its target. *)
Definition solo_pieces : list Piece := [P_goal 1 0].
Definition solo_board : Board := board_of solo_pieces.

(** A small mixed position. *)
Definition mixed_pieces : list Piece :=
  [P_v 0 0; P_goal 1 0; P_h 1 2; P_single 0 4; P_single 3 4].
Definition mixed_board : Board := board_of mixed_pieces.

(** Two 1x1 pieces on the same cell. *)
Definition overlap_pieces : list Piece := [P_single 0 0; P_single 0 0].

(** The mixed position as objects: five pieces and one grid. *)
Definition mixed_store : store := mkStore mixed_pieces [grid mixed_board].

Definition mixed_state_obj : StateObj :=
  mkStateObj (mkBoardObj 4 5 [0; 1; 2; 3; 4]%nat 0%nat (1, 0)) 0 0 None
             (string_code (str_grid (grid mixed_board))).

(** The goal piece alone, in the top left corner, and every position it
    can be slid to. *)
Definition corner_board : Board := board_of [P_goal 0 0].

Definition lone_boards : list Board :=
  map (fun xy => board_of [P_goal (fst xy) (snd xy)])
      [(0, 0); (1, 0); (2, 0); (0, 1); (1, 1); (2, 1);
       (0, 2); (1, 2); (2, 2); (0, 3); (1, 3); (2, 3)].

(** The string hashes of two runs of CPython 3.11, started with
    [PYTHONHASHSEED=1] and with [PYTHONHASHSEED=2]. *)
Definition hash_run1 : string -> Z := PyHash.py_hash_seeded 1.
Definition hash_run2 : string -> Z := PyHash.py_hash_seeded 2.

(** ** Closed forms for [Board] on any piece list and for [read_from_file] *)

(** The coordinates Python's indexing accepts on a 4x5 grid: negative
    indices down to minus the length count from the end. *)
Definition in_wrap (c : Z * Z) : Prop :=
  (-4 <= fst c < 4) /\ (-5 <= snd c < 5).

#[global] Instance in_wrap_dec (c : Z * Z) : Decision (in_wrap c).
Proof. unfold in_wrap. apply _. Defined.

(** The cell an accepted write lands in. *)
Definition wrap_mark (m : (Z * Z) * ascii) : (Z * Z) * ascii :=
  ((fst (fst m) mod 4, snd (fst m) mod 5), snd m).

(** The grid [__construct_grid] ends with when none of its writes raises. *)
Definition wrapped_grid (ps : list Piece) : Grid :=
  fold_left write (map wrap_mark (all_marks ps)) (empty_grid 4 5).

Definition wrapped_board (ps : list Piece) : Board :=
  {| width := 4; height := 5; pieces := ps; grid := wrapped_grid ps;
     goal_piece_coordinates := goal_of ps |}.

(** The characters of a list of lines with their coordinates, in the
    order [read_from_file] visits them. *)
Fixpoint positioned (lines : list string) (y : Z) : list ((Z * Z) * ascii) :=
  match lines with
  | [] => []
  | line :: rest =>
      map (fun xc => ((fst xc, y), snd xc)) (enumerate_from 0 line)
      ++ positioned rest (y + 1)
  end.

(** The pieces [read_from_file] appends for a list of positioned
    characters; [found] is [g_found]. *)
Fixpoint pieces_from (l : list ((Z * Z) * ascii)) (found : bool) : list Piece :=
  match l with
  | [] => []
  | ((x, y), ch) :: l' =>
      if Ascii.eqb ch "^" then
        mkPiece false false x y (Some "v"%string) :: pieces_from l' found
      else if Ascii.eqb ch "<" then
        mkPiece false false x y (Some "h"%string) :: pieces_from l' found
      else if Ascii.eqb ch char_single then
        mkPiece false true x y None :: pieces_from l' found
      else if Ascii.eqb ch char_goal then
        if found then pieces_from l' found
        else mkPiece true false x y None :: pieces_from l' true
      else pieces_from l' found
  end.

(** Row-major order on coordinates. *)
Definition row_major (a b : Z * Z) : Prop :=
  snd a < snd b \/ (snd a = snd b /\ fst a < fst b).

Definition anchor (p : Piece) : Z * Z := (coord_x p, coord_y p).

(** A list of coordinates in strictly ascending row-major order. *)
Fixpoint ascending (l : list (Z * Z)) : Prop :=
  match l with
  | [] => True
  | a :: l' => Forall (row_major a) l' /\ ascending l'
  end.

#[global] Instance in_grid_dec (c : Z * Z) : Decision (in_grid c).
Proof. unfold in_grid. apply _. Defined.

(** The piece [read_from_file] builds for character [ch] at [(x, y)]. *)
Definition piece_for (ch : ascii) (x y : Z) : option Piece :=
  if Ascii.eqb ch "^" then Some (mkPiece false false x y (Some "v"%string))
  else if Ascii.eqb ch "<" then Some (mkPiece false false x y (Some "h"%string))
  else if Ascii.eqb ch char_single then Some (mkPiece false true x y None)
  else if Ascii.eqb ch char_goal then Some (mkPiece true false x y None)
  else None.


(** ** Invariants for the searches on boards without a solution *)

Section SearchCoverage.

Variable hash : string -> Z.
Variable is_heap : list State -> Prop.
Variables (b0 : Board) (fv d0 : Z) (par : option State).

Let root : State := State_init hash b0 fv d0 par.

Variable U : gset Z.

(** What [A_star] keeps whether or not a goal can be reached. *)
Definition A_term_inv (c : list State * gset Z) : Prop :=
  is_heap (fst c) /\ (forall s, s ∈ fst c -> lineage hash root s) /\ snd c ⊆ U.

(** Nothing reachable is lost by [DFS]: the initial board is visited or
    waits on the stack; a visited board is no goal, and each of its
    successors is visited or waits on the stack. *)
Definition covered (c : list State * gset Z) : Prop :=
  (id_of hash b0 ∈ snd c \/ exists s, s ∈ fst c /\ grid (board s) = grid b0) /\
  forall n b, slides hash n b0 b -> id_of hash b ∈ snd c ->
    ~ goal_board b /\
    forall b', next_board hash b b' ->
      id_of hash b' ∈ snd c \/ exists s, s ∈ fst c /\ grid (board s) = grid b'.

End SearchCoverage.

(** A board without an empty cell: the goal piece in the top left corner
    and sixteen 1x1 pieces. *)
Definition frozen_text : string :=
  String.append "1122" (String.append newline
  (String.append "1122" (String.append newline
  (String.append "2222" (String.append newline
  (String.append "2222" (String.append newline
  (String.append "2222" newline)))))))).

Definition frozen_board : Board := board_of (read_pieces frozen_text).


(** The direction that undoes a move. *)
Definition opposite (d : direction) : direction :=
  match d with
  | Up => Down
  | Down => Up
  | Left => Right
  | Right => Left
  end.

(** The coordinates of the twenty cells, row by row. *)
Definition grid_coords : list (Z * Z) :=
  flat_map (fun y => map (fun x => (x, y)) [0; 1; 2; 3]) [0; 1; 2; 3; 4].

(** The number of empty cells of a grid. *)
Definition count_empty (g : Grid) : nat :=
  length (List.filter (fun c => Ascii.eqb c char_empty) (concat g)).


(** ** Parent chains *)

(** A state followed by its ancestors, up to the state without parent. *)
Fixpoint path_to (s : State) : list State :=
  s :: match parent s with
       | Some p => path_to p
       | None => []
       end.

Definition ancestors (s : State) : list State :=
  match parent s with
  | Some p => path_to p
  | None => []
  end.

(** Every state that waits in the frontier has ancestors with pairwise
    different identities, all of them visited. *)
Definition anc_inv (c : list State * gset Z) : Prop :=
  forall s, s ∈ fst c ->
    NoDup (map id (ancestors s)) /\ forall a, a ∈ ancestors s -> id a ∈ snd c.


(** ** [Piece.__repr__] *)

(** [str] of a boolean, of an integer, and of the orientation, which is
    [None] or a string. *)
Definition str_bool (b : bool) : string :=
  if b then "True"%string else "False"%string.

Definition str_int (z : Z) : string := NilZero.string_of_int (Z.to_int z).

Definition str_orientation (o : option string) : string :=
  match o with
  | None => "None"%string
  | Some s => s
  end.

(** ['{} {} {} {} {}'.format(...)] *)
Definition Piece_repr (p : Piece) : string :=
  String.append (str_bool (is_goal p)) (String.append " "
  (String.append (str_bool (is_single p)) (String.append " "
  (String.append (str_int (coord_x p)) (String.append " "
  (String.append (str_int (coord_y p)) (String.append " "
  (str_orientation (orientation p))))))))).

(** A string without a space. *)
Fixpoint spaceless (s : string) : Prop :=
  match s with
  | EmptyString => True
  | String c rest => c <> " "%char /\ spaceless rest
  end.


(** ** Depth-first search as the specification words it *)

(** One pass of the loop, from one loop state [(stack, visited)] to the
    next: the state on top of the stack is popped; if its identity is
    visited it is dropped; otherwise, when it is no goal, its identity
    becomes visited, its successors are generated, and those whose
    identity is not visited by then are pushed in order. *)
Inductive DFS_step (hash : string -> Z)
  : list State * gset Z -> list State * gset Z -> Prop :=
| step_skip (rest : list State) (x : State) (visited : gset Z) :
    id x ∈ visited ->
    DFS_step hash (rest ++ [x], visited) (rest, visited)
| step_expand (rest : list State) (x : State) (visited : gset Z)
    (succs : list State) :
    id x ∉ visited -> goal_test x = false ->
    generate_successors hash x = Ok succs ->
    DFS_step hash (rest ++ [x], visited)
             (rest ++ filter (fun s => id s ∉ visited ∪ {[id x]}) succs,
              visited ∪ {[id x]}).

(** How the search ends at a loop state: with [None] on the empty stack,
    or with the state on top of the stack, when its identity is not
    visited and it passes [goal_test]. *)
Inductive DFS_result : list State * gset Z -> option State -> Prop :=
| result_none (visited : gset Z) : DFS_result ([], visited) None
| result_goal (rest : list State) (x : State) (visited : gset Z) :
    id x ∉ visited -> goal_test x = true ->
    DFS_result (rest ++ [x], visited) (Some x).

(** What every loop state of a run holds: stack entries built by the
    search from the initial state, and visited identities that belong to
    such states. *)
Definition DFS_run_inv (hash : string -> Z) (b0 : Board) (fv d0 : Z)
    (par : option State) (c : list State * gset Z) : Prop :=
  DFS_inv hash b0 fv d0 par (all_ids hash) c /\
  forall z, z ∈ snd c ->
    exists s, lineage hash (State_init hash b0 fv d0 par) s /\ id s = z.

(** ** Plain text files *)

(** Text on which the bytes of a file and the characters Python reads
    from it are the same, whatever the encoding of the locale: ASCII
    only, so that decoding cannot fail and keeps every column where it
    is, and no carriage return, so that text mode translates no line
    ending. *)
Definition plain_text (text : string) : bool :=
  forallb (fun c => (nat_of_ascii c <? 128)%nat
                    && negb (Ascii.eqb c (ascii_of_nat 13)))
          (list_ascii_of_string text).

(** An input with a piece character in a fifth column. *)
Definition wide_text : string := "....2".


(** * Proofs *)

(** ** Python list indexing *)

Lemma py_index_in_range (len : nat) (i : Z) :
  0 <= i < Z.of_nat len -> py_index len i = Ok (Z.to_nat i).
Proof.
  intros H. unfold py_index.
  destruct (0 <=? i) eqn:E1; [| lia].
  destruct (i <? Z.of_nat len) eqn:E2; [reflexivity | lia].
Qed.

Lemma py_get_in_range {A : Type} (l : list A) (i : Z) (a : A) :
  0 <= i -> l !! Z.to_nat i = Some a -> py_get l i = Ok a.
Proof.
  intros Hi Hl. unfold py_get.
  rewrite py_index_in_range.
  - simpl. rewrite Hl. reflexivity.
  - apply lookup_lt_Some in Hl. lia.
Qed.

Lemma py_set_in_range {A : Type} (l : list A) (i : Z) (v : A) :
  0 <= i < Z.of_nat (length l) -> py_set l i v = Ok (<[Z.to_nat i := v]> l).
Proof.
  intros H. unfold py_set. rewrite py_index_in_range by assumption. reflexivity.
Qed.

(** ** Grids of the right shape *)

Lemma shape_row (g : Grid) (y : Z) :
  shape g -> 0 <= y < 5 ->
  exists row, g !! Z.to_nat y = Some row /\ length row = 4%nat.
Proof.
  intros [Hl Hr] Hy.
  destruct (g !! Z.to_nat y) as [row|] eqn:E.
  - exists row. split; [reflexivity|].
    rewrite Forall_forall in Hr. apply Hr.
    eapply list_elem_of_lookup_2. eassumption.
  - apply lookup_ge_None in E. lia.
Qed.

Lemma grid_set_ok (g : Grid) (x y : Z) (c : ascii) :
  shape g -> in_grid (x, y) -> grid_set g x y c = Ok (upd g x y c).
Proof.
  intros Hs [Hx Hy]. simpl in Hx, Hy.
  destruct (shape_row g y Hs Hy) as (row & Hrow & Hlen).
  unfold grid_set, upd. rewrite Hrow.
  rewrite (py_get_in_range g y row) by (lia || assumption). simpl.
  rewrite py_set_in_range by lia. simpl.
  rewrite py_set_in_range; [reflexivity|]. destruct Hs. lia.
Qed.

Lemma upd_shape (g : Grid) (x y : Z) (c : ascii) :
  shape g -> shape (upd g x y c).
Proof.
  intros [Hl Hr]. unfold upd.
  destruct (g !! Z.to_nat y) as [row|] eqn:E; [| split; assumption].
  split.
  - rewrite length_insert. assumption.
  - apply Forall_insert; [assumption|]. cbv beta.
    rewrite length_insert.
    rewrite Forall_forall in Hr. apply Hr.
    eapply list_elem_of_lookup_2. eassumption.
Qed.

Lemma cell_upd_same (g : Grid) (x y : Z) (c : ascii) :
  shape g -> in_grid (x, y) -> cell (upd g x y c) x y = c.
Proof.
  intros Hs [Hx Hy]. simpl in Hx, Hy.
  destruct (shape_row g y Hs Hy) as (row & Hrow & Hlen).
  unfold cell, upd. rewrite Hrow.
  rewrite list_lookup_insert_eq by (destruct Hs; lia).
  rewrite list_lookup_insert_eq by lia. reflexivity.
Qed.

Lemma cell_upd_other (g : Grid) (x y x' y' : Z) (c : ascii) :
  0 <= x -> 0 <= y -> 0 <= x' -> 0 <= y' ->
  (x, y) <> (x', y') -> cell (upd g x y c) x' y' = cell g x' y'.
Proof.
  intros Hx Hy Hx' Hy' Hne.
  unfold cell, upd.
  destruct (g !! Z.to_nat y) as [row|] eqn:Hrow; [| reflexivity].
  destruct (decide (Z.to_nat y = Z.to_nat y')) as [Ey | Ny].
  - rewrite <- Ey.
    destruct (decide (Z.to_nat y < length g)%nat) as [Hlt | Hge].
    + rewrite list_lookup_insert_eq by assumption. rewrite Hrow.
      rewrite list_lookup_insert_ne; [reflexivity|].
      intros Ex. apply Hne. f_equal; lia.
    + apply lookup_lt_Some in Hrow. lia.
  - rewrite list_lookup_insert_ne by assumption. reflexivity.
Qed.

Lemma empty_grid_shape : shape (empty_grid 4 5).
Proof. split; [reflexivity | repeat constructor]. Qed.

Lemma empty_grid_cell (x y : Z) : cell (empty_grid 4 5) x y = char_empty.
Proof.
  unfold cell.
  destruct (empty_grid 4 5 !! Z.to_nat y) as [row|] eqn:E; [| reflexivity].
  assert (Hrow : row = repeat "."%char 4).
  { apply list_elem_of_lookup_2 in E. apply list_elem_of_In in E.
    unfold empty_grid in E. apply repeat_spec in E. exact E. }
  subst row.
  destruct (repeat "."%char 4 !! Z.to_nat x) as [c|] eqn:E2; [| reflexivity].
  apply list_elem_of_lookup_2 in E2. apply list_elem_of_In in E2.
  apply repeat_spec in E2. exact E2.
Qed.

(** Two grids of the right shape with the same cells are equal. *)
Lemma grid_ext (g1 g2 : Grid) :
  shape g1 -> shape g2 ->
  (forall x y, in_grid (x, y) -> cell g1 x y = cell g2 x y) ->
  g1 = g2.
Proof.
  intros [Hl1 Hr1] [Hl2 Hr2] Hc.
  apply list_eq_same_length with (n := 5%nat); try assumption.
  intros j r1 r2 Hj E1 E2.
  assert (Hlen1 : length r1 = 4%nat).
  { rewrite Forall_forall in Hr1. apply Hr1.
    eapply list_elem_of_lookup_2; eassumption. }
  assert (Hlen2 : length r2 = 4%nat).
  { rewrite Forall_forall in Hr2. apply Hr2.
    eapply list_elem_of_lookup_2; eassumption. }
  apply list_eq_same_length with (n := 4%nat); try assumption.
  intros i c1 c2 Hi F1 F2.
  specialize (Hc (Z.of_nat i) (Z.of_nat j)).
  unfold cell in Hc. rewrite !Nat2Z.id in Hc.
  rewrite E1, E2, F1, F2 in Hc. apply Hc.
  split; simpl; lia.
Qed.

(** ** [__construct_grid] in closed form *)

Lemma write_shape (g : Grid) (m : (Z * Z) * ascii) : shape g -> shape (write g m).
Proof. apply upd_shape. Qed.

Lemma fold_write_shape (ms : list ((Z * Z) * ascii)) (g : Grid) :
  shape g -> shape (fold_left write ms g).
Proof.
  revert g. induction ms as [|m ms IH]; intros g Hs; simpl; [assumption|].
  apply IH, write_shape, Hs.
Qed.

Lemma foldM_writes (ms : list ((Z * Z) * ascii)) (g : Grid) :
  shape g -> Forall in_grid (map fst ms) ->
  foldM (fun g' m => grid_set g' (fst (fst m)) (snd (fst m)) (snd m)) ms g
  = Ok (fold_left write ms g).
Proof.
  revert g. induction ms as [|[[x y] c] ms IH]; intros g Hs Hin; simpl; [reflexivity|].
  inversion Hin as [|? ? Hxy Hrest]; subst.
  rewrite grid_set_ok by assumption. simpl.
  apply IH; [apply upd_shape; assumption | assumption].
Qed.

Lemma place_piece_writes (g : Grid) (gc : Z * Z) (piece : Piece) :
  place_piece (g, gc) piece
  = (g' <- foldM (fun g' m => grid_set g' (fst (fst m)) (snd (fst m)) (snd m))
                 (marks piece) g ;;
     Ok (g', if is_goal piece then (coord_x piece, coord_y piece) else gc)).
Proof.
  unfold place_piece, marks.
  destruct (is_goal piece); simpl.
  { destruct (grid_set g _ _ _) as [g1|]; simpl; [| reflexivity].
    destruct (grid_set g1 _ _ _) as [g2|]; simpl; [| reflexivity].
    destruct (grid_set g2 _ _ _) as [g3|]; simpl; [| reflexivity].
    destruct (grid_set g3 _ _ _) as [g4|]; simpl; reflexivity. }
  destruct (is_single piece); simpl.
  { destruct (grid_set g _ _ _) as [g1|]; simpl; reflexivity. }
  destruct (orientation_is piece "h"); simpl.
  { destruct (grid_set g _ _ _) as [g1|]; simpl; [| reflexivity].
    destruct (grid_set g1 _ _ _) as [g2|]; simpl; reflexivity. }
  destruct (orientation_is piece "v"); simpl.
  { destruct (grid_set g _ _ _) as [g1|]; simpl; [| reflexivity].
    destruct (grid_set g1 _ _ _) as [g2|]; simpl; reflexivity. }
  reflexivity.
Qed.

Lemma construct_loop_ok (ps : list Piece) (g : Grid) (gc : Z * Z) :
  shape g -> Forall in_grid (cells ps) ->
  foldM place_piece ps (g, gc)
  = Ok (fold_left write (all_marks ps) g,
        fold_left (fun gc piece => if is_goal piece
                                   then (coord_x piece, coord_y piece) else gc)
                  ps gc).
Proof.
  revert g gc. induction ps as [|piece ps IH]; intros g gc Hs Hin; [reflexivity|].
  unfold cells, all_marks in Hin. simpl in Hin.
  rewrite map_app in Hin. apply Forall_app in Hin as [Hin1 Hin2].
  cbn [foldM]. rewrite place_piece_writes.
  rewrite foldM_writes by assumption. cbn [bind].
  rewrite IH; [| apply fold_write_shape; assumption | exact Hin2].
  unfold all_marks. simpl. rewrite fold_left_app. reflexivity.
Qed.

Lemma Board_init_ok (ps : list Piece) :
  Forall in_grid (cells ps) -> Board_init ps = Ok (board_of ps).
Proof.
  intros Hin. unfold Board_init, construct_grid.
  rewrite construct_loop_ok by (apply empty_grid_shape || assumption).
  reflexivity.
Qed.

Lemma grid_of_shape (ps : list Piece) : shape (grid_of ps).
Proof. apply fold_write_shape, empty_grid_shape. Qed.

(** ** What each cell of the grid holds *)

Lemma cell_fold_notin (ms : list ((Z * Z) * ascii)) (g : Grid) (x y : Z) :
  Forall in_grid (map fst ms) -> in_grid (x, y) ->
  (x, y) ∉ map fst ms ->
  cell (fold_left write ms g) x y = cell g x y.
Proof.
  revert g. induction ms as [|[[x' y'] c] ms IH]; intros g Hin Hxy Hnot; simpl; [reflexivity|].
  simpl in Hin. inversion Hin as [|? ? [Hx' Hy'] Hrest]; subst. simpl in Hx', Hy'.
  simpl in Hnot. rewrite not_elem_of_cons in Hnot. destruct Hnot as [Hne Hnot].
  rewrite IH by assumption.
  unfold write. simpl. destruct Hxy as [Hx Hy]. simpl in Hx, Hy.
  apply cell_upd_other; try lia. congruence.
Qed.

Lemma cell_fold_in (ms : list ((Z * Z) * ascii)) (g : Grid) (x y : Z) (c : ascii) :
  shape g -> Forall in_grid (map fst ms) -> NoDup (map fst ms) ->
  ((x, y), c) ∈ ms ->
  cell (fold_left write ms g) x y = c.
Proof.
  revert g. induction ms as [|[[x' y'] c'] ms IH]; intros g Hs Hin Hnd Hel.
  - inversion Hel.
  - simpl in Hin, Hnd. inversion Hin as [|? ? Hxy' Hrest]; subst.
    apply NoDup_cons in Hnd as [Hnotin Hnd].
    apply elem_of_cons in Hel as [Heq | Hel]; simpl.
    + inversion Heq; subst x' y' c'.
      rewrite cell_fold_notin by assumption.
      unfold write. simpl. apply cell_upd_same; assumption.
    + apply IH; try assumption. apply write_shape, Hs.
Qed.

Lemma grid_of_mark (ps : list Piece) (x y : Z) (c : ascii) :
  Forall in_grid (cells ps) -> NoDup (cells ps) ->
  ((x, y), c) ∈ all_marks ps -> cell (grid_of ps) x y = c.
Proof.
  intros Hin Hnd Hel. unfold grid_of.
  apply cell_fold_in; try assumption. apply empty_grid_shape.
Qed.

Lemma grid_of_free (ps : list Piece) (x y : Z) :
  Forall in_grid (cells ps) -> in_grid (x, y) ->
  (x, y) ∉ cells ps -> cell (grid_of ps) x y = char_empty.
Proof.
  intros Hin Hxy Hnot. unfold grid_of.
  rewrite cell_fold_notin by assumption. apply empty_grid_cell.
Qed.

Lemma marks_not_empty (piece : Piece) (xy : Z * Z) (c : ascii) :
  (xy, c) ∈ marks piece -> c <> char_empty.
Proof.
  unfold marks.
  destruct (is_goal piece); [| destruct (is_single piece);
    [| destruct (orientation_is piece "h"); [| destruct (orientation_is piece "v")]]];
  intros H; repeat (apply elem_of_cons in H as [H | H]; [inversion H; subst; discriminate|]);
  inversion H.
Qed.

Lemma all_marks_not_empty (ps : list Piece) (xy : Z * Z) (c : ascii) :
  (xy, c) ∈ all_marks ps -> c <> char_empty.
Proof.
  unfold all_marks. intros H. apply list_elem_of_In, in_flat_map in H.
  destruct H as (piece & _ & H). apply list_elem_of_In in H.
  eapply marks_not_empty; eassumption.
Qed.

(** A cell of a valid grid is empty exactly when no piece covers it. *)
Lemma grid_of_empty_iff (ps : list Piece) (x y : Z) :
  Forall in_grid (cells ps) -> NoDup (cells ps) -> in_grid (x, y) ->
  cell (grid_of ps) x y = char_empty <-> (x, y) ∉ cells ps.
Proof.
  intros Hin Hnd Hxy. split.
  - intros Hc Hel. unfold cells in Hel.
    apply list_elem_of_fmap in Hel as ([xy c] & Heq & Hel). simpl in Heq. subst xy.
    pose proof (grid_of_mark ps x y c Hin Hnd Hel) as Hm.
    apply all_marks_not_empty in Hel. congruence.
  - apply grid_of_free; assumption.
Qed.

(** ** Pieces, kinds and footprints *)

Lemma wf_marks_footprint (piece : Piece) :
  wf_piece piece -> map fst (marks piece) = footprint piece.
Proof.
  unfold wf_piece, marks, footprint, kind_of, orientation_is.
  destruct (is_goal piece), (is_single piece), (orientation piece) as [o|];
    try contradiction; try reflexivity.
  intros [-> | ->]; reflexivity.
Qed.

Lemma cells_cons (piece : Piece) (ps : list Piece) :
  cells (piece :: ps) = map fst (marks piece) ++ cells ps.
Proof. unfold cells, all_marks. simpl. apply map_app. Qed.

Lemma cells_app (l1 l2 : list Piece) : cells (l1 ++ l2) = cells l1 ++ cells l2.
Proof.
  induction l1 as [|piece l1 IH]; [reflexivity|].
  simpl. rewrite !cells_cons, IH, app_assoc. reflexivity.
Qed.

Lemma cells_split (l1 l2 : list Piece) (piece : Piece) :
  wf_piece piece ->
  cells (l1 ++ piece :: l2) = cells l1 ++ footprint piece ++ cells l2.
Proof.
  intros Hwf. rewrite cells_app, cells_cons, wf_marks_footprint by assumption.
  reflexivity.
Qed.

Lemma anchor_in_footprint (piece : Piece) :
  (coord_x piece, coord_y piece) ∈ footprint piece.
Proof. unfold footprint. destruct (kind_of piece); apply list_elem_of_here. Qed.

Lemma kind_of_move (piece : Piece) (d : direction) :
  kind_of (move_piece piece d) = kind_of piece.
Proof. destruct d; reflexivity. Qed.

Lemma wf_move (piece : Piece) (d : direction) :
  wf_piece piece -> wf_piece (move_piece piece d).
Proof. destruct d; intros H; exact H. Qed.

Lemma is_goal_move (piece : Piece) (d : direction) :
  is_goal (move_piece piece d) = is_goal piece.
Proof. destruct d; reflexivity. Qed.

Lemma footprint_NoDup (piece : Piece) : NoDup (footprint piece).
Proof.
  unfold footprint. destruct (kind_of piece);
    repeat (apply NoDup_cons; split;
            [rewrite ?elem_of_cons, elem_of_nil;
             intros H; decompose [or] H; try contradiction;
             match goal with E : (_, _) = (_, _) |- _ => inversion E; lia end |]);
    apply NoDup_nil_2.
Qed.

Lemma footprint_cells (ps : list Piece) (piece : Piece) (c : Z * Z) :
  Forall wf_piece ps -> piece ∈ ps -> c ∈ footprint piece -> c ∈ cells ps.
Proof.
  intros Hwf Hel Hc.
  apply list_elem_of_split in Hel as (l1 & l2 & ->).
  rewrite cells_split.
  - rewrite !elem_of_app. auto.
  - rewrite Forall_forall in Hwf. apply Hwf. rewrite elem_of_app, elem_of_cons. auto.
Qed.

Lemma cells_footprint (ps : list Piece) (c : Z * Z) :
  Forall wf_piece ps -> c ∈ cells ps ->
  exists piece, piece ∈ ps /\ c ∈ footprint piece.
Proof.
  induction ps as [|piece ps IH]; intros Hwf Hc.
  - inversion Hc.
  - inversion Hwf as [|? ? Hw Hrest]; subst.
    rewrite cells_cons, wf_marks_footprint in Hc by assumption.
    apply elem_of_app in Hc as [Hc | Hc].
    + exists piece. split; [apply list_elem_of_here | assumption].
    + destruct (IH Hrest Hc) as (q & Hq & Hcq).
      exists q. split; [apply list_elem_of_further|]; assumption.
Qed.

(** ** Where [get_new_state] finds the piece *)

Lemma move_first_skip (l1 l2 : list Piece) (piece : Piece) (d : direction) :
  (forall q, q ∈ l1 -> (coord_x q, coord_y q) <> (coord_x piece, coord_y piece)) ->
  move_first (l1 ++ piece :: l2) (coord_x piece) (coord_y piece) d
  = l1 ++ move_piece piece d :: l2.
Proof.
  induction l1 as [|q l1 IH]; intros Hne; simpl.
  - rewrite !Z.eqb_refl. reflexivity.
  - destruct ((coord_x q =? coord_x piece) && (coord_y q =? coord_y piece)) eqn:E.
    + exfalso. apply andb_prop in E as [E1 E2].
      apply (Hne q); [apply list_elem_of_here|]. f_equal; lia.
    + rewrite IH; [reflexivity|].
      intros q' Hq'. apply Hne. apply list_elem_of_further. assumption.
Qed.

Lemma valid_split_anchor (l1 l2 : list Piece) (piece : Piece) :
  Forall wf_piece (l1 ++ piece :: l2) -> NoDup (cells (l1 ++ piece :: l2)) ->
  forall q, q ∈ l1 -> (coord_x q, coord_y q) <> (coord_x piece, coord_y piece).
Proof.
  intros Hwf Hnd q Hq Heq.
  assert (Hwp : wf_piece piece).
  { rewrite Forall_forall in Hwf. apply Hwf. rewrite elem_of_app, elem_of_cons. auto. }
  rewrite cells_split in Hnd by assumption.
  apply NoDup_app in Hnd as (_ & Hdisj & _).
  apply (Hdisj (coord_x q, coord_y q)).
  - apply footprint_cells with (piece := q); [| assumption | apply anchor_in_footprint].
    apply Forall_app in Hwf as [H1 _]. exact H1.
  - rewrite elem_of_app. left. rewrite Heq. apply anchor_in_footprint.
Qed.

Lemma moved_pieces_split (ps : list Piece) (piece : Piece) (d : direction) :
  Forall wf_piece ps -> NoDup (cells ps) -> piece ∈ ps ->
  exists l1 l2, ps = l1 ++ piece :: l2 /\
    move_first ps (coord_x piece) (coord_y piece) d = l1 ++ move_piece piece d :: l2.
Proof.
  intros Hwf Hnd Hel.
  apply list_elem_of_split in Hel as (l1 & l2 & ->).
  exists l1, l2. split; [reflexivity|].
  apply move_first_skip. eapply valid_split_anchor; eassumption.
Qed.

(** ** The guards of [generate_successors] are the slide condition *)

Lemma free_spec (b : Board) (x y : Z) :
  free b x y = true <-> in_grid (x, y) /\ cell (grid b) x y = char_empty.
Proof.
  unfold free, cvs_val, in_grid. simpl.
  destruct (0 <=? x) eqn:E1, (x <? 4) eqn:E2, (0 <=? y) eqn:E3, (y <? 5) eqn:E4;
    simpl; try (split; [discriminate | lia]).
  destruct (Ascii.eqb (cell (grid b) x y) char_empty) eqn:E5; simpl.
  - apply Ascii.eqb_eq in E5. split; [intros _; split; [lia | assumption] | reflexivity].
  - apply Ascii.eqb_neq in E5. split; [discriminate | intros [_ H]; contradiction].
Qed.

Ltac cell_member :=
  repeat rewrite elem_of_cons;
  first [ left; f_equal; lia | right; cell_member ].

Ltac cell_not_member :=
  let Hm := fresh "Hm" in
  intros Hm; repeat rewrite elem_of_cons in Hm; rewrite elem_of_nil in Hm;
  decompose [or] Hm; try contradiction;
  match goal with E : (_, _) = (_, _) |- _ => inversion E; lia end.

Lemma free_cell_transport (g : Grid) (a b a' b' : Z) :
  a' = a -> b' = b ->
  in_grid (a, b) /\ cell g a b = char_empty ->
  in_grid (a', b') /\ cell g a' b' = char_empty.
Proof. intros -> ->. exact (fun H => H). Qed.

Ltac use_free_cell H :=
  first [ refine (free_cell_transport _ _ _ _ _ _ _ H); lia
        | refine (free_cell_transport _ _ _ _ _ _ _ (proj1 H)); lia
        | refine (free_cell_transport _ _ _ _ _ _ _ (proj2 H)); lia ].

Lemma can_move_slide_ok (b : Board) (piece : Piece) (d : direction) :
  can_move b piece d = true <-> slide_ok b piece d.
Proof.
  unfold can_move, slide_ok, footprint. rewrite kind_of_move.
  destruct (kind_of piece), d; cbn [move_piece coord_x coord_y];
    rewrite ?andb_true_iff, !free_spec;
    (split;
     [ intros H c Hc Hn;
       repeat (apply elem_of_cons in Hc as [-> | Hc]);
       try (inversion Hc; fail);
       cbn [fst snd];
       try (exfalso; apply Hn; cell_member; fail);
       use_free_cell H
     | intros H;
       match goal with |- (_ /\ _) /\ _ => split | _ => idtac end;
       match goal with
       | |- in_grid (?a, ?b) /\ _ =>
           refine (H (a, b) _ _); [cell_member | cell_not_member]
       end ]).
Qed.

(** ** A legal slide keeps the placement invariants *)

Lemma board_inv_eq (b : Board) : board_inv b -> b = board_of (pieces b).
Proof.
  intros [Hv Hb]. rewrite Board_init_ok in Hb by apply Hv. congruence.
Qed.

Lemma filter_goal_split (l1 l2 : list Piece) (piece piece' : Piece) :
  is_goal piece' = is_goal piece ->
  length (List.filter is_goal (l1 ++ piece' :: l2))
  = length (List.filter is_goal (l1 ++ piece :: l2)).
Proof.
  intros E. rewrite !List.filter_app, !length_app. simpl. rewrite E.
  destruct (is_goal piece); reflexivity.
Qed.

Lemma slide_cells (ps : list Piece) (piece : Piece) (d : direction) (c : Z * Z) :
  Forall in_grid (cells ps) -> NoDup (cells ps) -> Forall wf_piece ps ->
  piece ∈ ps -> slide_ok (board_of ps) piece d ->
  c ∈ footprint (move_piece piece d) ->
  in_grid c /\ (c ∈ footprint piece \/ c ∉ cells ps).
Proof.
  intros Hin Hnd Hwf Hel Hok Hc.
  destruct (decide (c ∈ footprint piece)) as [Hold | Hnew].
  - split; [| left; assumption].
    rewrite Forall_forall in Hin. apply Hin.
    eapply footprint_cells; eassumption.
  - destruct (Hok c Hc Hnew) as [Hg Hempty].
    split; [assumption | right].
    destruct c as [x y]. simpl in Hempty.
    apply grid_of_empty_iff in Hempty; assumption.
Qed.

Lemma slide_valid (l1 l2 : list Piece) (piece : Piece) (d : direction) :
  valid_pieces (l1 ++ piece :: l2) ->
  slide_ok (board_of (l1 ++ piece :: l2)) piece d ->
  valid_pieces (l1 ++ move_piece piece d :: l2).
Proof.
  intros [Hwf Hin Hnd Hgoal] Hok.
  assert (Hel : piece ∈ l1 ++ piece :: l2).
  { rewrite elem_of_app, elem_of_cons. auto. }
  assert (Hwp : wf_piece piece).
  { rewrite Forall_forall in Hwf. apply Hwf, Hel. }
  pose proof (fun c => slide_cells _ piece d c Hin Hnd Hwf Hel Hok) as Hc.
  rewrite cells_split in Hin, Hnd, Hc by assumption.
  apply Forall_app in Hin as [Hin1 Hin2]. apply Forall_app in Hin2 as [_ Hin2].
  apply NoDup_app in Hnd as (Hnd1 & Hd1 & Hnd2).
  apply NoDup_app in Hnd2 as (_ & Hd2 & Hnd2).
  constructor.
  - apply Forall_app in Hwf as [Hw1 Hw2]. inversion Hw2; subst.
    apply Forall_app. split; [assumption|].
    constructor; [apply wf_move|]; assumption.
  - rewrite cells_split by (apply wf_move; assumption).
    apply Forall_app. split; [assumption|]. apply Forall_app. split; [| assumption].
    rewrite Forall_forall. intros c Hcm. apply Hc, Hcm.
  - rewrite cells_split by (apply wf_move; assumption).
    apply NoDup_app. split; [assumption|]. split.
    + intros c Hc1 Hc2. apply elem_of_app in Hc2 as [Hc2 | Hc2].
      * destruct (Hc c Hc2) as [_ [Hold | Hnew]].
        -- apply (Hd1 c Hc1). rewrite elem_of_app. auto.
        -- apply Hnew. rewrite elem_of_app. auto.
      * apply (Hd1 c Hc1). rewrite elem_of_app. auto.
    + apply NoDup_app. split; [apply footprint_NoDup|]. split; [| assumption].
      intros c Hc1 Hc2. destruct (Hc c Hc1) as [_ [Hold | Hnew]].
      * apply (Hd2 c Hold Hc2).
      * apply Hnew. rewrite !elem_of_app. auto.
  - rewrite <- Hgoal. apply filter_goal_split, is_goal_move.
Qed.

Lemma moved_pieces_valid (b : Board) (piece : Piece) (d : direction) :
  board_inv b -> piece ∈ pieces b -> can_move b piece d = true ->
  valid_pieces (moved_pieces b piece d).
Proof.
  intros Hb Hel Hmv.
  pose proof Hb as [Hv _].
  destruct (moved_pieces_split (pieces b) piece d) as (l1 & l2 & Hps & Hmf);
    try apply Hv; try assumption.
  unfold moved_pieces. rewrite Hmf.
  apply can_move_slide_ok in Hmv.
  rewrite (board_inv_eq b Hb), Hps in Hmv.
  rewrite Hps in Hv.
  apply slide_valid; assumption.
Qed.

Lemma board_of_inv (ps : list Piece) : valid_pieces ps -> board_inv (board_of ps).
Proof.
  intros Hv. split; [exact Hv|]. simpl. apply Board_init_ok, Hv.
Qed.

(** ** [generate_successors] on a valid board *)

Lemma check_valid_spot_ok (state : State) (x y : Z) :
  board_inv (board state) ->
  check_valid_spot state x y = Ok (cvs_val (board state) x y).
Proof.
  intros Hb. pose proof (board_inv_eq _ Hb) as E.
  assert (Hw : width (board state) = 4) by (rewrite E; reflexivity).
  assert (Hh : height (board state) = 5) by (rewrite E; reflexivity).
  assert (Hs : shape (grid (board state))) by (rewrite E; apply grid_of_shape).
  unfold check_valid_spot, cvs_val. rewrite Hw, Hh.
  destruct (((0 <=? x) && (x <? 4)) && ((0 <=? y) && (y <? 5))) eqn:Hr; [| reflexivity].
  assert (Hx : 0 <= x < 4) by lia. assert (Hy : 0 <= y < 5) by lia.
  destruct (shape_row _ y Hs Hy) as (row & Hrow & Hlen).
  rewrite (py_get_in_range _ y row) by (lia || assumption). cbn [bind].
  destruct (row !! Z.to_nat x) as [c|] eqn:Hc.
  - rewrite (py_get_in_range _ x c) by (lia || assumption). cbn [bind].
    unfold cell. rewrite Hrow, Hc.
    destruct (Ascii.eqb c char_empty); reflexivity.
  - apply lookup_ge_None in Hc. lia.
Qed.

Lemma py_and_ok (a b : option bool) :
  py_and (Ok a) (Ok b) = Ok (if truthy a then b else a).
Proof. unfold py_and. simpl. destruct (truthy a); reflexivity. Qed.

Lemma truthy_and (a b : option bool) :
  truthy (if truthy a then b else a) = truthy a && truthy b.
Proof. destruct a as [[|]|]; reflexivity. Qed.

Section SuccessorsRefinement.

Variable hash : string -> Z.

Lemma get_new_state_ok (state : State) (piece : Piece) (d : direction) :
  board_inv (board state) -> piece ∈ pieces (board state) ->
  can_move (board state) piece d = true ->
  get_new_state hash state (coord_x piece) (coord_y piece) d
  = Ok (successor hash state piece d).
Proof.
  intros Hb Hel Hmv. unfold get_new_state.
  pose proof (moved_pieces_valid _ piece d Hb Hel Hmv) as Hv.
  unfold moved_pieces in Hv.
  rewrite Board_init_ok by apply Hv. reflexivity.
Qed.

Lemma attempt_one (state : State) (x y : Z) (piece : Piece) (d : direction)
    (acc : list State) (s : State) :
  board_inv (board state) ->
  (free (board state) x y = true ->
   get_new_state hash state (coord_x piece) (coord_y piece) d = Ok s) ->
  attempt hash state (check_valid_spot state x y) piece d acc
  = Ok (acc ++ (if free (board state) x y then [s] else [])).
Proof.
  intros Hb Hg. unfold attempt.
  rewrite check_valid_spot_ok by assumption. cbn [bind].
  fold (free (board state) x y).
  destruct (free (board state) x y).
  - rewrite Hg by reflexivity. reflexivity.
  - rewrite app_nil_r. reflexivity.
Qed.

Lemma attempt_two (state : State) (x1 y1 x2 y2 : Z) (piece : Piece)
    (d : direction) (acc : list State) (s : State) :
  board_inv (board state) ->
  (free (board state) x1 y1 && free (board state) x2 y2 = true ->
   get_new_state hash state (coord_x piece) (coord_y piece) d = Ok s) ->
  attempt hash state
    (py_and (check_valid_spot state x1 y1) (check_valid_spot state x2 y2))
    piece d acc
  = Ok (acc ++ (if free (board state) x1 y1 && free (board state) x2 y2
                then [s] else [])).
Proof.
  intros Hb Hg. unfold attempt.
  rewrite !check_valid_spot_ok by assumption. rewrite py_and_ok. cbn [bind].
  rewrite truthy_and.
  fold (free (board state) x1 y1). fold (free (board state) x2 y2).
  destruct (free (board state) x1 y1 && free (board state) x2 y2).
  - rewrite Hg by reflexivity. reflexivity.
  - rewrite app_nil_r. reflexivity.
Qed.

Lemma try_piece_ok (state : State) (acc : list State) (piece : Piece) :
  board_inv (board state) -> piece ∈ pieces (board state) ->
  try_piece hash state acc piece = Ok (acc ++ piece_successors hash state piece).
Proof.
  intros Hb Hel.
  pose proof (fun d => get_new_state_ok state piece d Hb Hel) as Hg.
  unfold piece_successors, all_directions.
  cbn [flat_map]. rewrite app_nil_r.
  generalize (Hg Up), (Hg Down), (Hg Left), (Hg Right). clear Hg.
  generalize (successor hash state piece Up), (successor hash state piece Down),
    (successor hash state piece Left), (successor hash state piece Right).
  intros sU sD sL sR.
  unfold try_piece, can_move, kind_of.
  destruct (is_goal piece);
    [| destruct (orientation_is piece "h");
       [| destruct (orientation_is piece "v")]];
    intros HU HD HL HR.
  - rewrite (attempt_two _ _ _ _ _ _ _ _ sU Hb HU). cbn [bind].
    rewrite (attempt_two _ _ _ _ _ _ _ _ sD Hb HD). cbn [bind].
    rewrite (attempt_two _ _ _ _ _ _ _ _ sL Hb HL). cbn [bind].
    rewrite (attempt_two _ _ _ _ _ _ _ _ sR Hb HR).
    rewrite <- !app_assoc. reflexivity.
  - rewrite (attempt_two _ _ _ _ _ _ _ _ sU Hb HU). cbn [bind].
    rewrite (attempt_two _ _ _ _ _ _ _ _ sD Hb HD). cbn [bind].
    rewrite (attempt_one _ _ _ _ _ _ sL Hb HL). cbn [bind].
    rewrite (attempt_one _ _ _ _ _ _ sR Hb HR).
    rewrite <- !app_assoc. reflexivity.
  - rewrite (attempt_one _ _ _ _ _ _ sU Hb HU). cbn [bind].
    rewrite (attempt_one _ _ _ _ _ _ sD Hb HD). cbn [bind].
    rewrite (attempt_two _ _ _ _ _ _ _ _ sL Hb HL). cbn [bind].
    rewrite (attempt_two _ _ _ _ _ _ _ _ sR Hb HR).
    rewrite <- !app_assoc. reflexivity.
  - rewrite (attempt_one _ _ _ _ _ _ sU Hb HU). cbn [bind].
    rewrite (attempt_one _ _ _ _ _ _ sD Hb HD). cbn [bind].
    rewrite (attempt_one _ _ _ _ _ _ sL Hb HL). cbn [bind].
    rewrite (attempt_one _ _ _ _ _ _ sR Hb HR).
    rewrite <- !app_assoc. reflexivity.
Qed.

Lemma generate_loop_ok (state : State) (l : list Piece) (acc : list State) :
  board_inv (board state) -> (forall piece, piece ∈ l -> piece ∈ pieces (board state)) ->
  foldM (try_piece hash state) l acc
  = Ok (acc ++ flat_map (piece_successors hash state) l).
Proof.
  intros Hb. revert acc. induction l as [|piece l IH]; intros acc Hsub.
  - simpl. rewrite app_nil_r. reflexivity.
  - cbn [foldM flat_map].
    rewrite try_piece_ok; [| assumption | apply Hsub, list_elem_of_here].
    cbn [bind]. rewrite IH.
    + rewrite <- app_assoc. reflexivity.
    + intros q Hq. apply Hsub, list_elem_of_further, Hq.
Qed.

(** On a valid board, [generate_successors] does not raise and returns
    the closed-form list. *)
Lemma generate_successors_ok (state : State) :
  board_inv (board state) ->
  generate_successors hash state = Ok (successors hash state).
Proof.
  intros Hb. unfold generate_successors, successors.
  rewrite generate_loop_ok; [reflexivity | assumption | auto].
Qed.

End SuccessorsRefinement.

(** ** Membership in the closed-form successor list *)

Section SuccessorFacts.

Variable hash : string -> Z.

Lemma successors_as_moves (state : State) :
  successors hash state
  = map (fun pd => successor hash state (fst pd) (snd pd))
        (legal_moves (board state)).
Proof.
  unfold successors, legal_moves.
  induction (pieces (board state)) as [|piece ps IH]; [reflexivity|].
  cbn [flat_map]. rewrite map_app, <- IH. f_equal.
  unfold piece_successors, all_directions. cbn [flat_map].
  destruct (can_move (board state) piece Up), (can_move (board state) piece Down),
    (can_move (board state) piece Left), (can_move (board state) piece Right);
    reflexivity.
Qed.

Lemma legal_moves_iff (b : Board) (piece : Piece) (d : direction) :
  (piece, d) ∈ legal_moves b <-> piece ∈ pieces b /\ can_move b piece d = true.
Proof.
  unfold legal_moves. rewrite list_elem_of_In, in_flat_map. split.
  - intros (q & Hq & Hin). apply in_flat_map in Hin as (d' & _ & Hin).
    destruct (can_move b q d') eqn:E; [| inversion Hin].
    destruct Hin as [Heq | []]. inversion Heq; subst.
    split; [apply list_elem_of_In|]; assumption.
  - intros [Hel Hmv]. exists piece. split; [apply list_elem_of_In, Hel|].
    apply in_flat_map. exists d. split.
    + destruct d; simpl; auto.
    + rewrite Hmv. left. reflexivity.
Qed.

Lemma in_successors (state s : State) :
  s ∈ successors hash state <->
  exists piece d, piece ∈ pieces (board state) /\
                  can_move (board state) piece d = true /\
                  s = successor hash state piece d.
Proof.
  rewrite successors_as_moves, list_elem_of_fmap. split.
  - intros ([piece d] & -> & Hin). apply legal_moves_iff in Hin as [Hel Hmv].
    exists piece, d. auto.
  - intros (piece & d & Hel & Hmv & ->). exists (piece, d).
    split; [reflexivity|]. apply legal_moves_iff. auto.
Qed.

Lemma successor_inv (state : State) (piece : Piece) (d : direction) :
  board_inv (board state) -> piece ∈ pieces (board state) ->
  can_move (board state) piece d = true ->
  board_inv (board (successor hash state piece d)).
Proof.
  intros Hb Hel Hmv. unfold successor. cbn [State_init board].
  apply board_of_inv, moved_pieces_valid; assumption.
Qed.

End SuccessorFacts.

(** ** No move is generated twice *)

Lemma valid_NoDup_pieces (ps : list Piece) :
  Forall wf_piece ps -> NoDup (cells ps) -> NoDup ps.
Proof.
  induction ps as [|piece ps IH]; intros Hwf Hnd; [apply NoDup_nil_2|].
  inversion Hwf as [|? ? Hw Hrest]; subst.
  rewrite cells_cons, wf_marks_footprint in Hnd by assumption.
  apply NoDup_app in Hnd as (_ & Hdisj & Hnd).
  apply NoDup_cons. split; [| apply IH; assumption].
  intros Hel. apply (Hdisj (coord_x piece, coord_y piece)).
  - apply anchor_in_footprint.
  - eapply footprint_cells; [eassumption | eassumption | apply anchor_in_footprint].
Qed.

Lemma NoDup_flat_map {A B : Type} (g : A -> list B) (l : list A) :
  NoDup l -> (forall x, x ∈ l -> NoDup (g x)) ->
  (forall x y z, x ∈ l -> y ∈ l -> x <> y -> z ∈ g x -> z ∉ g y) ->
  NoDup (flat_map g l).
Proof.
  induction l as [|a l IH]; intros Hnd Hg Hdisj; [apply NoDup_nil_2|].
  apply NoDup_cons in Hnd as [Ha Hnd]. cbn [flat_map].
  apply NoDup_app. split; [apply Hg, list_elem_of_here|]. split.
  - intros z Hz Hz'. apply list_elem_of_In, in_flat_map in Hz' as (y & Hy & Hzy).
    apply list_elem_of_In in Hy, Hzy.
    apply (Hdisj a y z); try assumption.
    + apply list_elem_of_here.
    + apply list_elem_of_further, Hy.
    + intros ->. contradiction.
  - apply IH; [assumption | |].
    + intros x Hx. apply Hg, list_elem_of_further, Hx.
    + intros x y z Hx Hy. apply Hdisj; apply list_elem_of_further; assumption.
Qed.

Lemma legal_moves_NoDup (b : Board) :
  NoDup (pieces b) -> NoDup (legal_moves b).
Proof.
  intros Hnd. unfold legal_moves. apply NoDup_flat_map; [assumption | |].
  - intros piece _. unfold all_directions. cbn [flat_map].
    destruct (can_move b piece Up), (can_move b piece Down),
      (can_move b piece Left), (can_move b piece Right); cbn [app];
      repeat (apply NoDup_cons; split;
              [rewrite ?elem_of_cons, elem_of_nil; intros H;
               decompose [or] H; try contradiction; discriminate |]);
      apply NoDup_nil_2.
  - intros p q z _ _ Hne Hz Hz'.
    apply list_elem_of_In, in_flat_map in Hz as (d & _ & Hz).
    apply list_elem_of_In, in_flat_map in Hz' as (d' & _ & Hz').
    destruct (can_move b p d); [| inversion Hz].
    destruct (can_move b q d'); [| inversion Hz'].
    destruct Hz as [<- | []]. destruct Hz' as [Heq | []].
    inversion Heq. congruence.
Qed.

(** ** The move generator (C3, C4) *)

(** C3. On a state whose board satisfies the placement invariants,
    [generate_successors] returns one state for each pair of a piece of
    the board and a direction such that every cell of the moved footprint
    that the piece does not already occupy is inside the grid and empty,
    and nothing else: the returned list is the image of a duplicate-free
    list of such (piece, direction) pairs; each returned state has the
    input's depth plus one, the input as parent, and the board built from
    the input's pieces with exactly that piece shifted by one cell. *)
Theorem generate_successors_exact (hash : string -> Z) (state : State) :
  board_inv (board state) ->
  exists moves,
    generate_successors hash state
    = Ok (map (fun pd => successor hash state (fst pd) (snd pd)) moves) /\
    NoDup moves /\
    (forall piece d, (piece, d) ∈ moves <->
                     piece ∈ pieces (board state) /\ slide_ok (board state) piece d) /\
    (forall piece d, (piece, d) ∈ moves ->
       let s := successor hash state piece d in
       depth s = depth state + 1 /\ parent s = Some state /\
       Board_init (pieces (board s)) = Ok (board s) /\
       exists l1 l2, pieces (board state) = l1 ++ piece :: l2 /\
                     pieces (board s) = l1 ++ move_piece piece d :: l2).
Proof.
  intros Hb. exists (legal_moves (board state)).
  pose proof Hb as [Hv _].
  split; [| split; [| split]].
  - rewrite generate_successors_ok by assumption.
    rewrite successors_as_moves. reflexivity.
  - apply legal_moves_NoDup, valid_NoDup_pieces; apply Hv.
  - intros piece d. rewrite legal_moves_iff, can_move_slide_ok. reflexivity.
  - intros piece d Hin. apply legal_moves_iff in Hin as [Hel Hmv].
    cbn zeta. split; [reflexivity|]. split; [reflexivity|]. split.
    + apply (successor_inv hash state piece d Hb Hel Hmv).
    + destruct (moved_pieces_split (pieces (board state)) piece d) as (l1 & l2 & E1 & E2);
        try apply Hv; try assumption.
      exists l1, l2. split; [assumption|]. exact E2.
Qed.

(** C4. Every board produced by [generate_successors] from a board that
    satisfies the placement invariants satisfies them again. *)
Theorem generate_successors_preserves_invariants (hash : string -> Z) (state : State) :
  board_inv (board state) ->
  exists l, generate_successors hash state = Ok l /\
            forall s, s ∈ l ->
                      valid_pieces (pieces (board s)) /\ board_inv (board s).
Proof.
  intros Hb. exists (successors hash state).
  split; [apply generate_successors_ok, Hb|].
  intros s Hs. apply in_successors in Hs as (piece & d & Hel & Hmv & ->).
  pose proof (successor_inv hash state piece d Hb Hel Hmv) as Hi.
  split; [apply Hi | exact Hi].
Qed.

(** ** The goal piece's coordinates *)

Lemma goal_of_app (l1 l2 : list Piece) :
  goal_of (l1 ++ l2)
  = fold_left (fun gc piece => if is_goal piece
                               then (coord_x piece, coord_y piece) else gc)
              l2 (goal_of l1).
Proof. unfold goal_of. apply fold_left_app. Qed.

Lemma goal_fold_none (l : list Piece) (gc : Z * Z) :
  List.filter is_goal l = [] ->
  fold_left (fun gc piece => if is_goal piece
                             then (coord_x piece, coord_y piece) else gc) l gc = gc.
Proof.
  revert gc. induction l as [|q l IH]; intros gc Hf; [reflexivity|].
  simpl in *. destruct (is_goal q); [discriminate|]. apply IH, Hf.
Qed.

Lemma goal_of_split (l1 l2 : list Piece) (g : Piece) :
  is_goal g = true -> List.filter is_goal l2 = [] ->
  goal_of (l1 ++ g :: l2) = (coord_x g, coord_y g).
Proof.
  intros Hg Hf. rewrite goal_of_app. simpl. rewrite Hg.
  apply goal_fold_none, Hf.
Qed.

Lemma one_goal_split (l1 l2 : list Piece) (g : Piece) :
  length (List.filter is_goal (l1 ++ g :: l2)) = 1%nat -> is_goal g = true ->
  List.filter is_goal l1 = [] /\ List.filter is_goal l2 = [].
Proof.
  intros Hlen Hg. rewrite List.filter_app, length_app in Hlen.
  simpl in Hlen. rewrite Hg in Hlen. simpl in Hlen.
  destruct (List.filter is_goal l1), (List.filter is_goal l2);
    simpl in Hlen; try lia. split; reflexivity.
Qed.

Lemma goal_of_in (ps : list Piece) (g : Piece) :
  length (List.filter is_goal ps) = 1%nat -> g ∈ ps -> is_goal g = true ->
  goal_of ps = (coord_x g, coord_y g).
Proof.
  intros Hlen Hel Hg. apply list_elem_of_split in Hel as (l1 & l2 & ->).
  apply goal_of_split; [assumption|].
  eapply one_goal_split; eassumption.
Qed.

Lemma one_goal_exists (ps : list Piece) :
  length (List.filter is_goal ps) = 1%nat ->
  exists g, g ∈ ps /\ is_goal g = true.
Proof.
  intros Hlen. destruct (List.filter is_goal ps) as [|g l] eqn:E; [discriminate|].
  assert (Hin : In g (List.filter is_goal ps)) by (rewrite E; left; reflexivity).
  apply List.filter_In in Hin as [Hin Hg].
  exists g. split; [apply list_elem_of_In|]; assumption.
Qed.

(** ** One slide changes the heuristic by at most one *)

Lemma slide_step_inv (b b' : Board) :
  board_inv b -> slide_step b b' -> board_inv b'.
Proof.
  intros Hb (piece & d & Hel & Hmv & ->).
  apply board_of_inv, moved_pieces_valid; assumption.
Qed.

Lemma slide_step_goal (b b' : Board) :
  board_inv b -> slide_step b b' ->
  Z.abs (fst (goal_piece_coordinates b') - fst (goal_piece_coordinates b))
  + Z.abs (snd (goal_piece_coordinates b') - snd (goal_piece_coordinates b)) <= 1.
Proof.
  intros Hb (piece & d & Hel & Hmv & ->).
  pose proof (moved_pieces_valid b piece d Hb Hel Hmv) as Hv'.
  pose proof Hb as [Hv _].
  assert (Eg : goal_piece_coordinates b = goal_of (pieces b)).
  { rewrite (board_inv_eq b Hb) at 1. reflexivity. }
  rewrite Eg. cbn [board_of goal_piece_coordinates].
  destruct (moved_pieces_split (pieces b) piece d) as (l1 & l2 & E1 & E2);
    try apply Hv; try assumption.
  unfold moved_pieces in *. rewrite E2 in *.
  destruct (one_goal_exists (pieces b) (vp_goal _ Hv)) as (g & Hg & Hgoal).
  destruct (is_goal piece) eqn:Hp.
  - rewrite (goal_of_in _ piece (vp_goal _ Hv) Hel Hp).
    rewrite (goal_of_in _ (move_piece piece d) (vp_goal _ Hv')).
    + destruct d; simpl; lia.
    + rewrite elem_of_app, elem_of_cons. auto.
    + rewrite is_goal_move. assumption.
  - assert (Hg' : g ∈ l1 ++ move_piece piece d :: l2).
    { rewrite E1 in Hg. rewrite elem_of_app, elem_of_cons in *.
      destruct Hg as [? | [-> | ?]]; auto. congruence. }
    rewrite (goal_of_in _ g (vp_goal _ Hv) Hg Hgoal).
    rewrite (goal_of_in _ g (vp_goal _ Hv') Hg' Hgoal).
    lia.
Qed.

Lemma slide_step_h (b b' : Board) :
  board_inv b -> slide_step b b' ->
  Z.abs (manhattan_distance b' - manhattan_distance b) <= 1.
Proof.
  intros Hb Hs. pose proof (slide_step_goal b b' Hb Hs) as H.
  unfold manhattan_distance. lia.
Qed.

Section StateSpaceFacts.

Variable hash : string -> Z.

Lemma next_board_slide (b b' : Board) :
  board_inv b -> (next_board hash b b' <-> slide_step b b').
Proof.
  intros Hb. split.
  - intros (state & l & s & <- & Hgen & Hs & <-).
    rewrite generate_successors_ok in Hgen by assumption.
    inversion Hgen; subst l.
    apply in_successors in Hs as (piece & d & Hel & Hmv & ->).
    exists piece, d. auto.
  - intros (piece & d & Hel & Hmv & ->).
    exists (State_init hash b 0 0 None), (successors hash (State_init hash b 0 0 None)),
      (successor hash (State_init hash b 0 0 None) piece d).
    split; [reflexivity|]. split; [apply generate_successors_ok; exact Hb|].
    split; [| reflexivity].
    apply in_successors. exists piece, d. auto.
Qed.

Lemma next_board_inv (b b' : Board) :
  board_inv b -> next_board hash b b' -> board_inv b'.
Proof.
  intros Hb Hn. apply next_board_slide in Hn; [| assumption].
  eapply slide_step_inv; eassumption.
Qed.

Lemma slides_inv (n : nat) (b b' : Board) :
  slides hash n b b' -> board_inv b -> board_inv b'.
Proof.
  induction 1 as [|n b b1 b2 Hn Hs IH]; intros Hb; [assumption|].
  apply IH. eapply next_board_inv; eassumption.
Qed.

(** The heuristic is consistent along any path. *)
Lemma slides_h (n : nat) (b b' : Board) :
  slides hash n b b' -> board_inv b ->
  manhattan_distance b <= Z.of_nat n + manhattan_distance b'.
Proof.
  induction 1 as [|n b b1 b2 Hn Hs IH]; intros Hb; [lia|].
  pose proof (next_board_inv _ _ Hb Hn) as Hb1.
  specialize (IH Hb1).
  apply next_board_slide in Hn; [| assumption].
  pose proof (slide_step_h _ _ Hb Hn). lia.
Qed.

Lemma goal_board_h (b : Board) : goal_board b -> manhattan_distance b = 0.
Proof. unfold goal_board, manhattan_distance. intros ->. reflexivity. Qed.

Lemma slides_app (n m : nat) (b1 b2 b3 : Board) :
  slides hash n b1 b2 -> slides hash m b2 b3 -> slides hash (n + m) b1 b3.
Proof.
  induction 1 as [|n b b1 b2 Hn Hs IH]; intros H2; [exact H2|].
  simpl. eapply slides_step; [eassumption | apply IH, H2].
Qed.

Lemma slides_snoc (n : nat) (b1 b2 b3 : Board) :
  slides hash n b1 b2 -> next_board hash b2 b3 -> slides hash (S n) b1 b3.
Proof.
  intros H1 H2. replace (S n) with (n + 1)%nat by lia.
  eapply slides_app; [eassumption|].
  eapply slides_step; [eassumption | apply slides_refl].
Qed.

End StateSpaceFacts.

(** C2. On a board that satisfies the placement invariants,
    [manhattan_distance] is [|gx - 1| + |gy - 3|] for the top-left corner
    [(gx, gy)] of the goal piece, and it never exceeds the number of moves
    of any sequence of moves that leads from the board to one whose goal
    piece is at [(1, 3)]. *)
Theorem manhattan_distance_admissible (hash : string -> Z) (b : Board) :
  board_inv b ->
  (forall g, g ∈ pieces b -> is_goal g = true ->
             manhattan_distance b
             = Z.abs (coord_x g - 1) + Z.abs (coord_y g - 3)) /\
  (forall n b', slides hash n b b' -> goal_board b' ->
                manhattan_distance b <= Z.of_nat n).
Proof.
  intros Hb. split.
  - intros g Hg Hgoal. pose proof Hb as [Hv _].
    assert (Eg : goal_piece_coordinates b = goal_of (pieces b)).
    { rewrite (board_inv_eq b Hb) at 1. reflexivity. }
    unfold manhattan_distance. rewrite Eg.
    rewrite (goal_of_in _ g (vp_goal _ Hv) Hg Hgoal). reflexivity.
  - intros n b' Hs Hgoal.
    pose proof (slides_h hash n b b' Hs Hb) as H.
    rewrite (goal_board_h b' Hgoal) in H. lia.
Qed.

(** ** The grid depends on the pieces as a multiset *)

Lemma all_marks_perm (ps1 ps2 : list Piece) :
  ps1 ≡ₚ ps2 -> all_marks ps1 ≡ₚ all_marks ps2.
Proof. intros H. unfold all_marks. apply Permutation_flat_map, H. Qed.

Lemma cells_perm (ps1 ps2 : list Piece) : ps1 ≡ₚ ps2 -> cells ps1 ≡ₚ cells ps2.
Proof. intros H. unfold cells. apply Permutation_map, all_marks_perm, H. Qed.

Lemma cell_has_mark (ps : list Piece) (xy : Z * Z) :
  xy ∈ cells ps -> exists c, (xy, c) ∈ all_marks ps.
Proof.
  unfold cells. intros H. apply list_elem_of_fmap in H as ([xy' c] & -> & H).
  exists c. exact H.
Qed.

Lemma mark_has_cell (ps : list Piece) (xy : Z * Z) (c : ascii) :
  (xy, c) ∈ all_marks ps -> xy ∈ cells ps.
Proof.
  intros H. unfold cells. apply list_elem_of_fmap. exists (xy, c). auto.
Qed.

(** Two placements with the same marks draw the same grid. *)
Lemma grid_of_same_marks (ps1 ps2 : list Piece) :
  Forall in_grid (cells ps1) -> NoDup (cells ps1) ->
  Forall in_grid (cells ps2) -> NoDup (cells ps2) ->
  (forall m, m ∈ all_marks ps1 <-> m ∈ all_marks ps2) ->
  grid_of ps1 = grid_of ps2.
Proof.
  intros Hin1 Hnd1 Hin2 Hnd2 Hsame.
  apply grid_ext; try apply grid_of_shape.
  intros x y Hxy.
  destruct (decide ((x, y) ∈ cells ps1)) as [Hc | Hc].
  - destruct (cell_has_mark _ _ Hc) as (c & Hm).
    rewrite (grid_of_mark ps1 x y c) by assumption.
    symmetry. apply grid_of_mark; try assumption. apply Hsame, Hm.
  - rewrite (grid_of_free ps1) by assumption.
    symmetry. apply grid_of_free; try assumption.
    intros Hc2. apply Hc.
    destruct (cell_has_mark _ _ Hc2) as (c & Hm).
    apply Hsame in Hm. eapply mark_has_cell, Hm.
Qed.

Lemma grid_of_perm (ps1 ps2 : list Piece) :
  ps1 ≡ₚ ps2 -> Forall in_grid (cells ps1) -> NoDup (cells ps1) ->
  grid_of ps1 = grid_of ps2.
Proof.
  intros Hp Hin Hnd.
  pose proof (cells_perm _ _ Hp) as Hcp.
  apply grid_of_same_marks; try assumption.
  - rewrite <- Hcp. assumption.
  - rewrite <- Hcp. assumption.
  - intros m. rewrite (all_marks_perm _ _ Hp). reflexivity.
Qed.

(** C10. The identity of a state is the hash of the string form of its
    board's grid, so states whose boards have equal grids have equal
    identities; and for piece lists that are permutations of each other,
    with cells inside the grid and pairwise disjoint, the boards built by
    [Board] have equal grids, hence their states equal identities. *)
Theorem state_id_permutation (hash : string -> Z) (ps1 ps2 : list Piece)
    (b1 b2 : Board) :
  ps1 ≡ₚ ps2 -> Forall in_grid (cells ps1) -> NoDup (cells ps1) ->
  Board_init ps1 = Ok b1 -> Board_init ps2 = Ok b2 ->
  (forall b fv d p, id (State_init hash b fv d p) = hash (str_grid (grid b))) /\
  (forall b b' fv d p fv' d' p',
      grid b = grid b' ->
      id (State_init hash b fv d p) = id (State_init hash b' fv' d' p')) /\
  grid b1 = grid b2 /\
  (forall fv d p fv' d' p',
      id (State_init hash b1 fv d p) = id (State_init hash b2 fv' d' p')).
Proof.
  intros Hp Hin Hnd H1 H2.
  assert (Hin2 : Forall in_grid (cells ps2)) by (rewrite <- (cells_perm _ _ Hp); exact Hin).
  rewrite Board_init_ok in H1, H2 by assumption.
  inversion H1; inversion H2; subst b1 b2.
  assert (Hg : grid (board_of ps1) = grid (board_of ps2)).
  { cbn [board_of grid]. apply grid_of_perm; assumption. }
  split; [reflexivity|]. split; [| split; [exact Hg|]].
  - intros b b' fv d p fv' d' p' E. cbn [State_init id]. rewrite E. reflexivity.
  - intros fv d p fv' d' p'. cbn [State_init id]. rewrite Hg. reflexivity.
Qed.

(** ** [Board] does not validate its pieces *)

(** C5, as the code has it.  [Board] succeeds on every piece list whose
    drawn cells lie inside the grid, whether or not pieces overlap and
    whatever the number of goal pieces; the board it returns has the
    given pieces, the grid drawn from them in order, and the coordinates
    of the last goal piece (or [(0, 0)]).  In particular it succeeds on
    every valid configuration. *)
Theorem Board_init_unchecked (ps : list Piece) :
  Forall in_grid (cells ps) -> Board_init ps = Ok (board_of ps).
Proof. apply Board_init_ok. Qed.

(** The only exception [Board] can raise is [IndexError]. *)
Lemma grid_set_raises (g : Grid) (x y : Z) (c : ascii) (e : exn) :
  grid_set g x y c = Raise e -> e = IndexError.
Proof.
  unfold grid_set, py_get, py_set, py_index.
  repeat match goal with
         | |- context [if ?b then _ else _] => destruct b; cbn [bind]
         | |- context [match ?o with Some _ => _ | None => _ end] =>
             destruct o; cbn [bind]
         end; congruence.
Qed.

(** ** Boards with the same grid have the same pieces *)

Lemma piece_of_mark (ps : list Piece) (m : (Z * Z) * ascii) :
  m ∈ all_marks ps -> exists q, q ∈ ps /\ m ∈ marks q.
Proof.
  unfold all_marks. intros H. apply list_elem_of_In, in_flat_map in H as (q & Hq & Hm).
  exists q. split; apply list_elem_of_In; assumption.
Qed.

Lemma mark_of_piece (ps : list Piece) (q : Piece) (m : (Z * Z) * ascii) :
  q ∈ ps -> m ∈ marks q -> m ∈ all_marks ps.
Proof.
  intros Hq Hm. unfold all_marks. apply list_elem_of_In, in_flat_map.
  exists q. split; apply list_elem_of_In; assumption.
Qed.

Lemma mark_transfer (ps1 ps2 : list Piece) (m : (Z * Z) * ascii) :
  valid_pieces ps1 -> valid_pieces ps2 -> grid_of ps1 = grid_of ps2 ->
  m ∈ all_marks ps1 -> m ∈ all_marks ps2.
Proof.
  intros [_ Hin1 Hnd1 _] [_ Hin2 Hnd2 _] Hg Hm.
  destruct m as [[x y] c].
  assert (Hxy : in_grid (x, y)).
  { rewrite Forall_forall in Hin1. eapply Hin1, mark_has_cell, Hm. }
  pose proof (grid_of_mark ps1 x y c Hin1 Hnd1 Hm) as Hc.
  assert (Hne : c <> char_empty) by (eapply all_marks_not_empty, Hm).
  rewrite Hg in Hc.
  destruct (decide ((x, y) ∈ cells ps2)) as [Hel | Hnel].
  - destruct (cell_has_mark _ _ Hel) as (c' & Hm').
    pose proof (grid_of_mark ps2 x y c' Hin2 Hnd2 Hm') as Hc'.
    congruence.
  - rewrite (grid_of_free ps2) in Hc by assumption. congruence.
Qed.

Ltac mark_cases H :=
  repeat (apply elem_of_cons in H as [H | H]; [inversion H; clear H |]);
  try (apply elem_of_nil in H; contradiction).

Lemma marks_share_nongoal (p q : Piece) (m : (Z * Z) * ascii) :
  wf_piece p -> wf_piece q -> is_goal p = false ->
  m ∈ marks p -> m ∈ marks q -> q = p.
Proof.
  destruct p as [gp sp xp yp op], q as [gq sq xq yq oq].
  unfold wf_piece, marks, orientation_is. cbn.
  intros Hp Hq ->.
  destruct sp, op as [op|]; try contradiction;
    destruct gq, sq, oq as [oq|]; try contradiction;
    try (destruct Hp as [-> | ->]); try (destruct Hq as [-> | ->]); cbn;
    intros H1 H2; mark_cases H1; subst; mark_cases H2; subst;
    try discriminate; f_equal; lia.
Qed.

Lemma marks_goal_char (q : Piece) (xy : Z * Z) :
  wf_piece q -> (xy, char_goal) ∈ marks q ->
  is_goal q = true /\ xy ∈ footprint q.
Proof.
  intros Hwf Hm. split.
  - destruct q as [gq sq xq yq oq]. unfold wf_piece, marks, orientation_is in *.
    cbn in *. destruct gq; [reflexivity|].
    destruct sq, oq as [oq|]; try contradiction;
      try (destruct Hwf as [-> | ->]); cbn in Hm; mark_cases Hm; discriminate.
  - rewrite <- wf_marks_footprint by assumption.
    apply list_elem_of_fmap. exists (xy, char_goal). auto.
Qed.

Lemma wf_goal_eq (p q : Piece) :
  wf_piece p -> wf_piece q -> is_goal p = true -> is_goal q = true ->
  coord_x p = coord_x q -> coord_y p = coord_y q -> p = q.
Proof.
  destruct p as [gp sp xp yp op], q as [gq sq xq yq oq].
  unfold wf_piece. cbn. intros Hp Hq -> -> -> ->.
  destruct sp, op, sq, oq; try contradiction. reflexivity.
Qed.

Lemma goal_unique (ps : list Piece) (p q : Piece) :
  valid_pieces ps -> p ∈ ps -> q ∈ ps -> is_goal p = true -> is_goal q = true ->
  p = q.
Proof.
  intros Hv Hp Hq Hgp Hgq.
  pose proof (goal_of_in ps p (vp_goal _ Hv) Hp Hgp) as E1.
  pose proof (goal_of_in ps q (vp_goal _ Hv) Hq Hgq) as E2.
  rewrite E1 in E2. inversion E2.
  pose proof (vp_wf _ Hv) as Hwf. rewrite Forall_forall in Hwf.
  apply wf_goal_eq; auto.
Qed.

Lemma goal_marks (p : Piece) :
  is_goal p = true ->
  ((coord_x p, coord_y p), char_goal) ∈ marks p /\
  ((coord_x p + 1, coord_y p + 1), char_goal) ∈ marks p.
Proof.
  intros Hg. unfold marks. rewrite Hg. split.
  - apply list_elem_of_here.
  - do 3 apply list_elem_of_further. apply list_elem_of_here.
Qed.

Lemma goal_footprint (q : Piece) (x y : Z) :
  is_goal q = true -> (x, y) ∈ footprint q ->
  coord_x q <= x <= coord_x q + 1 /\ coord_y q <= y <= coord_y q + 1.
Proof.
  intros Hg. unfold footprint, kind_of. rewrite Hg.
  intros H. repeat (apply elem_of_cons in H as [H | H]; [inversion H; lia |]).
  inversion H.
Qed.

Lemma same_grid_pieces (ps1 ps2 : list Piece) (p : Piece) :
  valid_pieces ps1 -> valid_pieces ps2 -> grid_of ps1 = grid_of ps2 ->
  p ∈ ps1 -> p ∈ ps2.
Proof.
  intros Hv1 Hv2 Hg Hp.
  pose proof (vp_wf _ Hv1) as Hwf1. rewrite Forall_forall in Hwf1.
  pose proof (vp_wf _ Hv2) as Hwf2. rewrite Forall_forall in Hwf2.
  destruct (is_goal p) eqn:Hgp.
  - destruct (goal_marks p Hgp) as [Hm1 Hm2].
    pose proof (mark_transfer _ _ _ Hv1 Hv2 Hg (mark_of_piece _ _ _ Hp Hm1)) as Ht1.
    pose proof (mark_transfer _ _ _ Hv1 Hv2 Hg (mark_of_piece _ _ _ Hp Hm2)) as Ht2.
    apply piece_of_mark in Ht1 as (q1 & Hq1 & Hmq1).
    apply piece_of_mark in Ht2 as (q2 & Hq2 & Hmq2).
    apply marks_goal_char in Hmq1 as [Hg1 Hf1]; [| auto].
    apply marks_goal_char in Hmq2 as [Hg2 Hf2]; [| auto].
    assert (q2 = q1) by (eapply goal_unique; eassumption). subst q2.
    apply goal_footprint in Hf1; [| assumption].
    apply goal_footprint in Hf2; [| assumption].
    assert (p = q1) as ->; [| assumption].
    apply wf_goal_eq; auto; lia.
  - assert (Hex : exists m, m ∈ marks p).
    { pose proof (anchor_in_footprint p) as Ha.
      rewrite <- wf_marks_footprint in Ha by auto.
      apply list_elem_of_fmap in Ha as (m & _ & Hm). exists m. exact Hm. }
    destruct Hex as (m & Hm).
    pose proof (mark_transfer _ _ _ Hv1 Hv2 Hg (mark_of_piece _ _ _ Hp Hm)) as Ht.
    apply piece_of_mark in Ht as (q & Hq & Hmq).
    assert (q = p) as ->; [| assumption].
    eapply marks_share_nongoal; eauto.
Qed.

Lemma same_grid_perm (ps1 ps2 : list Piece) :
  valid_pieces ps1 -> valid_pieces ps2 -> grid_of ps1 = grid_of ps2 ->
  ps1 ≡ₚ ps2.
Proof.
  intros Hv1 Hv2 Hg.
  apply NoDup_Permutation.
  - apply valid_NoDup_pieces; apply Hv1.
  - apply valid_NoDup_pieces; apply Hv2.
  - intros p. split; apply same_grid_pieces; auto.
Qed.

Lemma same_grid_goal (b1 b2 : Board) :
  board_inv b1 -> board_inv b2 -> grid b1 = grid b2 ->
  goal_piece_coordinates b1 = goal_piece_coordinates b2.
Proof.
  intros Hb1 Hb2 Hg.
  pose proof Hb1 as [Hv1 _]. pose proof Hb2 as [Hv2 _].
  assert (E1 : b1 = board_of (pieces b1)) by (apply board_inv_eq, Hb1).
  assert (E2 : b2 = board_of (pieces b2)) by (apply board_inv_eq, Hb2).
  assert (Hg' : grid_of (pieces b1) = grid_of (pieces b2)).
  { rewrite E1, E2 in Hg. exact Hg. }
  destruct (one_goal_exists _ (vp_goal _ Hv1)) as (g & Hel & Hgoal).
  pose proof (same_grid_pieces _ _ g Hv1 Hv2 Hg' Hel) as Hel2.
  rewrite E1, E2. cbn [board_of goal_piece_coordinates].
  rewrite (goal_of_in _ g (vp_goal _ Hv1) Hel Hgoal).
  rewrite (goal_of_in _ g (vp_goal _ Hv2) Hel2 Hgoal). reflexivity.
Qed.

Lemma can_move_same_grid (b1 b2 : Board) (p : Piece) (d : direction) :
  grid b1 = grid b2 -> can_move b1 p d = can_move b2 p d.
Proof.
  intros Hg. unfold can_move, free, cvs_val. rewrite Hg. reflexivity.
Qed.

(** Moves from boards with the same grid lead to boards with the same grid. *)
Lemma slide_step_same_grid (b1 b2 c1 : Board) :
  board_inv b1 -> board_inv b2 -> grid b1 = grid b2 -> slide_step b1 c1 ->
  exists c2, slide_step b2 c2 /\ grid c1 = grid c2.
Proof.
  intros Hb1 Hb2 Hg (p & d & Hel & Hmv & ->).
  pose proof Hb1 as [Hv1 _]. pose proof Hb2 as [Hv2 _].
  assert (Hg' : grid_of (pieces b1) = grid_of (pieces b2)).
  { rewrite (board_inv_eq b1 Hb1), (board_inv_eq b2 Hb2) in Hg. exact Hg. }
  pose proof (same_grid_pieces _ _ p Hv1 Hv2 Hg' Hel) as Hel2.
  assert (Hmv2 : can_move b2 p d = true).
  { rewrite <- (can_move_same_grid b1 b2) by assumption. exact Hmv. }
  exists (board_of (moved_pieces b2 p d)). split.
  - exists p, d. auto.
  - cbn [board_of grid].
    pose proof (moved_pieces_valid b1 p d Hb1 Hel Hmv) as Hv1'.
    pose proof (moved_pieces_valid b2 p d Hb2 Hel2 Hmv2) as Hv2'.
    apply grid_of_perm; [| apply Hv1' | apply Hv1'].
    unfold moved_pieces.
    destruct (moved_pieces_split (pieces b1) p d) as (l1 & l2 & E1 & ->);
      try apply Hv1; try assumption.
    destruct (moved_pieces_split (pieces b2) p d) as (m1 & m2 & E2 & ->);
      try apply Hv2; try assumption.
    pose proof (same_grid_perm _ _ Hv1 Hv2 Hg') as Hperm.
    rewrite E1, E2 in Hperm.
    rewrite <- !Permutation_middle in Hperm.
    apply Permutation_cons_inv in Hperm.
    rewrite <- !Permutation_middle. apply Permutation_cons; [reflexivity | exact Hperm].
Qed.

(** ** Loops run with fuel *)

Lemma while_loop_mono {C R : Type} (body : C -> result (step C R))
    (n m : nat) (c : C) (r : result R) :
  while_loop body n c = Some r -> (n <= m)%nat -> while_loop body m c = Some r.
Proof.
  revert m c. induction n as [|n IH]; intros m c H Hle; [discriminate|].
  destruct m as [|m]; [lia|]. simpl in *.
  destruct (body c) as [[c' | r'] | e]; try assumption.
  apply IH; [assumption | lia].
Qed.

(** Partial correctness from an invariant. *)
Lemma while_loop_partial {C R : Type} (body : C -> result (step C R))
    (Inv : C -> Prop) (Post : R -> Prop) :
  (forall c, Inv c ->
             match body c with
             | Ok (Return r) => Post r
             | Ok (Continue c') => Inv c'
             | Raise _ => True
             end) ->
  forall fuel c r, Inv c -> while_loop body fuel c = Some (Ok r) -> Post r.
Proof.
  intros Hstep. induction fuel as [|fuel IH]; intros c r Hc H; [discriminate|].
  simpl in H. specialize (Hstep c Hc).
  destruct (body c) as [[c' | r'] | e].
  - exact (IH c' r Hstep H).
  - inversion H; subst. exact Hstep.
  - discriminate.
Qed.

(** Total correctness from an invariant and a lexicographic measure. *)
Lemma while_loop_total {C R : Type} (body : C -> result (step C R))
    (Inv : C -> Prop) (Post : R -> Prop) (m1 m2 : C -> nat) :
  (forall c, Inv c ->
     (exists r, body c = Ok (Return r) /\ Post r) \/
     (exists c', body c = Ok (Continue c') /\ Inv c' /\
                 ((m1 c' < m1 c)%nat \/ (m1 c' <= m1 c /\ m2 c' < m2 c)%nat))) ->
  forall c, Inv c -> exists fuel r, while_loop body fuel c = Some (Ok r) /\ Post r.
Proof.
  intros Hstep.
  assert (H : forall a b c, m1 c = a -> m2 c = b -> Inv c ->
                            exists fuel r, while_loop body fuel c = Some (Ok r) /\ Post r).
  { induction a as [a IHa] using lt_wf_ind.
    induction b as [b IHb] using lt_wf_ind.
    intros c Ea Eb Hc.
    destruct (Hstep c Hc) as [(r & Hbody & Hpost) | (c' & Hbody & Hc' & Hdec)].
    - exists 1%nat, r. simpl. rewrite Hbody. auto.
    - assert (Hrec : exists fuel r, while_loop body fuel c' = Some (Ok r) /\ Post r).
      { destruct (decide (m1 c' < m1 c)%nat) as [Hlt | Hge].
        - apply (IHa (m1 c')) with (b := m2 c'); [lia | reflexivity | reflexivity | assumption].
        - apply (IHb (m2 c')); [lia | lia | reflexivity | assumption]. }
      destruct Hrec as (fuel & r & Hrun & Hpost).
      exists (S fuel), r. simpl. rewrite Hbody. auto. }
  intros c Hc. eapply H; eauto.
Qed.

(** The last loop state of a finished run is the one the body left from. *)
Lemma while_trace_last {C R : Type} (body : C -> result (step C R))
    (fuel : nat) (c : C) (res : result R) :
  while_loop body fuel c = Some res ->
  exists cl, last (while_trace body fuel c) = Some cl /\
             match res with
             | Ok r => body cl = Ok (Return r)
             | Raise e => body cl = Raise e
             end.
Proof.
  revert c. induction fuel as [|fuel IH]; intros c H; [discriminate|].
  simpl in *. destruct (body c) as [[c' | r] | e] eqn:E.
  - destruct (IH c' H) as (cl & Hl & Hb). exists cl. split; [| exact Hb].
    destruct (while_trace body fuel c') eqn:Et; [discriminate|].
    rewrite last_cons. rewrite Hl. reflexivity.
  - inversion H; subst. exists c. split; [reflexivity | exact E].
  - inversion H; subst. exists c. split; [reflexivity | exact E].
Qed.

(** ** All grids *)

Lemma words_spec {A : Type} (sigma : list A) (n : nat) (l : list A) :
  l ∈ words sigma n <-> length l = n /\ Forall (fun a => a ∈ sigma) l.
Proof.
  revert l. induction n as [|n IH]; intros l; simpl.
  - rewrite list_elem_of_singleton. split.
    + intros ->. split; [reflexivity | constructor].
    + intros [Hl _]. destruct l; [reflexivity | discriminate].
  - rewrite list_elem_of_In, in_flat_map. split.
    + intros (a & Ha & Hin). apply in_map_iff in Hin as (l' & <- & Hl').
      apply list_elem_of_In, IH in Hl' as [Hlen Hall].
      split; [simpl; lia|]. constructor; [apply list_elem_of_In|]; assumption.
    + intros [Hlen Hall]. destruct l as [|a l]; [discriminate|].
      inversion Hall; subst. exists a. split; [apply list_elem_of_In; assumption|].
      apply in_map. apply list_elem_of_In, IH. split; [simpl in Hlen; lia | assumption].
Qed.

Lemma upd_alphabet (g : Grid) (x y : Z) (c : ascii) :
  c ∈ alphabet -> over_alphabet g -> over_alphabet (upd g x y c).
Proof.
  intros Hc Hg. unfold upd, over_alphabet in *.
  destruct (g !! Z.to_nat y) as [row|] eqn:E; [| assumption].
  apply Forall_insert; [assumption|].
  apply Forall_insert; [| assumption].
  rewrite Forall_forall in Hg. apply Hg.
  eapply list_elem_of_lookup_2; eassumption.
Qed.

Lemma marks_alphabet (piece : Piece) (m : (Z * Z) * ascii) :
  m ∈ marks piece -> snd m ∈ alphabet.
Proof.
  unfold marks.
  destruct (is_goal piece); [| destruct (is_single piece);
    [| destruct (orientation_is piece "h"); [| destruct (orientation_is piece "v")]]];
  intros H; mark_cases H; subst; cbn; unfold alphabet;
  repeat first [apply list_elem_of_here | apply list_elem_of_further].
Qed.

Lemma fold_write_alphabet (ms : list ((Z * Z) * ascii)) (g : Grid) :
  Forall (fun m => snd m ∈ alphabet) ms -> over_alphabet g ->
  over_alphabet (fold_left write ms g).
Proof.
  revert g. induction ms as [|m ms IH]; intros g Hms Hg; [assumption|].
  inversion Hms; subst. simpl. apply IH; [assumption|].
  apply upd_alphabet; assumption.
Qed.

Lemma grid_of_all_grids (ps : list Piece) : grid_of ps ∈ all_grids.
Proof.
  unfold all_grids. apply words_spec.
  pose proof (grid_of_shape ps) as [Hlen Hrows]. split; [assumption|].
  assert (Ha : over_alphabet (grid_of ps)).
  { unfold grid_of. apply fold_write_alphabet.
    - rewrite Forall_forall. intros m Hm.
      apply piece_of_mark in Hm as (q & _ & Hm). eapply marks_alphabet, Hm.
    - unfold empty_grid. simpl. repeat constructor. }
  unfold over_alphabet in Ha. rewrite Forall_forall in *.
  intros row Hrow. apply words_spec. split; [apply Hrows, Hrow|].
  apply Ha, Hrow.
Qed.

Lemma id_of_all_ids (hash : string -> Z) (b : Board) :
  board_inv b -> id_of hash b ∈ all_ids hash.
Proof.
  intros Hb. unfold all_ids, id_of. apply elem_of_list_to_set.
  apply list_elem_of_fmap. exists (grid b). split; [reflexivity|].
  rewrite (board_inv_eq b Hb). apply grid_of_all_grids.
Qed.

(** The set of all identities is only ever used through
    [id_of_all_ids]; it is never computed. *)
Opaque all_grids all_ids.

(** ** States built by the search *)

Section LineageFacts.

Variable hash : string -> Z.
Variables (b0 : Board) (fv d0 : Z) (par : option State).

Let root : State := State_init hash b0 fv d0 par.

Hypothesis Hb0 : board_inv b0.

Lemma lineage_child_inv (p s : State) (l : list State) :
  board_inv (board p) -> generate_successors hash p = Ok l -> s ∈ l ->
  exists piece d, piece ∈ pieces (board p) /\
                  can_move (board p) piece d = true /\
                  s = successor hash p piece d.
Proof.
  intros Hb Hgen Hs. rewrite generate_successors_ok in Hgen by assumption.
  inversion Hgen; subst l. apply in_successors in Hs. exact Hs.
Qed.

Lemma lineage_facts (s : State) :
  lineage hash root s ->
  board_inv (board s) /\ id s = id_of hash (board s) /\
  exists n, slides hash n b0 (board s) /\ depth s = d0 + Z.of_nat n.
Proof.
  induction 1 as [|p s l Hp IH Hgen Hs].
  - split; [exact Hb0|]. split; [reflexivity|].
    exists 0%nat. split; [apply slides_refl | simpl; lia].
  - destruct IH as (Hbp & Hid & n & Hsl & Hd).
    destruct (lineage_child_inv p s l Hbp Hgen Hs) as (piece & d & Hel & Hmv & ->).
    split; [apply successor_inv; assumption|]. split; [reflexivity|].
    exists (S n). split.
    + eapply slides_snoc; [eassumption|].
      exists p, l, (successor hash p piece d). auto.
    + cbn [successor State_init depth]. lia.
Qed.

Lemma lineage_inv (s : State) : lineage hash root s -> board_inv (board s).
Proof. intros H. apply lineage_facts, H. Qed.

Lemma lineage_id (s : State) : lineage hash root s -> id s = id_of hash (board s).
Proof. intros H. apply lineage_facts, H. Qed.

Lemma lineage_f (s : State) :
  lineage hash root s ->
  s = root \/ f s = depth s + manhattan_distance (board s).
Proof.
  destruct 1 as [|p s l Hp Hgen Hs]; [left; reflexivity | right].
  destruct (lineage_child_inv p s l (lineage_inv p Hp) Hgen Hs)
    as (piece & d & _ & _ & ->).
  reflexivity.
Qed.

Lemma lineage_successors (p s : State) :
  lineage hash root p -> s ∈ successors hash p -> lineage hash root s.
Proof.
  intros Hp Hs. eapply lineage_child; [exact Hp | | exact Hs].
  apply generate_successors_ok, lineage_inv, Hp.
Qed.

End LineageFacts.

(** ** Depth-first search *)

Lemma py_pop_snoc {A : Type} (l : list A) :
  l <> [] -> exists x r, py_pop l = Ok (x, r) /\ l = r ++ [x].
Proof.
  intros Hne. unfold py_pop.
  destruct (rev l) as [|x r] eqn:E.
  - apply (f_equal (@rev A)) in E. rewrite rev_involutive in E. contradiction.
  - exists x, (rev r). split; [reflexivity|].
    apply (f_equal (@rev A)) in E. rewrite rev_involutive in E. exact E.
Qed.

Lemma push_unvisited_elem (visited : gset Z) (successors frontier : list State)
    (s : State) :
  s ∈ push_unvisited visited frontier successors -> s ∈ frontier \/ s ∈ successors.
Proof.
  unfold push_unvisited. revert frontier.
  induction successors as [|a l IH]; intros frontier H; simpl in H; [auto|].
  apply IH in H as [H | H]; [| right; apply list_elem_of_further, H].
  destruct (decide (id a ∈ visited)); [auto|].
  apply elem_of_app in H as [H | H]; [auto|].
  apply list_elem_of_singleton in H as ->. right. apply list_elem_of_here.
Qed.

Section DFSProofs.

Variable hash : string -> Z.
Variables (b0 : Board) (fv d0 : Z) (par : option State).

Let root : State := State_init hash b0 fv d0 par.

Hypothesis Hb0 : board_inv b0.

(** A finite set that holds the identity of every valid board. *)
Variable U : gset Z.
Hypothesis HU : forall b, board_inv b -> id_of hash b ∈ U.

Lemma lineage_id_in (s : State) : lineage hash root s -> id s ∈ U.
Proof.
  intros H. rewrite (lineage_id hash b0 fv d0 par Hb0 s H).
  apply HU. eapply lineage_inv; eassumption.
Qed.

Lemma DFS_body_step (c : list State * gset Z) :
  (DFS_inv hash b0 fv d0 par U) c ->
  (exists r, DFS_body hash c = Ok (Return r) /\ (DFS_post hash b0 fv d0 par) r) \/
  (exists c', DFS_body hash c = Ok (Continue c') /\ (DFS_inv hash b0 fv d0 par U) c' /\
     ((size (U) - size (snd c') < size (U) - size (snd c))%nat \/
      (size (U) - size (snd c') <= size (U) - size (snd c)
       /\ length (fst c') < length (fst c))%nat)).
Proof.
  destruct c as [frontier visited]. intros [Hlin Hsub]. cbn [fst snd] in *.
  unfold DFS_body.
  destruct frontier as [|s0 fr0].
  { left. exists None. split; [reflexivity|]. intros s Hs. discriminate. }
  destruct (py_pop_snoc (s0 :: fr0)) as (x & r & Hpop & Hfr); [discriminate|].
  rewrite Hpop. cbn [bind fst snd].
  assert (Hlen : length (s0 :: fr0) = S (length r)).
  { rewrite Hfr, length_app. simpl. lia. }
  rewrite Hfr in Hlin.
  assert (Hx : lineage hash root x).
  { apply Hlin. rewrite elem_of_app, list_elem_of_singleton. auto. }
  assert (Hr : forall s, s ∈ r -> lineage hash root s).
  { intros s Hs. apply Hlin. rewrite elem_of_app. auto. }
  destruct (decide (id x ∈ visited)) as [Hvis | Hnew].
  - right. exists (r, visited). split; [reflexivity|].
    split; [split; assumption|]. right. cbn [fst snd].
    rewrite Hlen. lia.
  - destruct (goal_test x) eqn:Hgoal.
    + left. exists (Some x). split; [reflexivity|].
      intros s Hs. inversion Hs; subst. auto.
    + right.
      rewrite generate_successors_ok by (eapply lineage_inv; eassumption).
      cbn [bind].
      eexists. split; [reflexivity|]. cbn [fst snd].
      assert (Hidx : id x ∈ U) by (apply lineage_id_in; assumption).
      assert (Hsub' : visited ∪ {[id x]} ⊆ U).
      { intros y Hy. apply elem_of_union in Hy as [Hy | Hy]; [apply Hsub, Hy|].
        apply elem_of_singleton in Hy. subst y. exact Hidx. }
      split; [split|].
      * intros s Hs. apply push_unvisited_elem in Hs as [Hs | Hs].
        -- apply Hr, Hs.
        -- exact (lineage_successors hash b0 fv d0 par Hb0 x s Hx Hs).
      * exact Hsub'.
      * left.
        assert (Hsz : size (visited ∪ {[id x]}) = S (size visited)).
        { rewrite size_union by (apply disjoint_singleton_r; exact Hnew).
          rewrite size_singleton. lia. }
        pose proof (subseteq_size _ _ Hsub') as Hle.
        lia.
Qed.

End DFSProofs.

Section DFSTrace.

Variable hash : string -> Z.

(** The four ways through the body of the loop. *)
Lemma DFS_cases (c : list State * gset Z) :
  (fst c = [] /\ DFS_expands c = None /\ DFS_body hash c = Ok (Return None)) \/
  (exists x r, fst c = r ++ [x] /\
     (((id x ∈ snd c) /\ DFS_expands c = None /\
       DFS_body hash c = Ok (Continue (r, snd c))) \/
      ((id x ∉ snd c) /\ goal_test x = true /\ DFS_expands c = None /\
       DFS_body hash c = Ok (Return (Some x))) \/
      ((id x ∉ snd c) /\ goal_test x = false /\ DFS_expands c = Some (id x) /\
       DFS_body hash c
       = (successors <- generate_successors hash x ;;
          Ok (Continue (push_unvisited (snd c ∪ {[id x]}) r successors,
                        snd c ∪ {[id x]})))))).
Proof.
  destruct c as [frontier visited]. unfold DFS_expands, DFS_body. cbn [fst snd].
  destruct frontier as [|s0 fr0]; [left; auto|]. right.
  destruct (py_pop_snoc (s0 :: fr0)) as (x & r & Hpop & Hfr); [discriminate|].
  exists x, r. split; [exact Hfr|].
  rewrite Hpop. cbn [bind fst snd].
  destruct (decide (id x ∈ visited)) as [Hvis | Hnew]; [left; auto|].
  right. destruct (goal_test x); [left; auto | right; auto].
Qed.

Lemma DFS_body_return (c : list State * gset Z) (r : option State) :
  DFS_body hash c = Ok (Return r) ->
  match r with
  | None => fst c = []
  | Some s => exists rest, fst c = rest ++ [s] /\ (id s ∉ snd c) /\ goal_test s = true
  end.
Proof.
  destruct c as [frontier visited]. unfold DFS_body.
  destruct frontier as [|s0 fr0].
  { intros H. inversion H; subst. reflexivity. }
  destruct (py_pop_snoc (s0 :: fr0)) as (x & rest & Hpop & Hfr); [discriminate|].
  rewrite Hpop. cbn [bind fst snd].
  destruct (decide (id x ∈ visited)) as [Hvis | Hnew]; [discriminate|].
  destruct (goal_test x) eqn:Hgoal.
  - intros H. inversion H; subst. exists rest. auto.
  - destruct (generate_successors hash x); cbn [bind]; discriminate.
Qed.

End DFSTrace.

(** ** [heapq]: the order on states *)

Lemma lt_true_spec (a b : State) :
  lt a b = true <-> f a < f b \/ (f a = f b /\ id a < id b).
Proof. unfold lt. destruct (f a =? f b) eqn:E; lia. Qed.

Lemma lt_false_spec (a b : State) :
  lt a b = false <-> f b < f a \/ (f a = f b /\ id b <= id a).
Proof. unfold lt. destruct (f a =? f b) eqn:E; lia. Qed.

Lemma lt_irrefl (a : State) : lt a a = false.
Proof. apply lt_false_spec. lia. Qed.

Lemma lt_asym (a b : State) : lt a b = true -> lt b a = false.
Proof. rewrite lt_true_spec, lt_false_spec. lia. Qed.

(** [a <= b] and [b <= c] give [a <= c], where [a <= b] means that [b] is
    not less than [a]. *)
Lemma le_state_trans (a b c : State) :
  lt b a = false -> lt c b = false -> lt c a = false.
Proof. rewrite !lt_false_spec. lia. Qed.

Lemma lt_le_state_trans (a b c : State) :
  lt a b = true -> lt c b = false -> lt c a = false.
Proof. rewrite lt_true_spec, !lt_false_spec. lia. Qed.

(** ** [heapq]: positions *)

Lemma parent_facts (i : nat) :
  (0 < i)%nat ->
  ((i - 1) / 2 < i)%nat /\ (i = 2 * ((i - 1) / 2) + 1 \/ i = 2 * ((i - 1) / 2) + 2)%nat.
Proof.
  intros H.
  pose proof (Nat.div_mod_eq (i - 1) 2).
  pose proof (Nat.mod_upper_bound (i - 1) 2).
  lia.
Qed.

Lemma child_parent (pos : nat) :
  ((2 * pos + 1 - 1) / 2 = pos)%nat /\ ((2 * pos + 1 + 1 - 1) / 2 = pos)%nat.
Proof.
  pose proof (Nat.div_mod_eq (2 * pos + 1 - 1) 2).
  pose proof (Nat.mod_upper_bound (2 * pos + 1 - 1) 2).
  pose proof (Nat.div_mod_eq (2 * pos + 1 + 1 - 1) 2).
  pose proof (Nat.mod_upper_bound (2 * pos + 1 + 1 - 1) 2).
  lia.
Qed.

(** ** [heapq]: moving the hole permutes the list *)

Lemma swap_insert_perm {A : Type} (l : list A) (i j : nat) (a b : A) :
  l !! i = Some a -> l !! j = Some b ->
  <[i := b]> (<[j := a]> l) ≡ₚ l.
Proof.
  intros Hi Hj.
  pose proof (lookup_lt_Some _ _ _ Hi) as Hli.
  pose proof (lookup_lt_Some _ _ _ Hj) as Hlj.
  apply Permutation_inj. split; [rewrite !length_insert; reflexivity|].
  exists (fun k => if decide (k = i) then j else if decide (k = j) then i else k).
  split.
  - intros k1 k2. repeat case_decide; lia.
  - intros k. destruct (decide (k = i)) as [-> | Hki].
    + rewrite list_lookup_insert_eq by (rewrite length_insert; lia). congruence.
    + rewrite list_lookup_insert_ne by lia.
      destruct (decide (k = j)) as [-> | Hkj].
      * rewrite list_lookup_insert_eq by lia. congruence.
      * rewrite list_lookup_insert_ne by lia. reflexivity.
Qed.

Lemma hole_move_perm (heap : list State) (pos q : nat) (x y : State) :
  (pos < length heap)%nat -> pos <> q -> heap !! q = Some y ->
  <[q := x]> (<[pos := y]> heap) ≡ₚ <[pos := x]> heap.
Proof.
  intros Hpos Hne Hq.
  replace (<[pos := y]> heap) with (<[pos := y]> (<[pos := x]> heap))
    by apply list_insert_insert_eq.
  apply swap_insert_perm.
  - rewrite list_lookup_insert_ne by lia. exact Hq.
  - apply list_lookup_insert_eq. exact Hpos.
Qed.

Lemma siftdown_loop_perm (fuel : nat) (heap : list State) (startpos : nat)
    (x : State) (pos : nat) :
  (pos < length heap)%nat ->
  heapq.siftdown_loop fuel heap startpos x pos ≡ₚ <[pos := x]> heap.
Proof.
  revert heap pos. induction fuel as [|fuel IH]; intros heap pos Hpos; [reflexivity|].
  cbn [heapq.siftdown_loop].
  destruct (startpos <? pos)%nat eqn:E; [| reflexivity].
  apply Nat.ltb_lt in E.
  destruct (parent_facts pos) as [Hpp _]; [lia|].
  destruct (heap !! ((pos - 1) / 2)%nat) as [parent|] eqn:Hparent; [| reflexivity].
  destruct (lt x parent); [| reflexivity].
  rewrite IH by (rewrite length_insert; lia).
  apply hole_move_perm; [exact Hpos | lia | exact Hparent].
Qed.

Lemma siftdown_perm (heap : list State) (startpos pos : nat) :
  heapq.siftdown heap startpos pos ≡ₚ heap.
Proof.
  unfold heapq.siftdown. destruct (heap !! pos) as [x|] eqn:E; [| reflexivity].
  rewrite siftdown_loop_perm by (eapply lookup_lt_Some; eassumption).
  rewrite list_insert_id by exact E. reflexivity.
Qed.


(** ** [heapq]: the upward walk restores the invariant *)

Lemma almost_heap_fix (h : list State) (pos : nat) :
  almost_heap h pos -> parent_ok h pos -> heap_ordered h.
Proof.
  intros [Ha _] Hp i Hi. destruct (decide (i = pos)) as [-> | Hne]; auto.
Qed.

Lemma almost_heap_root (h : list State) : almost_heap h 0 -> heap_ordered h.
Proof. intros [Ha _] i Hi. apply Ha; lia. Qed.

Lemma almost_heap_up (heap : list State) (pos : nat) (x parent : State) :
  (0 < pos)%nat -> (pos < length heap)%nat ->
  heap !! ((pos - 1) / 2)%nat = Some parent -> lt x parent = true ->
  almost_heap (<[pos := x]> heap) pos ->
  almost_heap (<[((pos - 1) / 2)%nat := x]> (<[pos := parent]> heap))
              ((pos - 1) / 2)%nat.
Proof.
  intros Hpos Hlen Hparent Hlt [Ha Hg].
  destruct (parent_facts pos Hpos) as [Hpp _].
  set (pp := ((pos - 1) / 2)%nat) in *.
  assert (Hlpp : (pp < length (<[pos := parent]> heap))%nat)
    by (rewrite length_insert; lia).
  split.
  - intros i Hi Hne xi pi Hxi Hpi.
    destruct (parent_facts i Hi) as [Hq _].
    set (q := ((i - 1) / 2)%nat) in *.
    rewrite list_lookup_insert_ne in Hxi by lia.
    destruct (decide (i = pos)) as [-> | Hnp].
    + rewrite list_lookup_insert_eq in Hxi by lia.
      fold pp in q. subst q.
      rewrite list_lookup_insert_eq in Hpi by exact Hlpp.
      inversion Hxi; inversion Hpi; subst. apply lt_asym, Hlt.
    + rewrite list_lookup_insert_ne in Hxi by lia.
      destruct (decide (q = pos)) as [Eq | Nq].
      * rewrite Eq in Hpi.
        rewrite list_lookup_insert_ne in Hpi by lia.
        rewrite list_lookup_insert_eq in Hpi by lia.
        inversion Hpi; subst pi.
        apply (Hg i xi parent Hpos Hi Eq).
        -- rewrite list_lookup_insert_ne by lia. exact Hxi.
        -- rewrite list_lookup_insert_ne by lia. exact Hparent.
      * destruct (decide (q = pp)) as [Eq | Nq'].
        -- rewrite Eq in Hpi.
           rewrite list_lookup_insert_eq in Hpi by exact Hlpp.
           inversion Hpi; subst pi.
           apply (lt_le_state_trans x parent xi Hlt).
           apply (Ha i Hi Hnp xi parent).
           ++ rewrite list_lookup_insert_ne by lia. exact Hxi.
           ++ fold q. rewrite Eq. rewrite list_lookup_insert_ne by lia. exact Hparent.
        -- rewrite !list_lookup_insert_ne in Hpi by lia.
           apply (Ha i Hi Hnp xi pi).
           ++ rewrite list_lookup_insert_ne by lia. exact Hxi.
           ++ fold q. rewrite list_lookup_insert_ne by lia. exact Hpi.
  - intros c xc g Hpp0 Hc Hcp Hxc Hgp.
    destruct (parent_facts pp Hpp0) as [Hgpp _].
    destruct (parent_facts c Hc) as [Hcq _]. rewrite Hcp in Hcq.
    rewrite !list_lookup_insert_ne in Hgp by lia.
    assert (H1 : lt parent g = false).
    { apply (Ha pp Hpp0 ltac:(lia) parent g).
      - rewrite list_lookup_insert_ne by lia. exact Hparent.
      - rewrite list_lookup_insert_ne by lia. exact Hgp. }
    rewrite list_lookup_insert_ne in Hxc by lia.
    destruct (decide (c = pos)) as [-> | Hnp].
    + rewrite list_lookup_insert_eq in Hxc by lia.
      inversion Hxc; subst xc. exact H1.
    + rewrite list_lookup_insert_ne in Hxc by lia.
      apply (le_state_trans g parent xc H1).
      apply (Ha c Hc Hnp xc parent).
      * rewrite list_lookup_insert_ne by lia. exact Hxc.
      * rewrite Hcp. rewrite list_lookup_insert_ne by lia. exact Hparent.
Qed.

Lemma siftdown_loop_heap (fuel : nat) (heap : list State) (x : State) (pos : nat) :
  (pos <= fuel)%nat -> (pos < length heap)%nat ->
  almost_heap (<[pos := x]> heap) pos ->
  heap_ordered (heapq.siftdown_loop fuel heap 0 x pos).
Proof.
  revert heap pos. induction fuel as [|fuel IH]; intros heap pos Hfuel Hlen Halmost.
  - assert (pos = 0%nat) by lia. subst pos. apply almost_heap_root, Halmost.
  - cbn [heapq.siftdown_loop].
    destruct (0 <? pos)%nat eqn:E.
    + apply Nat.ltb_lt in E.
      destruct (parent_facts pos E) as [Hpp _].
      destruct (heap !! ((pos - 1) / 2)%nat) as [parent|] eqn:Hparent.
      * destruct (lt x parent) eqn:Hlt.
        -- apply IH; [lia | rewrite length_insert; lia |].
           apply almost_heap_up; assumption.
        -- apply (almost_heap_fix _ pos Halmost).
           intros x' p' Hx' Hp'.
           rewrite list_lookup_insert_eq in Hx' by exact Hlen.
           rewrite list_lookup_insert_ne in Hp' by lia.
           inversion Hx'; subst x'. rewrite Hparent in Hp'.
           inversion Hp'; subst p'. exact Hlt.
      * apply lookup_ge_None in Hparent. lia.
    + apply Nat.ltb_ge in E. assert (pos = 0%nat) by lia. subst pos.
      apply almost_heap_root, Halmost.
Qed.

Lemma siftdown_heap (heap : list State) (pos : nat) :
  almost_heap heap pos -> heap_ordered (heapq.siftdown heap 0 pos).
Proof.
  intros Halmost. unfold heapq.siftdown.
  destruct (heap !! pos) as [x|] eqn:E.
  - apply siftdown_loop_heap; [lia | eapply lookup_lt_Some; eassumption |].
    rewrite list_insert_id by exact E. exact Halmost.
  - destruct Halmost as [Ha _]. intros i Hi.
    destruct (decide (i = pos)) as [-> | Hne]; [| apply Ha; assumption].
    intros x p Hx _. congruence.
Qed.

(** ** [heapq]: [heappush] *)

Lemma heap_ordered_snoc_almost (heap : list State) (item : State) :
  heap_ordered heap -> almost_heap (heap ++ [item]) (length heap).
Proof.
  intros Hh. split.
  - intros i Hi Hne x p Hx Hp.
    destruct (parent_facts i Hi) as [Hq _].
    apply lookup_lt_Some in Hx as Hlt. rewrite length_app in Hlt. cbn in Hlt.
    rewrite lookup_app_l in Hx, Hp by lia.
    exact (Hh i Hi x p Hx Hp).
  - intros c x g _ Hc Hcp Hx _.
    destruct (parent_facts c Hc) as [Hq _]. rewrite Hcp in Hq.
    apply lookup_lt_Some in Hx. rewrite length_app in Hx. cbn in Hx. lia.
Qed.

Lemma heappush_perm (heap : list State) (item : State) :
  heapq.heappush heap item ≡ₚ item :: heap.
Proof.
  unfold heapq.heappush. rewrite siftdown_perm.
  symmetry. apply Permutation_cons_append.
Qed.

Lemma heappush_heap (heap : list State) (item : State) :
  heap_ordered heap -> heap_ordered (heapq.heappush heap item).
Proof.
  intros Hh. unfold heapq.heappush. apply siftdown_heap.
  replace (length (heap ++ [item]) - 1)%nat with (length heap)
    by (rewrite length_app; cbn; lia).
  apply heap_ordered_snoc_almost, Hh.
Qed.


(** ** [heapq]: the downward walk *)

Lemma hole_heap_down (heap : list State) (pos c : nat) (child : State) :
  (pos < length heap)%nat ->
  heap !! c = Some child ->
  (c = 2 * pos + 1 \/ c = 2 * pos + 2)%nat ->
  (forall i y, (i = 2 * pos + 1 \/ i = 2 * pos + 2)%nat -> i <> c ->
               heap !! i = Some y -> lt y child = false) ->
  hole_heap heap pos ->
  hole_heap (<[pos := child]> heap) c.
Proof.
  intros Hlen Hchild Hc Hsmall [Ha Hg].
  assert (Hcp : ((c - 1) / 2)%nat = pos).
  { destruct (child_parent pos) as [E1 E2]. destruct Hc as [-> | ->].
    - exact E1.
    - replace (2 * pos + 2)%nat with (2 * pos + 1 + 1)%nat by lia. exact E2. }
  assert (Hc0 : (0 < c)%nat) by lia.
  split.
  - intros i Hi Hne Hqne xi pi Hxi Hpi.
    destruct (parent_facts i Hi) as [Hq Hiq].
    set (q := ((i - 1) / 2)%nat) in *.
    destruct (decide (i = pos)) as [-> | Hnp].
    + rewrite list_lookup_insert_eq in Hxi by exact Hlen.
      rewrite list_lookup_insert_ne in Hpi by lia.
      inversion Hxi; subst xi.
      exact (Hg c child pi Hi Hc0 Hcp Hchild Hpi).
    + rewrite list_lookup_insert_ne in Hxi by lia.
      destruct (decide (q = pos)) as [Eq | Nq].
      * rewrite Eq in Hpi.
        rewrite list_lookup_insert_eq in Hpi by exact Hlen.
        inversion Hpi; subst pi.
        apply (Hsmall i xi); [lia | exact Hne | exact Hxi].
      * rewrite list_lookup_insert_ne in Hpi by lia.
        exact (Ha i Hi Hnp Nq xi pi Hxi Hpi).
  - intros c' xc g _ Hc' Hcp' Hxc Hgp.
    destruct (parent_facts c' Hc') as [Hq' _]. rewrite Hcp' in Hq'.
    rewrite Hcp in Hgp.
    rewrite list_lookup_insert_eq in Hgp by exact Hlen.
    inversion Hgp; subst g.
    rewrite list_lookup_insert_ne in Hxc by lia.
    apply (Ha c' Hc' ltac:(lia) ltac:(lia) xc child Hxc).
    rewrite Hcp'. exact Hchild.
Qed.

Lemma siftup_loop_spec (fuel : nat) (heap : list State) (endpos pos : nat) (x : State) :
  endpos = length heap -> (pos < length heap)%nat ->
  (length heap <= pos + fuel)%nat -> hole_heap heap pos ->
  let r := heapq.siftup_loop fuel heap endpos pos in
  length (fst r) = length heap /\ (snd r < length heap)%nat /\
  (pos <= snd r)%nat /\
  <[snd r := x]> (fst r) ≡ₚ <[pos := x]> heap /\
  hole_heap (fst r) (snd r) /\ (length heap <= 2 * snd r + 1)%nat.
Proof.
  revert heap pos. induction fuel as [|fuel IH]; intros heap pos He Hlen Hfuel Hhole.
  { lia. }
  cbn [heapq.siftup_loop].
  destruct (2 * pos + 1 <? endpos)%nat eqn:Echild.
  2:{ apply Nat.ltb_ge in Echild. cbn [fst snd].
      split; [reflexivity|]. split; [exact Hlen|]. split; [lia|].
      split; [reflexivity|]. split; [exact Hhole | lia]. }
  apply Nat.ltb_lt in Echild.
  set (cstar := if ((2 * pos + 1 + 1 <? endpos)%nat
                    && negb (heapq.lt_at heap (2 * pos + 1) (2 * pos + 1 + 1)))
                then (2 * pos + 1 + 1)%nat else (2 * pos + 1)%nat).
  assert (Hcs : (cstar = 2 * pos + 1 \/ cstar = 2 * pos + 2)%nat /\
                (cstar < length heap)%nat /\
                forall i y, (i = 2 * pos + 1 \/ i = 2 * pos + 2)%nat -> i <> cstar ->
                            heap !! i = Some y ->
                            forall child, heap !! cstar = Some child ->
                                          lt y child = false).
  { unfold cstar.
    destruct (2 * pos + 1 + 1 <? endpos)%nat eqn:Eright; cbn [andb].
    - apply Nat.ltb_lt in Eright.
      unfold heapq.lt_at.
      destruct (heap !! (2 * pos + 1)%nat) as [l|] eqn:El;
        [| apply lookup_ge_None in El; lia].
      destruct (heap !! (2 * pos + 1 + 1)%nat) as [rt|] eqn:Er;
        [| apply lookup_ge_None in Er; lia].
      destruct (lt l rt) eqn:Elt; cbn [negb].
      + split; [lia|]. split; [lia|].
        intros i y Hi Hne Hy child Hch.
        assert (i = (2 * pos + 1 + 1)%nat) by lia. subst i.
        rewrite El in Hch. rewrite Er in Hy.
        inversion Hch; inversion Hy; subst. apply lt_asym, Elt.
      + split; [lia|]. split; [lia|].
        intros i y Hi Hne Hy child Hch.
        assert (i = (2 * pos + 1)%nat) by lia. subst i.
        rewrite Er in Hch. rewrite El in Hy.
        inversion Hch; inversion Hy; subst. exact Elt.
    - apply Nat.ltb_ge in Eright.
      split; [lia|]. split; [lia|].
      intros i y Hi Hne Hy child Hch.
      apply lookup_lt_Some in Hy. lia. }
  destruct Hcs as (Hcs1 & Hcs2 & Hcs3).
  destruct (heap !! cstar) as [child|] eqn:Hchild;
    [| apply lookup_ge_None in Hchild; lia].
  specialize (IH (<[pos := child]> heap) cstar).
  rewrite length_insert in IH.
  destruct IH as (Hl1 & Hl2 & Hl3 & Hperm & Hhole' & Hleaf); try assumption; try lia.
  { apply (hole_heap_down heap pos cstar child Hlen Hchild Hcs1); [| exact Hhole].
    intros i y Hi Hne Hy. exact (Hcs3 i y Hi Hne Hy child eq_refl). }
  cbv zeta. split; [exact Hl1|]. split; [exact Hl2|]. split; [lia|].
  split; [| split; [exact Hhole' | exact Hleaf]].
  rewrite Hperm. apply hole_move_perm; [exact Hlen | lia | exact Hchild].
Qed.

Lemma hole_leaf_almost (h : list State) (pos : nat) (x : State) :
  (pos < length h)%nat -> (length h <= 2 * pos + 1)%nat ->
  hole_heap h pos -> almost_heap (<[pos := x]> h) pos.
Proof.
  intros Hlen Hleaf [Ha Hg]. split.
  - intros i Hi Hne xi pi Hxi Hpi.
    destruct (parent_facts i Hi) as [Hq Hiq].
    rewrite list_lookup_insert_ne in Hxi by lia.
    apply lookup_lt_Some in Hxi as Hilt.
    assert (Hqne : ((i - 1) / 2)%nat <> pos) by lia.
    rewrite list_lookup_insert_ne in Hpi by lia.
    exact (Ha i Hi Hne Hqne xi pi Hxi Hpi).
  - intros c xc g _ Hc Hcp Hxc _.
    destruct (parent_facts c Hc) as [_ Hcq]. rewrite Hcp in Hcq.
    apply lookup_lt_Some in Hxc. rewrite length_insert in Hxc. lia.
Qed.

Lemma heap_ordered_hole_root (heap : list State) (x : State) :
  heap_ordered heap -> hole_heap (<[0%nat := x]> heap) 0.
Proof.
  intros Hh. split.
  - intros i Hi _ Hq xi pi Hxi Hpi.
    rewrite list_lookup_insert_ne in Hxi, Hpi by lia.
    exact (Hh i Hi xi pi Hxi Hpi).
  - intros c xc g H0. lia.
Qed.



(** ** [heapq]: [heappop] *)

Lemma siftup_root_spec (heap1 : list State) (x : State) :
  heap1 <> [] -> heap_ordered heap1 ->
  heapq.siftup (<[0%nat := x]> heap1) 0 ≡ₚ <[0%nat := x]> heap1 /\
  heap_ordered (heapq.siftup (<[0%nat := x]> heap1) 0).
Proof.
  intros Hne Hh.
  assert (Hlen : (0 < length heap1)%nat) by (destruct heap1; [contradiction | cbn; lia]).
  set (H0 := <[0%nat := x]> heap1).
  assert (Hl0 : length H0 = length heap1) by apply length_insert.
  assert (Hx : H0 !! 0%nat = Some x) by (apply list_lookup_insert_eq; exact Hlen).
  unfold heapq.siftup. rewrite Hx.
  pose proof (siftup_loop_spec (length H0) H0 (length H0) 0 x eq_refl
                ltac:(lia) ltac:(lia) (heap_ordered_hole_root heap1 x Hh)) as Hspec.
  cbv zeta in Hspec.
  destruct (heapq.siftup_loop (length H0) H0 (length H0) 0) as [h1 p1].
  cbn [fst snd] in Hspec.
  destruct Hspec as (Hl1 & Hp1 & _ & Hperm & Hhole & Hleaf).
  assert (Eins : <[0%nat := x]> H0 = H0) by (apply list_insert_id; exact Hx).
  rewrite Eins in Hperm.
  split.
  - rewrite siftdown_perm. exact Hperm.
  - apply siftdown_heap. apply hole_leaf_almost; [lia | lia | exact Hhole].
Qed.

Lemma heap_root_min (h : list State) (root : State) :
  heap_ordered h -> h !! 0%nat = Some root ->
  forall i y, h !! i = Some y -> lt y root = false.
Proof.
  intros Hh Hroot i. induction i as [i IH] using lt_wf_ind. intros y Hy.
  destruct (decide (i = 0%nat)) as [-> | Hi].
  - rewrite Hroot in Hy. inversion Hy; subst. apply lt_irrefl.
  - destruct (parent_facts i ltac:(lia)) as [Hq _].
    destruct (h !! ((i - 1) / 2)%nat) as [p|] eqn:Hp.
    + pose proof (Hh i ltac:(lia) y p Hy Hp) as H1.
      pose proof (IH _ Hq p Hp) as H2.
      exact (le_state_trans root p y H2 H1).
    + apply lookup_ge_None in Hp. apply lookup_lt_Some in Hy. lia.
Qed.

Lemma heap_ordered_prefix (h1 h2 : list State) :
  heap_ordered (h1 ++ h2) -> heap_ordered h1.
Proof.
  intros Hh i Hi x p Hx Hp.
  apply (Hh i Hi x p); apply lookup_app_l_Some; assumption.
Qed.

Lemma heap_ordered_nil : heap_ordered [].
Proof. intros i _ x p Hx. inversion Hx. Qed.

(** Python's [heappush] and [heappop] are a priority queue for
    [State.__lt__] on lists that satisfy the heap invariant. *)
Lemma heapq_is_priority_queue :
  heapq_spec heapq.heappush heapq.heappop heap_ordered.
Proof.
  constructor.
  - exact heap_ordered_nil.
  - intros h x. apply heappush_heap.
  - intros h x. apply heappush_perm.
  - intros h Hh Hne.
    destruct (py_pop_snoc h Hne) as (lastelt & heap1 & Hpop & Hsnoc).
    unfold heapq.heappop. rewrite Hpop. cbn [bind fst snd].
    destruct heap1 as [|ret rest].
    + exists lastelt, []. split; [reflexivity|]. split; [exact heap_ordered_nil|].
      split; [rewrite Hsnoc; reflexivity|]. intros y Hy. inversion Hy.
    + assert (Hh1 : heap_ordered (ret :: rest)).
      { apply (heap_ordered_prefix _ [lastelt]). rewrite <- Hsnoc. exact Hh. }
      destruct (siftup_root_spec (ret :: rest) lastelt ltac:(discriminate) Hh1)
        as [Hperm Hheap].
      cbn [insert list_insert] in Hperm, Hheap |- *.
      eexists _, _. split; [reflexivity|]. split; [exact Hheap|].
      split.
      * rewrite Hperm, Hsnoc. cbn. apply Permutation_cons; [reflexivity|].
        symmetry. apply Permutation_cons_append.
      * intros y Hy. rewrite Hperm in Hy.
        assert (Hyh : y ∈ h).
        { rewrite Hsnoc. cbn.
          apply elem_of_cons in Hy as [-> | Hy].
          - apply list_elem_of_further, elem_of_app. right. apply list_elem_of_here.
          - apply list_elem_of_further, elem_of_app. left. exact Hy. }
        apply list_elem_of_lookup_1 in Hyh as (i & Hi).
        refine (heap_root_min h ret Hh _ i y Hi). rewrite Hsnoc. reflexivity.
Qed.


(** ** Best-first search: auxiliary facts *)

Lemma goal_test_board (s : State) : goal_test s = true <-> goal_board (board s).
Proof.
  unfold goal_test, goal_board.
  destruct (goal_piece_coordinates (board s)) as [gx gy].
  rewrite andb_true_iff, !Z.eqb_eq. split.
  - intros [-> ->]. reflexivity.
  - intros H. inversion H. auto.
Qed.

Lemma goal_test_false_board (s : State) :
  goal_test s = false -> ~ goal_board (board s).
Proof.
  intros H Hg. apply goal_test_board in Hg. congruence.
Qed.

(** If [y < x] is false then [x] has the smaller or equal [f]. *)
Lemma lt_false_f (y x : State) : lt y x = false -> f x <= f y.
Proof.
  unfold lt. destruct (f y =? f x) eqn:E; intros H; lia.
Qed.

Section HeapFacts.

Variable heappush : list State -> State -> list State.
Variable heappop : list State -> result (State * list State).
Variable is_heap : list State -> Prop.
Hypothesis Hpq : heapq_spec heappush heappop is_heap.

Lemma fold_push_perm (l h : list State) : fold_left heappush l h ≡ₚ l ++ h.
Proof.
  revert h. induction l as [|a l IH]; intros h; [reflexivity|].
  simpl. rewrite IH. rewrite (hq_push_perm _ _ _ Hpq).
  symmetry. apply Permutation_middle.
Qed.

Lemma fold_push_heap (l h : list State) :
  is_heap h -> is_heap (fold_left heappush l h).
Proof.
  revert h. induction l as [|a l IH]; intros h Hh; [exact Hh|].
  simpl. apply IH, (hq_push_heap _ _ _ Hpq), Hh.
Qed.

Lemma fold_push_elem (l h : list State) (s : State) :
  s ∈ fold_left heappush l h <-> s ∈ l \/ s ∈ h.
Proof. rewrite fold_push_perm, elem_of_app. reflexivity. Qed.

(** Popping a non-empty heap: the popped state has the least [f]. *)
Lemma heappop_min (h : list State) :
  is_heap h -> h <> [] ->
  exists x r, heappop h = Ok (x, r) /\ is_heap r /\ h ≡ₚ x :: r /\
              (forall s, s ∈ h -> f x <= f s).
Proof.
  intros Hh Hne.
  destruct (hq_pop _ _ _ Hpq h Hh Hne) as (x & r & Hpop & Hr & Hperm & Hmin).
  exists x, r. repeat split; try assumption.
  intros s Hs. rewrite Hperm in Hs. apply elem_of_cons in Hs as [-> | Hs]; [lia|].
  apply lt_false_f, Hmin, Hs.
Qed.

End HeapFacts.

Section PathFacts.

Variable hash : string -> Z.

Lemma slides_snoc_inv (m : nat) (b t : Board) :
  slides hash (S m) b t ->
  exists t', slides hash m b t' /\ next_board hash t' t.
Proof.
  revert b. induction m as [|m IH]; intros b H.
  - inversion H as [|n b1 b2 b3 Hn Hs]; subst. inversion Hs; subst.
    exists b. split; [apply slides_refl | exact Hn].
  - inversion H as [|n b1 b2 b3 Hn Hs]; subst.
    destruct (IH _ Hs) as (t' & Hs' & Hn').
    exists t'. split; [| exact Hn'].
    eapply slides_step; eassumption.
Qed.

Lemma next_board_same_grid (b1 b2 c1 : Board) :
  board_inv b1 -> board_inv b2 -> grid b1 = grid b2 -> next_board hash b1 c1 ->
  exists c2, next_board hash b2 c2 /\ grid c1 = grid c2.
Proof.
  intros Hb1 Hb2 Hg Hn. apply next_board_slide in Hn; [| assumption].
  destruct (slide_step_same_grid b1 b2 c1 Hb1 Hb2 Hg Hn) as (c2 & Hs & Hg').
  exists c2. split; [| exact Hg']. apply next_board_slide; assumption.
Qed.

Lemma same_grid_h (b1 b2 : Board) :
  board_inv b1 -> board_inv b2 -> grid b1 = grid b2 ->
  manhattan_distance b1 = manhattan_distance b2.
Proof.
  intros H1 H2 Hg. unfold manhattan_distance.
  rewrite (same_grid_goal b1 b2 H1 H2 Hg). reflexivity.
Qed.

Lemma same_grid_id (b1 b2 : Board) :
  grid b1 = grid b2 -> id_of hash b1 = id_of hash b2.
Proof. unfold id_of. intros ->. reflexivity. Qed.

(** The board of a successor only depends on the board moved from. *)
Lemma next_board_successor (x : State) (c : Board) :
  board_inv (board x) -> next_board hash (board x) c ->
  exists s, s ∈ successors hash x /\ board s = c /\ depth s = depth x + 1 /\
            f s = depth s + manhattan_distance (board s).
Proof.
  intros Hb Hn. apply next_board_slide in Hn as (piece & d & Hel & Hmv & ->); [| exact Hb].
  exists (successor hash x piece d). split.
  - apply in_successors. exists piece, d. auto.
  - repeat split; reflexivity.
Qed.

Lemma successors_f (x s : State) :
  s ∈ successors hash x -> f s = depth s + manhattan_distance (board s).
Proof.
  intros Hs. apply in_successors in Hs as (piece & d & _ & _ & ->). reflexivity.
Qed.

End PathFacts.


(** ** Best-first search: the invariant *)

Section AStarProofs.

Variable hash : string -> Z.
Variable heappush : list State -> State -> list State.
Variable heappop : list State -> result (State * list State).
Variable is_heap : list State -> Prop.
Hypothesis Hpq : heapq_spec heappush heappop is_heap.

Variables (b0 : Board) (fv d0 : Z) (par : option State).

Let root : State := State_init hash b0 fv d0 par.

Hypothesis Hb0 : board_inv b0.
Hypothesis Hcf : collision_free hash b0.

Variable U : gset Z.
Hypothesis HU : forall b, board_inv b -> id_of hash b ∈ U.

Lemma frontier_path (frontier : list State) (visited : gset Z) (m : nat) (t : Board) :
  id_of hash b0 ∈ visited -> (closed_ok hash b0 d0) frontier visited ->
  slides hash m b0 t -> id_of hash t ∉ visited ->
  exists s i bi, s ∈ frontier /\ (i <= m)%nat /\ slides hash i b0 bi /\
                 slides hash (m - i) bi t /\ grid (board s) = grid bi /\
                 depth s <= d0 + Z.of_nat i.
Proof.
  intros Hroot Hclosed. revert t. induction m as [|m IH]; intros t Hs Hnot.
  - inversion Hs; subst. contradiction.
  - destruct (slides_snoc_inv hash m b0 t Hs) as (t' & Hs' & Hn).
    destruct (decide (id_of hash t' ∈ visited)) as [Hin | Hnin].
    + destruct (Hclosed m t' Hs' Hin) as [_ Hsucc].
      destruct (Hsucc t Hn) as [Hv | (s & Hsf & Hg & Hd)]; [contradiction|].
      exists s, (S m), t. repeat split; try assumption; try lia.
      replace (S m - S m)%nat with 0%nat by lia. apply slides_refl.
    + destruct (IH t' Hs' Hnin) as (s & i & bi & Hsf & Hi & Hsi & Hrest & Hg & Hd).
      exists s, i, bi. repeat split; try assumption; try lia.
      replace (S m - i)%nat with (S (m - i)) by lia.
      eapply slides_snoc; eassumption.
Qed.

Lemma frontier_bound (frontier : list State) (visited : gset Z) (m : nat) (t : Board) :
  (forall s, s ∈ frontier -> (good hash b0 fv d0 par) s) ->
  id_of hash b0 ∈ visited -> (closed_ok hash b0 d0) frontier visited ->
  slides hash m b0 t -> id_of hash t ∉ visited ->
  exists s, s ∈ frontier /\ f s <= d0 + Z.of_nat m + manhattan_distance t.
Proof.
  intros Hgood Hroot Hclosed Hs Hnot.
  destruct (frontier_path frontier visited m t Hroot Hclosed Hs Hnot)
    as (s & i & bi & Hsf & Hi & Hsi & Hrest & Hg & Hd).
  exists s. split; [exact Hsf|].
  destruct (Hgood s Hsf) as [Hlin Hf].
  pose proof (lineage_inv hash b0 fv d0 par Hb0 s Hlin) as Hbs.
  pose proof (slides_inv hash i b0 bi Hsi Hb0) as Hbi.
  pose proof (same_grid_h (board s) bi Hbs Hbi Hg) as Hh.
  pose proof (slides_h hash (m - i) bi t Hrest Hbi) as Hcons.
  rewrite Hf, Hh. lia.
Qed.

Lemma reach_same_h (n1 n2 : nat) (b1 b2 : Board) :
  slides hash n1 b0 b1 -> slides hash n2 b0 b2 -> id_of hash b1 = id_of hash b2 ->
  grid b1 = grid b2 /\ manhattan_distance b1 = manhattan_distance b2 /\
  (goal_board b1 <-> goal_board b2).
Proof.
  intros H1 H2 Hid.
  pose proof (Hcf n1 b1 n2 b2 H1 H2 Hid) as Hg.
  pose proof (slides_inv hash n1 b0 b1 H1 Hb0) as Hi1.
  pose proof (slides_inv hash n2 b0 b2 H2 Hb0) as Hi2.
  split; [exact Hg|]. split; [apply same_grid_h; assumption|].
  unfold goal_board. rewrite (same_grid_goal b1 b2 Hi1 Hi2 Hg). reflexivity.
Qed.

Lemma lineage_reach (s : State) :
  lineage hash root s ->
  exists n, slides hash n b0 (board s) /\ depth s = d0 + Z.of_nat n.
Proof. intros H. apply (lineage_facts hash b0 fv d0 par Hb0 s H). Qed.

(** Expanding a state that is popped at a least depth re-establishes the
    invariant. *)
Lemma expand_main (x : State) (r : list State) (visited : gset Z) :
  lineage hash root x -> goal_test x = false -> id x ∉ visited ->
  is_heap r -> (forall s, s ∈ r -> (good hash b0 fv d0 par) s) -> visited ⊆ U ->
  id_of hash b0 ∈ visited ∪ {[id x]} ->
  (closed_ok hash b0 d0) (x :: r) visited ->
  (forall n b, slides hash n b0 b -> id_of hash b = id x ->
               depth x <= d0 + Z.of_nat n) ->
  (A_main hash is_heap b0 fv d0 par U) (fold_left heappush (successors hash x) r, visited ∪ {[id x]}).
Proof.
  intros Hx Hgoal Hnew Hr Hgood Hsub Hroot Hclosed Hopt.
  pose proof (lineage_inv hash b0 fv d0 par Hb0 x Hx) as Hbx.
  pose proof (lineage_id hash b0 fv d0 par Hb0 x Hx) as Hidx.
  destruct (lineage_reach x Hx) as (nx & Hsx & Hdx).
  unfold A_main. cbn [fst snd].
  split; [apply (fold_push_heap heappush heappop is_heap Hpq), Hr|].
  split; [| split; [| split; [exact Hroot|]]].
  - intros s Hs. apply (fold_push_elem heappush heappop is_heap Hpq) in Hs as [Hs | Hs].
    + split.
      * exact (lineage_successors hash b0 fv d0 par Hb0 x s Hx Hs).
      * eapply successors_f, Hs.
    + apply Hgood, Hs.
  - intros y Hy. apply elem_of_union in Hy as [Hy | Hy]; [apply Hsub, Hy|].
    apply elem_of_singleton in Hy. subst y. rewrite Hidx. apply HU, Hbx.
  - intros n b Hsb Hin.
    apply elem_of_union in Hin as [Hin | Hin].
    + destruct (Hclosed n b Hsb Hin) as [Hng Hsucc]. split; [exact Hng|].
      intros b' Hn. destruct (Hsucc b' Hn) as [Hv | (s & Hs & Hg & Hd)].
      * left. apply elem_of_union. auto.
      * apply elem_of_cons in Hs as [-> | Hs].
        -- left. apply elem_of_union. right. apply elem_of_singleton.
           rewrite Hidx. symmetry. apply same_grid_id, Hg.
        -- right. exists s. split; [| auto].
           apply (fold_push_elem heappush heappop is_heap Hpq). auto.
    + apply elem_of_singleton in Hin. rewrite Hidx in Hin.
      destruct (reach_same_h n nx b (board x) Hsb Hsx Hin) as (Hg & _ & Hgb).
      split.
      * intros Hgb'. apply Hgb in Hgb'. apply goal_test_board in Hgb'. congruence.
      * intros b' Hn.
        pose proof (slides_inv hash n b0 b Hsb Hb0) as Hbb.
        destruct (next_board_same_grid hash b (board x) b' Hbb Hbx Hg Hn)
          as (c2 & Hn2 & Hg2).
        destruct (next_board_successor hash x c2 Hbx Hn2) as (s & Hs & Hbs & Hds & _).
        right. exists s. split.
        -- apply (fold_push_elem heappush heappop is_heap Hpq). auto.
        -- split; [rewrite Hbs; symmetry; exact Hg2|].
           rewrite Hds. rewrite <- Hidx in Hin.
           pose proof (Hopt n b Hsb Hin). lia.
Qed.

Lemma A_body_step (mg : nat) (tg : Board) (c : list State * gset Z) :
  slides hash mg b0 tg -> goal_board tg ->
  (A_inv hash is_heap b0 fv d0 par U) c ->
  (exists r, A_star_body hash heappush heappop c = Ok (Return r) /\ (A_post hash b0 fv d0 par) r) \/
  (exists c', A_star_body hash heappush heappop c = Ok (Continue c') /\ (A_inv hash is_heap b0 fv d0 par U) c' /\
     ((size U - size (snd c') < size U - size (snd c))%nat \/
      (size U - size (snd c') <= size U - size (snd c)
       /\ length (fst c') < length (fst c))%nat)).
Proof.
  intros Hreach Hgoalb Hinv.
  destruct c as [frontier visited]. cbn [fst snd] in *.
  (* the frontier is a non-empty heap *)
  assert (Hheap : is_heap frontier).
  { destruct Hinv as [(_ & H & _) | (H & _)]; exact H. }
  assert (Hne : frontier <> []).
  { destruct Hinv as [(Hfr & _) | (_ & Hgood & _ & Hroot & Hclosed)];
      cbn [fst snd] in *.
    - rewrite Hfr. discriminate.
    - assert (Hnv : id_of hash tg ∉ visited).
      { intros Hin. destruct (Hclosed mg tg Hreach Hin) as [Hng _]. contradiction. }
      destruct (frontier_path frontier visited mg tg Hroot Hclosed Hreach Hnv)
        as (s & _ & _ & Hs & _).
      intros ->. inversion Hs. }
  destruct (heappop_min heappush heappop is_heap Hpq frontier Hheap Hne)
    as (x & r & Hpop & Hr & Hperm & Hmin).
  assert (Hlen : length frontier = S (length r)).
  { rewrite Hperm. reflexivity. }
  assert (Hbody : A_star_body hash heappush heappop (frontier, visited)
    = if decide (id x ∈ visited) then Ok (Continue (r, visited))
      else if goal_test x then Ok (Return (Some x))
      else (successors <- generate_successors hash x ;;
            Ok (Continue (fold_left heappush successors r, visited ∪ {[id x]})))).
  { unfold A_star_body. destruct frontier as [|s0 fr0]; [contradiction|].
    rewrite Hpop. cbn [bind fst snd]. reflexivity. }
  rewrite Hbody. clear Hbody.
  destruct Hinv as [(Hfr & _ & Hvis) | (_ & Hgood & Hsub & Hroot & Hclosed)];
    cbn [fst snd] in *.
  - (* first iteration: the frontier holds the root only *)
    change (State_init hash b0 fv d0 par) with root in Hfr.
    subst visited. rewrite Hfr in Hperm.
    symmetry in Hperm. apply Permutation_singleton_r in Hperm.
    inversion Hperm; subst x r. clear Hperm.
    destruct (decide (id root ∈ (∅ : gset Z))) as [Hin | Hnew].
    { apply not_elem_of_empty in Hin. contradiction. }
    destruct (goal_test root) eqn:Hgoal.
    + left. exists (Some root). split; [reflexivity|].
      exists root, 0%nat. split; [reflexivity|].
      split; [apply lineage_root|]. split; [exact Hgoal|].
      split; [cbn; lia|]. split; [apply slides_refl|]. intros; lia.
    + right. rewrite generate_successors_ok by exact Hb0. cbn [bind].
      eexists. split; [reflexivity|].
      assert (Hmain : (A_main hash is_heap b0 fv d0 par U) (fold_left heappush (successors hash root) [],
                              ∅ ∪ {[id root]})).
      { apply expand_main.
        - apply lineage_root.
        - exact Hgoal.
        - exact Hnew.
        - apply (hq_nil _ _ _ Hpq).
        - intros s Hs. inversion Hs.
        - apply empty_subseteq.
        - apply elem_of_union. right. apply elem_of_singleton. reflexivity.
        - intros n b _ Hin. apply not_elem_of_empty in Hin. contradiction.
        - intros n b _ _. cbn. lia. }
      split; [right; exact Hmain|].
      left. cbn [snd].
      destruct Hmain as (_ & _ & Hsub' & _). cbn [snd] in Hsub'.
      pose proof (subseteq_size _ _ Hsub') as Hle.
      rewrite size_union in Hle |- * by (apply disjoint_singleton_r; exact Hnew).
      rewrite size_singleton in Hle |- *. rewrite size_empty. lia.
  - (* later iterations *)
    assert (Hgx : (good hash b0 fv d0 par) x).
    { apply Hgood. rewrite Hperm. apply list_elem_of_here. }
    assert (Hgr : forall s, s ∈ r -> (good hash b0 fv d0 par) s).
    { intros s Hs. apply Hgood. rewrite Hperm. apply list_elem_of_further, Hs. }
    destruct Hgx as [Hx Hfx].
    pose proof (lineage_id hash b0 fv d0 par Hb0 x Hx) as Hidx.
    destruct (lineage_reach x Hx) as (nx & Hsx & Hdx).
    assert (Hclosed' : (closed_ok hash b0 d0) (x :: r) visited).
    { intros n b Hsb Hin. destruct (Hclosed n b Hsb Hin) as [Hng Hsucc].
      split; [exact Hng|]. intros b' Hn.
      destruct (Hsucc b' Hn) as [Hv | (s & Hs & Hg & Hd)]; [left; exact Hv|].
      right. exists s. split; [rewrite <- Hperm; exact Hs | auto]. }
    destruct (decide (id x ∈ visited)) as [Hvis | Hnew].
    + right. exists (r, visited). split; [reflexivity|]. split.
      * right. unfold A_main. cbn [fst snd].
        split; [exact Hr|]. split; [exact Hgr|]. split; [exact Hsub|].
        split; [exact Hroot|].
        intros n b Hsb Hin. destruct (Hclosed' n b Hsb Hin) as [Hng Hsucc].
        split; [exact Hng|]. intros b' Hn.
        destruct (Hsucc b' Hn) as [Hv | (s & Hs & Hg & Hd)]; [left; exact Hv|].
        apply elem_of_cons in Hs as [-> | Hs].
        -- left. rewrite <- (same_grid_id hash _ _ Hg), <- Hidx. exact Hvis.
        -- right. exists s. auto.
      * right. cbn [fst snd]. lia.
    + assert (Hbound : forall n b, slides hash n b0 b ->
                manhattan_distance b = manhattan_distance (board x) ->
                id_of hash b ∉ visited -> depth x <= d0 + Z.of_nat n).
      { intros n b Hsb Hh Hnv.
        destruct (frontier_bound frontier visited n b Hgood Hroot Hclosed Hsb Hnv)
          as (s & Hs & Hfs).
        pose proof (Hmin s Hs). lia. }
      destruct (goal_test x) eqn:Hgoal.
      * left. exists (Some x). split; [reflexivity|].
        exists x, nx. split; [reflexivity|]. split; [exact Hx|].
        split; [exact Hgoal|]. split; [exact Hdx|]. split; [exact Hsx|].
        intros n t Hst Hgt.
        assert (Hnv : id_of hash t ∉ visited).
        { intros Hin. destruct (Hclosed n t Hst Hin) as [Hng _]. contradiction. }
        apply goal_test_board in Hgoal.
        assert (Hle : depth x <= d0 + Z.of_nat n).
        { apply (Hbound n t Hst); [| exact Hnv].
          rewrite !goal_board_h by assumption. reflexivity. }
        lia.
      * right.
        rewrite generate_successors_ok
          by exact (lineage_inv hash b0 fv d0 par Hb0 x Hx).
        cbn [bind]. eexists. split; [reflexivity|].
        assert (Hmain : (A_main hash is_heap b0 fv d0 par U) (fold_left heappush (successors hash x) r,
                                visited ∪ {[id x]})).
        { apply expand_main; try assumption.
          - apply elem_of_union. left. exact Hroot.
          - intros n b Hsb Hid. rewrite Hidx in Hid.
            destruct (reach_same_h n nx b (board x) Hsb Hsx Hid) as (_ & Hh & _).
            apply (Hbound n b Hsb Hh).
            rewrite Hid, <- Hidx. exact Hnew. }
        split; [right; exact Hmain|].
        left. cbn [snd].
        destruct Hmain as (_ & _ & Hsub' & _). cbn [snd] in Hsub'.
        pose proof (subseteq_size _ _ Hsub') as Hle.
        rewrite size_union in Hle |- * by (apply disjoint_singleton_r; exact Hnew).
        rewrite size_singleton in Hle |- *. lia.
Qed.

End AStarProofs.


(** Best-first search over any priority queue ordered by [State.__lt__]:
    the first goal state popped is reached by a shortest sequence of
    moves. *)
Lemma A_star_optimal_pq (hash : string -> Z)
    (heappush : list State -> State -> list State)
    (heappop : list State -> result (State * list State))
    (is_heap : list State -> Prop)
    (b0 : Board) (fv d0 : Z) (par : option State) :
  heapq_spec heappush heappop is_heap ->
  board_inv b0 ->
  collision_free hash b0 ->
  (exists n t, slides hash n b0 t /\ goal_board t) ->
  exists fuel s m,
    A_star hash heappush heappop fuel (State_init hash b0 fv d0 par)
    = Some (Ok (Some s)) /\
    goal_piece_coordinates (board s) = (1, 3) /\
    depth s = d0 + Z.of_nat m /\
    slides hash m b0 (board s) /\
    (forall n t, slides hash n b0 t -> goal_board t -> (m <= n)%nat).
Proof.
  intros Hpq Hb0 Hcf (mg & tg & Hreach & Hgoal).
  destruct (while_loop_total (A_star_body hash heappush heappop)
              (A_inv hash is_heap b0 fv d0 par (all_ids hash))
              (A_post hash b0 fv d0 par)
              (fun c => (size (all_ids hash) - size (snd c))%nat)
              (fun c => length (fst c))
              (fun c => A_body_step hash heappush heappop is_heap Hpq b0 fv d0 par
                          Hb0 Hcf (all_ids hash) (id_of_all_ids hash) mg tg c
                          Hreach Hgoal)
              (heappush [] (State_init hash b0 fv d0 par), ∅))
    as (fuel & r & Hrun & (s & m & -> & Hlin & Hgs & Hd & Hsl & Hopt)).
  { left. unfold A_init. cbn [fst snd].
    split; [| split; [| reflexivity]].
    - apply Permutation_singleton_r. apply (hq_push_perm _ _ _ Hpq).
    - apply (hq_push_heap _ _ _ Hpq), (hq_nil _ _ _ Hpq). }
  exists fuel, s, m. split; [exact Hrun|].
  split; [apply goal_test_board, Hgs|]. auto.
Qed.

(** C1. Let the initial state be built by [State] from a board that
    satisfies the placement invariants and from which a goal board can be
    reached, and let no two reachable boards with different grids share
    an identity.  Then [A_star], on the heap of [heapq], returns a state
    whose goal piece is at [(1, 3)], whose board is reached from the
    initial board in [m] moves where [m] is the state's depth minus the
    initial depth, and no goal board can be reached in fewer than [m]
    moves. *)
Theorem A_star_optimal (hash : string -> Z)
    (b0 : Board) (fv d0 : Z) (par : option State) :
  board_inv b0 ->
  collision_free hash b0 ->
  (exists n t, slides hash n b0 t /\ goal_board t) ->
  exists fuel s m,
    A_star hash heapq.heappush heapq.heappop fuel (State_init hash b0 fv d0 par)
    = Some (Ok (Some s)) /\
    goal_piece_coordinates (board s) = (1, 3) /\
    depth s = d0 + Z.of_nat m /\
    slides hash m b0 (board s) /\
    (forall n t, slides hash n b0 t -> goal_board t -> (m <= n)%nat).
Proof.
  exact (A_star_optimal_pq hash heapq.heappush heapq.heappop heap_ordered
           b0 fv d0 par heapq_is_priority_queue).
Qed.


(** ** The parent chain of a returned state *)

Section ReturnedStates.

Variable hash : string -> Z.

Lemma DFS_returns_lineage (fuel : nat) (root s : State) :
  DFS hash fuel root = Some (Ok (Some s)) -> lineage hash root s.
Proof.
  intros Hrun.
  refine (while_loop_partial (DFS_body hash)
            (fun c => forall s', s' ∈ fst c -> lineage hash root s')
            (fun r => forall s', r = Some s' -> lineage hash root s')
            _ fuel ([root], ∅) (Some s) _ Hrun s eq_refl).
  - intros c Hinv.
    destruct (DFS_cases hash c) as [(_ & _ & ->) | (x & r & Hfr & Hcase)];
      [intros s' Hs'; discriminate|].
    assert (Hx : lineage hash root x).
    { apply Hinv. rewrite Hfr, elem_of_app, list_elem_of_singleton. auto. }
    assert (Hr : forall s', s' ∈ r -> lineage hash root s').
    { intros s' Hs'. apply Hinv. rewrite Hfr, elem_of_app. auto. }
    destruct Hcase as [(_ & _ & ->) | [(_ & _ & _ & ->) | (_ & _ & _ & ->)]].
    + exact Hr.
    + intros s' Hs'. inversion Hs'; subst. exact Hx.
    + destruct (generate_successors hash x) as [succs | e] eqn:Hgen; cbn [bind];
        [| exact I].
      cbn [fst]. intros s' Hs'.
      apply push_unvisited_elem in Hs' as [Hs' | Hs']; [apply Hr, Hs'|].
      eapply lineage_child; eassumption.
  - cbn [fst]. intros s' Hs'. apply list_elem_of_singleton in Hs' as ->.
    apply lineage_root.
Qed.

Variable heappush : list State -> State -> list State.
Variable heappop : list State -> result (State * list State).
Variable is_heap : list State -> Prop.
Hypothesis Hpq : heapq_spec heappush heappop is_heap.

Lemma A_star_returns_lineage (fuel : nat) (root s : State) :
  A_star hash heappush heappop fuel root = Some (Ok (Some s)) ->
  lineage hash root s.
Proof.
  intros Hrun.
  refine (while_loop_partial (A_star_body hash heappush heappop)
            (fun c => is_heap (fst c) /\
                      forall s', s' ∈ fst c -> lineage hash root s')
            (fun r => forall s', r = Some s' -> lineage hash root s')
            _ fuel (heappush [] root, ∅) (Some s) _ Hrun s eq_refl).
  - intros [frontier visited] [Hheap Hinv]. cbn [fst snd] in *.
    unfold A_star_body.
    destruct frontier as [|s0 fr0]; [intros s' Hs'; discriminate|].
    destruct (hq_pop _ _ _ Hpq (s0 :: fr0) Hheap) as (x & r & Hpop & Hr & Hperm & _);
      [discriminate|].
    rewrite Hpop. cbn [bind fst snd].
    assert (Hx : lineage hash root x).
    { apply Hinv. rewrite Hperm. apply list_elem_of_here. }
    assert (Hlr : forall s', s' ∈ r -> lineage hash root s').
    { intros s' Hs'. apply Hinv. rewrite Hperm. apply list_elem_of_further, Hs'. }
    destruct (decide (id x ∈ visited)); [split; assumption|].
    destruct (goal_test x).
    + intros s' Hs'. inversion Hs'; subst. exact Hx.
    + destruct (generate_successors hash x) as [succs | e] eqn:Hgen; cbn [bind];
        [| exact I].
      cbn [fst]. split.
      * apply (fold_push_heap heappush heappop is_heap Hpq), Hr.
      * intros s' Hs'.
        apply (fold_push_elem heappush heappop is_heap Hpq) in Hs' as [Hs' | Hs'];
          [| apply Hlr, Hs'].
        eapply lineage_child; eassumption.
  - cbn [fst]. split.
    + apply (hq_push_heap _ _ _ Hpq), (hq_nil _ _ _ Hpq).
    + intros s' Hs'. rewrite (hq_push_perm _ _ _ Hpq) in Hs'.
      apply list_elem_of_singleton in Hs' as ->. apply lineage_root.
Qed.

End ReturnedStates.

Section Chains.

Variable hash : string -> Z.
Variables (b0 : Board) (fv : Z).

Let root : State := State_init hash b0 fv 0 None.

Hypothesis Hb0 : board_inv b0.

Lemma successor_legal_slide (p : State) (piece : Piece) (d : direction) :
  board_inv (board p) -> piece ∈ pieces (board p) ->
  can_move (board p) piece d = true ->
  legal_slide (board p) (board (successor hash p piece d)).
Proof.
  intros Hb Hel Hmv. pose proof Hb as [Hv _].
  destruct (moved_pieces_split (pieces (board p)) piece d) as (l1 & l2 & E1 & E2);
    try apply Hv; try assumption.
  exists piece, d, l1, l2. split; [exact E1|].
  split; [apply can_move_slide_ok, Hmv|]. split; [exact E2|].
  apply (successor_inv hash p piece d Hb Hel Hmv).
Qed.

Lemma lineage_chain (s : State) :
  lineage hash root s ->
  nth_parent (length (collect_states s)) s = Some root /\
  last (root :: rev (collect_states s)) = Some s /\
  (forall i a, (root :: rev (collect_states s)) !! i = Some a ->
               depth a = Z.of_nat i) /\
  (forall i a b, (root :: rev (collect_states s)) !! i = Some a ->
                 (root :: rev (collect_states s)) !! S i = Some b ->
                 parent b = Some a /\ legal_slide (board a) (board b)).
Proof.
  induction 1 as [|p s l Hp IH Hgen Hs].
  - cbn. split; [reflexivity|]. split; [reflexivity|]. split.
    + intros [|i] a Ha; cbn in Ha; [| discriminate].
      inversion Ha; subst. reflexivity.
    + intros [|i] a b _ Hb; cbn in Hb; discriminate.
  - destruct IH as (Hnth & Hlast & Hdepth & Hpairs).
    pose proof (lineage_inv hash b0 fv 0 None Hb0 p Hp) as Hbp.
    destruct (lineage_child_inv hash p s l Hbp Hgen Hs) as (piece & d & Hel & Hmv & ->).
    set (s := successor hash p piece d) in *.
    assert (Ecs : collect_states s = s :: collect_states p) by reflexivity.
    assert (Epath : root :: rev (collect_states s)
                    = (root :: rev (collect_states p)) ++ [s]).
    { rewrite Ecs. cbn [rev]. reflexivity. }
    assert (Hlenp : length (root :: rev (collect_states p))
                    = S (length (collect_states p))).
    { cbn. rewrite length_rev. reflexivity. }
    assert (Hdp : depth p = Z.of_nat (length (collect_states p))).
    { apply (Hdepth (length (collect_states p))).
      rewrite last_lookup in Hlast. rewrite Hlenp in Hlast. exact Hlast. }
    rewrite Epath. split; [| split; [| split]].
    + rewrite Ecs. cbn [length nth_parent]. exact Hnth.
    + apply last_snoc.
    + intros i a Ha.
      destruct (decide (i < S (length (collect_states p)))%nat) as [Hlt | Hge].
      * rewrite lookup_app_l in Ha by lia. apply Hdepth, Ha.
      * rewrite lookup_app_r in Ha by lia. rewrite Hlenp in Ha.
        destruct (i - S (length (collect_states p)))%nat eqn:E; cbn in Ha;
          [| discriminate].
        inversion Ha; subst a. cbn [s successor State_init depth]. lia.
    + intros i a b Ha Hb.
      destruct (decide (S i < S (length (collect_states p)))%nat) as [Hlt | Hge].
      * rewrite lookup_app_l in Ha, Hb by lia. eapply Hpairs; eassumption.
      * apply lookup_lt_Some in Hb as Hbound.
        rewrite length_app, Hlenp in Hbound. cbn in Hbound.
        assert (Ei : i = length (collect_states p)) by lia. subst i.
        rewrite lookup_app_l in Ha by lia.
        rewrite lookup_app_r in Hb by lia. rewrite Hlenp in Hb.
        replace (S (length (collect_states p)) - S (length (collect_states p)))%nat
          with 0%nat in Hb by lia.
        cbn in Hb. inversion Hb; subst b.
        rewrite last_lookup, Hlenp in Hlast. cbn [pred] in Hlast.
        rewrite Hlast in Ha. inversion Ha; subst a.
        split; [reflexivity|]. apply successor_legal_slide; assumption.
Qed.

End Chains.

(** C8. Let [DFS] or [A_star] return a state for an initial state built
    by [State] with depth 0 and no parent from a board that satisfies the
    placement invariants.  Following the parent links from the returned
    state reaches the initial state, which has no parent, after as many
    steps as [write_to_file] collects states; the initial state followed by
    the collected states in reverse is free of repetitions, ends with the
    returned state, has as many collected states as the returned state's
    depth, and each state in it is the parent of the next, their boards
    differing by one legal slide.  [write_to_file] writes the grids of this
    sequence in order. *)
Theorem solution_chain (hash : string -> Z)
    (b0 : Board) (fv : Z) (fuel : nat) (s : State) :
  board_inv b0 ->
  DFS hash fuel (State_init hash b0 fv 0 None) = Some (Ok (Some s)) \/
  A_star hash heapq.heappush heapq.heappop fuel (State_init hash b0 fv 0 None)
  = Some (Ok (Some s)) ->
  let root := State_init hash b0 fv 0 None in
  let path := root :: rev (collect_states s) in
  nth_parent (length (collect_states s)) s = Some root /\
  parent root = None /\
  NoDup path /\
  last path = Some s /\
  Z.of_nat (length (collect_states s)) = depth s /\
  (forall i a b, path !! i = Some a -> path !! S i = Some b ->
                 parent b = Some a /\ legal_slide (board a) (board b)) /\
  write_to_file root (Some s)
  = Ok (fold_right (fun st acc => String.append (grid_text (grid (board st))) acc)
                   EmptyString path).
Proof.
  intros Hb0 Hret root path.
  assert (Hlin : lineage hash root s).
  { destruct Hret as [Hd | Ha].
    - apply (DFS_returns_lineage hash fuel root s Hd).
    - apply (A_star_returns_lineage hash heapq.heappush heapq.heappop heap_ordered
               heapq_is_priority_queue fuel root s Ha). }
  destruct (lineage_chain hash b0 fv Hb0 s Hlin) as (Hnth & Hlast & Hdepth & Hpairs).
  fold root in Hnth, Hlast, Hdepth, Hpairs. fold path in Hlast, Hdepth, Hpairs.
  split; [exact Hnth|]. split; [reflexivity|].
  split; [| split; [exact Hlast|]]; [| split; [| split; [exact Hpairs | reflexivity]]].
  - apply NoDup_alt. intros i j a Hi Hj.
    apply Hdepth in Hi, Hj. lia.
  - rewrite last_lookup in Hlast.
    apply Hdepth in Hlast. unfold path in Hlast. cbn [length pred] in Hlast.
    rewrite length_rev in Hlast. lia.
Qed.


(** ** Objects: reading and extending the store *)

Lemma extends_refl (st : store) : extends st st.
Proof. exists [], []. destruct st. cbn. rewrite !app_nil_r. reflexivity. Qed.

Lemma extends_trans (st1 st2 st3 : store) :
  extends st1 st2 -> extends st2 st3 -> extends st1 st3.
Proof.
  intros (ps & gs & ->) (ps' & gs' & ->). cbn.
  exists (ps ++ ps'), (gs ++ gs'). rewrite !app_assoc. reflexivity.
Qed.

Lemma extends_piece_lookup (st st' : store) (r : nat) :
  extends st st' -> (r < length (piece_objs st))%nat ->
  piece_objs st' !! r = piece_objs st !! r.
Proof. intros (ps & gs & ->) Hr. cbn. apply lookup_app_l. exact Hr. Qed.

Lemma extends_grid_lookup (st st' : store) (g : nat) :
  extends st st' -> (g < length (grid_objs st))%nat ->
  grid_objs st' !! g = grid_objs st !! g.
Proof. intros (ps & gs & ->) Hg. cbn. apply lookup_app_l. exact Hg. Qed.

Lemma extends_get_piece (st st' : store) (r : nat) :
  extends st st' -> (r < length (piece_objs st))%nat ->
  get_piece st' r = get_piece st r.
Proof. intros He Hr. unfold get_piece. rewrite (extends_piece_lookup st st'); auto. Qed.

Lemma extends_get_grid (st st' : store) (g : nat) :
  extends st st' -> (g < length (grid_objs st))%nat ->
  get_grid st' g = get_grid st g.
Proof. intros He Hg. unfold get_grid. rewrite (extends_grid_lookup st st'); auto. Qed.

Lemma extends_lengths (st st' : store) :
  extends st st' ->
  (length (piece_objs st) <= length (piece_objs st'))%nat /\
  (length (grid_objs st) <= length (grid_objs st'))%nat.
Proof. intros (ps & gs & ->). cbn. rewrite !length_app. lia. Qed.

Lemma extends_map_get_piece (st st' : store) (refs : list nat) :
  extends st st' -> Forall (fun r => (r < length (piece_objs st))%nat) refs ->
  map (get_piece st') refs = map (get_piece st) refs.
Proof.
  intros He Hrefs. induction Hrefs as [|r refs Hr _ IH]; [reflexivity|].
  cbn. rewrite IH, (extends_get_piece st st') by assumption. reflexivity.
Qed.

Lemma extends_board_value (st st' : store) (b : BoardObj) :
  extends st st' -> board_refs_ok st b -> board_value st' b = board_value st b.
Proof.
  intros He [Hp Hg]. unfold board_value.
  rewrite (extends_map_get_piece st st'), (extends_get_grid st st') by assumption.
  reflexivity.
Qed.

Lemma extends_board_refs_ok (st st' : store) (b : BoardObj) :
  extends st st' -> board_refs_ok st b -> board_refs_ok st' b.
Proof.
  intros He [Hp Hg]. destruct (extends_lengths st st' He) as [H1 H2]. split.
  - eapply Forall_impl; [exact Hp|]. cbn. intros r Hr. lia.
  - lia.
Qed.

Lemma extends_state (st st' : store) :
  extends st st' ->
  forall s, state_refs_ok st s ->
            state_value st' s = state_value st s /\ state_refs_ok st' s.
Proof.
  intros He. fix IH 1. intros [b fv d p i] [Hb Hp]. cbn in *.
  rewrite (extends_board_value st st' b He Hb).
  destruct p as [p|].
  - destruct (IH p Hp) as [E Hok]. rewrite E.
    split; [reflexivity|]. split; [| exact Hok].
    eapply extends_board_refs_ok; eassumption.
  - split; [reflexivity|]. split; [| exact I].
    eapply extends_board_refs_ok; eassumption.
Qed.

Lemma get_grid_last (P : list Piece) (G : list Grid) (g : Grid) :
  get_grid (mkStore P (G ++ [g])) (length G) = g.
Proof.
  unfold get_grid. cbn. rewrite lookup_app_r by lia.
  rewrite Nat.sub_diag. reflexivity.
Qed.

Lemma set_grid_last (P : list Piece) (G : list Grid) (g g' : Grid) :
  set_grid (mkStore P (G ++ [g])) (length G) g' = mkStore P (G ++ [g']).
Proof.
  unfold set_grid. cbn. f_equal.
  rewrite insert_app_r_alt by lia. rewrite Nat.sub_diag. reflexivity.
Qed.

Lemma map_get_block (P vs : list Piece) (G : list Grid) :
  map (get_piece (mkStore (P ++ vs) G)) (seq (length P) (length vs)) = vs.
Proof.
  revert P. induction vs as [|v vs IH]; intros P; [reflexivity|].
  cbn [length seq map]. f_equal.
  - unfold get_piece. cbn. rewrite lookup_app_r by lia.
    rewrite Nat.sub_diag. reflexivity.
  - specialize (IH (P ++ [v])). rewrite <- app_assoc in IH. cbn in IH.
    rewrite length_app in IH. cbn in IH.
    replace (length P + 1)%nat with (S (length P)) in IH by lia. exact IH.
Qed.

(** ** Objects: [Board] builds the same board *)

Lemma place_loop_sim (P : list Piece) (G : list Grid) (refs : list nat)
    (g : Grid) (gc : Z * Z) :
  foldM (place_piece_obj (length G)) refs (mkStore P (G ++ [g]), gc)
  = (res <- foldM place_piece (map (get_piece (mkStore P G)) refs) (g, gc) ;;
     Ok (mkStore P (G ++ [fst res]), snd res)).
Proof.
  revert g gc. induction refs as [|r refs IH]; intros g gc; [reflexivity|].
  cbn [foldM map]. unfold place_piece_obj at 1. cbn [fst snd].
  rewrite get_grid_last.
  replace (get_piece (mkStore P (G ++ [g])) r) with (get_piece (mkStore P G) r)
    by reflexivity.
  destruct (place_piece (g, gc) (get_piece (mkStore P G) r)) as [[g' gc']|e];
    cbn [bind fst snd]; [| reflexivity].
  rewrite set_grid_last. apply IH.
Qed.

Lemma Board_init_obj_sim (st : store) (refs : list nat) :
  Board_init_obj st refs
  = (b <- Board_init (map (get_piece st) refs) ;;
     Ok (mkStore (piece_objs st) (grid_objs st ++ [grid b]),
         mkBoardObj 4 5 refs (length (grid_objs st)) (goal_piece_coordinates b))).
Proof.
  destruct st as [P G]. unfold Board_init_obj, Board_init, construct_grid, new_grid.
  cbn [fst snd piece_objs grid_objs].
  rewrite place_loop_sim.
  destruct (foldM place_piece (map (get_piece (mkStore P G)) refs)
              (empty_grid 4 5, (0, 0))) as [[g gc]|e]; reflexivity.
Qed.

Lemma Board_init_fields (ps : list Piece) (b : Board) :
  Board_init ps = Ok b ->
  b = mkBoard 4 5 ps (grid b) (goal_piece_coordinates b).
Proof.
  unfold Board_init. destruct (construct_grid 4 5 ps) as [[g gc]|e]; cbn;
    intros H; inversion H; reflexivity.
Qed.

(** ** Objects: [deepcopy] and the assignment to the copy *)

Lemma deepcopy_pieces_fresh (st : store) (memo : list (nat * nat)) (refs : list nat) :
  NoDup refs -> (forall r, r ∈ refs -> memo_lookup memo r = None) ->
  Forall (fun r => (r < length (piece_objs st))%nat) refs ->
  exists memo',
    deepcopy_pieces st memo refs
    = (mkStore (piece_objs st ++ map (get_piece st) refs) (grid_objs st), memo',
       seq (length (piece_objs st)) (length refs)).
Proof.
  revert st memo. induction refs as [|r refs IH]; intros st memo Hnd Hmemo Hok.
  - exists memo. cbn. rewrite app_nil_r. destruct st; reflexivity.
  - apply NoDup_cons in Hnd as [Hnotin Hnd].
    inversion Hok as [|? ? Hr Hrest]; subst.
    cbn [deepcopy_pieces].
    rewrite (Hmemo r) by apply list_elem_of_here.
    set (st1 := fst (new_piece st (get_piece st r))).
    assert (Hext : extends st st1).
    { exists [get_piece st r], []. cbn. rewrite app_nil_r. reflexivity. }
    destruct (IH st1 ((r, snd (new_piece st (get_piece st r))) :: memo) Hnd)
      as (memo' & E).
    + intros r' Hr'. cbn.
      destruct (r =? r')%nat eqn:Eq.
      * apply Nat.eqb_eq in Eq. subst r'. contradiction.
      * apply Hmemo, list_elem_of_further, Hr'.
    + eapply Forall_impl; [exact Hrest|]. cbn. intros r' Hr'.
      rewrite length_app. lia.
    + exists memo'. rewrite E.
      rewrite (extends_map_get_piece st st1 refs Hext Hrest).
      unfold st1. cbn. rewrite <- app_assoc, length_app. cbn.
      replace (length (piece_objs st) + 1)%nat with (S (length (piece_objs st))) by lia.
      reflexivity.
Qed.

Lemma move_first_obj_block (P vals : list Piece) (G : list Grid)
    (px py : Z) (d : direction) :
  move_first_obj (mkStore (P ++ vals) G) (seq (length P) (length vals)) px py d
  = mkStore (P ++ move_first vals px py d) G.
Proof.
  revert P. induction vals as [|v vs IH]; intros P; [reflexivity|].
  cbn [length seq move_first_obj move_first].
  assert (Hget : get_piece (mkStore (P ++ v :: vs) G) (length P) = v).
  { unfold get_piece. cbn. rewrite lookup_app_r by lia.
    rewrite Nat.sub_diag. reflexivity. }
  rewrite Hget.
  destruct ((coord_x v =? px) && (coord_y v =? py)).
  - unfold set_piece. cbn. f_equal.
    rewrite insert_app_r_alt by lia. rewrite Nat.sub_diag. reflexivity.
  - specialize (IH (P ++ [v])). rewrite <- !app_assoc in IH. cbn in IH.
    rewrite length_app in IH. cbn in IH.
    replace (length P + 1)%nat with (S (length P)) in IH by lia. exact IH.
Qed.

Lemma move_first_length (ps : list Piece) (px py : Z) (d : direction) :
  length (move_first ps px py d) = length ps.
Proof.
  induction ps as [|p ps IH]; [reflexivity|]. cbn.
  destruct ((coord_x p =? px) && (coord_y p =? py)); cbn; lia.
Qed.


(** ** Objects: [get_new_state] touches new objects only *)

Section ObjectRefinement.

Variable hash : string -> Z.

Lemma Forall_seq_ge (n k : nat) : Forall (fun r => (n <= r)%nat) (seq n k).
Proof.
  apply Forall_forall. intros r Hr. apply list_elem_of_In, in_seq in Hr. lia.
Qed.

Lemma Forall_seq_lt (n k m : nat) :
  (n + k <= m)%nat -> Forall (fun r => (r < m)%nat) (seq n k).
Proof.
  intros H. apply Forall_forall. intros r Hr.
  apply list_elem_of_In, in_seq in Hr. lia.
Qed.

Lemma get_new_state_obj_sim (st : store) (s : StateObj) (px py : Z) (d : direction) :
  state_refs_ok st s -> NoDup (o_pieces (o_board s)) ->
  match get_new_state hash (state_value st s) px py d with
  | Ok s' =>
      exists st' so,
        get_new_state_obj hash st s px py d = Ok (st', so) /\
        extends st st' /\ state_value st' so = s' /\
        board_fresh (length (piece_objs st)) (length (grid_objs st)) (o_board so) /\
        state_refs_ok st' so
  | Raise e => get_new_state_obj hash st s px py d = Raise e
  end.
Proof.
  intros Hok Hnd.
  assert (Hbok : board_refs_ok st (o_board s)) by (destruct s; apply Hok).
  destruct Hbok as [Hrefs Hgref].
  destruct st as [P G]. cbn [piece_objs grid_objs] in *.
  set (refs := o_pieces (o_board s)) in *.
  set (vals := map (get_piece (mkStore P G)) refs).
  set (mv := move_first vals px py d).
  set (gold := get_grid (mkStore P G) (o_grid (o_board s))).
  assert (Hlen_vals : length vals = length refs) by apply length_map.
  assert (Hlen_mv : length mv = length refs).
  { unfold mv. rewrite move_first_length. exact Hlen_vals. }
  (* the deep copy *)
  destruct (deepcopy_pieces_fresh (mkStore P G) [] refs Hnd (fun _ _ => eq_refl) Hrefs)
    as (memo' & Ecopy).
  cbn [piece_objs grid_objs] in Ecopy. fold vals in Ecopy.
  (* the value-level call *)
  assert (Ev : get_new_state hash (state_value (mkStore P G) s) px py d
               = (test_board <- Board_init mv ;;
                  Ok (State_init hash test_board
                        (o_depth s + 1 + manhattan_distance test_board)
                        (o_depth s + 1) (Some (state_value (mkStore P G) s))))).
  { destruct s; reflexivity. }
  rewrite Ev. clear Ev.
  (* the object-level call *)
  assert (Eo : get_new_state_obj hash (mkStore P G) s px py d
               = (b <- Board_init mv ;;
                  let st' := mkStore (P ++ mv) ((G ++ [gold]) ++ [grid b]) in
                  let test_board := mkBoardObj 4 5 (seq (length P) (length refs))
                                      (length (G ++ [gold])) (goal_piece_coordinates b) in
                  Ok (st', State_init_obj hash st' test_board
                             (o_depth s + 1 + manhattan_distance_obj test_board)
                             (o_depth s + 1) (Some s)))).
  { unfold get_new_state_obj, deepcopy_board. fold refs. rewrite Ecopy.
    cbn [new_grid fst snd piece_objs grid_objs o_pieces o_grid].
    replace (get_grid (mkStore (P ++ vals) G) (o_grid (o_board s))) with gold
      by reflexivity.
    rewrite <- Hlen_vals at 1.
    rewrite move_first_obj_block. fold mv.
    rewrite Board_init_obj_sim. cbn [piece_objs grid_objs].
    rewrite <- Hlen_mv at 1. rewrite map_get_block.
    destruct (Board_init mv) as [b|e]; reflexivity. }
  rewrite Eo. clear Eo.
  destruct (Board_init mv) as [b|e] eqn:Eb; cbn [bind]; [| reflexivity].
  cbv zeta.
  set (st' := mkStore (P ++ mv) ((G ++ [gold]) ++ [grid b])).
  set (test_board := mkBoardObj 4 5 (seq (length P) (length refs))
                       (length (G ++ [gold])) (goal_piece_coordinates b)).
  assert (Hext : extends (mkStore P G) st').
  { exists mv, [gold; grid b]. unfold st'. cbn. rewrite <- app_assoc. reflexivity. }
  destruct (extends_state _ _ Hext s Hok) as [Esv Hok'].
  assert (Hgrid : get_grid st' (length (G ++ [gold])) = grid b).
  { unfold st'. apply get_grid_last. }
  assert (Hbv : board_value st' test_board = b).
  { unfold board_value. cbn [test_board o_width o_height o_pieces o_grid o_goal].
    rewrite Hgrid. unfold st'. rewrite <- Hlen_mv, map_get_block.
    symmetry. apply Board_init_fields, Eb. }
  eexists st', _. split; [reflexivity|]. split; [exact Hext|].
  split; [| split].
  - unfold State_init_obj, State_init. cbn [state_value o_board o_f o_depth o_parent o_id].
    rewrite Hbv, Esv.
    change (o_grid test_board) with (length (G ++ [gold])).
    rewrite Hgrid. reflexivity.
  - split; cbn [State_init_obj o_board test_board o_pieces o_grid].
    + apply Forall_seq_ge.
    + rewrite length_app. lia.
  - cbn [State_init_obj state_refs_ok o_board o_parent]. split; [| exact Hok'].
    split; cbn [test_board o_pieces o_grid st' piece_objs grid_objs].
    + apply Forall_seq_lt. rewrite length_app. lia.
    + rewrite !length_app. cbn. lia.
Qed.

(** ** Objects: the loop of [generate_successors] *)

Variable st0 : store.
Variable s : StateObj.
Hypothesis Hok : state_refs_ok st0 s.
Hypothesis Hnd : NoDup (o_pieces (o_board s)).

Lemma obj_sim_bind (rv : result (list State)) (ro : result (store * list StateObj))
    (kv : list State -> result (list State))
    (ko : store * list StateObj -> result (store * list StateObj)) :
  (obj_sim st0) rv ro ->
  (forall stc acc_o acc_v, (obj_inv st0) stc acc_o acc_v ->
                           (obj_sim st0) (kv acc_v) (ko (stc, acc_o))) ->
  (obj_sim st0) (bind rv kv) (bind ro ko).
Proof.
  intros Hs Hk. destruct rv as [acc_v|e]; cbn in *.
  - destruct Hs as (stc & acc_o & -> & Hinv). cbn. apply Hk, Hinv.
  - rewrite Hs. reflexivity.
Qed.

Lemma cvs_sim (stc : store) (x y : Z) :
  extends st0 stc ->
  check_valid_spot_obj stc s x y = check_valid_spot (state_value st0 s) x y.
Proof.
  intros He. unfold check_valid_spot_obj, check_valid_spot.
  assert (Hg : get_grid stc (o_grid (o_board s))
               = grid (board (state_value st0 s))).
  { destruct s as [b fv d p i]. cbn. apply extends_get_grid; [exact He|].
    cbn in Hok. apply Hok. }
  rewrite Hg. destruct s; reflexivity.
Qed.

Lemma map_state_value_ext (stc st' : store) (acc_o : list StateObj) :
  extends stc st' ->
  Forall (fun so => board_fresh (length (piece_objs st0)) (length (grid_objs st0))
                                (o_board so) /\ state_refs_ok stc so) acc_o ->
  map (state_value st') acc_o = map (state_value stc) acc_o /\
  Forall (fun so => board_fresh (length (piece_objs st0)) (length (grid_objs st0))
                                (o_board so) /\ state_refs_ok st' so) acc_o.
Proof.
  intros He Hall. induction Hall as [|so acc_o [Hf Hso] _ [IH1 IH2]].
  - split; [reflexivity | constructor].
  - destruct (extends_state stc st' He so Hso) as [E Hok'].
    split; [cbn; rewrite E, IH1; reflexivity|].
    constructor; [split; assumption | exact IH2].
Qed.

Lemma board_fresh_mono (np ng np' ng' : nat) (b : BoardObj) :
  (np <= np')%nat -> (ng <= ng')%nat -> board_fresh np' ng' b -> board_fresh np ng b.
Proof.
  intros H1 H2 [Hp Hg]. split; [| lia].
  eapply Forall_impl; [exact Hp|]. cbn. intros r Hr. lia.
Qed.

Lemma attempt_sim (cond_o : store -> result (option bool))
    (cond_v : result (option bool)) (piece : Piece) (d : direction)
    (stc : store) (acc_o : list StateObj) (acc_v : list State) :
  (obj_inv st0) stc acc_o acc_v -> cond_o stc = cond_v ->
  (obj_sim st0) (attempt hash (state_value st0 s) cond_v piece d acc_v)
          (attempt_obj hash s cond_o piece d (stc, acc_o)).
Proof.
  intros (Hext & Hmap & Hall) Hcond.
  unfold attempt, attempt_obj. cbn [fst snd]. rewrite Hcond.
  destruct cond_v as [c|e]; cbn [bind]; [| reflexivity].
  destruct (truthy c).
  2:{ cbn. exists stc, acc_o. split; [reflexivity|]. repeat split; assumption. }
  destruct (extends_state st0 stc Hext s Hok) as [Esv Hokc].
  pose proof (get_new_state_obj_sim stc s (coord_x piece) (coord_y piece) d Hokc Hnd)
    as Hsim.
  rewrite Esv in Hsim.
  destruct (get_new_state hash (state_value st0 s) (coord_x piece) (coord_y piece) d)
    as [s'|e]; cbn [bind].
  - destruct Hsim as (st' & so & -> & He' & Hval & Hfresh & Hso). cbn [bind fst snd].
    exists st', (acc_o ++ [so]). split; [reflexivity|].
    destruct (map_state_value_ext stc st' acc_o He' Hall) as [Emap Hall'].
    destruct (extends_lengths st0 stc Hext) as [Hl1 Hl2].
    split; [eapply extends_trans; eassumption|]. split.
    + rewrite map_app, Emap, Hmap. cbn. rewrite Hval. reflexivity.
    + apply Forall_app. split; [exact Hall'|].
      constructor; [| constructor]. split; [| exact Hso].
      eapply board_fresh_mono; [exact Hl1 | exact Hl2 | exact Hfresh].
  - rewrite Hsim. reflexivity.
Qed.

Lemma try_piece_sim (stc : store) (acc_o : list StateObj) (acc_v : list State)
    (r : nat) :
  (obj_inv st0) stc acc_o acc_v -> (r < length (piece_objs st0))%nat ->
  (obj_sim st0) (try_piece hash (state_value st0 s) acc_v (get_piece st0 r))
          (try_piece_obj hash s (stc, acc_o) r).
Proof.
  intros Hinv Hr.
  assert (Hpiece : get_piece stc r = get_piece st0 r).
  { apply extends_get_piece; [apply Hinv | exact Hr]. }
  unfold try_piece, try_piece_obj. cbn [fst]. rewrite Hpiece.
  set (piece := get_piece st0 r).
  assert (Hone : forall x y stc' acc_o' acc_v',
             (obj_inv st0) stc' acc_o' acc_v' ->
             check_valid_spot_obj stc' s x y = check_valid_spot (state_value st0 s) x y).
  { intros x y stc' acc_o' acc_v' Hi. apply cvs_sim, Hi. }
  assert (Htwo : forall x1 y1 x2 y2 stc' acc_o' acc_v',
             (obj_inv st0) stc' acc_o' acc_v' ->
             py_and (check_valid_spot_obj stc' s x1 y1) (check_valid_spot_obj stc' s x2 y2)
             = py_and (check_valid_spot (state_value st0 s) x1 y1)
                      (check_valid_spot (state_value st0 s) x2 y2)).
  { intros x1 y1 x2 y2 stc' acc_o' acc_v' Hi.
    rewrite !(cvs_sim stc') by apply Hi. reflexivity. }
  destruct (is_goal piece);
    [| destruct (orientation_is piece "h");
       [| destruct (orientation_is piece "v")]].
  all: repeat (apply obj_sim_bind;
               [| let stc' := fresh "stc" in
                  let ao := fresh "ao" in
                  let av := fresh "av" in
                  let Hi := fresh "Hi" in
                  intros stc' ao av Hi]).
  all: apply attempt_sim; try assumption;
    first [ eapply Hone; eassumption | eapply Htwo; eassumption ].
Qed.

Lemma loop_sim (refs : list nat) :
  Forall (fun r => (r < length (piece_objs st0))%nat) refs ->
  forall stc acc_o acc_v,
    (obj_inv st0) stc acc_o acc_v ->
    (obj_sim st0) (foldM (try_piece hash (state_value st0 s)) (map (get_piece st0) refs) acc_v)
            (foldM (try_piece_obj hash s) refs (stc, acc_o)).
Proof.
  induction 1 as [|r refs Hr _ IH]; intros stc acc_o acc_v Hinv.
  - cbn. exists stc, acc_o. auto.
  - cbn [map foldM]. apply obj_sim_bind; [apply try_piece_sim; assumption|].
    intros stc' ao av Hi. apply IH, Hi.
Qed.

Lemma generate_successors_obj_sim :
  (obj_sim st0) (generate_successors hash (state_value st0 s))
          (generate_successors_obj hash st0 s).
Proof.
  unfold generate_successors, generate_successors_obj.
  replace (pieces (board (state_value st0 s)))
    with (map (get_piece st0) (o_pieces (o_board s))) by (destruct s; reflexivity).
  apply loop_sim.
  - destruct s; apply Hok.
  - split; [apply extends_refl|]. split; [reflexivity | constructor].
Qed.

End ObjectRefinement.


(** C9. Run [generate_successors] on objects, for a state whose board
    satisfies the placement invariants: the call returns; every piece and
    every grid that existed before the call is unchanged afterwards, so
    the input state and its board have the values they had; every board
    of a returned state consists of pieces and a grid created during the
    call; and the values of the returned states are the states of the
    run on values. *)
Theorem generate_successors_no_mutation (hash : string -> Z)
    (st0 : store) (s : StateObj) :
  state_refs_ok st0 s ->
  board_inv (board (state_value st0 s)) ->
  exists st' succs_o,
    generate_successors_obj hash st0 s = Ok (st', succs_o) /\
    (forall r, (r < length (piece_objs st0))%nat ->
               piece_objs st' !! r = piece_objs st0 !! r) /\
    (forall g, (g < length (grid_objs st0))%nat ->
               grid_objs st' !! g = grid_objs st0 !! g) /\
    state_value st' s = state_value st0 s /\
    generate_successors hash (state_value st0 s)
    = Ok (map (state_value st') succs_o) /\
    Forall (fun so => board_fresh (length (piece_objs st0))
                                  (length (grid_objs st0)) (o_board so))
           succs_o.
Proof.
  intros Hok Hinv.
  assert (Hnd : NoDup (o_pieces (o_board s))).
  { destruct Hinv as [Hv _].
    pose proof (valid_NoDup_pieces _ (vp_wf _ Hv) (vp_disj _ Hv)) as Hnd.
    replace (pieces (board (state_value st0 s)))
      with (get_piece st0 <$> o_pieces (o_board s)) in Hnd by (destruct s; reflexivity).
    apply NoDup_fmap_1 in Hnd. exact Hnd. }
  pose proof (generate_successors_obj_sim hash st0 s Hok Hnd) as Hsim.
  rewrite (generate_successors_ok hash _ Hinv) in Hsim |- *.
  destruct Hsim as (st' & succs_o & Hrun & Hext & Hmap & Hall).
  exists st', succs_o. split; [exact Hrun|].
  split; [intros r Hr; apply extends_piece_lookup; assumption|].
  split; [intros g Hg; apply extends_grid_lookup; assumption|].
  split; [apply (extends_state st0 st' Hext s Hok)|].
  split; [rewrite Hmap; reflexivity|].
  eapply Forall_impl; [exact Hall|]. cbn. intros so [Hf _]. exact Hf.
Qed.


(** ** One run against another *)

Section Rehash.

Variables h1 h2 : string -> Z.

Lemma rehash_board (s : State) : board (rehash h2 s) = board s.
Proof. destruct s; reflexivity. Qed.

Lemma rehash_depth (s : State) : depth (rehash h2 s) = depth s.
Proof. destruct s; reflexivity. Qed.

Lemma rehash_id (s : State) : id (rehash h2 s) = id_of h2 (board s).
Proof. destruct s; reflexivity. Qed.

Lemma rehash_goal_test (s : State) : goal_test (rehash h2 s) = goal_test s.
Proof. unfold goal_test. rewrite rehash_board. reflexivity. Qed.

Lemma rehash_successor (st : State) (piece : Piece) (d : direction) :
  rehash h2 (successor h1 st piece d) = successor h2 (rehash h2 st) piece d.
Proof.
  unfold successor. rewrite rehash_board, rehash_depth.
  cbn [rehash State_init board f depth parent]. reflexivity.
Qed.

Lemma rehash_successors (st : State) :
  successors h2 (rehash h2 st) = map (rehash h2) (successors h1 st).
Proof.
  rewrite !successors_as_moves, map_map, rehash_board.
  apply map_ext. intros [piece d]. cbn [fst snd].
  symmetry. apply rehash_successor.
Qed.

Lemma rehash_collect (s : State) :
  collect_states (rehash h2 s) = map (rehash h2) (collect_states s).
Proof.
  revert s. fix IH 1. intros [b fv d [p|] i]; cbn; [| reflexivity].
  f_equal. apply IH.
Qed.

Lemma rehash_write (first1 first2 : State) (r : option State) :
  grid (board first2) = grid (board first1) ->
  write_to_file first2 (option_map (rehash h2) r) = write_to_file first1 r.
Proof.
  intros Hg. destruct r as [s|]; [| reflexivity]. cbn [option_map write_to_file].
  rewrite Hg, rehash_collect, <- map_rev. f_equal. f_equal.
  induction (rev (collect_states s)) as [|st l IH]; [reflexivity|].
  cbn. rewrite rehash_board, IH. reflexivity.
Qed.

Lemma slides_hash_indep (n : nat) (b b' : Board) :
  board_inv b -> slides h1 n b b' -> slides h2 n b b'.
Proof.
  intros Hb Hs. induction Hs as [|n b b1 b2 Hn Hs IH]; [apply slides_refl|].
  pose proof (next_board_inv h1 _ _ Hb Hn) as Hb1.
  eapply slides_step; [| apply IH, Hb1].
  apply next_board_slide; [exact Hb|].
  apply (next_board_slide h1) in Hn; assumption.
Qed.

Lemma py_pop_app {A : Type} (r : list A) (x : A) : py_pop (r ++ [x]) = Ok (x, r).
Proof. unfold py_pop. rewrite rev_app_distr. cbn. rewrite rev_involutive. reflexivity. Qed.

End Rehash.

(** ** Depth-first search does not depend on the hash key *)

Section DFSTwoRuns.

Variables h1 h2 : string -> Z.
Variables (b0 : Board) (fv d0 : Z) (par : option State).

Let root1 : State := State_init h1 b0 fv d0 par.

Hypothesis Hb0 : board_inv b0.
Hypothesis Hcf1 : collision_free h1 b0.
Hypothesis Hcf2 : collision_free h2 b0.

Lemma visited_same (W : list Board) (s : State) :
  (forall w, w ∈ W -> exists n, slides h1 n b0 w) ->
  lineage h1 root1 s ->
  id s ∈ (list_to_set (map (id_of h1) W) : gset Z) <->
  id (rehash h2 s) ∈ (list_to_set (map (id_of h2) W) : gset Z).
Proof.
  intros HW Hs.
  destruct (lineage_facts h1 b0 fv d0 par Hb0 s Hs) as (_ & Hid & n & Hsl & _).
  rewrite Hid, rehash_id, !elem_of_list_to_set, !list_elem_of_fmap.
  split; intros (w & Hw & Hin); exists w; (split; [| exact Hin]).
  - destruct (HW w Hin) as (m & Hm).
    apply same_grid_id. symmetry. apply (Hcf1 m w n (board s) Hm Hsl). auto.
  - destruct (HW w Hin) as (m & Hm).
    apply same_grid_id. symmetry.
    apply (Hcf2 m w n (board s)); [| | auto];
      apply (slides_hash_indep h1 h2); assumption.
Qed.

Lemma push_unvisited_rehash (v1 v2 : gset Z) (succs fr : list State) :
  (forall s, s ∈ succs -> (id s ∈ v1 <-> id (rehash h2 s) ∈ v2)) ->
  push_unvisited v2 (map (rehash h2) fr) (map (rehash h2) succs)
  = map (rehash h2) (push_unvisited v1 fr succs).
Proof.
  unfold push_unvisited. revert fr.
  induction succs as [|a succs IH]; intros fr Hmem; [reflexivity|].
  cbn [map fold_left].
  assert (Ha := Hmem a (list_elem_of_here _ _)).
  assert (Hrest : forall s, s ∈ succs -> (id s ∈ v1 <-> id (rehash h2 s) ∈ v2)).
  { intros s Hs. apply Hmem, list_elem_of_further, Hs. }
  destruct (decide (id a ∈ v1)) as [Hin | Hnin];
    destruct (decide (id (rehash h2 a) ∈ v2)) as [Hin2 | Hnin2];
    try (exfalso; tauto).
  - apply IH, Hrest.
  - rewrite <- (IH (fr ++ [a]) Hrest). rewrite map_app. reflexivity.
Qed.

Lemma two_runs_step (c1 c2 : list State * gset Z) :
  (two_runs h1 h2 b0 fv d0 par) c1 c2 ->
  match DFS_body h1 c1 with
  | Ok (Return r) => DFS_body h2 c2 = Ok (Return (option_map (rehash h2) r))
  | Ok (Continue c1') =>
      exists c2', DFS_body h2 c2 = Ok (Continue c2') /\ (two_runs h1 h2 b0 fv d0 par) c1' c2'
  | Raise e => True
  end.
Proof.
  destruct c1 as [fr1 v1], c2 as [fr2 v2].
  intros (Hfr & Hlin & W & HW & Hv1 & Hv2). cbn [fst snd] in *. subst fr2 v1 v2.
  destruct (DFS_cases h1 (fr1, list_to_set (map (id_of h1) W)))
    as [(Hnil & _ & ->) | (x & r & Hsn & Hcase)]; cbn [fst snd] in *.
  { subst fr1. reflexivity. }
  subst fr1.
  assert (Hx : lineage h1 root1 x).
  { apply Hlin. rewrite elem_of_app, list_elem_of_singleton. auto. }
  assert (Hr : forall s, s ∈ r -> lineage h1 root1 s).
  { intros s Hs. apply Hlin. rewrite elem_of_app. auto. }
  pose proof (visited_same W x HW Hx) as Hmem.
  assert (Hbody2 : DFS_body h2 (map (rehash h2) (r ++ [x]),
                                list_to_set (map (id_of h2) W))
    = if decide (id (rehash h2 x) ∈ (list_to_set (map (id_of h2) W) : gset Z))
      then Ok (Continue (map (rehash h2) r, list_to_set (map (id_of h2) W)))
      else if goal_test (rehash h2 x) then Ok (Return (Some (rehash h2 x)))
      else (successors <- generate_successors h2 (rehash h2 x) ;;
            Ok (Continue (push_unvisited
                            (list_to_set (map (id_of h2) W) ∪ {[id (rehash h2 x)]})
                            (map (rehash h2) r) successors,
                          list_to_set (map (id_of h2) W) ∪ {[id (rehash h2 x)]})))).
  { unfold DFS_body. rewrite map_app. cbn [map].
    destruct (map (rehash h2) r ++ [rehash h2 x]) as [|y l] eqn:E.
    { destruct (map (rehash h2) r); discriminate. }
    rewrite <- E, py_pop_app. cbn [bind fst snd]. reflexivity. }
  rewrite Hbody2. clear Hbody2. rewrite rehash_goal_test.
  destruct Hcase as [(Hvis & _ & ->) | [(Hnew & Hg & _ & ->) | (Hnew & Hg & _ & ->)]].
  - destruct (decide _) as [_ | Hn]; [| exfalso; tauto].
    eexists. split; [reflexivity|].
    split; [reflexivity|]. split; [exact Hr|]. exists W. auto.
  - destruct (decide _) as [Hy | _]; [exfalso; tauto|]. rewrite Hg. reflexivity.
  - destruct (decide _) as [Hy | _]; [exfalso; tauto|]. rewrite Hg.
    pose proof (lineage_inv h1 b0 fv d0 par Hb0 x Hx) as Hbx.
    rewrite (generate_successors_ok h1 x Hbx).
    rewrite (generate_successors_ok h2 (rehash h2 x))
      by (rewrite rehash_board; exact Hbx).
    cbn [bind]. rewrite (rehash_successors h1 h2).
    destruct (lineage_facts h1 b0 fv d0 par Hb0 x Hx) as (_ & Hidx & n & Hsl & _).
    assert (HW' : forall w, w ∈ W ++ [board x] -> exists n, slides h1 n b0 w).
    { intros w Hw. apply elem_of_app in Hw as [Hw | Hw]; [apply HW, Hw|].
      apply list_elem_of_singleton in Hw. subst w. exists n. exact Hsl. }
    assert (E1 : list_to_set (map (id_of h1) W) ∪ {[id x]}
                 = (list_to_set (map (id_of h1) (W ++ [board x])) : gset Z)).
    { rewrite map_app, list_to_set_app_L. cbn. rewrite Hidx.
      rewrite union_empty_r_L. reflexivity. }
    assert (E2 : list_to_set (map (id_of h2) W) ∪ {[id (rehash h2 x)]}
                 = (list_to_set (map (id_of h2) (W ++ [board x])) : gset Z)).
    { rewrite map_app, list_to_set_app_L. cbn. rewrite rehash_id.
      rewrite union_empty_r_L. reflexivity. }
    rewrite E1, E2.
    eexists. split; [reflexivity|]. split; cbn [fst snd].
    + apply push_unvisited_rehash. intros s Hs.
      apply visited_same; [exact HW'|].
      exact (lineage_successors h1 b0 fv d0 par Hb0 x s Hx Hs).
    + split.
      * intros s Hs. apply push_unvisited_elem in Hs as [Hs | Hs]; [apply Hr, Hs|].
        exact (lineage_successors h1 b0 fv d0 par Hb0 x s Hx Hs).
      * exists (W ++ [board x]). auto.
Qed.

Lemma two_runs_loop (fuel : nat) (c1 c2 : list State * gset Z) (r : option State) :
  (two_runs h1 h2 b0 fv d0 par) c1 c2 ->
  while_loop (DFS_body h1) fuel c1 = Some (Ok r) ->
  while_loop (DFS_body h2) fuel c2 = Some (Ok (option_map (rehash h2) r)).
Proof.
  revert c1 c2. induction fuel as [|fuel IH]; intros c1 c2 HR Hrun; [discriminate|].
  cbn [while_loop] in *.
  pose proof (two_runs_step c1 c2 HR) as Hstep.
  destruct (DFS_body h1 c1) as [[c1' | r'] | e]; [| | discriminate].
  - destruct Hstep as (c2' & -> & HR'). apply (IH c1' c2' HR' Hrun).
  - rewrite Hstep. inversion Hrun; subst. reflexivity.
Qed.

End DFSTwoRuns.


Lemma while_loop_functional {C R : Type} (body : C -> result (step C R))
    (n m : nat) (c : C) (r r' : result R) :
  while_loop body n c = Some r -> while_loop body m c = Some r' -> r = r'.
Proof.
  intros Hn Hm.
  apply (while_loop_mono body n (Nat.max n m)) in Hn; [| lia].
  apply (while_loop_mono body m (Nat.max n m)) in Hm; [| lia].
  congruence.
Qed.

Lemma DFS_two_runs (h1 h2 : string -> Z) (b0 : Board) (fuel : nat)
    (r : option State) :
  board_inv b0 -> collision_free h1 b0 -> collision_free h2 b0 ->
  DFS h1 fuel (State_init h1 b0 0 0 None) = Some (Ok r) ->
  DFS h2 fuel (State_init h2 b0 0 0 None) = Some (Ok (option_map (rehash h2) r)).
Proof.
  intros Hb0 Hcf1 Hcf2 Hrun. unfold DFS in *.
  apply (two_runs_loop h1 h2 b0 0 0 None Hb0 Hcf1 Hcf2 fuel
           ([State_init h1 b0 0 0 None], ∅)); [| exact Hrun].
  split; [reflexivity|]. split.
  - intros s Hs. cbn [fst] in Hs. apply list_elem_of_singleton in Hs. subst s.
    apply lineage_root.
  - exists []. split; [intros w Hw; inversion Hw|]. split; reflexivity.
Qed.

(** C6 (amended).  Within one run of the interpreter, that is for one
    string hash [h1], the identity of a state is a function of the grid of
    its board alone, whatever its cost, depth and parent, and each search
    is a function of its initial state: two runs of [A_star], or of [DFS],
    that return agree on what they return.  Across two runs, with string
    hashes [h1] and [h2] that are both free of collisions on the boards
    reachable from a well-formed initial board, [DFS] writes the same
    output. *)
Theorem search_reproducible (h1 h2 : string -> Z) (b0 : Board) :
  board_inv b0 -> collision_free h1 b0 -> collision_free h2 b0 ->
  (forall b1 b2 f1 d1 p1 f2 d2 p2,
      grid b1 = grid b2 ->
      id (State_init h1 b1 f1 d1 p1) = id (State_init h1 b2 f2 d2 p2)) /\
  (forall heappush heappop fuel fuel' s r r',
      A_star h1 heappush heappop fuel s = Some r ->
      A_star h1 heappush heappop fuel' s = Some r' -> r = r') /\
  (forall fuel fuel' s r r',
      DFS h1 fuel s = Some r -> DFS h1 fuel' s = Some r' -> r = r') /\
  (forall fuel out,
      DFS_output h1 fuel b0 = Some (Ok out) ->
      DFS_output h2 fuel b0 = Some (Ok out)).
Proof.
  intros Hb0 Hcf1 Hcf2. split; [| split; [| split]].
  - intros b1 b2 f1 d1 p1 f2 d2 p2 Hg. cbn. rewrite Hg. reflexivity.
  - intros heappush heappop fuel fuel' s r r'. unfold A_star.
    apply while_loop_functional.
  - intros fuel fuel' s r r'. unfold DFS. apply while_loop_functional.
  - intros fuel out. unfold DFS_output.
    destruct (DFS h1 fuel (State_init h1 b0 0 0 None)) as [[r | e] |] eqn:E;
      [| discriminate | discriminate].
    rewrite (DFS_two_runs h1 h2 b0 fuel r Hb0 Hcf1 Hcf2 E).
    intros Hout. rewrite (rehash_write h2 (State_init h1 b0 0 0 None)); [exact Hout|].
    reflexivity.
Qed.


(** ** Worked examples *)

Ltac solve_valid :=
  constructor;
  [ repeat (apply Forall_cons_2;
            [cbn; first [exact I | left; reflexivity | right; reflexivity] |]);
    apply Forall_nil_2
  | repeat constructor; cbn; lia
  | cbn; repeat (apply NoDup_cons; split; [cell_not_member |]); apply NoDup_nil_2
  | reflexivity ].

Lemma solo_valid : valid_pieces solo_pieces.
Proof. solve_valid. Qed.

Lemma mixed_valid : valid_pieces mixed_pieces.
Proof. solve_valid. Qed.

Lemma solo_board_inv : board_inv solo_board.
Proof. apply board_of_inv, solo_valid. Qed.

Lemma mixed_board_inv : board_inv mixed_board.
Proof. apply board_of_inv, mixed_valid. Qed.

Lemma manhattan_distance_admissible_witness :
  board_inv solo_board /\
  (forall g, g ∈ pieces solo_board -> is_goal g = true ->
             manhattan_distance solo_board
             = Z.abs (coord_x g - 1) + Z.abs (coord_y g - 3)) /\
  (forall n b', slides string_code n solo_board b' -> goal_board b' ->
                manhattan_distance solo_board <= Z.of_nat n).
Proof.
  split; [exact solo_board_inv|].
  apply (manhattan_distance_admissible string_code solo_board solo_board_inv).
Defined.

Lemma generate_successors_exact_witness :
  board_inv (board (State_init string_code mixed_board 0 0 None)) /\
  exists moves,
    generate_successors string_code (State_init string_code mixed_board 0 0 None)
    = Ok (map (fun pd => successor string_code
                           (State_init string_code mixed_board 0 0 None)
                           (fst pd) (snd pd)) moves) /\
    length moves = 9%nat.
Proof.
  split; [exact mixed_board_inv|].
  destruct (generate_successors_exact string_code
              (State_init string_code mixed_board 0 0 None) mixed_board_inv)
    as (moves & Hgen & _).
  exists moves. split; [exact Hgen|].
  assert (Hlen : length (map (fun pd => successor string_code
                           (State_init string_code mixed_board 0 0 None)
                           (fst pd) (snd pd)) moves) = 9%nat).
  { apply (f_equal (fun r => match r with Ok l => length l | Raise _ => 0%nat end)) in Hgen.
    rewrite <- Hgen. vm_compute. reflexivity. }
  rewrite length_map in Hlen. exact Hlen.
Defined.

Lemma generate_successors_preserves_invariants_witness :
  board_inv (board (State_init string_code mixed_board 0 0 None)) /\
  exists l, generate_successors string_code
              (State_init string_code mixed_board 0 0 None) = Ok l /\
            forall s, s ∈ l ->
                      valid_pieces (pieces (board s)) /\ board_inv (board s).
Proof.
  split; [exact mixed_board_inv|].
  apply (generate_successors_preserves_invariants string_code
           (State_init string_code mixed_board 0 0 None) mixed_board_inv).
Defined.

(** C5 fails on the code: two pieces on the same cell violate the
    placement invariants, and [Board] builds a board from them. *)
Lemma Board_init_accepts_overlap :
  ~ valid_pieces overlap_pieces /\
  exists b, Board_init overlap_pieces = Ok b.
Proof.
  split.
  - intros [_ _ Hnd _]. cbn in Hnd. apply NoDup_cons in Hnd as [Hnot _].
    apply Hnot, list_elem_of_here.
  - eexists. vm_compute. reflexivity.
Qed.

Lemma Board_init_unchecked_witness :
  Forall in_grid (cells overlap_pieces) /\
  Board_init overlap_pieces = Ok (board_of overlap_pieces).
Proof.
  assert (H : Forall in_grid (cells overlap_pieces)).
  { repeat constructor; cbn; lia. }
  split; [exact H|]. apply (Board_init_unchecked overlap_pieces H).
Defined.

Lemma state_id_permutation_witness :
  grid (board_of [P_single 0 0; P_goal 1 0]) = grid (board_of [P_goal 1 0; P_single 0 0]).
Proof.
  assert (Hin : Forall in_grid (cells [P_single 0 0; P_goal 1 0])).
  { repeat constructor; cbn; lia. }
  assert (Hnd : NoDup (cells [P_single 0 0; P_goal 1 0])).
  { cbn; repeat (apply NoDup_cons; split; [cell_not_member |]); apply NoDup_nil_2. }
  refine (proj1 (proj2 (proj2
    (state_id_permutation string_code [P_single 0 0; P_goal 1 0]
       [P_goal 1 0; P_single 0 0] _ _ _ Hin Hnd _ _)))).
  - apply perm_swap.
  - vm_compute. reflexivity.
  - vm_compute. reflexivity.
Defined.

(** [string_code] never collides. *)
Lemma string_code_pos (s : string) : 1 <= string_code s.
Proof. induction s as [|c s IH]; simpl; lia. Qed.

Lemma string_code_inj (s1 s2 : string) :
  string_code s1 = string_code s2 -> s1 = s2.
Proof.
  revert s2. induction s1 as [|c1 s1 IH]; intros [|c2 s2] H; simpl in H.
  - reflexivity.
  - pose proof (string_code_pos s2). lia.
  - pose proof (string_code_pos s1). lia.
  - pose proof (nat_ascii_bounded c1). pose proof (nat_ascii_bounded c2).
    assert (E1 : string_code s1 = string_code s2) by lia.
    assert (E2 : nat_of_ascii c1 = nat_of_ascii c2) by lia.
    f_equal; [| apply IH, E1].
    rewrite <- (ascii_nat_embedding c1), <- (ascii_nat_embedding c2), E2.
    reflexivity.
Qed.

(** [str] is injective on grids of five rows of four cells. *)
Lemma shape_cases (g : Grid) :
  shape g ->
  exists a0 a1 a2 a3 b0 b1 b2 b3 c0 c1 c2 c3 d0 d1 d2 d3 e0 e1 e2 e3,
    g = [[a0; a1; a2; a3]; [b0; b1; b2; b3]; [c0; c1; c2; c3];
         [d0; d1; d2; d3]; [e0; e1; e2; e3]].
Proof.
  intros [Hlen Hrows].
  destruct g as [|r0 [|r1 [|r2 [|r3 [|r4 [|]]]]]]; try discriminate.
  repeat match goal with
         | H : Forall _ (_ :: _) |- _ => inversion H; clear H; subst
         end.
  repeat match goal with
         | H : length ?r = 4%nat |- _ =>
             destruct r as [|? [|? [|? [|? [|]]]]]; try discriminate; clear H
         end.
  repeat eexists.
Qed.

Lemma str_grid_inj (g1 g2 : Grid) :
  shape g1 -> shape g2 -> str_grid g1 = str_grid g2 -> g1 = g2.
Proof.
  intros H1 H2 E.
  destruct (shape_cases g1 H1)
    as (a0 & a1 & a2 & a3 & b0 & b1 & b2 & b3 & c0 & c1 & c2 & c3 &
        d0 & d1 & d2 & d3 & e0 & e1 & e2 & e3 & ->).
  destruct (shape_cases g2 H2)
    as (a0' & a1' & a2' & a3' & b0' & b1' & b2' & b3' & c0' & c1' & c2' & c3' &
        d0' & d1' & d2' & d3' & e0' & e1' & e2' & e3' & ->).
  cbn in E. inversion E. reflexivity.
Qed.

Lemma collision_free_inj (hash : string -> Z) (b0 : Board) :
  (forall s1 s2, hash s1 = hash s2 -> s1 = s2) -> board_inv b0 ->
  collision_free hash b0.
Proof.
  intros Hinj Hb0 n1 b1 n2 b2 H1 H2 Hid.
  pose proof (slides_inv hash n1 b0 b1 H1 Hb0) as Hi1.
  pose proof (slides_inv hash n2 b0 b2 H2 Hb0) as Hi2.
  apply str_grid_inj.
  - rewrite (board_inv_eq b1 Hi1). apply grid_of_shape.
  - rewrite (board_inv_eq b2 Hi2). apply grid_of_shape.
  - apply Hinj, Hid.
Qed.

(** The goal piece alone reaches its target in three moves down. *)
Lemma solo_step (y : Z) :
  0 <= y < 3 ->
  slide_step (board_of [P_goal 1 y]) (board_of [P_goal 1 (y + 1)]).
Proof.
  intros Hy. exists (P_goal 1 y), Down.
  split; [apply list_elem_of_here|]. split; [| cbn; rewrite !Z.eqb_refl; reflexivity].
  assert (Hc : y = 0 \/ y = 1 \/ y = 2) by lia.
  destruct Hc as [-> | [-> | ->]]; vm_compute; reflexivity.
Qed.

Lemma solo_valid_at (y : Z) : 0 <= y <= 3 -> valid_pieces [P_goal 1 y].
Proof.
  intros Hy. constructor.
  - repeat constructor.
  - repeat constructor; cbn; lia.
  - cbn. repeat (apply NoDup_cons; split; [cell_not_member |]). apply NoDup_nil_2.
  - reflexivity.
Qed.

Lemma solo_reach :
  exists n t, slides string_code n solo_board t /\ goal_board t.
Proof.
  exists 3%nat, (board_of [P_goal 1 3]). split; [| reflexivity].
  eapply slides_step.
  { apply next_board_slide; [exact solo_board_inv|]. apply (solo_step 0). lia. }
  eapply slides_step.
  { apply next_board_slide; [apply board_of_inv, solo_valid_at; lia|].
    apply (solo_step 1). lia. }
  eapply slides_step.
  { apply next_board_slide; [apply board_of_inv, solo_valid_at; lia|].
    apply (solo_step 2). lia. }
  apply slides_refl.
Qed.

(** The scenario of the specification: from the goal piece alone at
    [(1, 0)], [A_star] returns a state of depth 3 with the piece at
    [(1, 3)]. *)
Example A_star_solo :
  match A_star string_code heapq.heappush heapq.heappop 30
               (State_init string_code solo_board 0 0 None) with
  | Some (Ok (Some s)) => (depth s, goal_piece_coordinates (board s))
  | _ => (-1, (0, 0))
  end = (3, (1, 3)).
Proof. vm_compute. reflexivity. Qed.

Lemma A_star_optimal_witness :
  board_inv solo_board /\
  collision_free string_code solo_board /\
  (exists n t, slides string_code n solo_board t /\ goal_board t) /\
  exists fuel s m,
    A_star string_code heapq.heappush heapq.heappop fuel
           (State_init string_code solo_board 0 0 None)
    = Some (Ok (Some s)) /\
    goal_piece_coordinates (board s) = (1, 3) /\
    depth s = 0 + Z.of_nat m /\
    slides string_code m solo_board (board s) /\
    (forall n t, slides string_code n solo_board t -> goal_board t -> (m <= n)%nat).
Proof.
  split; [exact solo_board_inv|].
  split; [exact (collision_free_inj string_code solo_board string_code_inj solo_board_inv)|].
  split; [exact solo_reach|].
  exact (A_star_optimal string_code solo_board 0 0 None solo_board_inv
           (collision_free_inj string_code solo_board string_code_inj solo_board_inv)
           solo_reach).
Defined.

(** A run of [A_star] on the solo board. *)
Lemma solo_run :
  exists s, A_star string_code heapq.heappush heapq.heappop 30
                   (State_init string_code solo_board 0 0 None)
            = Some (Ok (Some s)).
Proof. eexists. vm_compute. reflexivity. Qed.

Lemma solution_chain_witness :
  board_inv solo_board /\
  exists s,
    A_star string_code heapq.heappush heapq.heappop 30
           (State_init string_code solo_board 0 0 None) = Some (Ok (Some s)) /\
    Z.of_nat (length (collect_states s)) = depth s /\
    NoDup (State_init string_code solo_board 0 0 None :: rev (collect_states s)).
Proof.
  split; [exact solo_board_inv|].
  destruct solo_run as (s & Hrun).
  exists s. split; [exact Hrun|].
  destruct (solution_chain string_code solo_board 0 30 s solo_board_inv
              (or_intror Hrun))
    as (_ & _ & Hnd & _ & Hlen & _).
  split; [exact Hlen | exact Hnd].
Defined.

Lemma generate_successors_no_mutation_witness :
  state_refs_ok mixed_store mixed_state_obj /\
  board_inv (board (state_value mixed_store mixed_state_obj)) /\
  exists st' succs_o,
    generate_successors_obj string_code mixed_store mixed_state_obj
    = Ok (st', succs_o) /\
    state_value st' mixed_state_obj = state_value mixed_store mixed_state_obj /\
    generate_successors string_code (state_value mixed_store mixed_state_obj)
    = Ok (map (state_value st') succs_o).
Proof.
  assert (H1 : state_refs_ok mixed_store mixed_state_obj).
  { unfold state_refs_ok, board_refs_ok, mixed_state_obj, mixed_store.
    cbn [o_board o_pieces o_grid o_parent piece_objs grid_objs length mixed_pieces].
    split; [| exact I].
    split; [repeat (apply Forall_cons_2; [cbn; lia|]); apply Forall_nil_2 | lia]. }
  assert (H2 : board_inv (board (state_value mixed_store mixed_state_obj))).
  { replace (board (state_value mixed_store mixed_state_obj)) with mixed_board
      by (vm_compute; reflexivity).
    exact mixed_board_inv. }
  split; [exact H1|]. split; [exact H2|].
  destruct (generate_successors_no_mutation string_code mixed_store
              mixed_state_obj H1 H2)
    as (st' & succs_o & Hrun & _ & _ & Hval & Hsim & _).
  exists st', succs_o. auto.
Defined.

(** ** Two runs on one board *)

(** Values of [hash] as CPython 3.11 prints them for [PYTHONHASHSEED]
    0, 1 and 2. *)
Example py_hash_values :
  map (fun seed => map (PyHash.py_hash_seeded seed)
                       ["abc"; "a"; "123456789"]%string) [0; 1; 2]
  = [[-4594863902769663758; 4644417185603328019; 1133797698992234447];
     [-4667308735975688587; -3012895188637184397; -208597201830176158];
     [4069345407874332860; 6352457989142756797; 624759534378992298]].
Proof. vm_compute. reflexivity. Qed.

Example corner_board_ids :
  id (State_init hash_run1 corner_board 0 0 None) = -6773843219216902171 /\
  id (State_init hash_run2 corner_board 0 0 None) = -8412904194113770924.
Proof. split; vm_compute; reflexivity. Qed.

Ltac list_cases H :=
  repeat (apply elem_of_cons in H as [H | H]; [subst |]);
  try (apply elem_of_nil in H; contradiction).

Lemma lone_valid_at (x y : Z) :
  0 <= x <= 2 -> 0 <= y <= 3 -> valid_pieces [P_goal x y].
Proof.
  intros Hx Hy. constructor.
  - repeat constructor.
  - repeat constructor; cbn; lia.
  - cbn. repeat (apply NoDup_cons; split; [cell_not_member |]). apply NoDup_nil_2.
  - reflexivity.
Qed.

Lemma lone_boards_inv (b : Board) : b ∈ lone_boards -> board_inv b.
Proof.
  intros Hb. unfold lone_boards in Hb. cbn [map fst snd] in Hb.
  list_cases Hb; apply board_of_inv, lone_valid_at; lia.
Qed.

Lemma lone_boards_closed (b b' : Board) :
  b ∈ lone_boards -> slide_step b b' -> b' ∈ lone_boards.
Proof.
  intros Hb (piece & d & Hel & Hmv & ->).
  unfold lone_boards in Hb. cbn [map fst snd] in Hb.
  list_cases Hb; cbn [board_of pieces] in Hel;
    apply list_elem_of_singleton in Hel; subst piece;
    destruct d; vm_compute in Hmv; try discriminate Hmv;
    vm_compute;
    solve [repeat first [apply list_elem_of_here | apply list_elem_of_further]].
Qed.

Lemma lone_boards_reach (hash : string -> Z) (n : nat) (b b' : Board) :
  b ∈ lone_boards -> slides hash n b b' -> b' ∈ lone_boards.
Proof.
  intros Hb Hs. induction Hs as [|n b b1 b2 Hn Hs IH]; [exact Hb|].
  apply IH. apply (lone_boards_closed b); [exact Hb|].
  apply (next_board_slide hash); [apply lone_boards_inv, Hb | exact Hn].
Qed.

Lemma NoDup_map_inj_on {A B : Type} (g : A -> B) (l : list A) (x y : A) :
  NoDup (map g l) -> x ∈ l -> y ∈ l -> g x = g y -> x = y.
Proof.
  induction l as [|a l IH]; intros Hnd Hx Hy Hg; [inversion Hx|].
  cbn [map] in Hnd. apply NoDup_cons in Hnd as [Hna Hnd].
  apply elem_of_cons in Hx as [-> | Hx]; apply elem_of_cons in Hy as [-> | Hy].
  - reflexivity.
  - exfalso. apply Hna. rewrite Hg. apply list_elem_of_fmap. exists y. auto.
  - exfalso. apply Hna. rewrite <- Hg. apply list_elem_of_fmap. exists x. auto.
  - apply IH; assumption.
Qed.

Lemma corner_collision_free (hash : string -> Z) :
  NoDup (map (id_of hash) lone_boards) -> collision_free hash corner_board.
Proof.
  intros Hnd n1 b1 n2 b2 H1 H2 Hid.
  assert (Hc : corner_board ∈ lone_boards) by apply list_elem_of_here.
  f_equal. apply (NoDup_map_inj_on (id_of hash) lone_boards); try assumption.
  - apply (lone_boards_reach hash n1 corner_board); assumption.
  - apply (lone_boards_reach hash n2 corner_board); assumption.
Qed.

Lemma corner_board_inv : board_inv corner_board.
Proof. apply lone_boards_inv, list_elem_of_here. Qed.

Lemma run1_collision_free : collision_free hash_run1 corner_board.
Proof.
  apply corner_collision_free.
  apply (bool_decide_unpack _). vm_compute. exact I.
Qed.

Lemma run2_collision_free : collision_free hash_run2 corner_board.
Proof.
  apply corner_collision_free.
  apply (bool_decide_unpack _). vm_compute. exact I.
Qed.

(** C6, as stated, fails: in the two runs the state of one and the same
    board receives two different identities, and [A_star] writes two
    different solutions. *)
Lemma runs_differ :
  id (State_init hash_run1 corner_board 0 0 None)
  <> id (State_init hash_run2 corner_board 0 0 None) /\
  exists out1 out2,
    A_star_output hash_run1 200 corner_board = Some (Ok out1) /\
    A_star_output hash_run2 200 corner_board = Some (Ok out2) /\
    out1 <> out2.
Proof.
  split.
  - intros H. vm_compute in H. discriminate H.
  - eexists. eexists.
    split; [vm_compute; reflexivity|]. split; [vm_compute; reflexivity|].
    apply String.eqb_neq. vm_compute. reflexivity.
Qed.

Lemma search_reproducible_witness :
  board_inv corner_board /\
  collision_free hash_run1 corner_board /\
  collision_free hash_run2 corner_board /\
  exists out,
    DFS_output hash_run1 100 corner_board = Some (Ok out) /\
    DFS_output hash_run2 100 corner_board = Some (Ok out).
Proof.
  split; [exact corner_board_inv|].
  split; [exact run1_collision_free|]. split; [exact run2_collision_free|].
  destruct (search_reproducible hash_run1 hash_run2 corner_board
              corner_board_inv run1_collision_free run2_collision_free)
    as (_ & _ & _ & Hdfs).
  eexists. split; [vm_compute; reflexivity|].
  apply Hdfs. vm_compute. reflexivity.
Defined.

(** * Further properties *)

(** ** [Board] on arbitrary piece lists *)

Lemma py_index_wrap (len : nat) (i : Z) :
  - Z.of_nat len <= i < Z.of_nat len -> (0 < len)%nat ->
  py_index len i = Ok (Z.to_nat (i mod Z.of_nat len)).
Proof.
  intros Hi Hlen. unfold py_index.
  destruct (Z.leb_spec 0 i) as [Hpos | Hneg].
  - destruct (Z.ltb_spec i (Z.of_nat len)); [| lia]. cbn.
    rewrite Z.mod_small by lia. reflexivity.
  - cbn. destruct (Z.leb_spec (- Z.of_nat len) i); [| lia].
    destruct (Z.ltb_spec i 0); [| lia]. cbn.
    replace (i mod Z.of_nat len) with (Z.of_nat len + i); [reflexivity|].
    symmetry. rewrite <- (Z.mod_add i 1 (Z.of_nat len)) by lia.
    rewrite Z.mod_small by lia. lia.
Qed.

Lemma py_index_out (len : nat) (i : Z) :
  ~ (- Z.of_nat len <= i < Z.of_nat len) -> py_index len i = Raise IndexError.
Proof.
  intros Hi. unfold py_index.
  destruct (Z.leb_spec 0 i); destruct (Z.ltb_spec i (Z.of_nat len)); cbn;
    destruct (Z.leb_spec (- Z.of_nat len) i); destruct (Z.ltb_spec i 0); cbn;
    try reflexivity; lia.
Qed.

Lemma grid_set_wrap (g : Grid) (x y : Z) (c : ascii) :
  shape g -> in_wrap (x, y) -> grid_set g x y c = Ok (upd g (x mod 4) (y mod 5) c).
Proof.
  intros Hs [Hx Hy]. cbn [fst snd] in *.
  assert (Hy5 : 0 <= y mod 5 < 5) by (apply Z.mod_pos_bound; lia).
  assert (Hx4 : 0 <= x mod 4 < 4) by (apply Z.mod_pos_bound; lia).
  destruct (shape_row g (y mod 5) Hs Hy5) as (row & Hrow & Hlen).
  destruct Hs as [Hlen5 _].
  unfold grid_set, py_get, py_set, upd.
  rewrite Hlen5. rewrite (py_index_wrap 5 y) by lia. cbn [bind].
  change (Z.of_nat 5) with 5. rewrite Hrow. cbn [bind].
  rewrite Hlen. rewrite (py_index_wrap 4 x) by lia. cbn [bind].
  change (Z.of_nat 4) with 4. reflexivity.
Qed.

Lemma grid_set_out (g : Grid) (x y : Z) (c : ascii) :
  shape g -> ~ in_wrap (x, y) -> grid_set g x y c = Raise IndexError.
Proof.
  intros Hs Hout. unfold in_wrap in Hout. cbn [fst snd] in Hout.
  unfold grid_set, py_get, py_set.
  destruct (decide (-5 <= y < 5)) as [Hy | Hy].
  - assert (Hy5 : 0 <= y mod 5 < 5) by (apply Z.mod_pos_bound; lia).
    destruct (shape_row g (y mod 5) Hs Hy5) as (row & Hrow & Hlen).
    destruct Hs as [Hlen5 _]. rewrite Hlen5.
    rewrite (py_index_wrap 5 y) by lia. cbn [bind].
    change (Z.of_nat 5) with 5. rewrite Hrow. cbn [bind].
    rewrite Hlen. rewrite (py_index_out 4 x) by lia. reflexivity.
  - destruct Hs as [Hlen5 _]. rewrite Hlen5.
    rewrite (py_index_out 5 y) by lia. reflexivity.
Qed.

Lemma foldM_writes_wrap (ms : list ((Z * Z) * ascii)) (g : Grid) :
  shape g -> Forall in_wrap (map fst ms) ->
  foldM (fun g' m => grid_set g' (fst (fst m)) (snd (fst m)) (snd m)) ms g
  = Ok (fold_left write (map wrap_mark ms) g).
Proof.
  revert g. induction ms as [|[[x y] c] ms IH]; intros g Hs Hin; [reflexivity|].
  cbn [map] in Hin. apply Forall_cons in Hin as [Hm Hin].
  cbn [foldM fst snd map fold_left]. rewrite (grid_set_wrap g x y c Hs Hm).
  cbn [bind]. rewrite IH; [reflexivity | apply upd_shape, Hs | exact Hin].
Qed.

Lemma foldM_writes_out (ms : list ((Z * Z) * ascii)) (g : Grid) :
  shape g -> ~ Forall in_wrap (map fst ms) ->
  foldM (fun g' m => grid_set g' (fst (fst m)) (snd (fst m)) (snd m)) ms g
  = Raise IndexError.
Proof.
  revert g. induction ms as [|[[x y] c] ms IH]; intros g Hs Hout.
  - exfalso. apply Hout. constructor.
  - cbn [foldM fst snd].
    destruct (decide (in_wrap (x, y))) as [Hm | Hm].
    + rewrite (grid_set_wrap g x y c Hs Hm). cbn [bind].
      apply IH; [apply upd_shape, Hs|]. intros Hall. apply Hout.
      cbn [map]. apply Forall_cons. auto.
    + rewrite (grid_set_out g x y c Hs Hm). reflexivity.
Qed.

Lemma construct_loop_wrap (ps : list Piece) (g : Grid) (gc : Z * Z) :
  shape g ->
  foldM place_piece ps (g, gc)
  = if decide (Forall in_wrap (cells ps))
    then Ok (fold_left write (map wrap_mark (all_marks ps)) g,
             fold_left (fun gc piece => if is_goal piece
                                        then (coord_x piece, coord_y piece) else gc)
                       ps gc)
    else Raise IndexError.
Proof.
  revert g gc. induction ps as [|p ps IH]; intros g gc Hs.
  - cbn. destruct (decide _) as [_ | Hn]; [reflexivity|].
    exfalso. apply Hn. constructor.
  - cbn [foldM]. rewrite place_piece_writes. rewrite cells_cons.
    destruct (decide (Forall in_wrap (map fst (marks p)))) as [Hp | Hp].
    + rewrite (foldM_writes_wrap (marks p) g Hs Hp). cbn [bind].
      rewrite IH by (apply fold_write_shape, Hs).
      destruct (decide (Forall in_wrap (cells ps))) as [Hps | Hps];
        destruct (decide (Forall in_wrap (map fst (marks p) ++ cells ps)))
        as [Hy | Hn].
      * unfold all_marks. cbn [flat_map fold_left].
        rewrite map_app, fold_left_app. reflexivity.
      * exfalso. apply Hn. apply Forall_app. auto.
      * apply Forall_app in Hy as [_ Hy]. contradiction.
      * reflexivity.
    + rewrite (foldM_writes_out (marks p) g Hs Hp). cbn [bind].
      destruct (decide (Forall in_wrap (map fst (marks p) ++ cells ps)))
        as [Hy | _]; [| reflexivity].
      apply Forall_app in Hy as [Hy _]. contradiction.
Qed.

(** X1. [Board] on any piece list: the construction succeeds exactly when
    every cell it draws has its column in [-4, 4) and its row in [-5, 5),
    Python's index range for a 4x5 grid; a negative coordinate is then
    drawn counted from the far edge.  In every other case it raises
    [IndexError]. *)
Theorem Board_init_result (ps : list Piece) :
  Board_init ps
  = if decide (Forall in_wrap (cells ps)) then Ok (wrapped_board ps)
    else Raise IndexError.
Proof.
  unfold Board_init, construct_grid.
  rewrite (construct_loop_wrap ps (empty_grid 4 5) (0, 0) empty_grid_shape).
  destruct (decide (Forall in_wrap (cells ps))); reflexivity.
Qed.

(** A 1x1 piece at [(-1, -1)] is accepted and drawn in the bottom right
    corner. *)
Example Board_init_negative :
  exists b, Board_init [mkPiece false true (-1) (-1) None] = Ok b /\
            cell (grid b) 3 4 = char_single.
Proof. eexists. split; [vm_compute; reflexivity | reflexivity]. Qed.

(** ** [read_from_file]: the pieces it collects *)

Lemma read_lines_positioned (lines : list string) (y : Z) (acc : list Piece * bool) :
  read_lines lines y acc
  = fold_left (fun acc m => read_char (snd (fst m)) acc (fst (fst m), snd m))
              (positioned lines y) acc.
Proof.
  revert y acc. induction lines as [|line rest IH]; intros y acc; [reflexivity|].
  cbn [read_lines positioned]. rewrite fold_left_app, IH. f_equal.
  generalize (enumerate_from 0 line). intros l. revert acc.
  induction l as [|[x ch] l IHl]; intros acc; [reflexivity|].
  cbn [map fold_left fst snd]. apply IHl.
Qed.

Lemma fold_read_char (l : list ((Z * Z) * ascii)) (ps : list Piece) (found : bool) :
  fst (fold_left (fun acc m => read_char (snd (fst m)) acc (fst (fst m), snd m))
                 l (ps, found))
  = ps ++ pieces_from l found.
Proof.
  revert ps found. induction l as [|[[x y] ch] l IH]; intros ps found.
  - cbn. rewrite app_nil_r. reflexivity.
  - cbn [fold_left fst snd pieces_from]. unfold read_char at 2.
    destruct (Ascii.eqb ch "^"); [rewrite IH, <- app_assoc; reflexivity|].
    destruct (Ascii.eqb ch "<"); [rewrite IH, <- app_assoc; reflexivity|].
    destruct (Ascii.eqb ch char_single); [rewrite IH, <- app_assoc; reflexivity|].
    destruct (Ascii.eqb ch char_goal); [| apply IH].
    destruct found; cbn [negb]; [apply IH|].
    rewrite IH, <- app_assoc. reflexivity.
Qed.

Lemma read_pieces_from (text : string) :
  read_pieces text = pieces_from (positioned (file_lines text) 0) false.
Proof.
  unfold read_pieces. rewrite read_lines_positioned, fold_read_char. reflexivity.
Qed.

Lemma pieces_from_wf (l : list ((Z * Z) * ascii)) (found : bool) :
  Forall wf_piece (pieces_from l found).
Proof.
  revert found. induction l as [|[[x y] ch] l IH]; intros found; [constructor|].
  cbn [pieces_from].
  destruct (Ascii.eqb ch "^"); [constructor; [cbn; auto | apply IH]|].
  destruct (Ascii.eqb ch "<"); [constructor; [cbn; auto | apply IH]|].
  destruct (Ascii.eqb ch char_single); [constructor; [exact I | apply IH]|].
  destruct (Ascii.eqb ch char_goal); [| apply IH].
  destruct found; [apply IH|]. constructor; [exact I | apply IH].
Qed.

Lemma pieces_from_goals (l : list ((Z * Z) * ascii)) (found : bool) :
  (length (List.filter is_goal (pieces_from l found)) <= 1)%nat /\
  (found = true -> List.filter is_goal (pieces_from l found) = []).
Proof.
  revert found. induction l as [|[[x y] ch] l IH]; intros found.
  - cbn. split; [lia | reflexivity].
  - cbn [pieces_from].
    destruct (Ascii.eqb ch "^"); [cbn; apply IH|].
    destruct (Ascii.eqb ch "<"); [cbn; apply IH|].
    destruct (Ascii.eqb ch char_single); [cbn; apply IH|].
    destruct (Ascii.eqb ch char_goal); [| apply IH].
    destruct found; [apply IH|]. cbn.
    destruct (IH true) as [_ Hnone]. rewrite (Hnone eq_refl).
    split; [cbn; lia | discriminate].
Qed.

Lemma pieces_from_anchor (l : list ((Z * Z) * ascii)) (found : bool) :
  sublist (map anchor (pieces_from l found)) (map fst l).
Proof.
  revert found. induction l as [|[[x y] ch] l IH]; intros found; [constructor|].
  cbn [pieces_from map fst].
  destruct (Ascii.eqb ch "^"); [apply sublist_skip, IH|].
  destruct (Ascii.eqb ch "<"); [apply sublist_skip, IH|].
  destruct (Ascii.eqb ch char_single); [apply sublist_skip, IH|].
  destruct (Ascii.eqb ch char_goal); [| apply sublist_cons, IH].
  destruct found; [apply sublist_cons, IH | apply sublist_skip, IH].
Qed.

(** ** Row-major order *)

Lemma ascending_app (l k : list (Z * Z)) :
  ascending (l ++ k) <->
  ascending l /\ ascending k /\ (forall a b, a ∈ l -> b ∈ k -> row_major a b).
Proof.
  induction l as [|c l IH]; cbn [app ascending].
  - split; [intros H; repeat split; [exact H | intros a b Ha; inversion Ha]|].
    intros (_ & H & _). exact H.
  - rewrite IH, Forall_app. split.
    + intros ((Hcl & Hck) & Hl & Hk & Hlk). repeat split; try assumption.
      intros a b Ha Hb. apply elem_of_cons in Ha as [-> | Ha].
      * rewrite Forall_forall in Hck. apply Hck, Hb.
      * apply Hlk; assumption.
    + intros ((Hcl & Hl) & Hk & Hlk). repeat split; try assumption.
      * rewrite Forall_forall. intros b Hb. apply Hlk; [apply list_elem_of_here | exact Hb].
      * intros a b Ha Hb. apply Hlk; [apply list_elem_of_further, Ha | exact Hb].
Qed.

Lemma ascending_before (l1 l2 : list (Z * Z)) (a b : Z * Z) :
  ascending (l1 ++ a :: l2) -> b ∈ l1 -> row_major b a.
Proof.
  intros H Hb. apply ascending_app in H as (_ & _ & H).
  apply H; [exact Hb | apply list_elem_of_here].
Qed.

Lemma ascending_after (l1 l2 : list (Z * Z)) (a b : Z * Z) :
  ascending (l1 ++ a :: l2) -> b ∈ l2 -> row_major a b.
Proof.
  intros H Hb. apply ascending_app in H as (_ & H & _).
  destruct H as [H _]. rewrite Forall_forall in H. apply H, Hb.
Qed.

Lemma row_major_irrefl (a : Z * Z) : ~ row_major a a.
Proof. unfold row_major. lia. Qed.

Lemma ascending_NoDup (l : list (Z * Z)) : ascending l -> NoDup l.
Proof.
  induction l as [|a l IH]; intros H; [apply NoDup_nil_2|].
  destruct H as [Ha Hl]. apply NoDup_cons. split; [| apply IH, Hl].
  intros Hin. rewrite Forall_forall in Ha.
  exact (row_major_irrefl a (Ha a Hin)).
Qed.

Lemma ascending_sublist (l k : list (Z * Z)) :
  sublist l k -> ascending k -> ascending l.
Proof.
  induction 1 as [|a l k Hsub IH|a l k Hsub IH]; intros Hk.
  - exact I.
  - destruct Hk as [Ha Hk]. split; [| apply IH, Hk].
    rewrite Forall_forall in *. intros b Hb. apply Ha.
    eapply elem_of_sublist; eassumption.
  - destruct Hk as [_ Hk]. apply IH, Hk.
Qed.

Lemma enumerate_from_spec (line : string) (x0 y : Z) :
  ascending (map (fun xc => (fst xc, y)) (enumerate_from x0 line)) /\
  Forall (fun xc => x0 <= fst xc) (enumerate_from x0 line).
Proof.
  revert x0. induction line as [|ch line IH]; intros x0.
  - cbn. split; [exact I | constructor].
  - cbn [enumerate_from map ascending fst].
    destruct (IH (x0 + 1)) as [Hasc Hge]. split; [split|].
    + rewrite Forall_forall. intros b Hb.
      apply list_elem_of_fmap in Hb as (xc & -> & Hxc).
      rewrite Forall_forall in Hge. specialize (Hge xc Hxc).
      right. cbn. lia.
    + exact Hasc.
    + constructor; [cbn; lia|].
      eapply Forall_impl; [exact Hge|]. cbn. intros; lia.
Qed.

Lemma positioned_bounds (lines : list string) (y : Z) (m : (Z * Z) * ascii) :
  m ∈ positioned lines y -> 0 <= fst (fst m) /\ y <= snd (fst m).
Proof.
  revert y. induction lines as [|line rest IH]; intros y Hm; [inversion Hm|].
  cbn [positioned] in Hm. apply elem_of_app in Hm as [Hm | Hm].
  - apply list_elem_of_fmap in Hm as (xc & -> & Hxc). cbn.
    destruct (enumerate_from_spec line 0 y) as [_ Hge].
    rewrite Forall_forall in Hge. specialize (Hge xc Hxc). lia.
  - apply IH in Hm. lia.
Qed.

Lemma positioned_ascending (lines : list string) (y : Z) :
  ascending (map fst (positioned lines y)).
Proof.
  revert y. induction lines as [|line rest IH]; intros y; [exact I|].
  cbn [positioned]. rewrite map_app, map_map. cbn [fst].
  apply ascending_app. split; [apply (enumerate_from_spec line 0 y)|].
  split; [apply IH|].
  intros a b Ha Hb.
  apply list_elem_of_fmap in Ha as (xc & -> & _).
  apply list_elem_of_fmap in Hb as (m & -> & Hm).
  apply positioned_bounds in Hm. left. cbn. lia.
Qed.

Lemma read_pieces_nonneg (text : string) :
  Forall (fun p => 0 <= coord_x p /\ 0 <= coord_y p) (read_pieces text).
Proof.
  rewrite read_pieces_from.
  pose proof (pieces_from_anchor (positioned (file_lines text) 0) false) as Hsub.
  rewrite Forall_forall. intros p Hp.
  assert (Hin : anchor p ∈ map fst (positioned (file_lines text) 0)).
  { eapply elem_of_sublist; [| exact Hsub]. apply list_elem_of_fmap. eauto. }
  apply list_elem_of_fmap in Hin as (m & Hm & Hmin).
  apply positioned_bounds in Hmin. unfold anchor in Hm.
  destruct m as [[x y] c]. cbn in *. inversion Hm; subst. lia.
Qed.

(** X2. Whatever the text of the file, [read_from_file] collects pieces
    whose flags and orientation agree on one kind, at most one of them a
    goal piece, at non-negative coordinates, no two at the same
    coordinates, in row-major order of their coordinates. *)
Theorem read_pieces_shape (text : string) :
  Forall wf_piece (read_pieces text) /\
  (length (List.filter is_goal (read_pieces text)) <= 1)%nat /\
  Forall (fun p => 0 <= coord_x p /\ 0 <= coord_y p) (read_pieces text) /\
  NoDup (map anchor (read_pieces text)) /\
  ascending (map anchor (read_pieces text)).
Proof.
  split; [| split; [| split; [apply read_pieces_nonneg|]]];
    rewrite read_pieces_from.
  - apply pieces_from_wf.
  - apply pieces_from_goals.
  - assert (Ha : ascending (map anchor
                  (pieces_from (positioned (file_lines text) 0) false))).
    { eapply ascending_sublist; [apply pieces_from_anchor|].
      apply positioned_ascending. }
    split; [apply ascending_NoDup, Ha | exact Ha].
Qed.

(** ** [read_from_file]: when it succeeds *)

Lemma marks_ge (p : Piece) (m : (Z * Z) * ascii) :
  m ∈ marks p -> coord_x p <= fst (fst m) /\ coord_y p <= snd (fst m).
Proof.
  unfold marks. intros Hm.
  destruct (is_goal p); [| destruct (is_single p);
    [| destruct (orientation_is p "h"); [| destruct (orientation_is p "v")]]];
    repeat (apply elem_of_cons in Hm as [-> | Hm]; [cbn; lia|]);
    inversion Hm.
Qed.

Lemma cells_nonneg (ps : list Piece) :
  Forall (fun p => 0 <= coord_x p /\ 0 <= coord_y p) ps ->
  Forall (fun c => 0 <= fst c /\ 0 <= snd c) (cells ps).
Proof.
  intros Hps. rewrite Forall_forall in Hps. rewrite Forall_forall. intros c Hc.
  unfold cells in Hc. apply list_elem_of_fmap in Hc as (m & -> & Hm).
  apply piece_of_mark in Hm as (q & Hq & Hm).
  apply marks_ge in Hm. specialize (Hps q Hq). lia.
Qed.

(** X3. On a file that opens and holds plain text (ASCII characters, no
    carriage return), [read_from_file] returns the board drawn from the
    pieces it collected when each of their cells lies inside the 4x5
    grid, and [Board(pieces)] raises [IndexError] when one does not (a
    piece character in a fifth column or sixth line, or a piece hanging
    over the right or bottom edge): no piece read from a file wraps
    around to the opposite edge. *)
Theorem read_from_file_result (text : string) :
  plain_text text = true ->
  read_from_file text
  = if decide (Forall in_grid (cells (read_pieces text)))
    then Ok (board_of (read_pieces text))
    else Raise IndexError.
Proof.
  intros _. unfold read_from_file.
  destruct (decide (Forall in_grid (cells (read_pieces text)))) as [Hin | Hout].
  - apply Board_init_ok, Hin.
  - unfold Board_init, construct_grid.
    rewrite (construct_loop_wrap _ (empty_grid 4 5) (0, 0) empty_grid_shape).
    destruct (decide (Forall in_wrap (cells (read_pieces text)))) as [Hw | _];
      [| reflexivity].
    exfalso. apply Hout.
    pose proof (read_pieces_nonneg text) as Hpos.
    apply cells_nonneg in Hpos.
    rewrite Forall_forall in Hw, Hpos. rewrite Forall_forall. intros c Hc.
    specialize (Hw c Hc). specialize (Hpos c Hc).
    unfold in_wrap in Hw. unfold in_grid. lia.
Qed.

Lemma read_from_file_result_witness :
  plain_text wide_text = true /\
  read_from_file wide_text
  = if decide (Forall in_grid (cells (read_pieces wide_text)))
    then Ok (board_of (read_pieces wide_text))
    else Raise IndexError.
Proof.
  split; [reflexivity|].
  apply (read_from_file_result wide_text). reflexivity.
Defined.

(** The piece in the fifth column is refused. *)
Lemma wide_text_raises : read_from_file wide_text = Raise IndexError.
Proof. vm_compute. reflexivity. Qed.

(** ** [read_from_file]: which pieces it collects *)

Lemma pieces_from_cons (x y : Z) (ch : ascii) (l : list ((Z * Z) * ascii))
    (found : bool) :
  pieces_from (((x, y), ch) :: l) found
  = match piece_for ch x y with
    | Some p => if is_goal p
                then (if found then pieces_from l found
                      else p :: pieces_from l true)
                else p :: pieces_from l found
    | None => pieces_from l found
    end.
Proof.
  cbn [pieces_from]. unfold piece_for.
  destruct (Ascii.eqb ch "^"); [reflexivity|].
  destruct (Ascii.eqb ch "<"); [reflexivity|].
  destruct (Ascii.eqb ch char_single); [reflexivity|].
  destruct (Ascii.eqb ch char_goal); reflexivity.
Qed.

Lemma piece_for_goal (ch : ascii) (x y : Z) (p : Piece) :
  piece_for ch x y = Some p ->
  (is_goal p = true <-> ch = char_goal).
Proof.
  unfold piece_for.
  destruct (Ascii.eqb_spec ch "^") as [-> | _];
    [intros H; inversion H; subst; cbn; split; discriminate|].
  destruct (Ascii.eqb_spec ch "<") as [-> | _];
    [intros H; inversion H; subst; cbn; split; discriminate|].
  destruct (Ascii.eqb_spec ch char_single) as [-> | _];
    [intros H; inversion H; subst; cbn; split; discriminate|].
  destruct (Ascii.eqb_spec ch char_goal) as [-> | _]; [| discriminate].
  intros H; inversion H; subst; cbn. split; reflexivity.
Qed.

Lemma piece_for_anchor (ch : ascii) (x y : Z) (p : Piece) :
  piece_for ch x y = Some p -> coord_x p = x /\ coord_y p = y.
Proof.
  unfold piece_for.
  repeat match goal with
         | |- context [Ascii.eqb ?a ?b] => destruct (Ascii.eqb a b)
         end; intros H; inversion H; subst; cbn; auto.
Qed.

Lemma pieces_from_sound (l : list ((Z * Z) * ascii)) (found : bool) (p : Piece) :
  p ∈ pieces_from l found ->
  exists x y ch, ((x, y), ch) ∈ l /\ piece_for ch x y = Some p /\
    (is_goal p = true ->
     found = false /\
     exists l1 l2, l = l1 ++ ((x, y), ch) :: l2 /\
                   forall m, m ∈ l1 -> snd m <> char_goal).
Proof.
  revert found. induction l as [|[[x y] ch] l IH]; intros found Hp;
    [inversion Hp|].
  rewrite pieces_from_cons in Hp.
  assert (Hrest : forall fd, p ∈ pieces_from l fd ->
            (fd = true \/ piece_for ch x y = None \/
             exists q, piece_for ch x y = Some q /\ is_goal q = false) ->
            (found = false \/ fd = true) ->
            exists x0 y0 ch0, ((x0, y0), ch0) ∈ ((x, y), ch) :: l /\
              piece_for ch0 x0 y0 = Some p /\
              (is_goal p = true ->
               found = false /\
               exists l1 l2, ((x, y), ch) :: l = l1 ++ ((x0, y0), ch0) :: l2 /\
                             forall m, m ∈ l1 -> snd m <> char_goal)).
  { intros fd Hin Hhead Hfd.
    destruct (IH fd Hin) as (x0 & y0 & ch0 & Hm & Hfor & Hgoal).
    exists x0, y0, ch0. split; [apply list_elem_of_further, Hm|].
    split; [exact Hfor|]. intros Hg.
    destruct (Hgoal Hg) as (-> & l1 & l2 & -> & Hl1).
    destruct Hfd as [-> | Hfd]; [| discriminate].
    split; [reflexivity|].
    exists (((x, y), ch) :: l1), l2. split; [reflexivity|].
    intros m Hmin. apply elem_of_cons in Hmin as [-> | Hmin]; [| apply Hl1, Hmin].
    cbn. intros ->.
    destruct Hhead as [Hh | [Hh | (q & Hq & Hqg)]]; [discriminate | |].
    - unfold piece_for in Hh. cbn in Hh. discriminate.
    - apply piece_for_goal in Hq. rewrite Hqg in Hq.
      destruct Hq as [_ Hq]. specialize (Hq eq_refl). discriminate. }
  destruct (piece_for ch x y) as [q|] eqn:Hq.
  - destruct (is_goal q) eqn:Hqg.
    + destruct found.
      * apply (Hrest true Hp); auto.
      * apply elem_of_cons in Hp as [-> | Hp].
        -- exists x, y, ch. split; [apply list_elem_of_here|].
           split; [exact Hq|]. intros _. split; [reflexivity|].
           exists [], l. split; [reflexivity|]. intros m Hm. inversion Hm.
        -- assert (Hgoalless : List.filter is_goal (pieces_from l true) = []).
           { apply pieces_from_goals. reflexivity. }
           destruct (IH true Hp) as (x0 & y0 & ch0 & Hm & Hfor & Hgoal).
           exists x0, y0, ch0. split; [apply list_elem_of_further, Hm|].
           split; [exact Hfor|]. intros Hg.
           destruct (Hgoal Hg) as [Hf _]. discriminate.
    + apply elem_of_cons in Hp as [-> | Hp].
      * exists x, y, ch. split; [apply list_elem_of_here|].
        split; [exact Hq|]. intros Hg. congruence.
      * apply (Hrest found Hp); [right; right; eauto|].
        destruct found; auto.
  - apply (Hrest found Hp); [auto|]. destruct found; auto.
Qed.

Lemma pieces_from_nongoal (l : list ((Z * Z) * ascii)) (found : bool)
    (x y : Z) (ch : ascii) (p : Piece) :
  ((x, y), ch) ∈ l -> piece_for ch x y = Some p -> is_goal p = false ->
  p ∈ pieces_from l found.
Proof.
  revert found. induction l as [|[[x0 y0] ch0] l IH]; intros found Hm Hfor Hg;
    [inversion Hm|].
  rewrite pieces_from_cons.
  apply elem_of_cons in Hm as [Hm | Hm].
  - inversion Hm; subst. rewrite Hfor, Hg. apply list_elem_of_here.
  - destruct (piece_for ch0 x0 y0) as [q|]; [| apply IH; assumption].
    destruct (is_goal q).
    + destruct found; [apply IH; assumption|].
      apply list_elem_of_further, IH; assumption.
    + apply list_elem_of_further, IH; assumption.
Qed.

Lemma pieces_from_first_goal (l1 l2 : list ((Z * Z) * ascii))
    (x y : Z) (ch : ascii) (p : Piece) :
  (forall m, m ∈ l1 -> snd m <> char_goal) ->
  piece_for ch x y = Some p -> is_goal p = true ->
  p ∈ pieces_from (l1 ++ ((x, y), ch) :: l2) false.
Proof.
  intros Hl1 Hfor Hg. induction l1 as [|[[x0 y0] ch0] l1 IH].
  - cbn [app]. rewrite pieces_from_cons, Hfor, Hg. apply list_elem_of_here.
  - cbn [app]. rewrite pieces_from_cons.
    assert (Hch0 : ch0 <> char_goal).
    { apply (Hl1 ((x0, y0), ch0)), list_elem_of_here. }
    assert (IH' : p ∈ pieces_from (l1 ++ ((x, y), ch) :: l2) false).
    { apply IH. intros m Hm. apply Hl1, list_elem_of_further, Hm. }
    destruct (piece_for ch0 x0 y0) as [q|] eqn:Hq; [| exact IH'].
    destruct (is_goal q) eqn:Hqg.
    + apply piece_for_goal in Hq. apply Hq in Hqg. contradiction.
    + apply list_elem_of_further, IH'.
Qed.

(** ** Reading back what [display] prints *)

Lemma grid_of_alphabet (ps : list Piece) : over_alphabet (grid_of ps).
Proof.
  unfold grid_of. apply fold_write_alphabet.
  - rewrite Forall_forall. intros m Hm.
    apply piece_of_mark in Hm as (q & _ & Hm). eapply marks_alphabet, Hm.
  - unfold empty_grid. simpl. repeat constructor.
Qed.

Lemma file_lines_cons (c : ascii) (rest : string) :
  c <> ascii_of_nat 10 ->
  file_lines (String c rest)
  = match file_lines rest with
    | [] => [String c EmptyString]
    | line :: lines => String c line :: lines
    end.
Proof.
  intros Hc. cbn [file_lines].
  destruct (Ascii.eqb_spec c (ascii_of_nat 10)) as [-> | _]; [contradiction|].
  reflexivity.
Qed.

Lemma file_lines_row (row : list ascii) (rest : string) :
  Forall (fun c => c <> ascii_of_nat 10) row ->
  file_lines (String.append (string_of_list_ascii row) (String.append newline rest))
  = String.append (string_of_list_ascii row) newline :: file_lines rest.
Proof.
  induction 1 as [|c row Hc Hrow IH]; [reflexivity|].
  change (file_lines (String c (String.append (string_of_list_ascii row)
                                              (String.append newline rest)))
          = String c (String.append (string_of_list_ascii row) newline)
            :: file_lines rest).
  rewrite (file_lines_cons c _ Hc), IH. reflexivity.
Qed.

Lemma file_lines_rows (g : Grid) (rest : string) :
  Forall (Forall (fun c => c <> ascii_of_nat 10)) g ->
  file_lines (fold_right (fun line acc => String.append (string_of_list_ascii line)
                                            (String.append newline acc))
                         rest g)
  = map (fun row => String.append (string_of_list_ascii row) newline) g
    ++ file_lines rest.
Proof.
  induction 1 as [|row g Hrow Hg IH]; [reflexivity|].
  cbn [fold_right map app]. rewrite (file_lines_row row _ Hrow), IH. reflexivity.
Qed.

Lemma alphabet_no_newline (g : Grid) :
  over_alphabet g -> Forall (Forall (fun c => c <> ascii_of_nat 10)) g.
Proof.
  unfold over_alphabet. intros Hg.
  eapply Forall_impl; [exact Hg|]. intros row Hrow.
  eapply Forall_impl; [exact Hrow|]. intros c Hc ->.
  unfold alphabet in Hc.
  repeat (apply elem_of_cons in Hc as [Hc | Hc]; [discriminate Hc|]).
  inversion Hc.
Qed.

(** The characters [read_from_file] meets in the text of a grid, followed
    or not by an empty line: every cell of the grid, and newlines. *)
Lemma grid_text_positioned (g : Grid) (rest : string) :
  shape g -> over_alphabet g -> rest = EmptyString \/ rest = newline ->
  let l := positioned
             (file_lines
                (fold_right (fun line acc => String.append (string_of_list_ascii line)
                                               (String.append newline acc))
                            rest g)) 0 in
  (forall x y ch, ((x, y), ch) ∈ l ->
                  (in_grid (x, y) /\ ch = cell g x y) \/ ch = ascii_of_nat 10) /\
  (forall x y, in_grid (x, y) -> ((x, y), cell g x y) ∈ l).
Proof.
  intros Hs Ha Hrest l. subst l.
  rewrite (file_lines_rows g rest (alphabet_no_newline g Ha)).
  destruct (shape_cases g Hs)
    as (a0 & a1 & a2 & a3 & b0 & b1 & b2 & b3 & c0 & c1 & c2 & c3 &
        d0 & d1 & d2 & d3 & e0 & e1 & e2 & e3 & ->).
  split.
  - intros x y ch Hm.
    destruct Hrest as [-> | ->]; cbn in Hm;
      repeat (apply elem_of_cons in Hm as [Hm | Hm];
              [inversion Hm; subst;
               first [right; reflexivity
                     | left; split; [split; cbn; lia | reflexivity]] |]);
      inversion Hm.
  - intros x y [Hx Hy]. cbn [fst snd] in Hx, Hy.
    assert (Hxs : x = 0 \/ x = 1 \/ x = 2 \/ x = 3) by lia.
    assert (Hys : y = 0 \/ y = 1 \/ y = 2 \/ y = 3 \/ y = 4) by lia.
    destruct Hrest as [-> | ->];
      destruct Hxs as [-> | [-> | [-> | ->]]];
      destruct Hys as [-> | [-> | [-> | [-> | ->]]]]; cbn;
      repeat first [apply list_elem_of_here | apply list_elem_of_further].
Qed.

Lemma wf_piece_for (p : Piece) (c : ascii) :
  wf_piece p -> ((coord_x p, coord_y p), c) ∈ marks p ->
  piece_for c (coord_x p) (coord_y p) = Some p.
Proof.
  destruct p as [g s x y [o|]]; destruct g, s; cbn; try contradiction.
  - intros [-> | ->]; cbn; intros Hm;
      repeat (apply elem_of_cons in Hm as [Hm | Hm];
              [inversion Hm; subst; try lia; reflexivity |]);
      inversion Hm.
  - intros _ Hm.
    repeat (apply elem_of_cons in Hm as [Hm | Hm];
            [inversion Hm; subst; try lia; reflexivity |]);
    inversion Hm.
  - intros _ Hm.
    repeat (apply elem_of_cons in Hm as [Hm | Hm];
            [inversion Hm; subst; try lia; reflexivity |]);
    inversion Hm.
Qed.

Lemma anchor_mark (p : Piece) :
  wf_piece p -> exists c, ((coord_x p, coord_y p), c) ∈ marks p.
Proof.
  destruct p as [g s x y [o|]]; destruct g, s; cbn; try contradiction.
  - intros [-> | ->]; cbn; eexists; apply list_elem_of_here.
  - intros _. eexists; apply list_elem_of_here.
  - intros _. eexists; apply list_elem_of_here.
Qed.

(** A mark with a character that starts a piece belongs to the piece
    anchored there, except for the goal character, which all four cells
    of the goal piece carry. *)
Lemma mark_piece_for (q p : Piece) (x y : Z) (ch : ascii) :
  wf_piece q -> ((x, y), ch) ∈ marks q -> piece_for ch x y = Some p ->
  is_goal p = false -> q = p.
Proof.
  intros Hwf Hm Hfor Hg.
  destruct q as [g s qx qy [o|]]; destruct g, s; cbn in Hwf; try contradiction.
  - destruct Hwf as [-> | ->]; cbn in Hm;
      repeat (apply elem_of_cons in Hm as [Hm | Hm];
              [inversion Hm; subst; cbn in Hfor; inversion Hfor; subst;
               try discriminate; try reflexivity |]);
      inversion Hm.
  - cbn in Hm.
    repeat (apply elem_of_cons in Hm as [Hm | Hm];
            [inversion Hm; subst; cbn in Hfor; inversion Hfor; subst;
             try discriminate; try reflexivity |]);
    inversion Hm.
  - cbn in Hm.
    repeat (apply elem_of_cons in Hm as [Hm | Hm];
            [inversion Hm; subst; cbn in Hfor; inversion Hfor; subst;
             try discriminate; try reflexivity |]);
    inversion Hm.
Qed.

Section ReadBack.

Variable ps : list Piece.
Hypothesis Hv : valid_pieces ps.

Variable l : list ((Z * Z) * ascii).
Hypothesis Hcells : forall x y ch, ((x, y), ch) ∈ l ->
  (in_grid (x, y) /\ ch = cell (grid_of ps) x y) \/ ch = ascii_of_nat 10.
Hypothesis Hall : forall x y, in_grid (x, y) -> ((x, y), cell (grid_of ps) x y) ∈ l.
Hypothesis Hasc : ascending (map fst l).

Lemma read_back_mark (x y : Z) (c : ascii) :
  ((x, y), c) ∈ all_marks ps -> ((x, y), c) ∈ l.
Proof.
  intros Hm. destruct Hv as [_ Hin Hnd _].
  rewrite <- (grid_of_mark ps x y c Hin Hnd Hm). apply Hall.
  rewrite Forall_forall in Hin. apply (Hin (x, y)).
  eapply mark_has_cell, Hm.
Qed.

Lemma read_back_cell (x y : Z) (ch : ascii) :
  ((x, y), ch) ∈ l -> ch <> ascii_of_nat 10 -> ch <> char_empty ->
  exists q, q ∈ ps /\ ((x, y), ch) ∈ marks q.
Proof.
  intros Hm Hnl Hne. destruct Hv as [_ Hin Hnd _].
  destruct (Hcells x y ch Hm) as [[Hg ->] | ->]; [| contradiction].
  assert (Hc : (x, y) ∈ cells ps).
  { destruct (decide ((x, y) ∈ cells ps)) as [Hc | Hc]; [exact Hc|].
    exfalso. apply Hne. apply grid_of_free; assumption. }
  apply cell_has_mark in Hc as (c & Hc).
  rewrite (grid_of_mark ps x y c Hin Hnd Hc).
  apply piece_of_mark, Hc.
Qed.

Lemma piece_for_chars (ch : ascii) (x y : Z) (p : Piece) :
  piece_for ch x y = Some p -> ch <> ascii_of_nat 10 /\ ch <> char_empty.
Proof.
  intros Hfor. split; intros ->; cbn in Hfor; discriminate.
Qed.

Lemma read_back_goal_first (g : Piece) (l1 l2 : list ((Z * Z) * ascii))
    (m : (Z * Z) * ascii) :
  g ∈ ps -> is_goal g = true ->
  l = l1 ++ ((coord_x g, coord_y g), char_goal) :: l2 ->
  m ∈ l1 -> snd m <> char_goal.
Proof.
  intros Hg Hgoal Hl Hm. destruct m as [[x y] ch]. cbn. intros ->.
  assert (Hml : ((x, y), char_goal) ∈ l).
  { rewrite Hl, elem_of_app. auto. }
  destruct (read_back_cell x y char_goal Hml) as (q & Hq & Hmq);
    [discriminate | discriminate |].
  assert (Hwfq : wf_piece q).
  { destruct Hv as [Hwf _ _ _]. rewrite Forall_forall in Hwf. auto. }
  destruct (marks_goal_char q (x, y) Hwfq Hmq) as [Hqg Hfoot].
  assert (q = g) by (eapply goal_unique; eassumption). subst q.
  apply goal_footprint in Hfoot; [| exact Hgoal].
  assert (Hord : row_major (x, y) (coord_x g, coord_y g)).
  { rewrite Hl, map_app in Hasc. cbn [map fst] in Hasc.
    eapply ascending_before; [exact Hasc|].
    apply list_elem_of_fmap. exists ((x, y), char_goal). auto. }
  unfold row_major in Hord. cbn in Hord. lia.
Qed.

Lemma read_back_complete (p : Piece) : p ∈ ps -> p ∈ pieces_from l false.
Proof.
  intros Hp.
  assert (Hwf : wf_piece p).
  { destruct Hv as [Hwf _ _ _]. rewrite Forall_forall in Hwf. auto. }
  destruct (anchor_mark p Hwf) as (c & Hc).
  pose proof (wf_piece_for p c Hwf Hc) as Hfor.
  assert (Hml : ((coord_x p, coord_y p), c) ∈ l).
  { apply read_back_mark. eapply mark_of_piece; eassumption. }
  destruct (is_goal p) eqn:Hg.
  - pose proof (proj1 (piece_for_goal _ _ _ _ Hfor) Hg) as ->.
    apply list_elem_of_split in Hml as (l1 & l2 & Hl).
    rewrite Hl. eapply pieces_from_first_goal; [| exact Hfor | exact Hg].
    intros m Hm. eapply read_back_goal_first; eassumption.
  - eapply pieces_from_nongoal; eassumption.
Qed.

Lemma read_back_sound (p : Piece) : p ∈ pieces_from l false -> p ∈ ps.
Proof.
  intros Hp.
  apply pieces_from_sound in Hp as (x & y & ch & Hm & Hfor & Hfirst).
  destruct (piece_for_chars ch x y p Hfor) as [Hnl Hne].
  destruct (read_back_cell x y ch Hm Hnl Hne) as (q & Hq & Hmq).
  assert (Hwfq : wf_piece q).
  { destruct Hv as [Hwf _ _ _]. rewrite Forall_forall in Hwf. auto. }
  destruct (is_goal p) eqn:Hg.
  - pose proof (proj1 (piece_for_goal _ _ _ _ Hfor) Hg) as ->.
    destruct (Hfirst eq_refl) as (_ & l1 & l2 & Hl & Hl1).
    destruct (marks_goal_char q (x, y) Hwfq Hmq) as [Hqg Hfoot].
    apply goal_footprint in Hfoot; [| exact Hqg].
    (* the anchor of the goal piece carries the goal character too *)
    assert (Hanchor : ((coord_x q, coord_y q), char_goal) ∈ l).
    { apply read_back_mark. eapply mark_of_piece; [exact Hq|].
      apply goal_marks, Hqg. }
    assert (Hxy : (coord_x q, coord_y q) = (x, y)).
    { rewrite Hl in Hanchor.
      apply elem_of_app in Hanchor as [Hin | Hin].
      - exfalso. apply (Hl1 _ Hin). reflexivity.
      - apply elem_of_cons in Hin as [Hin | Hin]; [inversion Hin; reflexivity|].
        exfalso.
        assert (Hord : row_major (x, y) (coord_x q, coord_y q)).
        { rewrite Hl, map_app in Hasc. cbn [map fst] in Hasc.
          eapply ascending_after; [exact Hasc|].
          apply list_elem_of_fmap. exists ((coord_x q, coord_y q), char_goal). auto. }
        unfold row_major in Hord. cbn in Hord. lia. }
    inversion Hxy; subst x y.
    assert (Hqfor : piece_for char_goal (coord_x q) (coord_y q) = Some q).
    { apply wf_piece_for; [exact Hwfq | apply goal_marks, Hqg]. }
    rewrite Hqfor in Hfor. inversion Hfor; subst. exact Hq.
  - rewrite <- (mark_piece_for q p x y ch Hwfq Hmq Hfor Hg). exact Hq.
Qed.

Lemma read_back_perm : pieces_from l false ≡ₚ ps.
Proof.
  apply NoDup_Permutation.
  - apply (NoDup_fmap_1 anchor). apply ascending_NoDup.
    eapply ascending_sublist; [apply pieces_from_anchor | exact Hasc].
  - destruct Hv as [Hwf _ Hnd _]. apply valid_NoDup_pieces; assumption.
  - intros p. split; [apply read_back_sound | apply read_back_complete].
Qed.

End ReadBack.

Lemma filter_length_perm {A : Type} (g : A -> bool) (l1 l2 : list A) :
  l1 ≡ₚ l2 -> length (List.filter g l1) = length (List.filter g l2).
Proof.
  induction 1 as [|a l1 l2 _ IH|a b l|l1 l2 l3 _ IH1 _ IH2]; cbn.
  - reflexivity.
  - destruct (g a); cbn; lia.
  - destruct (g a), (g b); reflexivity.
  - lia.
Qed.

Lemma valid_pieces_perm (ps1 ps2 : list Piece) :
  ps1 ≡ₚ ps2 -> valid_pieces ps1 -> valid_pieces ps2.
Proof.
  intros Hp [Hwf Hin Hnd Hg]. pose proof (cells_perm ps1 ps2 Hp) as Hc.
  constructor.
  - rewrite <- Hp. exact Hwf.
  - rewrite <- Hc. exact Hin.
  - rewrite <- Hc. exact Hnd.
  - rewrite <- (filter_length_perm is_goal ps1 ps2 Hp). exact Hg.
Qed.

Lemma string_append_assoc (s1 s2 s3 : string) :
  String.append (String.append s1 s2) s3 = String.append s1 (String.append s2 s3).
Proof.
  induction s1 as [|c s1 IH]; [reflexivity|].
  change (String c (String.append (String.append s1 s2) s3)
          = String c (String.append s1 (String.append s2 s3))).
  rewrite IH. reflexivity.
Qed.

Lemma read_back_board (b : Board) (rest : string) :
  board_inv b -> rest = EmptyString \/ rest = newline ->
  let text := fold_right (fun line acc => String.append (string_of_list_ascii line)
                                            (String.append newline acc))
                         rest (grid b) in
  exists b', read_from_file text = Ok b' /\
             grid b' = grid b /\
             goal_piece_coordinates b' = goal_piece_coordinates b /\
             pieces b' ≡ₚ pieces b /\
             board_inv b'.
Proof.
  intros Hb Hrest text.
  pose proof (board_inv_eq b Hb) as Eb. destruct Hb as [Hv Hinit].
  assert (Hperm : read_pieces text ≡ₚ pieces b).
  { rewrite read_pieces_from. subst text.
    replace (grid b) with (grid_of (pieces b)) by (rewrite Eb at 2; reflexivity).
    destruct (grid_text_positioned (grid_of (pieces b)) rest
                (grid_of_shape _) (grid_of_alphabet _) Hrest) as [H1 H2].
    apply read_back_perm; [exact Hv | exact H1 | exact H2|].
    apply positioned_ascending. }
  assert (Hv' : valid_pieces (read_pieces text)).
  { eapply valid_pieces_perm; [symmetry; exact Hperm | exact Hv]. }
  exists (board_of (read_pieces text)).
  assert (Hinv' : board_inv (board_of (read_pieces text))) by apply board_of_inv, Hv'.
  assert (Hgrid : grid (board_of (read_pieces text)) = grid b).
  { rewrite Eb. cbn [grid board_of]. destruct Hv' as [_ Hin Hnd _].
    apply grid_of_perm; assumption. }
  split; [| split; [exact Hgrid | split; [| split; [exact Hperm | exact Hinv']]]].
  - unfold read_from_file. apply Board_init_ok. apply Hv'.
  - apply same_grid_goal; [exact Hinv' | split; assumption | exact Hgrid].
Qed.

(** X4. Reading back a printed board.  For a board that satisfies the
    placement invariants, [read_from_file] applied to the text [display]
    prints for it, or to the text [write_to_file] writes for its grid,
    returns a board with the same grid and the same goal coordinates,
    whose pieces are the pieces of the board up to their order, and which
    satisfies the invariants again. *)
Theorem read_from_file_display (b : Board) (text : string) :
  board_inv b ->
  text = display b \/ text = grid_text (grid b) ->
  exists b', read_from_file text = Ok b' /\
             grid b' = grid b /\
             goal_piece_coordinates b' = goal_piece_coordinates b /\
             pieces b' ≡ₚ pieces b /\
             board_inv b'.
Proof.
  intros Hb [-> | ->].
  - apply (read_back_board b EmptyString Hb). auto.
  - replace (grid_text (grid b))
      with (fold_right (fun line acc => String.append (string_of_list_ascii line)
                                          (String.append newline acc))
                       newline (grid b)).
    + apply (read_back_board b newline Hb). auto.
    + unfold grid_text. generalize (grid b). intros g.
      induction g as [|row g IH]; [reflexivity|].
      cbn [fold_right]. rewrite IH.
      rewrite !string_append_assoc. reflexivity.
Qed.

Lemma read_from_file_display_witness :
  board_inv mixed_board /\
  exists b', read_from_file (display mixed_board) = Ok b' /\
             grid b' = grid mixed_board /\
             pieces b' ≡ₚ pieces mixed_board.
Proof.
  split; [exact mixed_board_inv|].
  destruct (read_from_file_display mixed_board (display mixed_board)
              mixed_board_inv (or_introl eq_refl))
    as (b' & Hread & Hgrid & _ & Hperm & _).
  exists b'. auto.
Defined.


(** ** The searches on every valid board *)

Section AStarTotal.

Variable hash : string -> Z.
Variable heappush : list State -> State -> list State.
Variable heappop : list State -> result (State * list State).
Variable is_heap : list State -> Prop.
Hypothesis Hpq : heapq_spec heappush heappop is_heap.

Variables (b0 : Board) (fv d0 : Z) (par : option State).

Let root : State := State_init hash b0 fv d0 par.

Hypothesis Hb0 : board_inv b0.

Variable U : gset Z.
Hypothesis HU : forall b, board_inv b -> id_of hash b ∈ U.

Lemma A_term_step (c : list State * gset Z) :
  A_term_inv hash is_heap b0 fv d0 par U c ->
  (exists r, A_star_body hash heappush heappop c = Ok (Return r) /\
             DFS_post hash b0 fv d0 par r) \/
  (exists c', A_star_body hash heappush heappop c = Ok (Continue c') /\
              A_term_inv hash is_heap b0 fv d0 par U c' /\
     ((size U - size (snd c') < size U - size (snd c))%nat \/
      (size U - size (snd c') <= size U - size (snd c)
       /\ length (fst c') < length (fst c))%nat)).
Proof.
  destruct c as [frontier visited]. intros (Hheap & Hlin & Hsub).
  cbn [fst snd] in *.
  destruct frontier as [|s0 fr0] eqn:Hfr.
  { left. exists None. split; [reflexivity|]. intros s Hs. discriminate. }
  rewrite <- Hfr in *. assert (Hne : frontier <> []) by (rewrite Hfr; discriminate).
  destruct (heappop_min heappush heappop is_heap Hpq frontier Hheap Hne)
    as (x & r & Hpop & Hr & Hperm & _).
  assert (Hbody : A_star_body hash heappush heappop (frontier, visited)
    = if decide (id x ∈ visited) then Ok (Continue (r, visited))
      else if goal_test x then Ok (Return (Some x))
      else (successors <- generate_successors hash x ;;
            Ok (Continue (fold_left heappush successors r, visited ∪ {[id x]})))).
  { unfold A_star_body. rewrite Hfr. rewrite <- Hfr.
    rewrite Hpop. cbn [bind fst snd]. reflexivity. }
  rewrite Hbody. clear Hbody.
  assert (Hx : lineage hash root x).
  { apply Hlin. rewrite Hperm. apply list_elem_of_here. }
  assert (Hrl : forall s, s ∈ r -> lineage hash root s).
  { intros s Hs. apply Hlin. rewrite Hperm. apply list_elem_of_further, Hs. }
  assert (Hlen : length frontier = S (length r)) by (rewrite Hperm; reflexivity).
  destruct (decide (id x ∈ visited)) as [Hvis | Hnew].
  - right. eexists. split; [reflexivity|]. cbn [fst snd].
    split; [split; [exact Hr | split; [exact Hrl | exact Hsub]]|].
    right. lia.
  - destruct (goal_test x) eqn:Hgoal.
    + left. exists (Some x). split; [reflexivity|].
      intros s Hs. inversion Hs; subst. auto.
    + right.
      rewrite generate_successors_ok
        by (exact (lineage_inv hash b0 fv d0 par Hb0 x Hx)).
      cbn [bind]. eexists. split; [reflexivity|]. cbn [fst snd].
      assert (Hidx : id x ∈ U).
      { exact (lineage_id_in hash b0 fv d0 par Hb0 U HU x Hx). }
      assert (Hsub' : visited ∪ {[id x]} ⊆ U).
      { intros y Hy. apply elem_of_union in Hy as [Hy | Hy]; [apply Hsub, Hy|].
        apply elem_of_singleton in Hy. subst y. exact Hidx. }
      split; [split; [| split]|].
      * apply (fold_push_heap heappush heappop is_heap Hpq), Hr.
      * intros s Hs.
        apply (fold_push_elem heappush heappop is_heap Hpq) in Hs as [Hs | Hs].
        -- exact (lineage_successors hash b0 fv d0 par Hb0 x s Hx Hs).
        -- apply Hrl, Hs.
      * exact Hsub'.
      * left.
        assert (Hsz : size (visited ∪ {[id x]}) = S (size visited)).
        { rewrite size_union by (apply disjoint_singleton_r; exact Hnew).
          rewrite size_singleton. lia. }
        pose proof (subseteq_size _ _ Hsub') as Hle.
        pose proof (subseteq_size _ _ Hsub) as Hle0.
        lia.
Qed.

Lemma A_star_total :
  exists fuel r,
    A_star hash heappush heappop fuel root = Some (Ok r) /\
    DFS_post hash b0 fv d0 par r.
Proof.
  apply (while_loop_total (A_star_body hash heappush heappop)
           (A_term_inv hash is_heap b0 fv d0 par U)
           (DFS_post hash b0 fv d0 par)
           (fun c => (size U - size (snd c))%nat)
           (fun c => length (fst c))
           A_term_step).
  split; [| split]; cbn [fst snd].
  - apply (hq_push_heap _ _ _ Hpq), (hq_nil _ _ _ Hpq).
  - intros s Hs. rewrite (hq_push_perm _ _ _ Hpq) in Hs.
    apply list_elem_of_singleton in Hs. subst s. apply lineage_root.
  - intros y Hy. apply elem_of_empty in Hy. contradiction.
Qed.

End AStarTotal.

Lemma push_unvisited_keeps (visited : gset Z) (successors frontier : list State)
    (s : State) :
  s ∈ frontier -> s ∈ push_unvisited visited frontier successors.
Proof.
  unfold push_unvisited. revert frontier.
  induction successors as [|a l IH]; intros frontier Hs; [exact Hs|].
  cbn [fold_left]. apply IH.
  destruct (decide (id a ∈ visited)); [exact Hs|].
  apply elem_of_app. auto.
Qed.

Lemma push_unvisited_new (visited : gset Z) (successors frontier : list State)
    (s : State) :
  s ∈ successors -> id s ∉ visited ->
  s ∈ push_unvisited visited frontier successors.
Proof.
  unfold push_unvisited. revert frontier.
  induction successors as [|a l IH]; intros frontier Hs Hnew; [inversion Hs|].
  cbn [fold_left]. apply elem_of_cons in Hs as [-> | Hs].
  - destruct (decide (id a ∈ visited)); [contradiction|].
    apply (push_unvisited_keeps visited l (frontier ++ [a])).
    apply elem_of_app. right. apply list_elem_of_here.
  - apply IH; assumption.
Qed.

Lemma slides_zero (hash : string -> Z) (b t : Board) : slides hash 0 b t -> t = b.
Proof. intros H. inversion H. reflexivity. Qed.

Section DFSCoverage.

Variable hash : string -> Z.
Variables (b0 : Board) (fv d0 : Z) (par : option State).

Let root : State := State_init hash b0 fv d0 par.

Hypothesis Hb0 : board_inv b0.
Hypothesis Hcf : collision_free hash b0.

Variable U : gset Z.
Hypothesis HU : forall b, board_inv b -> id_of hash b ∈ U.

(** With the stack empty, every reachable board has been visited. *)
Lemma covered_all (visited : gset Z) (n : nat) (t : Board) :
  covered hash b0 ([], visited) -> slides hash n b0 t -> id_of hash t ∈ visited.
Proof.
  intros [Hroot Hclosed]. cbn [fst snd] in *. revert t.
  induction n as [|n IH]; intros t Ht.
  - apply slides_zero in Ht. subst t.
    destruct Hroot as [H | (s & Hs & _)]; [exact H | inversion Hs].
  - apply slides_snoc_inv in Ht as (t' & Ht' & Hn).
    destruct (Hclosed n t' Ht' (IH t' Ht')) as [_ Hsucc].
    destruct (Hsucc t Hn) as [H | (s & Hs & _)]; [exact H | inversion Hs].
Qed.

(** Dropping a visited state from the stack loses nothing. *)
Lemma covered_drop (x : State) (r : list State) (visited : gset Z) :
  lineage hash root x -> id x ∈ visited ->
  covered hash b0 (r ++ [x], visited) -> covered hash b0 (r, visited).
Proof.
  intros Hx Hvis [Hroot Hclosed]. cbn [fst snd] in *.
  pose proof (lineage_id hash b0 fv d0 par Hb0 x Hx) as Hidx.
  assert (Hstay : forall b, (exists s, s ∈ r ++ [x] /\ grid (board s) = grid b) ->
            id_of hash b ∈ visited \/ exists s, s ∈ r /\ grid (board s) = grid b).
  { intros b (s & Hs & Hg). apply elem_of_app in Hs as [Hs | Hs]; [right; eauto|].
    apply list_elem_of_singleton in Hs. subst s. left.
    rewrite <- (same_grid_id hash (board x) b Hg), <- Hidx. exact Hvis. }
  split; cbn [fst snd].
  - destruct Hroot as [H | H]; [left; exact H | apply Hstay, H].
  - intros n b Hb Hin. destruct (Hclosed n b Hb Hin) as [Hng Hsucc].
    split; [exact Hng|]. intros b' Hn.
    destruct (Hsucc b' Hn) as [H | H]; [left; exact H | apply Hstay, H].
Qed.

(** Expanding a state that is no goal loses nothing. *)
Lemma covered_expand (x : State) (r : list State) (visited : gset Z) :
  lineage hash root x -> goal_test x = false ->
  covered hash b0 (r ++ [x], visited) ->
  covered hash b0 (push_unvisited (visited ∪ {[id x]}) r (successors hash x),
                   visited ∪ {[id x]}).
Proof.
  intros Hx Hgoal [Hroot Hclosed]. cbn [fst snd] in *.
  pose proof (lineage_id hash b0 fv d0 par Hb0 x Hx) as Hidx.
  pose proof (lineage_inv hash b0 fv d0 par Hb0 x Hx) as Hbx.
  destruct (lineage_reach hash b0 fv d0 par Hb0 x Hx) as (nx & Hsx & _).
  assert (Hstay : forall b, (exists s, s ∈ r ++ [x] /\ grid (board s) = grid b) ->
            id_of hash b ∈ visited ∪ {[id x]} \/
            exists s, s ∈ push_unvisited (visited ∪ {[id x]}) r (successors hash x)
                      /\ grid (board s) = grid b).
  { intros b (s & Hs & Hg). apply elem_of_app in Hs as [Hs | Hs].
    - right. exists s. split; [apply push_unvisited_keeps, Hs | exact Hg].
    - apply list_elem_of_singleton in Hs. subst s. left.
      apply elem_of_union. right. apply elem_of_singleton.
      rewrite Hidx. symmetry. apply same_grid_id, Hg. }
  split; cbn [fst snd].
  - destruct Hroot as [H | H]; [left; apply elem_of_union; auto | apply Hstay, H].
  - intros n b Hb Hin. apply elem_of_union in Hin as [Hin | Hin].
    + destruct (Hclosed n b Hb Hin) as [Hng Hsucc]. split; [exact Hng|].
      intros b' Hn.
      destruct (Hsucc b' Hn) as [H | H]; [left; apply elem_of_union; auto|].
      apply Hstay, H.
    + apply elem_of_singleton in Hin. rewrite Hidx in Hin.
      destruct (reach_same_h hash b0 Hb0 Hcf n nx b (board x) Hb Hsx Hin)
        as (Hg & _ & Hgb).
      split.
      * intros Hgb'. apply Hgb in Hgb'. apply goal_test_board in Hgb'. congruence.
      * intros b' Hn.
        pose proof (slides_inv hash n b0 b Hb Hb0) as Hbb.
        destruct (next_board_same_grid hash b (board x) b' Hbb Hbx Hg Hn)
          as (c2 & Hn2 & Hg2).
        destruct (next_board_successor hash x c2 Hbx Hn2) as (s & Hs & Hbs & _).
        assert (Hids : id s = id_of hash b').
        { pose proof (lineage_successors hash b0 fv d0 par Hb0 x s Hx Hs) as Hls.
          rewrite (lineage_id hash b0 fv d0 par Hb0 s Hls), Hbs.
          symmetry. apply same_grid_id, Hg2. }
        destruct (decide (id s ∈ visited ∪ {[id x]})) as [Hv | Hv].
        -- left. rewrite <- Hids. exact Hv.
        -- right. exists s. split; [apply push_unvisited_new; assumption|].
           rewrite Hbs. symmetry. exact Hg2.
Qed.

Lemma covered_step (c : list State * gset Z) :
  DFS_inv hash b0 fv d0 par U c /\ covered hash b0 c ->
  match DFS_body hash c with
  | Ok (Continue c') => DFS_inv hash b0 fv d0 par U c' /\ covered hash b0 c'
  | Ok (Return r) =>
      r = None -> forall n t, slides hash n b0 t -> ~ goal_board t
  | Raise _ => True
  end.
Proof.
  intros [Hinv Hcov].
  destruct (DFS_body_step hash b0 fv d0 par Hb0 U HU c Hinv)
    as [(r & Hb & _) | (c' & Hb & Hinv' & _)]; rewrite Hb.
  - intros ->. apply DFS_body_return in Hb. destruct c as [frontier visited].
    cbn [fst] in Hb. subst frontier. intros n t Ht.
    pose proof (covered_all visited n t Hcov Ht) as Hin.
    destruct Hcov as [_ Hclosed]. apply (Hclosed n t Ht Hin).
  - split; [exact Hinv'|].
    destruct Hinv as [Hlin _].
    destruct (DFS_cases hash c) as [(_ & _ & Hb') | (x & r & Hfr & Hcase)];
      [rewrite Hb' in Hb; discriminate|].
    assert (Hx : lineage hash root x).
    { apply Hlin. rewrite Hfr, elem_of_app, list_elem_of_singleton. auto. }
    destruct c as [frontier visited]. cbn [fst snd] in *. subst frontier.
    destruct Hcase as [(Hvis & _ & Hb') | [(_ & _ & _ & Hb') | (_ & Hg & _ & Hb')]];
      rewrite Hb' in Hb.
    + inversion Hb; subst c'. eapply covered_drop; eassumption.
    + discriminate.
    + rewrite generate_successors_ok in Hb
        by (exact (lineage_inv hash b0 fv d0 par Hb0 x Hx)).
      cbn [bind] in Hb. inversion Hb; subst c'. apply covered_expand; assumption.
Qed.

Lemma DFS_decides :
  exists fuel r,
    DFS hash fuel root = Some (Ok r) /\
    DFS_post hash b0 fv d0 par r /\
    (r = None -> forall n t, slides hash n b0 t -> ~ goal_board t).
Proof.
  assert (Hinit : DFS_inv hash b0 fv d0 par U ([root], ∅)).
  { split; cbn [fst snd].
    - intros s Hs. apply list_elem_of_singleton in Hs. subst s. apply lineage_root.
    - intros y Hy. apply elem_of_empty in Hy. contradiction. }
  destruct (while_loop_total (DFS_body hash)
              (DFS_inv hash b0 fv d0 par U) (DFS_post hash b0 fv d0 par)
              (fun c => (size U - size (snd c))%nat)
              (fun c => length (fst c))
              (DFS_body_step hash b0 fv d0 par Hb0 U HU)
              ([root], ∅) Hinit)
    as (fuel & r & Hrun & Hpost).
  exists fuel, r. split; [exact Hrun|]. split; [exact Hpost|].
  apply (while_loop_partial (DFS_body hash)
           (fun c => DFS_inv hash b0 fv d0 par U c /\ covered hash b0 c)
           (fun r => r = None -> forall n t, slides hash n b0 t -> ~ goal_board t)
           covered_step fuel ([root], ∅) r); [| exact Hrun].
  split; [exact Hinit|]. split; cbn [fst snd].
  - right. exists root. split; [apply list_elem_of_here | reflexivity].
  - intros n b _ Hin. apply elem_of_empty in Hin. contradiction.
Qed.

End DFSCoverage.
(** X5. [A_star] terminates on every initial state built from a board
    that satisfies the placement invariants, whether or not a goal can be
    reached and whether or not identities collide.  A returned state
    passes [goal_test] and its board is reached from the initial board in
    as many moves as its depth exceeds the initial depth; when no
    reachable board is a goal board the result is [None]; and when no two
    reachable boards share an identity, [None] is returned only then. *)
Theorem A_star_decides (hash : string -> Z) (b0 : Board) (fv d0 : Z)
    (par : option State) :
  board_inv b0 ->
  exists fuel r,
    A_star hash heapq.heappush heapq.heappop fuel (State_init hash b0 fv d0 par)
    = Some (Ok r) /\
    (forall s, r = Some s ->
       goal_test s = true /\
       exists n, slides hash n b0 (board s) /\ depth s = d0 + Z.of_nat n) /\
    ((forall n t, slides hash n b0 t -> ~ goal_board t) -> r = None) /\
    (collision_free hash b0 -> r = None ->
     forall n t, slides hash n b0 t -> ~ goal_board t).
Proof.
  intros Hb0.
  destruct (A_star_total hash heapq.heappush heapq.heappop heap_ordered
              heapq_is_priority_queue b0 fv d0 par Hb0
              (all_ids hash) (id_of_all_ids hash))
    as (fuel & r & Hrun & Hpost).
  assert (Hsome : forall s, r = Some s ->
            goal_test s = true /\
            exists n, slides hash n b0 (board s) /\ depth s = d0 + Z.of_nat n).
  { intros s Hs. destruct (Hpost s Hs) as [Hlin Hg]. split; [exact Hg|].
    exact (lineage_reach hash b0 fv d0 par Hb0 s Hlin). }
  exists fuel, r. split; [exact Hrun|]. split; [exact Hsome|]. split.
  - intros Hnone. destruct r as [s|]; [| reflexivity].
    destruct (Hsome s eq_refl) as (Hg & n & Hs & _).
    exfalso. apply (Hnone n (board s) Hs). apply goal_test_board, Hg.
  - intros Hcf -> n t Ht Hgoal.
    destruct (A_star_optimal_pq hash heapq.heappush heapq.heappop heap_ordered
                b0 fv d0 par heapq_is_priority_queue Hb0 Hcf
                (ex_intro _ n (ex_intro _ t (conj Ht Hgoal))))
      as (fuel' & s & m & Hrun' & _).
    unfold A_star in Hrun, Hrun'.
    pose proof (while_loop_functional _ _ _ _ _ _ Hrun Hrun') as E.
    discriminate E.
Qed.

Lemma A_star_decides_witness :
  board_inv solo_board /\
  exists fuel r,
    A_star string_code heapq.heappush heapq.heappop fuel
           (State_init string_code solo_board 0 0 None) = Some (Ok r) /\
    (forall s, r = Some s -> goal_test s = true).
Proof.
  split; [exact solo_board_inv|].
  destruct (A_star_decides string_code solo_board 0 0 None solo_board_inv)
    as (fuel & r & Hrun & Hsome & _).
  exists fuel, r. split; [exact Hrun|]. intros s Hs. apply (Hsome s Hs).
Defined.

(** X6. [DFS] is complete.  On an initial state built from a board that
    satisfies the placement invariants, with no two reachable boards
    sharing an identity, [DFS] returns; a returned state passes
    [goal_test] and its board is reachable from the initial board; and
    the result is [None] exactly when no reachable board is a goal
    board. *)
Theorem DFS_complete (hash : string -> Z) (b0 : Board) (fv d0 : Z)
    (par : option State) :
  board_inv b0 -> collision_free hash b0 ->
  exists fuel r,
    DFS hash fuel (State_init hash b0 fv d0 par) = Some (Ok r) /\
    (forall s, r = Some s ->
       goal_test s = true /\ exists n, slides hash n b0 (board s)) /\
    (r = None <-> forall n t, slides hash n b0 t -> ~ goal_board t).
Proof.
  intros Hb0 Hcf.
  destruct (DFS_decides hash b0 fv d0 par Hb0 Hcf
              (all_ids hash) (id_of_all_ids hash))
    as (fuel & r & Hrun & Hpost & Hnone).
  assert (Hsome : forall s, r = Some s ->
            goal_test s = true /\ exists n, slides hash n b0 (board s)).
  { intros s Hs. destruct (Hpost s Hs) as [Hlin Hg]. split; [exact Hg|].
    destruct (lineage_reach hash b0 fv d0 par Hb0 s Hlin) as (n & Hn & _).
    exists n. exact Hn. }
  exists fuel, r. split; [exact Hrun|]. split; [exact Hsome|].
  split; [exact Hnone|].
  intros Hno. destruct r as [s|]; [| reflexivity].
  destruct (Hsome s eq_refl) as (Hg & n & Hs).
  exfalso. apply (Hno n (board s) Hs). apply goal_test_board, Hg.
Qed.

Lemma DFS_complete_witness :
  board_inv solo_board /\ collision_free string_code solo_board /\
  exists fuel r,
    DFS string_code fuel (State_init string_code solo_board 0 0 None)
    = Some (Ok r) /\
    (r = None <-> forall n t, slides string_code n solo_board t -> ~ goal_board t).
Proof.
  split; [exact solo_board_inv|].
  split; [exact (collision_free_inj string_code solo_board string_code_inj
                   solo_board_inv)|].
  destruct (DFS_complete string_code solo_board 0 0 None solo_board_inv
              (collision_free_inj string_code solo_board string_code_inj
                 solo_board_inv))
    as (fuel & r & Hrun & _ & Hiff).
  exists fuel, r. auto.
Defined.

(** ** Boards without a move *)

Lemma full_no_move (b : Board) (piece : Piece) (d : direction) :
  (forall x y, in_grid (x, y) -> cell (grid b) x y <> char_empty) ->
  can_move b piece d = false.
Proof.
  intros Hfull.
  assert (Hfree : forall x y, free b x y = false).
  { intros x y. destruct (free b x y) eqn:E; [| reflexivity].
    apply free_spec in E as [Hin He]. exfalso. exact (Hfull x y Hin He). }
  unfold can_move. destruct (kind_of piece), d; rewrite ?Hfree; reflexivity.
Qed.

Lemma full_legal_moves (b : Board) :
  (forall x y, in_grid (x, y) -> cell (grid b) x y <> char_empty) ->
  legal_moves b = [].
Proof.
  intros Hfull. destruct (legal_moves b) as [|[piece d] l] eqn:E; [reflexivity|].
  assert (Hin : (piece, d) ∈ legal_moves b) by (rewrite E; apply list_elem_of_here).
  apply legal_moves_iff in Hin as [_ Hmv].
  rewrite (full_no_move b piece d Hfull) in Hmv. discriminate.
Qed.

Lemma stuck_slides (hash : string -> Z) (b : Board) (n : nat) (t : Board) :
  board_inv b -> legal_moves b = [] -> slides hash n b t -> t = b.
Proof.
  intros Hb Hnone Hs. destruct Hs as [|n b b' b'' Hn _]; [reflexivity|].
  exfalso. apply next_board_slide in Hn as (piece & d & Hel & Hmv & _); [| exact Hb].
  assert (Hin : (piece, d) ∈ legal_moves b) by (apply legal_moves_iff; auto).
  rewrite Hnone in Hin. inversion Hin.
Qed.

(** X7. A board without an empty cell has no move: on a state whose board
    satisfies the placement invariants and has every cell occupied,
    [generate_successors] returns the empty list, and the board is the
    only board reachable from it. *)
Theorem full_board_stuck (hash : string -> Z) (state : State) :
  board_inv (board state) ->
  (forall x y, in_grid (x, y) -> cell (grid (board state)) x y <> char_empty) ->
  generate_successors hash state = Ok [] /\
  forall n t, slides hash n (board state) t -> t = board state.
Proof.
  intros Hb Hfull. pose proof (full_legal_moves (board state) Hfull) as Hnone.
  split.
  - rewrite (generate_successors_ok hash state Hb), successors_as_moves, Hnone.
    reflexivity.
  - intros n t Hs. exact (stuck_slides hash (board state) n t Hb Hnone Hs).
Qed.

Lemma frozen_valid : valid_pieces (read_pieces frozen_text).
Proof.
  let ps := eval vm_compute in (read_pieces frozen_text) in
  change (valid_pieces ps).
  solve_valid.
Qed.

Lemma frozen_board_inv : board_inv frozen_board.
Proof. apply board_of_inv, frozen_valid. Qed.

Lemma frozen_full (x y : Z) :
  in_grid (x, y) -> cell (grid frozen_board) x y <> char_empty.
Proof.
  intros [Hx Hy]. cbn [fst snd] in Hx, Hy.
  assert (Hxs : x = 0 \/ x = 1 \/ x = 2 \/ x = 3) by lia.
  assert (Hys : y = 0 \/ y = 1 \/ y = 2 \/ y = 3 \/ y = 4) by lia.
  destruct Hxs as [-> | [-> | [-> | ->]]];
    destruct Hys as [-> | [-> | [-> | [-> | ->]]]]; vm_compute; discriminate.
Qed.

Lemma full_board_stuck_witness :
  board_inv frozen_board /\
  generate_successors string_code (State_init string_code frozen_board 0 0 None)
  = Ok [].
Proof.
  split; [exact frozen_board_inv|].
  apply (full_board_stuck string_code (State_init string_code frozen_board 0 0 None)
           frozen_board_inv frozen_full).
Defined.

(** ** The main program *)

Lemma DFS_total (hash : string -> Z) (b0 : Board) (fv d0 : Z) (par : option State) :
  board_inv b0 ->
  exists fuel r,
    DFS hash fuel (State_init hash b0 fv d0 par) = Some (Ok r) /\
    DFS_post hash b0 fv d0 par r.
Proof.
  intros Hb0.
  apply (while_loop_total (DFS_body hash)
           (DFS_inv hash b0 fv d0 par (all_ids hash)) (DFS_post hash b0 fv d0 par)
           (fun c => (size (all_ids hash) - size (snd c))%nat)
           (fun c => length (fst c))
           (DFS_body_step hash b0 fv d0 par Hb0 (all_ids hash) (id_of_all_ids hash))).
  split; cbn [fst snd].
  - intros s Hs. apply list_elem_of_singleton in Hs. subst s. apply lineage_root.
  - intros y Hy. apply elem_of_empty in Hy. contradiction.
Qed.

Lemma post_unsolvable (hash : string -> Z) (b0 : Board) (fv d0 : Z)
    (par : option State) (r : option State) :
  board_inv b0 -> DFS_post hash b0 fv d0 par r ->
  (forall n t, slides hash n b0 t -> ~ goal_board t) -> r = None.
Proof.
  intros Hb0 Hpost Hno. destruct r as [s|]; [| reflexivity].
  destruct (Hpost s eq_refl) as [Hlin Hg].
  destruct (lineage_reach hash b0 fv d0 par Hb0 s Hlin) as (n & Hn & _).
  exfalso. apply (Hno n (board s) Hn). apply goal_test_board, Hg.
Qed.

(** X8. On a puzzle without a solution the program ends with an
    exception: when the input file gives a board that satisfies the
    placement invariants and from which no goal board can be reached,
    the search returns [None] and [write_to_file] raises
    [AttributeError] on [solution.parent], with either algorithm. *)
Theorem main_no_solution (hash : string -> Z) (a : algo) (inputfile : string)
    (b : Board) :
  read_from_file inputfile = Ok b -> board_inv b ->
  (forall n t, slides hash n b t -> ~ goal_board t) ->
  exists fuel, main hash fuel a inputfile = Some (Raise AttributeError).
Proof.
  intros Hread Hb Hno. unfold main. rewrite Hread. destruct a.
  - destruct (A_star_total hash heapq.heappush heapq.heappop heap_ordered
                heapq_is_priority_queue b 0 0 None Hb
                (all_ids hash) (id_of_all_ids hash))
      as (fuel & r & Hrun & Hpost).
    exists fuel. rewrite Hrun.
    rewrite (post_unsolvable hash b 0 0 None r Hb Hpost Hno). reflexivity.
  - destruct (DFS_total hash b 0 0 None Hb) as (fuel & r & Hrun & Hpost).
    exists fuel. rewrite Hrun.
    rewrite (post_unsolvable hash b 0 0 None r Hb Hpost Hno). reflexivity.
Qed.

Lemma frozen_unsolvable (hash : string -> Z) (n : nat) (t : Board) :
  slides hash n frozen_board t -> ~ goal_board t.
Proof.
  intros Hs.
  rewrite (stuck_slides hash frozen_board n t frozen_board_inv
             (full_legal_moves frozen_board frozen_full) Hs).
  vm_compute. discriminate.
Qed.

Lemma main_no_solution_witness :
  read_from_file frozen_text = Ok frozen_board /\ board_inv frozen_board /\
  (forall n t, slides string_code n frozen_board t -> ~ goal_board t) /\
  exists fuel, main string_code fuel dfs frozen_text = Some (Raise AttributeError).
Proof.
  assert (Hread : read_from_file frozen_text = Ok frozen_board).
  { apply Board_init_ok. apply frozen_valid. }
  split; [exact Hread|]. split; [exact frozen_board_inv|].
  split; [exact (frozen_unsolvable string_code)|].
  exact (main_no_solution string_code dfs frozen_text frozen_board Hread
           frozen_board_inv (frozen_unsolvable string_code)).
Defined.

Lemma slides_same_grid (hash : string -> Z) (n : nat) (b1 b2 t1 : Board) :
  board_inv b1 -> board_inv b2 -> grid b1 = grid b2 -> slides hash n b1 t1 ->
  exists t2, slides hash n b2 t2 /\ grid t1 = grid t2 /\
             board_inv t1 /\ board_inv t2.
Proof.
  intros H1 H2 Hg Hs. revert b2 H2 Hg.
  induction Hs as [b|n b c t Hn Hs IH]; intros b2 H2 Hg.
  - exists b2. split; [apply slides_refl | auto].
  - destruct (next_board_same_grid hash b b2 c H1 H2 Hg Hn) as (c2 & Hn2 & Hg2).
    pose proof (next_board_inv hash b c H1 Hn) as Hc.
    pose proof (next_board_inv hash b2 c2 H2 Hn2) as Hc2.
    destruct (IH Hc c2 Hc2 Hg2) as (t2 & Hs2 & Hgt & Ht & Ht2).
    exists t2. split; [eapply slides_step; eassumption | auto].
Qed.

Lemma collision_free_same_grid (hash : string -> Z) (b1 b2 : Board) :
  board_inv b1 -> board_inv b2 -> grid b1 = grid b2 ->
  collision_free hash b1 -> collision_free hash b2.
Proof.
  intros H1 H2 Hg Hcf n1 t1 n2 t2 Hs1 Hs2 Hid.
  destruct (slides_same_grid hash n1 b2 b1 t1 H2 H1 (eq_sym Hg) Hs1)
    as (u1 & Hu1 & Hg1 & _).
  destruct (slides_same_grid hash n2 b2 b1 t2 H2 H1 (eq_sym Hg) Hs2)
    as (u2 & Hu2 & Hg2 & _).
  rewrite Hg1, Hg2. apply (Hcf n1 u1 n2 u2 Hu1 Hu2).
  rewrite <- (same_grid_id hash t1 u1 Hg1), <- (same_grid_id hash t2 u2 Hg2).
  exact Hid.
Qed.

Lemma goal_same_grid (hash : string -> Z) (n : nat) (b1 b2 t1 : Board) :
  board_inv b1 -> board_inv b2 -> grid b1 = grid b2 ->
  slides hash n b1 t1 -> goal_board t1 ->
  exists t2, slides hash n b2 t2 /\ goal_board t2.
Proof.
  intros H1 H2 Hg Hs Hgoal.
  destruct (slides_same_grid hash n b1 b2 t1 H1 H2 Hg Hs) as (t2 & Hs2 & Hgt & Ht1 & Ht2).
  exists t2. split; [exact Hs2|]. unfold goal_board in *.
  rewrite <- (same_grid_goal t1 t2 Ht1 Ht2 Hgt). exact Hgoal.
Qed.

Lemma string_length_append (s1 s2 : string) :
  String.length (String.append s1 s2) = (String.length s1 + String.length s2)%nat.
Proof.
  induction s1 as [|c s1 IH]; [reflexivity|].
  change (S (String.length (String.append s1 s2))
          = S (String.length s1 + String.length s2)).
  rewrite IH. reflexivity.
Qed.

Lemma grid_text_length (g : Grid) : shape g -> String.length (grid_text g) = 26%nat.
Proof.
  intros Hs.
  destruct (shape_cases g Hs)
    as (a0 & a1 & a2 & a3 & b0 & b1 & b2 & b3 & c0 & c1 & c2 & c3 &
        d0 & d1 & d2 & d3 & e0 & e1 & e2 & e3 & ->).
  reflexivity.
Qed.
Lemma collect_lineage (hash : string -> Z) (b0 : Board) (fv : Z) (s : State) :
  board_inv b0 ->
  lineage hash (State_init hash b0 fv 0 None) s ->
  Z.of_nat (length (collect_states s)) = depth s /\
  Forall (fun st => board_inv (board st)) (collect_states s).
Proof.
  intros Hb0 Hlin. induction Hlin as [|p s l Hp IH Hgen Hs].
  - cbn. split; [reflexivity | constructor].
  - pose proof (lineage_inv hash b0 fv 0 None Hb0 p Hp) as Hbp.
    rewrite (generate_successors_ok hash p Hbp) in Hgen. inversion Hgen; subst l.
    pose proof (lineage_successors hash b0 fv 0 None Hb0 p s Hp Hs) as Hls.
    pose proof (lineage_inv hash b0 fv 0 None Hb0 s Hls) as Hbs.
    apply in_successors in Hs as (piece & d & _ & _ & ->).
    destruct IH as [IHlen IHinv].
    change (collect_states (successor hash p piece d))
      with (successor hash p piece d :: collect_states p).
    split.
    + cbn [length]. change (depth (successor hash p piece d)) with (depth p + 1). lia.
    + constructor; assumption.
Qed.

Lemma path_text_length (l : list State) :
  Forall (fun st => board_inv (board st)) l ->
  String.length
    (fold_right (fun st acc => String.append (grid_text (grid (board st))) acc)
                EmptyString l)
  = (26 * length l)%nat.
Proof.
  induction 1 as [|st l Hst _ IH]; [reflexivity|].
  cbn [fold_right length]. rewrite string_length_append, IH.
  rewrite grid_text_length; [lia|].
  rewrite (board_inv_eq _ Hst). apply grid_of_shape.
Qed.

(** X9. The program end to end with [--algo astar].  Let the input file
    hold the text of a board that satisfies the placement invariants and
    from which a goal board can be reached, and let no two reachable
    boards share an identity.  Then the program writes an output that
    starts with the grid of the input and consists of [m + 1] grids of 26
    characters each, where [m] is the least number of moves in which a
    goal board can be reached. *)
Theorem main_astar_optimal (hash : string -> Z) (b : Board) :
  board_inv b -> collision_free hash b ->
  (exists n t, slides hash n b t /\ goal_board t) ->
  exists fuel out m rest,
    main hash fuel astar (display b) = Some (Ok out) /\
    out = String.append (grid_text (grid b)) rest /\
    String.length out = (26 * (m + 1))%nat /\
    (exists t, slides hash m b t /\ goal_board t) /\
    (forall n t, slides hash n b t -> goal_board t -> (m <= n)%nat).
Proof.
  intros Hb Hcf (n0 & t0 & Hs0 & Hg0).
  destruct (read_back_board b EmptyString Hb (or_introl eq_refl))
    as (b' & Hread & Hgrid & _ & _ & Hb').
  change (fold_right _ EmptyString (grid b)) with (display b) in Hread.
  pose proof (collision_free_same_grid hash b b' Hb Hb' (eq_sym Hgrid) Hcf) as Hcf'.
  destruct (goal_same_grid hash n0 b b' t0 Hb Hb' (eq_sym Hgrid) Hs0 Hg0)
    as (t0' & Hs0' & Hg0').
  destruct (A_star_optimal_pq hash heapq.heappush heapq.heappop heap_ordered
              b' 0 0 None heapq_is_priority_queue Hb' Hcf'
              (ex_intro _ n0 (ex_intro _ t0' (conj Hs0' Hg0'))))
    as (fuel & s & m & Hrun & Hgoal & Hdepth & Hsm & Hopt).
  pose proof (A_star_returns_lineage hash heapq.heappush heapq.heappop heap_ordered
                heapq_is_priority_queue fuel _ s Hrun) as Hlin.
  destruct (collect_lineage hash b' 0 s Hb' Hlin) as [Hlen Hinv].
  exists fuel.
  eexists. exists m. eexists.
  split; [unfold main; rewrite Hread, Hrun; reflexivity|].
  cbn [board State_init]. rewrite Hgrid.
  split; [reflexivity|]. split; [| split].
  - rewrite string_length_append, grid_text_length
      by (rewrite (board_inv_eq _ Hb); apply grid_of_shape).
    rewrite path_text_length by (apply Forall_rev, Hinv).
    rewrite length_rev. lia.
  - destruct (goal_same_grid hash m b' b (board s) Hb' Hb Hgrid Hsm Hgoal)
      as (t & Ht & Hgt).
    exists t. auto.
  - intros n t Ht Hgt.
    destruct (goal_same_grid hash n b b' t Hb Hb' (eq_sym Hgrid) Ht Hgt)
      as (t' & Ht' & Hgt').
    exact (Hopt n t' Ht' Hgt').
Qed.

Lemma main_astar_optimal_witness :
  board_inv solo_board /\ collision_free string_code solo_board /\
  (exists n t, slides string_code n solo_board t /\ goal_board t) /\
  exists fuel out m,
    main string_code fuel astar (display solo_board) = Some (Ok out) /\
    String.length out = (26 * (m + 1))%nat.
Proof.
  split; [exact solo_board_inv|].
  split; [exact (collision_free_inj string_code solo_board string_code_inj
                   solo_board_inv)|].
  split; [exact solo_reach|].
  destruct (main_astar_optimal string_code solo_board solo_board_inv
              (collision_free_inj string_code solo_board string_code_inj
                 solo_board_inv) solo_reach)
    as (fuel & out & m & rest & Hrun & _ & Hlen & _).
  exists fuel, out, m. auto.
Defined.


(** ** Moves can be undone *)

Lemma move_piece_back (p : Piece) (d : direction) :
  move_piece (move_piece p d) (opposite d) = p.
Proof.
  destruct p as [g s x y o], d; cbn; f_equal; lia.
Qed.

Lemma slide_back (l1 l2 : list Piece) (p : Piece) (d : direction) :
  valid_pieces (l1 ++ p :: l2) ->
  valid_pieces (l1 ++ move_piece p d :: l2) ->
  slide_ok (board_of (l1 ++ move_piece p d :: l2)) (move_piece p d) (opposite d).
Proof.
  intros Hv Hv' c Hc Hnew. rewrite move_piece_back in Hc.
  destruct Hv as [Hwf Hin Hnd _]. destruct Hv' as [Hwf' Hin' Hnd' _].
  assert (Hwfp : wf_piece p).
  { rewrite Forall_forall in Hwf. apply Hwf.
    rewrite elem_of_app, elem_of_cons. auto. }
  assert (Hcin : c ∈ cells (l1 ++ p :: l2)).
  { rewrite (cells_split l1 l2 p Hwfp), !elem_of_app. auto. }
  assert (Hgrid : in_grid c).
  { rewrite Forall_forall in Hin. apply Hin, Hcin. }
  split; [exact Hgrid|].
  destruct c as [x y]. cbn [fst snd grid board_of].
  apply grid_of_empty_iff; try assumption.
  rewrite (cells_split l1 l2 (move_piece p d) (wf_move p d Hwfp)), !elem_of_app.
  rewrite (cells_split l1 l2 p Hwfp) in Hnd.
  apply NoDup_app in Hnd as (_ & Hl1 & Hnd).
  apply NoDup_app in Hnd as (_ & Hl2 & _).
  intros [H | [H | H]].
  - exact (Hl1 _ H ltac:(rewrite elem_of_app; auto)).
  - exact (Hnew H).
  - exact (Hl2 _ Hc H).
Qed.

(** X10. Every move can be undone: for a state whose board satisfies the
    placement invariants, each successor that [generate_successors]
    returns has, among its own successors, a state whose board is the
    board moved from. *)
Theorem moves_reversible (hash : string -> Z) (state s : State) (l : list State) :
  board_inv (board state) ->
  generate_successors hash state = Ok l -> s ∈ l ->
  exists l' s', generate_successors hash s = Ok l' /\ s' ∈ l' /\
                board s' = board state.
Proof.
  intros Hb Hgen Hs.
  rewrite (generate_successors_ok hash state Hb) in Hgen. inversion Hgen; subst l.
  apply in_successors in Hs as (p & d & Hp & Hmv & ->).
  pose proof (successor_inv hash state p d Hb Hp Hmv) as Hb'.
  pose proof (board_inv_eq _ Hb) as Eb. destruct Hb as [Hv Hinit].
  destruct (moved_pieces_split (pieces (board state)) p d
              (vp_wf _ Hv) (vp_disj _ Hv) Hp) as (l1 & l2 & Hsplit & Hmoved).
  set (p' := move_piece p d).
  assert (Hv' : valid_pieces (l1 ++ p' :: l2)).
  { unfold p'. rewrite <- Hmoved.
    apply moved_pieces_valid; [split; assumption | assumption..]. }
  assert (Hboard : board (successor hash state p d) = board_of (l1 ++ p' :: l2)).
  { cbn. unfold moved_pieces. rewrite Hmoved. reflexivity. }
  exists (successors hash (successor hash state p d)),
         (successor hash (successor hash state p d) p' (opposite d)).
  split; [apply generate_successors_ok, Hb'|].
  split.
  - apply in_successors. exists p', (opposite d).
    split; [rewrite Hboard; cbn; rewrite elem_of_app, elem_of_cons; auto|].
    split; [| reflexivity].
    apply can_move_slide_ok. rewrite Hboard.
    apply slide_back; [rewrite <- Hsplit; exact Hv | exact Hv'].
  - cbn [board successor State_init]. unfold moved_pieces.
    change (pieces (board_of (moved_pieces (board state) p d)))
      with (moved_pieces (board state) p d).
    unfold moved_pieces. rewrite Hmoved.
    change (pieces (board_of (l1 ++ move_piece p d :: l2)))
      with (l1 ++ p' :: l2).
    rewrite (move_first_skip l1 l2 p' (opposite d)).
    + unfold p'. rewrite move_piece_back, <- Hsplit. symmetry. exact Eb.
    + apply (valid_split_anchor l1 l2 p'); [apply Hv' | apply Hv'].
Qed.

Lemma moves_reversible_witness :
  board_inv mixed_board /\
  exists l, generate_successors string_code
              (State_init string_code mixed_board 0 0 None) = Ok l /\
    forall s, s ∈ l ->
      exists l' s', generate_successors string_code s = Ok l' /\ s' ∈ l' /\
                    board s' = mixed_board.
Proof.
  split; [exact mixed_board_inv|].
  pose proof (generate_successors_ok string_code
                (State_init string_code mixed_board 0 0 None) mixed_board_inv)
    as Hgen.
  eexists. split; [exact Hgen|].
  intros s Hs.
  exact (moves_reversible string_code (State_init string_code mixed_board 0 0 None)
           s _ mixed_board_inv Hgen Hs).
Defined.

(** ** The heuristic along a move *)

(** X11. The heuristic is consistent: across any move that
    [generate_successors] makes from a board that satisfies the placement
    invariants, [manhattan_distance] changes by at most one, the
    successor's [f] is its depth plus its heuristic value, and so [f]
    never decreases from a state with [f = depth + h] to its
    successors. *)
Theorem heuristic_consistent (hash : string -> Z) (state s : State)
    (l : list State) :
  board_inv (board state) ->
  generate_successors hash state = Ok l -> s ∈ l ->
  Z.abs (manhattan_distance (board s) - manhattan_distance (board state)) <= 1 /\
  f s = depth s + manhattan_distance (board s) /\
  (f state = depth state + manhattan_distance (board state) ->
   f state <= f s <= f state + 2).
Proof.
  intros Hb Hgen Hs.
  rewrite (generate_successors_ok hash state Hb) in Hgen. inversion Hgen; subst l.
  pose proof (successors_f hash state s Hs) as Hf.
  apply in_successors in Hs as (p & d & Hp & Hmv & ->).
  assert (Hstep : slide_step (board state) (board (successor hash state p d))).
  { exists p, d. auto. }
  pose proof (slide_step_h _ _ Hb Hstep) as Hh.
  split; [exact Hh|]. split; [exact Hf|].
  intros Hfs. rewrite Hf.
  change (depth (successor hash state p d)) with (depth state + 1). lia.
Qed.

Lemma heuristic_consistent_witness :
  board_inv mixed_board /\
  exists l, generate_successors string_code
              (State_init string_code mixed_board 3 0 None) = Ok l /\
    forall s, s ∈ l -> 3 <= f s <= 5.
Proof.
  split; [exact mixed_board_inv|].
  pose proof (generate_successors_ok string_code
                (State_init string_code mixed_board 3 0 None) mixed_board_inv)
    as Hgen.
  eexists. split; [exact Hgen|]. intros s Hs.
  destruct (heuristic_consistent string_code
              (State_init string_code mixed_board 3 0 None) s _
              mixed_board_inv Hgen Hs) as (_ & _ & Hmono).
  apply Hmono. reflexivity.
Defined.

(** ** [get_new_state] and [check_valid_spot] off the beaten path *)

Lemma move_first_none (ps : list Piece) (px py : Z) (d : direction) :
  (forall p, p ∈ ps -> (coord_x p, coord_y p) <> (px, py)) ->
  move_first ps px py d = ps.
Proof.
  induction ps as [|p ps IH]; intros Hnone; [reflexivity|].
  cbn [move_first].
  destruct (Z.eqb_spec (coord_x p) px) as [Hx | Hx];
    destruct (Z.eqb_spec (coord_y p) py) as [Hy | Hy]; cbn [andb];
    try (rewrite IH; [reflexivity |
                      intros q Hq; apply Hnone, list_elem_of_further, Hq]).
  exfalso. apply (Hnone p (list_elem_of_here _ _)). congruence.
Qed.

(** X12. [get_new_state] does not look for the piece it is asked to move:
    when no piece of the board is anchored at the given coordinates it
    still returns a state, one move deeper and with the given state as
    parent, whose board is the unchanged board. *)
Theorem get_new_state_no_piece (hash : string -> Z) (state : State)
    (piece_x piece_y : Z) (d : direction) :
  board_inv (board state) ->
  (forall p, p ∈ pieces (board state) ->
             (coord_x p, coord_y p) <> (piece_x, piece_y)) ->
  get_new_state hash state piece_x piece_y d
  = Ok (State_init hash (board state)
          (depth state + 1 + manhattan_distance (board state))
          (depth state + 1) (Some state)).
Proof.
  intros [_ Hinit] Hnone. unfold get_new_state.
  rewrite (move_first_none _ piece_x piece_y d Hnone), Hinit. reflexivity.
Qed.

Lemma get_new_state_no_piece_witness :
  board_inv solo_board /\
  exists s, get_new_state string_code (State_init string_code solo_board 0 0 None)
              3 4 Up = Ok s /\
            board s = solo_board /\ depth s = 1.
Proof.
  split; [exact solo_board_inv|].
  eexists. split.
  - apply (get_new_state_no_piece string_code
             (State_init string_code solo_board 0 0 None) 3 4 Up solo_board_inv).
    intros p Hp. cbn in Hp. apply list_elem_of_singleton in Hp. subst p.
    cbn. intros H. discriminate H.
  - split; reflexivity.
Defined.

Lemma Board_init_shape (ps : list Piece) (b : Board) :
  Board_init ps = Ok b -> shape (grid b) /\ width b = 4 /\ height b = 5.
Proof.
  unfold Board_init, construct_grid.
  rewrite (construct_loop_wrap ps (empty_grid 4 5) (0, 0) empty_grid_shape).
  destruct (decide (Forall in_wrap (cells ps))); [| discriminate].
  cbn [bind fst snd]. intros H. inversion H; subst b. cbn [grid width height].
  split; [| auto]. apply fold_write_shape, empty_grid_shape.
Qed.

(** X13. On a board built by [Board] from any piece list,
    [check_valid_spot] never raises: it returns [True] for an empty cell
    inside the grid, [None] (it falls off the end) for an occupied cell
    inside the grid, and [False] for coordinates outside the grid,
    negative ones included. *)
Theorem check_valid_spot_cases (state : State) (ps : list Piece) (x y : Z) :
  Board_init ps = Ok (board state) ->
  check_valid_spot state x y
  = Ok (if decide (in_grid (x, y))
        then (if Ascii.eqb (cell (grid (board state)) x y) char_empty
              then Some true else None)
        else Some false).
Proof.
  intros Hinit. destruct (Board_init_shape ps _ Hinit) as (Hs & Hw & Hh).
  unfold check_valid_spot. rewrite Hw, Hh.
  destruct (decide (in_grid (x, y))) as [[Hx Hy] | Hout]; cbn [fst snd] in *.
  - destruct (Z.leb_spec 0 x); [| lia]. destruct (Z.ltb_spec x 4); [| lia].
    destruct (Z.leb_spec 0 y); [| lia]. destruct (Z.ltb_spec y 5); [| lia].
    cbn [andb].
    destruct (shape_row _ y Hs Hy) as (row & Hrow & Hlen).
    rewrite (py_get_in_range _ y row) by (lia || exact Hrow). cbn [bind].
    assert (Hc : exists c, row !! Z.to_nat x = Some c).
    { apply lookup_lt_is_Some. lia. }
    destruct Hc as (c & Hc).
    rewrite (py_get_in_range row x c) by (lia || exact Hc). cbn [bind].
    unfold cell. rewrite Hrow, Hc. destruct (Ascii.eqb c char_empty); reflexivity.
  - unfold in_grid in Hout. cbn [fst snd] in Hout.
    destruct (Z.leb_spec 0 x); destruct (Z.ltb_spec x 4);
      destruct (Z.leb_spec 0 y); destruct (Z.ltb_spec y 5); cbn [andb];
      try reflexivity; lia.
Qed.

Lemma check_valid_spot_cases_witness :
  Board_init overlap_pieces
  = Ok (board (State_init string_code (board_of overlap_pieces) 0 0 None)) /\
  check_valid_spot (State_init string_code (board_of overlap_pieces) 0 0 None) 0 0
  = Ok None /\
  check_valid_spot (State_init string_code (board_of overlap_pieces) 0 0 None) (-1) 0
  = Ok (Some false).
Proof.
  assert (H : Board_init overlap_pieces
              = Ok (board (State_init string_code (board_of overlap_pieces) 0 0 None))).
  { vm_compute. reflexivity. }
  split; [exact H|]. split.
  - rewrite (check_valid_spot_cases _ overlap_pieces 0 0 H). reflexivity.
  - rewrite (check_valid_spot_cases _ overlap_pieces (-1) 0 H). reflexivity.
Defined.

(** ** The order on states and the identity string *)

(** X14. [State.__lt__] is a strict weak order: no state is below itself,
    the order is asymmetric and transitive, and two states neither of
    which is below the other have the same [f] and the same identity. *)
Theorem lt_strict_weak_order :
  (forall a, lt a a = false) /\
  (forall a b, lt a b = true -> lt b a = false) /\
  (forall a b c, lt a b = true -> lt b c = true -> lt a c = true) /\
  (forall a b, lt a b = false -> lt b a = false -> f a = f b /\ id a = id b) /\
  (forall a b c, lt a b = false -> lt b c = false -> lt a c = false).
Proof.
  split; [| split; [| split; [| split]]].
  - intros a. apply lt_false_spec. lia.
  - intros a b. rewrite lt_true_spec, lt_false_spec. lia.
  - intros a b c. rewrite !lt_true_spec. lia.
  - intros a b. rewrite !lt_false_spec. lia.
  - intros a b c. rewrite !lt_false_spec. lia.
Qed.

(** X15. The string hashed for the identity is a canonical form of the
    configuration: for two piece lists that satisfy the placement
    invariants, the boards built from them have the same [str(grid)]
    exactly when the lists are permutations of each other. *)
Theorem identity_string_canonical (ps1 ps2 : list Piece) (b1 b2 : Board) :
  valid_pieces ps1 -> valid_pieces ps2 ->
  Board_init ps1 = Ok b1 -> Board_init ps2 = Ok b2 ->
  (str_grid (grid b1) = str_grid (grid b2) <-> ps1 ≡ₚ ps2).
Proof.
  intros Hv1 Hv2 H1 H2.
  rewrite (Board_init_ok ps1 (vp_in _ Hv1)) in H1.
  rewrite (Board_init_ok ps2 (vp_in _ Hv2)) in H2.
  inversion H1; subst b1. inversion H2; subst b2. cbn [grid board_of].
  split.
  - intros E. apply same_grid_perm; [assumption..|].
    apply str_grid_inj; [apply grid_of_shape.. | exact E].
  - intros Hp. rewrite (grid_of_perm ps1 ps2 Hp (vp_in _ Hv1) (vp_disj _ Hv1)).
    reflexivity.
Qed.

Lemma identity_string_canonical_witness :
  valid_pieces solo_pieces /\ valid_pieces mixed_pieces /\
  Board_init solo_pieces = Ok solo_board /\
  Board_init mixed_pieces = Ok mixed_board /\
  str_grid (grid solo_board) <> str_grid (grid mixed_board).
Proof.
  assert (H1 : Board_init solo_pieces = Ok solo_board)
    by (apply Board_init_ok, solo_valid).
  assert (H2 : Board_init mixed_pieces = Ok mixed_board)
    by (apply Board_init_ok, mixed_valid).
  split; [exact solo_valid|]. split; [exact mixed_valid|].
  split; [exact H1|]. split; [exact H2|].
  intros E.
  apply (identity_string_canonical solo_pieces mixed_pieces solo_board mixed_board
           solo_valid mixed_valid H1 H2) in E.
  apply Permutation_length in E. discriminate E.
Defined.

(** ** Empty cells *)

Lemma concat_cells (g : Grid) :
  shape g -> concat g = map (fun xy => cell g (fst xy) (snd xy)) grid_coords.
Proof.
  intros Hs.
  destruct (shape_cases g Hs)
    as (a0 & a1 & a2 & a3 & b0 & b1 & b2 & b3 & c0 & c1 & c2 & c3 &
        d0 & d1 & d2 & d3 & e0 & e1 & e2 & e3 & ->).
  reflexivity.
Qed.

Lemma grid_coords_spec (c : Z * Z) : c ∈ grid_coords <-> in_grid c.
Proof.
  destruct c as [x y]. unfold in_grid. cbn [fst snd]. split.
  - intros H. unfold grid_coords in H. cbn in H.
    repeat (apply elem_of_cons in H as [H | H]; [inversion H; subst; lia|]).
    inversion H.
  - intros [Hx Hy].
    assert (Hxs : x = 0 \/ x = 1 \/ x = 2 \/ x = 3) by lia.
    assert (Hys : y = 0 \/ y = 1 \/ y = 2 \/ y = 3 \/ y = 4) by lia.
    destruct Hxs as [-> | [-> | [-> | ->]]];
      destruct Hys as [-> | [-> | [-> | [-> | ->]]]]; cbn;
      repeat first [apply list_elem_of_here | apply list_elem_of_further].
Qed.

Lemma grid_coords_NoDup : NoDup grid_coords.
Proof. apply (bool_decide_unpack _). vm_compute. exact I. Qed.

Lemma filter_map_length {A B : Type} (g : B -> bool) (h : A -> B) (l : list A) :
  length (List.filter g (map h l)) = length (List.filter (fun x => g (h x)) l).
Proof.
  induction l as [|a l IH]; [reflexivity|].
  cbn. destruct (g (h a)); cbn; rewrite IH; reflexivity.
Qed.

Lemma filter_length_ext {A : Type} (g h : A -> bool) (l : list A) :
  (forall x, x ∈ l -> g x = h x) ->
  length (List.filter g l) = length (List.filter h l).
Proof.
  induction l as [|a l IH]; intros Hext; [reflexivity|].
  cbn. rewrite (Hext a (list_elem_of_here _ _)).
  assert (IH' : length (List.filter g l) = length (List.filter h l)).
  { apply IH. intros x Hx. apply Hext, list_elem_of_further, Hx. }
  destruct (h a); cbn; rewrite IH'; reflexivity.
Qed.

Lemma filter_remove_one (l : list (Z * Z)) (c : Z * Z) (g : Z * Z -> bool) :
  NoDup l -> c ∈ l -> g c = true ->
  S (length (List.filter (fun x => g x && bool_decide (x <> c)) l))
  = length (List.filter g l).
Proof.
  induction l as [|a l IH]; intros Hnd Hc Hg; [inversion Hc|].
  apply NoDup_cons in Hnd as [Ha Hnd]. cbn [List.filter].
  apply elem_of_cons in Hc as [<- | Hc].
  - rewrite Hg. rewrite bool_decide_eq_false_2 by (intros H; apply H; reflexivity).
    cbn [andb length]. f_equal. apply filter_length_ext.
    intros x Hx. rewrite bool_decide_eq_true_2; [apply andb_true_r|].
    intros ->. contradiction.
  - destruct (g a) eqn:Hga; cbn [andb].
    + rewrite bool_decide_eq_true_2 by (intros ->; contradiction).
      cbn [length]. rewrite IH by assumption. reflexivity.
    + apply IH; assumption.
Qed.

Lemma count_outside (l cs : list (Z * Z)) :
  NoDup l -> NoDup cs -> (forall c, c ∈ cs -> c ∈ l) ->
  (length (List.filter (fun x => bool_decide (x ∉ cs)) l) + length cs = length l)%nat.
Proof.
  intros Hl. induction cs as [|c cs IH]; intros Hcs Hsub.
  - cbn [length]. rewrite Nat.add_0_r.
    rewrite (filter_length_ext _ (fun _ => true) l).
    + clear. induction l as [|a l IH]; [reflexivity|]. cbn. rewrite IH. reflexivity.
    + intros x _. apply bool_decide_eq_true_2. intros H. inversion H.
  - apply NoDup_cons in Hcs as [Hc Hcs].
    specialize (IH Hcs (fun x Hx => Hsub x (list_elem_of_further _ _ _ Hx))).
    pose proof (filter_remove_one l c (fun x => bool_decide (x ∉ cs)) Hl
                  (Hsub c (list_elem_of_here _ _))
                  (bool_decide_eq_true_2 _ Hc)) as Hone.
    rewrite (filter_length_ext (fun x => bool_decide (x ∉ c :: cs))
               (fun x => bool_decide (x ∉ cs) && bool_decide (x <> c)) l).
    + cbn [length]. lia.
    + intros x _. destruct (decide (x = c)) as [-> | Hne].
      * rewrite (bool_decide_eq_false_2 (c <> c)) by (intros H; apply H; reflexivity).
        rewrite andb_false_r. apply bool_decide_eq_false_2.
        intros H. apply H, list_elem_of_here.
      * rewrite (bool_decide_eq_true_2 (x <> c)) by exact Hne.
        rewrite andb_true_r. apply bool_decide_ext.
        rewrite elem_of_cons. tauto.
Qed.

Lemma empty_count (ps : list Piece) :
  valid_pieces ps ->
  (count_empty (grid_of ps) + length (cells ps) = 20)%nat.
Proof.
  intros [_ Hin Hnd _]. unfold count_empty.
  rewrite (concat_cells _ (grid_of_shape ps)), filter_map_length.
  rewrite (filter_length_ext _ (fun x => bool_decide (x ∉ cells ps)) grid_coords).
  - rewrite (count_outside grid_coords (cells ps) grid_coords_NoDup Hnd);
      [reflexivity|].
    intros c Hc. apply grid_coords_spec. rewrite Forall_forall in Hin. auto.
  - intros [x y] Hxy. apply grid_coords_spec in Hxy. cbn [fst snd].
    pose proof (grid_of_empty_iff ps x y Hin Hnd Hxy) as Hiff.
    destruct (Ascii.eqb_spec (cell (grid_of ps) x y) char_empty) as [E | E].
    + symmetry. apply bool_decide_eq_true_2, Hiff, E.
    + symmetry. apply bool_decide_eq_false_2. intros H. apply E, Hiff, H.
Qed.

Lemma footprint_length_move (p : Piece) (d : direction) :
  length (footprint (move_piece p d)) = length (footprint p).
Proof. unfold footprint. rewrite kind_of_move. destruct (kind_of p); reflexivity. Qed.

Lemma slide_step_cells (b b' : Board) :
  board_inv b -> slide_step b b' ->
  length (cells (pieces b')) = length (cells (pieces b)).
Proof.
  intros [Hv _] (p & d & Hp & _ & ->). cbn [pieces board_of].
  destruct (moved_pieces_split (pieces b) p d (vp_wf _ Hv) (vp_disj _ Hv) Hp)
    as (l1 & l2 & Hsplit & Hmoved).
  unfold moved_pieces. rewrite Hmoved, Hsplit.
  assert (Hwf : wf_piece p).
  { pose proof (vp_wf _ Hv) as H. rewrite Forall_forall in H. auto. }
  rewrite (cells_split l1 l2 p Hwf),
    (cells_split l1 l2 (move_piece p d) (wf_move p d Hwf)).
  rewrite !length_app, footprint_length_move. reflexivity.
Qed.

(** X16. The number of empty cells never changes.  On a board that
    satisfies the placement invariants the empty cells of the grid are
    the twenty cells less those the pieces cover, and every board reached
    by moves of [generate_successors] has as many empty cells as the
    board started from. *)
Theorem empty_cells_conserved (hash : string -> Z) (b : Board) :
  board_inv b ->
  (count_empty (grid b) + length (cells (pieces b)) = 20)%nat /\
  forall n t, slides hash n b t -> count_empty (grid t) = count_empty (grid b).
Proof.
  intros Hb.
  assert (Hcount : forall c, board_inv c ->
            (count_empty (grid c) + length (cells (pieces c)) = 20)%nat).
  { intros c Hc. rewrite (board_inv_eq c Hc) at 1. apply empty_count, Hc. }
  split; [apply Hcount, Hb|].
  intros n t Hs. induction Hs as [|n b c t Hn Hs IH]; [reflexivity|].
  pose proof (next_board_inv hash b c Hb Hn) as Hc.
  rewrite (IH Hc).
  apply (next_board_slide hash) in Hn; [| exact Hb].
  pose proof (slide_step_cells b c Hb Hn) as Hlen.
  pose proof (Hcount b Hb). pose proof (Hcount c Hc). lia.
Qed.

Lemma empty_cells_conserved_witness :
  board_inv mixed_board /\ count_empty (grid mixed_board) = 10%nat /\
  forall n t, slides string_code n mixed_board t -> count_empty (grid t) = 10%nat.
Proof.
  split; [exact mixed_board_inv|]. split; [reflexivity|].
  intros n t Hs.
  destruct (empty_cells_conserved string_code mixed_board mixed_board_inv)
    as [_ Hall].
  rewrite (Hall n t Hs). reflexivity.
Defined.


(** ** No configuration twice on a solution path *)

Lemma path_to_eq (s : State) : path_to s = s :: ancestors s.
Proof. destruct s as [b fv d [p|] i]; reflexivity. Qed.

Lemma anc_inv_weaken (frontier frontier' : list State) (visited visited' : gset Z) :
  (forall s, s ∈ frontier' -> s ∈ frontier) -> visited ⊆ visited' ->
  anc_inv (frontier, visited) -> anc_inv (frontier', visited').
Proof.
  intros Hfr Hvis Hinv s Hs. cbn [fst snd] in *.
  destruct (Hinv s (Hfr s Hs)) as [Hnd Hin]. split; [exact Hnd|].
  intros a Ha. apply Hvis, Hin, Ha.
Qed.

Lemma anc_inv_return (x : State) (frontier : list State) (visited : gset Z) :
  anc_inv (frontier, visited) -> x ∈ frontier -> id x ∉ visited ->
  NoDup (map id (path_to x)).
Proof.
  intros Hinv Hx Hnew. destruct (Hinv x Hx) as [Hnd Hin]. cbn [snd] in Hin.
  rewrite path_to_eq. cbn [map]. apply NoDup_cons. split; [| exact Hnd].
  intros H. apply list_elem_of_fmap in H as (a & Hid & Ha).
  apply Hnew. rewrite Hid. apply Hin, Ha.
Qed.

(** The successors of an expanded state keep the invariant. *)
Lemma anc_inv_child (hash : string -> Z) (x s : State) (frontier : list State)
    (visited : gset Z) :
  anc_inv (frontier, visited) -> x ∈ frontier -> id x ∉ visited ->
  s ∈ successors hash x ->
  NoDup (map id (ancestors s)) /\
  forall a, a ∈ ancestors s -> id a ∈ visited ∪ {[id x]}.
Proof.
  intros Hinv Hx Hnew Hs.
  apply in_successors in Hs as (p & d & _ & _ & ->).
  change (ancestors (successor hash x p d)) with (path_to x).
  split; [eapply anc_inv_return; eassumption|].
  intros a Ha. rewrite path_to_eq in Ha.
  apply elem_of_cons in Ha as [-> | Ha].
  - apply elem_of_union. right. apply elem_of_singleton. reflexivity.
  - destruct (Hinv x Hx) as [_ Hin]. apply elem_of_union. left. apply Hin, Ha.
Qed.

Section DistinctPaths.

Variable hash : string -> Z.
Variables (b0 : Board) (fv d0 : Z).

Let root : State := State_init hash b0 fv d0 None.

Hypothesis Hb0 : board_inv b0.

Variable U : gset Z.
Hypothesis HU : forall b, board_inv b -> id_of hash b ∈ U.

Lemma anc_inv_init (frontier : list State) :
  (forall s, s ∈ frontier -> s = root) -> anc_inv (frontier, ∅).
Proof.
  intros Hfr s Hs. cbn [fst] in Hs. rewrite (Hfr s Hs). cbn.
  split; [apply NoDup_nil_2 | intros a Ha; inversion Ha].
Qed.

Lemma DFS_anc_step (c : list State * gset Z) :
  DFS_inv hash b0 fv d0 None U c /\ anc_inv c ->
  match DFS_body hash c with
  | Ok (Continue c') => DFS_inv hash b0 fv d0 None U c' /\ anc_inv c'
  | Ok (Return r) => forall s, r = Some s -> NoDup (map id (path_to s))
  | Raise _ => True
  end.
Proof.
  intros [Hinv Hanc].
  destruct (DFS_cases hash c) as [(_ & _ & Hb') | (x & r & Hfr & Hcase)].
  { rewrite Hb'. intros s Hs. discriminate. }
  destruct (DFS_body_step hash b0 fv d0 None Hb0 U HU c Hinv)
    as [(r0 & Hb & _) | (c' & Hb & Hinv' & _)]; rewrite Hb.
  - intros s ->.
    destruct c as [frontier visited]. cbn [fst snd] in *. subst frontier.
    destruct Hcase as [(_ & _ & Hb') | [(Hnew & _ & _ & Hb') | (_ & Hg & _ & Hb')]];
      rewrite Hb' in Hb.
    + discriminate.
    + inversion Hb; subst s.
      apply (anc_inv_return x (r ++ [x]) visited Hanc); [| exact Hnew].
      rewrite elem_of_app, list_elem_of_singleton. auto.
    + destruct (generate_successors hash x); discriminate.
  - split; [exact Hinv'|].
    destruct Hinv as [Hlin _].
    assert (Hx : lineage hash root x).
    { apply Hlin. rewrite Hfr, elem_of_app, list_elem_of_singleton. auto. }
    destruct c as [frontier visited]. cbn [fst snd] in *. subst frontier.
    assert (Hxin : x ∈ r ++ [x]).
    { rewrite elem_of_app, list_elem_of_singleton. auto. }
    destruct Hcase as [(_ & _ & Hb') | [(_ & _ & _ & Hb') | (Hnew & _ & _ & Hb')]];
      rewrite Hb' in Hb.
    + inversion Hb; subst c'.
      apply (anc_inv_weaken (r ++ [x]) r visited visited); [| reflexivity | exact Hanc].
      intros s Hs. rewrite elem_of_app. auto.
    + discriminate.
    + rewrite generate_successors_ok in Hb
        by (exact (lineage_inv hash b0 fv d0 None Hb0 x Hx)).
      cbn [bind] in Hb. inversion Hb; subst c'.
      intros s Hs. cbn [fst snd] in *.
      apply push_unvisited_elem in Hs as [Hs | Hs].
      * assert (Hsin : s ∈ r ++ [x]) by (rewrite elem_of_app; auto).
        destruct (Hanc s Hsin) as [Hnd Hin]. split; [exact Hnd|].
        intros a Ha. apply elem_of_union. left. apply Hin, Ha.
      * exact (anc_inv_child hash x s (r ++ [x]) visited Hanc Hxin Hnew Hs).
Qed.

Lemma A_star_anc_step (c : list State * gset Z) :
  A_term_inv hash heap_ordered b0 fv d0 None U c /\ anc_inv c ->
  match A_star_body hash heapq.heappush heapq.heappop c with
  | Ok (Continue c') =>
      A_term_inv hash heap_ordered b0 fv d0 None U c' /\ anc_inv c'
  | Ok (Return r) => forall s, r = Some s -> NoDup (map id (path_to s))
  | Raise _ => True
  end.
Proof.
  intros [Hinv Hanc].
  pose proof (A_term_step hash heapq.heappush heapq.heappop heap_ordered
                heapq_is_priority_queue b0 fv d0 None Hb0 U HU c Hinv) as Hstep.
  destruct c as [frontier visited]. destruct Hinv as (Hheap & Hlin & Hsub).
  cbn [fst snd] in *.
  destruct frontier as [|s0 fr0] eqn:Hfr.
  { cbn. intros s Hs. discriminate. }
  rewrite <- Hfr in *. assert (Hne : frontier <> []) by (rewrite Hfr; discriminate).
  destruct (heappop_min heapq.heappush heapq.heappop heap_ordered
              heapq_is_priority_queue frontier Hheap Hne)
    as (x & r & Hpop & Hr & Hperm & _).
  assert (Hbody : A_star_body hash heapq.heappush heapq.heappop (frontier, visited)
    = if decide (id x ∈ visited) then Ok (Continue (r, visited))
      else if goal_test x then Ok (Return (Some x))
      else (successors <- generate_successors hash x ;;
            Ok (Continue (fold_left heapq.heappush successors r,
                          visited ∪ {[id x]})))).
  { unfold A_star_body. rewrite Hfr. rewrite <- Hfr.
    rewrite Hpop. cbn [bind fst snd]. reflexivity. }
  rewrite Hbody in *. clear Hbody.
  assert (Hxin : x ∈ frontier) by (rewrite Hperm; apply list_elem_of_here).
  assert (Hrin : forall s, s ∈ r -> s ∈ frontier).
  { intros s Hs. rewrite Hperm. apply list_elem_of_further, Hs. }
  assert (Hx : lineage hash root x) by (apply Hlin, Hxin).
  destruct (decide (id x ∈ visited)) as [Hvis | Hnew].
  - destruct Hstep as [(r0 & Hb & _) | (c' & Hb & Hinv' & _)]; [discriminate|].
    inversion Hb; subst c'. split; [exact Hinv'|].
    apply (anc_inv_weaken frontier r visited visited); [exact Hrin | reflexivity|].
    exact Hanc.
  - destruct (goal_test x) eqn:Hg.
    + intros s Hs. inversion Hs; subst s.
      exact (anc_inv_return x frontier visited Hanc Hxin Hnew).
    + rewrite generate_successors_ok in *
        by (exact (lineage_inv hash b0 fv d0 None Hb0 x Hx)).
      cbn [bind] in *.
      destruct Hstep as [(r0 & Hb & _) | (c' & Hb & Hinv' & _)]; [discriminate|].
      inversion Hb; subst c'. split; [exact Hinv'|].
      intros s Hs. cbn [fst snd] in *.
      apply (fold_push_elem heapq.heappush heapq.heappop heap_ordered
               heapq_is_priority_queue) in Hs as [Hs | Hs].
      * exact (anc_inv_child hash x s frontier visited Hanc Hxin Hnew Hs).
      * destruct (Hanc s (Hrin s Hs)) as [Hnd Hin]. split; [exact Hnd|].
        intros a Ha. apply elem_of_union. left. apply Hin, Ha.
Qed.

Lemma lineage_path (s : State) :
  lineage hash root s -> forall a, a ∈ path_to s -> lineage hash root a.
Proof.
  induction 1 as [|p s l Hp IH Hgen Hs]; intros a Ha.
  - cbn in Ha. apply list_elem_of_singleton in Ha. subst a. apply lineage_root.
  - pose proof (lineage_inv hash b0 fv d0 None Hb0 p Hp) as Hbp.
    rewrite (generate_successors_ok hash p Hbp) in Hgen. inversion Hgen; subst l.
    pose proof (lineage_successors hash b0 fv d0 None Hb0 p s Hp Hs) as Hls.
    apply in_successors in Hs as (piece & d & _ & _ & ->).
    change (path_to (successor hash p piece d))
      with (successor hash p piece d :: path_to p) in Ha.
    apply elem_of_cons in Ha as [-> | Ha]; [exact Hls | apply IH, Ha].
Qed.

Lemma path_collect (s : State) :
  lineage hash root s -> path_to s = collect_states s ++ [root].
Proof.
  induction 1 as [|p s l Hp IH Hgen Hs]; [reflexivity|].
  pose proof (lineage_inv hash b0 fv d0 None Hb0 p Hp) as Hbp.
  rewrite (generate_successors_ok hash p Hbp) in Hgen. inversion Hgen; subst l.
  apply in_successors in Hs as (piece & d & _ & _ & ->).
  change (path_to (successor hash p piece d))
    with (successor hash p piece d :: path_to p).
  change (collect_states (successor hash p piece d))
    with (successor hash p piece d :: collect_states p).
  rewrite IH. reflexivity.
Qed.

Lemma distinct_ids_grids (s : State) :
  lineage hash root s -> NoDup (map id (path_to s)) ->
  NoDup (map (fun st => grid (board st)) (path_to s)).
Proof.
  intros Hlin Hnd.
  apply (NoDup_fmap_1 (fun g => hash (str_grid g))).
  rewrite <- list_fmap_compose.
  replace ((fun g => hash (str_grid g)) ∘ (fun st => grid (board st)) <$> path_to s)
    with (map id (path_to s)); [exact Hnd|].
  apply map_ext_in. intros a Ha. apply list_elem_of_In in Ha.
  exact (lineage_id hash b0 fv d0 None Hb0 a (lineage_path s Hlin a Ha)).
Qed.

End DistinctPaths.

(** X17. A solution never shows the same configuration twice.  For an
    initial state without parent built from a board that satisfies the
    placement invariants, the state returned by [DFS] or by [A_star],
    followed by its ancestors, is the list of states [write_to_file]
    collects followed by the initial state, and the identities along it,
    and so the grids written to the file, are pairwise different. *)
Theorem solution_never_repeats (hash : string -> Z) (b0 : Board) (fv d0 : Z)
    (fuel : nat) (s : State) :
  board_inv b0 ->
  DFS hash fuel (State_init hash b0 fv d0 None) = Some (Ok (Some s)) \/
  A_star hash heapq.heappush heapq.heappop fuel (State_init hash b0 fv d0 None)
  = Some (Ok (Some s)) ->
  path_to s = collect_states s ++ [State_init hash b0 fv d0 None] /\
  NoDup (map id (path_to s)) /\
  NoDup (map (fun st => grid (board st)) (path_to s)).
Proof.
  intros Hb0 Hret.
  set (root := State_init hash b0 fv d0 None) in *.
  assert (Hlin : lineage hash root s).
  { destruct Hret as [Hd | Ha].
    - exact (DFS_returns_lineage hash fuel root s Hd).
    - exact (A_star_returns_lineage hash heapq.heappush heapq.heappop heap_ordered
               heapq_is_priority_queue fuel root s Ha). }
  assert (Hnd : NoDup (map id (path_to s))).
  { destruct Hret as [Hd | Ha].
    - apply (while_loop_partial (DFS_body hash)
               (fun c => DFS_inv hash b0 fv d0 None (all_ids hash) c /\ anc_inv c)
               (fun r => forall s, r = Some s -> NoDup (map id (path_to s)))
               (DFS_anc_step hash b0 fv d0 Hb0 (all_ids hash) (id_of_all_ids hash))
               fuel ([root], ∅) (Some s)); [| exact Hd | reflexivity].
      split; [split; cbn [fst snd]|].
      + intros a Ha. apply list_elem_of_singleton in Ha. subst a. apply lineage_root.
      + intros y Hy. apply elem_of_empty in Hy. contradiction.
      + apply (anc_inv_init hash b0 fv d0). intros a Ha.
        apply list_elem_of_singleton in Ha. exact Ha.
    - assert (Hpush : forall a, a ∈ heapq.heappush [] root -> a = root).
      { intros a Hin.
        rewrite (hq_push_perm _ _ _ heapq_is_priority_queue) in Hin.
        apply list_elem_of_singleton in Hin. exact Hin. }
      apply (while_loop_partial (A_star_body hash heapq.heappush heapq.heappop)
               (fun c => A_term_inv hash heap_ordered b0 fv d0 None (all_ids hash) c
                         /\ anc_inv c)
               (fun r => forall s, r = Some s -> NoDup (map id (path_to s)))
               (A_star_anc_step hash b0 fv d0 Hb0 (all_ids hash) (id_of_all_ids hash))
               fuel (heapq.heappush [] root, ∅) (Some s)); [| exact Ha | reflexivity].
      split; [split; [| split]; cbn [fst snd]|].
      + apply (hq_push_heap _ _ _ heapq_is_priority_queue),
          (hq_nil _ _ _ heapq_is_priority_queue).
      + intros a Hin. rewrite (Hpush a Hin). apply lineage_root.
      + intros y Hy. apply elem_of_empty in Hy. contradiction.
      + apply (anc_inv_init hash b0 fv d0). exact Hpush. }
  split; [exact (path_collect hash b0 fv d0 Hb0 s Hlin)|].
  split; [exact Hnd|].
  exact (distinct_ids_grids hash b0 fv d0 Hb0 s Hlin Hnd).
Qed.

Lemma solution_never_repeats_witness :
  board_inv solo_board /\
  exists s,
    A_star string_code heapq.heappush heapq.heappop 30
           (State_init string_code solo_board 0 0 None) = Some (Ok (Some s)) /\
    NoDup (map (fun st => grid (board st)) (path_to s)).
Proof.
  split; [exact solo_board_inv|].
  destruct solo_run as (s & Hrun).
  exists s. split; [exact Hrun|].
  destruct (solution_never_repeats string_code solo_board 0 0 30 s solo_board_inv
              (or_intror Hrun)) as (_ & _ & Hnd).
  exact Hnd.
Defined.

(** X18. The program end to end with [--algo dfs].  Let the input file
    hold the text of a board that satisfies the placement invariants and
    from which a goal board can be reached, and let no two reachable
    boards share an identity.  Then the program writes an output that
    starts with the grid of the input and consists of [k + 1] grids of 26
    characters each, for a number [k] of moves in which a goal board is
    reached from the input board. *)
Theorem main_dfs_solves (hash : string -> Z) (b : Board) :
  board_inv b -> collision_free hash b ->
  (exists n t, slides hash n b t /\ goal_board t) ->
  exists fuel out k rest,
    main hash fuel dfs (display b) = Some (Ok out) /\
    out = String.append (grid_text (grid b)) rest /\
    String.length out = (26 * (k + 1))%nat /\
    exists t, slides hash k b t /\ goal_board t.
Proof.
  intros Hb Hcf (n0 & t0 & Hs0 & Hg0).
  destruct (read_back_board b EmptyString Hb (or_introl eq_refl))
    as (b' & Hread & Hgrid & _ & _ & Hb').
  change (fold_right _ EmptyString (grid b)) with (display b) in Hread.
  pose proof (collision_free_same_grid hash b b' Hb Hb' (eq_sym Hgrid) Hcf) as Hcf'.
  destruct (goal_same_grid hash n0 b b' t0 Hb Hb' (eq_sym Hgrid) Hs0 Hg0)
    as (t0' & Hs0' & Hg0').
  destruct (DFS_decides hash b' 0 0 None Hb' Hcf' (all_ids hash) (id_of_all_ids hash))
    as (fuel & r & Hrun & Hpost & Hnone).
  destruct r as [s|]; [| exfalso; exact (Hnone eq_refl n0 t0' Hs0' Hg0')].
  destruct (Hpost s eq_refl) as [Hlin Hgs].
  destruct (collect_lineage hash b' 0 s Hb' Hlin) as [Hlen Hinv].
  destruct (lineage_reach hash b' 0 0 None Hb' s Hlin) as (k & Hk & Hdk).
  exists fuel. eexists. exists k. eexists.
  split; [unfold main; rewrite Hread, Hrun; reflexivity|].
  cbn [board State_init]. rewrite Hgrid.
  split; [reflexivity|]. split.
  - rewrite string_length_append, grid_text_length
      by (rewrite (board_inv_eq _ Hb); apply grid_of_shape).
    rewrite path_text_length by (apply Forall_rev, Hinv).
    rewrite length_rev. lia.
  - apply goal_test_board in Hgs.
    destruct (goal_same_grid hash k b' b (board s) Hb' Hb Hgrid Hk Hgs)
      as (t & Ht & Hgt).
    exists t. auto.
Qed.

Lemma main_dfs_solves_witness :
  board_inv solo_board /\ collision_free string_code solo_board /\
  (exists n t, slides string_code n solo_board t /\ goal_board t) /\
  exists fuel out k,
    main string_code fuel dfs (display solo_board) = Some (Ok out) /\
    String.length out = (26 * (k + 1))%nat.
Proof.
  split; [exact solo_board_inv|].
  split; [exact (collision_free_inj string_code solo_board string_code_inj
                   solo_board_inv)|].
  split; [exact solo_reach|].
  destruct (main_dfs_solves string_code solo_board solo_board_inv
              (collision_free_inj string_code solo_board string_code_inj
                 solo_board_inv) solo_reach)
    as (fuel & out & k & rest & Hrun & _ & Hlen & _).
  exists fuel, out, k. auto.
Defined.


(** ** [Piece.__repr__] *)

Example Piece_repr_examples :
  Piece_repr (mkPiece true false 1 0 None) = "True False 1 0 None"%string /\
  Piece_repr (mkPiece false false 0 12 (Some "v"%string)) = "False False 0 12 v"%string /\
  Piece_repr (mkPiece false true (-1) 3 None) = "False True -1 3 None"%string.
Proof. repeat split; vm_compute; reflexivity. Qed.

Lemma spaceless_split (s1 s2 r1 r2 : string) :
  spaceless s1 -> spaceless s2 ->
  String.append s1 (String " " r1) = String.append s2 (String " " r2) ->
  s1 = s2 /\ r1 = r2.
Proof.
  revert s2. induction s1 as [|c1 s1 IH]; intros [|c2 s2] H1 H2 E.
  - inversion E. auto.
  - exfalso. destruct H2 as [Hc _]. inversion E. congruence.
  - exfalso. destruct H1 as [Hc _]. inversion E. congruence.
  - destruct H1 as [_ H1], H2 as [_ H2].
    change (String c1 (String.append s1 (String " " r1))
            = String c2 (String.append s2 (String " " r2))) in E.
    inversion E; subst. destruct (IH s2 H1 H2 H3) as [-> ->]. auto.
Qed.

Lemma uint_spaceless (d : Decimal.uint) : spaceless (NilEmpty.string_of_uint d).
Proof. induction d; cbn; auto; split; try assumption; discriminate. Qed.

Lemma str_int_spaceless (z : Z) : spaceless (str_int z).
Proof.
  unfold str_int, NilZero.string_of_int, NilZero.string_of_uint.
  destruct (Z.to_int z) as [d | d].
  - destruct d; try apply uint_spaceless. cbn. split; [discriminate | exact I].
  - split; [discriminate|].
    destruct d; try apply uint_spaceless. cbn. split; [discriminate | exact I].
Qed.

Lemma to_int_nonnil (z : Z) :
  Z.to_int z <> Decimal.Pos Decimal.Nil /\ Z.to_int z <> Decimal.Neg Decimal.Nil.
Proof.
  destruct z as [|p|p]; cbn; split; try discriminate;
    intros H; inversion H as [Hp];
    exact (DecimalPos.Unsigned.to_uint_nonnil p Hp).
Qed.

Lemma str_int_inj (z1 z2 : Z) : str_int z1 = str_int z2 -> z1 = z2.
Proof.
  unfold str_int. intros E. apply DecimalZ.to_int_inj.
  destruct (to_int_nonnil z1) as [Hp1 Hn1], (to_int_nonnil z2) as [Hp2 Hn2].
  pose proof (NilZero.isi (Z.to_int z1) Hp1 Hn1) as H1.
  pose proof (NilZero.isi (Z.to_int z2) Hp2 Hn2) as H2.
  rewrite E in H1. rewrite H1 in H2. inversion H2. reflexivity.
Qed.

Lemma str_bool_split (b1 b2 : bool) (r1 r2 : string) :
  String.append (str_bool b1) (String " " r1)
  = String.append (str_bool b2) (String " " r2) ->
  b1 = b2 /\ r1 = r2.
Proof.
  destruct b1, b2; cbn; intros E; inversion E; auto.
Qed.

(** X19. [Piece.__repr__] tells pieces apart: two pieces whose
    orientation is [None], ['h'] or ['v'] and which have the same [repr]
    are equal in every field. *)
Theorem Piece_repr_inj (p q : Piece) :
  orientation p = None \/ orientation p = Some "h"%string
    \/ orientation p = Some "v"%string ->
  orientation q = None \/ orientation q = Some "h"%string
    \/ orientation q = Some "v"%string ->
  Piece_repr p = Piece_repr q -> p = q.
Proof.
  intros Hp Hq E. unfold Piece_repr in E.
  destruct p as [g1 s1 x1 y1 o1], q as [g2 s2 x2 y2 o2]. cbn [is_goal is_single
    coord_x coord_y orientation] in *.
  apply str_bool_split in E as [-> E].
  apply str_bool_split in E as [-> E].
  apply spaceless_split in E as [Ex E]; [| apply str_int_spaceless..].
  apply spaceless_split in E as [Ey E]; [| apply str_int_spaceless..].
  apply str_int_inj in Ex, Ey. subst x2 y2.
  f_equal.
  destruct Hp as [-> | [-> | ->]], Hq as [-> | [-> | ->]]; cbn in E;
    try reflexivity; discriminate E.
Qed.

Lemma Piece_repr_inj_witness :
  Piece_repr (mkPiece false true 2 3 None)
  <> Piece_repr (mkPiece false true 23 0 None).
Proof.
  intros E.
  apply (Piece_repr_inj (mkPiece false true 2 3 None) (mkPiece false true 23 0 None))
    in E; [discriminate E | left; reflexivity | left; reflexivity].
Defined.

(** ** Depth-first search: the run step by step *)

Lemma while_trace_step {C R : Type} (body : C -> result (step C R))
    (fuel : nat) (c : C) (i : nat) (c1 c2 : C) :
  while_trace body fuel c !! i = Some c1 ->
  while_trace body fuel c !! S i = Some c2 ->
  body c1 = Ok (Continue c2).
Proof.
  revert c i. induction fuel as [|fuel IH]; intros c i H1 H2; [discriminate|].
  cbn [while_trace] in H1, H2.
  destruct (body c) as [[c' | r] | e] eqn:Hb; try (cbn in H2; discriminate H2).
  destruct i as [|i].
  - cbn in H1. inversion H1; subst c1.
    destruct fuel; [discriminate|]. cbn in H2. inversion H2; subst c2. exact Hb.
  - cbn in H1, H2. exact (IH c' i H1 H2).
Qed.

Lemma while_trace_inv {C R : Type} (body : C -> result (step C R))
    (Inv : C -> Prop) :
  (forall c, Inv c -> forall c', body c = Ok (Continue c') -> Inv c') ->
  forall fuel c i ci, Inv c -> while_trace body fuel c !! i = Some ci -> Inv ci.
Proof.
  intros Hstep fuel. induction fuel as [|fuel IH]; intros c i ci Hc Hi;
    [discriminate|].
  cbn [while_trace] in Hi. destruct i as [|i].
  - cbn in Hi. inversion Hi; subst ci. exact Hc.
  - cbn in Hi. destruct (body c) as [[c' | r] | e] eqn:Hb; try discriminate Hi.
    exact (IH c' i ci (Hstep c Hc c' Hb) Hi).
Qed.

Lemma while_trace_head {C R : Type} (body : C -> result (step C R))
    (fuel : nat) (c : C) (res : result R) :
  while_loop body fuel c = Some res -> head (while_trace body fuel c) = Some c.
Proof. destruct fuel; [discriminate | reflexivity]. Qed.

Lemma push_unvisited_filter (visited : gset Z) (successors frontier : list State) :
  push_unvisited visited frontier successors
  = frontier ++ filter (fun s => id s ∉ visited) successors.
Proof.
  unfold push_unvisited. revert frontier.
  induction successors as [|a l IH]; intros frontier.
  - cbn. rewrite app_nil_r. reflexivity.
  - cbn [fold_left]. rewrite IH.
    destruct (decide (id a ∈ visited)) as [Hin | Hout].
    + rewrite filter_cons_False by (intros H; exact (H Hin)). reflexivity.
    + rewrite filter_cons_True by exact Hout. rewrite <- app_assoc. reflexivity.
Qed.

(** A pass of the loop of [DFS] that goes round again is a step of the
    specification. *)
Lemma DFS_body_continue (hash : string -> Z) (c c' : list State * gset Z) :
  DFS_body hash c = Ok (Continue c') -> DFS_step hash c c'.
Proof.
  intros Hb.
  destruct (DFS_cases hash c) as [(_ & _ & Hb') | (x & r & Hfr & Hcase)];
    [rewrite Hb' in Hb; discriminate|].
  destruct c as [frontier visited]. cbn [fst snd] in *. subst frontier.
  destruct Hcase as [(Hvis & _ & Hb') | [(_ & _ & _ & Hb') | (Hnew & Hg & _ & Hb')]];
    rewrite Hb' in Hb.
  - inversion Hb; subst c'. apply step_skip, Hvis.
  - discriminate.
  - destruct (generate_successors hash x) as [succs | e] eqn:Hgen;
      [| discriminate].
    cbn [bind] in Hb. inversion Hb; subst c'.
    rewrite push_unvisited_filter. apply step_expand; assumption.
Qed.

Lemma DFS_body_result (hash : string -> Z) (c : list State * gset Z)
    (r : option State) :
  DFS_body hash c = Ok (Return r) -> DFS_result c r.
Proof.
  intros Hb. apply DFS_body_return in Hb. destruct c as [frontier visited].
  cbn [fst snd] in Hb. destruct r as [s|].
  - destruct Hb as (rest & -> & Hnew & Hg). apply result_goal; assumption.
  - subst frontier. apply result_none.
Qed.

Lemma DFS_step_visited (hash : string -> Z) (c c' : list State * gset Z) :
  DFS_step hash c c' -> snd c ⊆ snd c'.
Proof.
  intros H. destruct H; cbn [snd]; [reflexivity|].
  intros y Hy. apply elem_of_union. auto.
Qed.

Lemma DFS_step_marks (hash : string -> Z) (rest : list State) (x : State)
    (visited : gset Z) (c' : list State * gset Z) :
  DFS_step hash (rest ++ [x], visited) c' -> id x ∉ visited -> id x ∈ snd c'.
Proof.
  intros H Hnew. inversion H as [rest' x' v Hvis Heq | rest' x' v succs Hn Hg Hgen Heq];
    subst.
  - apply app_inj_tail in Heq as [_ ->]. contradiction.
  - apply app_inj_tail in Heq as [_ ->]. cbn [snd].
    apply elem_of_union. right. apply elem_of_singleton. reflexivity.
Qed.

(** Along a chain of steps the visited set only grows. *)
Lemma chain_visited (hash : string -> Z) (l : list (list State * gset Z)) :
  (forall i c c', l !! i = Some c -> l !! S i = Some c' -> DFS_step hash c c') ->
  forall k i ci cj, l !! i = Some ci -> l !! (i + k)%nat = Some cj ->
                    snd ci ⊆ snd cj.
Proof.
  intros Hchain k. induction k as [|k IH]; intros i ci cj Hi Hj.
  - rewrite Nat.add_0_r in Hj. rewrite Hi in Hj. inversion Hj. reflexivity.
  - assert (Hlt : (S i < length l)%nat).
    { apply lookup_lt_Some in Hj. lia. }
    destruct (lookup_lt_is_Some_2 l (S i) Hlt) as (c1 & Hc1).
    pose proof (DFS_step_visited hash ci c1 (Hchain i ci c1 Hi Hc1)) as H1.
    replace (i + S k)%nat with (S i + k)%nat in Hj by lia.
    pose proof (IH (S i) c1 cj Hc1 Hj) as H2.
    intros y Hy. apply H2, H1, Hy.
Qed.

Lemma chain_distinct (hash : string -> Z) (l : list (list State * gset Z))
    (i j : nat) (rest_i rest_j : list State) (x_i x_j : State) (v_i v_j : gset Z) :
  (forall i c c', l !! i = Some c -> l !! S i = Some c' -> DFS_step hash c c') ->
  (i < j)%nat ->
  l !! i = Some (rest_i ++ [x_i], v_i) -> id x_i ∉ v_i ->
  l !! j = Some (rest_j ++ [x_j], v_j) -> id x_j ∉ v_j ->
  id x_i <> id x_j.
Proof.
  intros Hchain Hlt Hi Hni Hj Hnj E.
  assert (Hlen : (S i < length l)%nat).
  { apply lookup_lt_Some in Hj. lia. }
  destruct (lookup_lt_is_Some_2 l (S i) Hlen) as (c1 & Hc1).
  pose proof (DFS_step_marks hash rest_i x_i v_i c1 (Hchain i _ c1 Hi Hc1) Hni) as Hin.
  replace j with (S i + (j - S i))%nat in Hj by lia.
  pose proof (chain_visited hash l Hchain (j - S i) (S i) c1 _ Hc1 Hj) as Hsub.
  apply Hnj. rewrite <- E. apply Hsub, Hin.
Qed.

Lemma DFS_run_inv_step (hash : string -> Z) (b0 : Board) (fv d0 : Z)
    (par : option State) (c c' : list State * gset Z) :
  board_inv b0 ->
  DFS_run_inv hash b0 fv d0 par c ->
  DFS_body hash c = Ok (Continue c') ->
  DFS_run_inv hash b0 fv d0 par c'.
Proof.
  intros Hb0 [Hinv Hvis] Hb. split.
  - destruct (DFS_body_step hash b0 fv d0 par Hb0 (all_ids hash)
                (id_of_all_ids hash) c Hinv)
      as [(r & Hr & _) | (c1 & Hc1 & Hinv1 & _)]; [congruence|].
    rewrite Hb in Hc1. inversion Hc1; subst c1. exact Hinv1.
  - pose proof (DFS_body_continue hash c c' Hb) as Hstep.
    destruct Hinv as [Hlin _].
    destruct Hstep as [rest x visited Hin | rest x visited succs Hn Hg Hgen];
      cbn [fst snd] in *; [exact Hvis|].
    intros z Hz. apply elem_of_union in Hz as [Hz | Hz]; [exact (Hvis z Hz)|].
    apply elem_of_singleton in Hz. subst z. exists x. split; [| reflexivity].
    apply Hlin. rewrite elem_of_app, list_elem_of_singleton. auto.
Qed.

Lemma DFS_run_inv_init (hash : string -> Z) (b0 : Board) (fv d0 : Z)
    (par : option State) :
  DFS_run_inv hash b0 fv d0 par ([State_init hash b0 fv d0 par], ∅).
Proof.
  split; [split|]; cbn [fst snd].
  - intros s Hs. apply list_elem_of_singleton in Hs. subst s. apply lineage_root.
  - intros y Hy. apply elem_of_empty in Hy. contradiction.
  - intros z Hz. apply elem_of_empty in Hz. contradiction.
Qed.

(** C7. [DFS] terminates on every initial state whose board satisfies the
    placement invariants: with enough fuel the loop returns a result
    [r].  The loop states of that run, from the initial state alone on
    the stack and nothing visited, follow the specification step by
    step: each pass pops the top of the stack, drops it when its
    identity is visited, and otherwise marks it, generates its
    successors and pushes the unvisited ones.  The run ends either on an
    empty stack, with [None], or on an unvisited top of the stack that
    passes [goal_test], with that state: so a goal state that is reached
    is returned, and [None] is returned exactly when the stack empties.
    No identity is popped unvisited twice, so each identity is expanded
    at most once; every state on the stack has a board reachable from the
    initial board by slides, and every visited identity is that of such
    a board. *)
Theorem DFS_terminates (hash : string -> Z) (b0 : Board) (fv d0 : Z)
    (par : option State) :
  board_inv b0 ->
  exists fuel r,
    DFS hash fuel (State_init hash b0 fv d0 par) = Some (Ok r) /\
    let trace :=
      while_trace (DFS_body hash) fuel ([State_init hash b0 fv d0 par], ∅) in
    head trace = Some ([State_init hash b0 fv d0 par], ∅) /\
    (forall i c c', trace !! i = Some c -> trace !! S i = Some c' ->
                    DFS_step hash c c') /\
    (exists cl, last trace = Some cl /\ DFS_result cl r) /\
    (forall i rest x visited,
       trace !! i = Some (rest ++ [x], visited) ->
       id x ∉ visited -> goal_test x = true -> r = Some x) /\
    (r = None <-> exists visited, last trace = Some ([], visited)) /\
    (forall i j rest_i x_i v_i rest_j x_j v_j, (i < j)%nat ->
       trace !! i = Some (rest_i ++ [x_i], v_i) -> id x_i ∉ v_i ->
       trace !! j = Some (rest_j ++ [x_j], v_j) -> id x_j ∉ v_j ->
       id x_i <> id x_j) /\
    (forall i frontier visited, trace !! i = Some (frontier, visited) ->
       (forall s, s ∈ frontier ->
          exists n, slides hash n b0 (board s) /\ depth s = d0 + Z.of_nat n) /\
       (forall z, z ∈ visited ->
          exists n b, slides hash n b0 b /\ id_of hash b = z)).
Proof.
  intros Hb0.
  destruct (DFS_total hash b0 fv d0 par Hb0) as (fuel & r & Hrun & _).
  exists fuel, r. split; [exact Hrun|]. cbv zeta.
  set (root := State_init hash b0 fv d0 par) in *.
  set (trace := while_trace (DFS_body hash) fuel ([root], ∅)).
  assert (Hchain : forall i c c', trace !! i = Some c -> trace !! S i = Some c' ->
                                  DFS_step hash c c').
  { intros i c c' Hi HSi. apply DFS_body_continue.
    exact (while_trace_step _ _ _ _ _ _ Hi HSi). }
  destruct (while_trace_last _ _ _ _ Hrun) as (cl & Hlast & Hbody).
  fold trace in Hlast.
  pose proof (DFS_body_result hash cl r Hbody) as Hres.
  split; [exact (while_trace_head _ _ _ _ Hrun)|].
  split; [exact Hchain|].
  split; [exists cl; auto|].
  split; [| split; [| split]].
  - intros i rest x visited Hi Hnew Hgoal.
    destruct (decide (S i < length trace)%nat) as [Hlt | Hge].
    + destruct (lookup_lt_is_Some_2 trace (S i) Hlt) as (c1 & Hc1).
      pose proof (Hchain i _ c1 Hi Hc1) as Hstep.
      inversion Hstep as [rest' x' v Hvis Heq | rest' x' v succs Hn Hg Hgen Heq];
        subst; apply app_inj_tail in Heq as [_ ->]; [contradiction | congruence].
    + assert (Hcl : cl = (rest ++ [x], visited)).
      { rewrite last_lookup in Hlast.
        pose proof (lookup_lt_Some _ _ _ Hi) as Hlen.
        replace (Init.Nat.pred (length trace)) with i in Hlast by lia.
        congruence. }
      subst cl.
      inversion Hres as [v Heq | rest' x' v Hn Hg Heq]; subst.
      * destruct rest; discriminate.
      * apply app_inj_tail in Heq as [_ ->]. reflexivity.
  - split.
    + intros ->. inversion Hres as [v Heq | ]; subst. exists v. exact Hlast.
    + intros (v & Hv). rewrite Hlast in Hv. inversion Hv; subst cl.
      inversion Hres as [v' Heq | rest' x' v' Hn Hg Heq]; subst; [reflexivity|].
      destruct rest'; discriminate.
  - intros i j rest_i x_i v_i rest_j x_j v_j Hlt Hi Hni Hj Hnj.
    exact (chain_distinct hash trace i j rest_i rest_j x_i x_j v_i v_j
             Hchain Hlt Hi Hni Hj Hnj).
  - intros i frontier visited Hi.
    assert (Hinv : DFS_run_inv hash b0 fv d0 par (frontier, visited)).
    { apply (while_trace_inv (DFS_body hash) (DFS_run_inv hash b0 fv d0 par)
               (fun c Hc c' Hb => DFS_run_inv_step hash b0 fv d0 par c c' Hb0 Hc Hb)
               fuel ([root], ∅) i); [apply DFS_run_inv_init | exact Hi]. }
    destruct Hinv as [[Hlin _] Hvis]. cbn [fst snd] in *. split.
    + intros s Hs. apply (lineage_reach hash b0 fv d0 par Hb0 s), Hlin, Hs.
    + intros z Hz. destruct (Hvis z Hz) as (s & Hs & Hid).
      destruct (lineage_reach hash b0 fv d0 par Hb0 s Hs) as (n & Hn & _).
      exists n, (board s). split; [exact Hn|].
      rewrite <- Hid. symmetry. apply (lineage_id hash b0 fv d0 par Hb0 s Hs).
Qed.

Lemma DFS_terminates_witness :
  board_inv solo_board /\
  exists fuel r,
    DFS string_code fuel (State_init string_code solo_board 0 0 None)
    = Some (Ok r) /\
    let trace :=
      while_trace (DFS_body string_code) fuel
                  ([State_init string_code solo_board 0 0 None], ∅) in
    head trace = Some ([State_init string_code solo_board 0 0 None], ∅) /\
    (forall i c c', trace !! i = Some c -> trace !! S i = Some c' ->
                    DFS_step string_code c c') /\
    (exists cl, last trace = Some cl /\ DFS_result cl r) /\
    (forall i rest x visited,
       trace !! i = Some (rest ++ [x], visited) ->
       id x ∉ visited -> goal_test x = true -> r = Some x) /\
    (r = None <-> exists visited, last trace = Some ([], visited)) /\
    (forall i j rest_i x_i v_i rest_j x_j v_j, (i < j)%nat ->
       trace !! i = Some (rest_i ++ [x_i], v_i) -> id x_i ∉ v_i ->
       trace !! j = Some (rest_j ++ [x_j], v_j) -> id x_j ∉ v_j ->
       id x_i <> id x_j) /\
    (forall i frontier visited, trace !! i = Some (frontier, visited) ->
       (forall s, s ∈ frontier ->
          exists n, slides string_code n solo_board (board s) /\
                    depth s = 0 + Z.of_nat n) /\
       (forall z, z ∈ visited ->
          exists n b, slides string_code n solo_board b /\
                      id_of string_code b = z)).
Proof.
  split; [exact solo_board_inv|].
  apply (DFS_terminates string_code solo_board 0 0 None solo_board_inv).
Defined.

